(** * Phase unfolding of pruned variation graphs

    A shallow embedding of [src/phase_unfolder.cpp] (class [PhaseUnfolder]
    of the variation-graph toolkit) together with the properties of its
    trie duplicator, assembler and path verifier.

    Conventions.  [gbwt::node_type] and [gcsa::size_type] are unsigned
    64-bit integers; they are represented by [Z] and every operation that
    can leave the range is wrapped explicitly with [wrap64].  Hash maps
    and hash sets are [gmap] and [gset]; vectors are lists. *)

From stdpp Require Import gmap list sorting strings.

Local Open Scope Z_scope.

(** ** Machine integers *)

Definition wrap64 (z : Z) : Z := z mod 2 ^ 64.

(** ** Oriented node handles ([gbwt::Node]) *)

(** Modelled from the spec: the handle packing of the haplotype index
    library, "encode (id, reverse) as 2*id | reverse", the reverse
    complement being the flip of the lowest bit. *)
Module Node.

Definition id (node : Z) : Z := Z.shiftr node 1.

Definition is_reverse (node : Z) : bool := Z.testbit node 0.

Definition encode (node_id : Z) (reversed : bool) : Z :=
  wrap64 (Z.lor (Z.shiftl node_id 1) (Z.b2z reversed)).

Definition reverse (node : Z) : Z := Z.lxor node 1.

End Node.

(** The value [gbwt::ENDMARKER]. *)
Definition ENDMARKER : Z := 0.

(** [PhaseUnfolder::path_type] is [std::vector<gbwt::node_type>]. *)
Abbreviation path_type := (list Z).

(** ** The duplicate-to-original table ([gcsa::NodeMapping]) *)

(** Modelled from the spec: the node-mapping store, "an append-only table
    with fields first_node, next_node, and a sequence of original ids". *)
Record NodeMapping := {
  first_node : Z;
  next_node  : Z;
  mapping    : list Z
}.

Module NodeMapping_ops.

(** Modelled from the spec: the constructor used by [PhaseUnfolder],
    an empty table whose duplicates start at [next]. *)
Definition make (next : Z) : NodeMapping :=
  {| first_node := next; next_node := next; mapping := [] |}.

(** Modelled from the spec: "M.insert(original_id) returns next_node,
    appends, increments". *)
Definition insert (M : NodeMapping) (node_id : Z) : Z * NodeMapping :=
  (next_node M,
   {| first_node := first_node M;
      next_node  := wrap64 (next_node M + 1);
      mapping    := mapping M ++ [node_id] |}).

(** Modelled from the spec: "M(dup_id) returns the original id; M(x) for
    x < first_node returns x".  A read past the end of the table is
    undefined in the source; it is [None] here. *)
Definition get (M : NodeMapping) (id : Z) : option Z :=
  if id <? first_node M then Some id
  else mapping M !! Z.to_nat (id - first_node M).

(** The table has one entry per allocated duplicate. *)
Definition wf (M : NodeMapping) : Prop :=
  0 ≤ first_node M ∧ first_node M ≤ next_node M ∧
  Z.of_nat (length (mapping M)) = next_node M - first_node M.

End NodeMapping_ops.

(** ** The mutable fields of [PhaseUnfolder] *)

Record PhaseUnfolder := {
  pu_mapping     : NodeMapping;
  border         : gset Z;
  prefixes       : gmap (Z * Z) Z;
  suffixes       : gmap (Z * Z) Z;
  crossing_edges : gset (Z * Z)
}.

(** The object right after construction with [next] as first duplicate.
    The constructor hands the signed [vg::id_t] to the unsigned fields of
    the table, so a negative [next] wraps around. *)
Definition PhaseUnfolder_new (next : Z) : PhaseUnfolder :=
  {| pu_mapping := NodeMapping_ops.make (wrap64 next); border := ∅;
     prefixes := ∅; suffixes := ∅; crossing_edges := ∅ |}.

(** [PhaseUnfolder::get_mapping]. *)
Definition get_mapping (st : PhaseUnfolder) (node : Z) : option Z :=
  NodeMapping_ops.get (pu_mapping st) node.

(** ** [PhaseUnfolder::insert_path] *)

(** [operator<] of [std::vector]: lexicographic comparison. *)
Fixpoint path_lt (a b : path_type) : bool :=
  match a, b with
  | _, [] => false
  | [], _ :: _ => true
  | x :: a', y :: b' =>
      if x <? y then true else if y <? x then false else path_lt a' b'
  end.

(** [std::min(a, b)]: the second argument only when it is strictly
    smaller. *)
Definition std_min (a b : path_type) : path_type :=
  if path_lt b a then b else a.

(** The loop filling [reverse_complement]: position [size - 1 - i] receives
    the flipped handle of position [i]. *)
Definition reverse_complement (path : path_type) : path_type :=
  reverse (Node.reverse <$> path).

(** One iteration of either trie loop.  [emplace(key, 0)] returns the
    stored value when the key is present and a fresh 0 otherwise; a value
    of 0 triggers the allocation of a duplicate of [child]. *)
Definition trie_step (key : Z * Z) (child : Z)
    (trie : gmap (Z * Z) Z) (M : NodeMapping)
  : Z * gmap (Z * Z) Z * NodeMapping :=
  let stored := default 0 (trie !! key) in
  if stored =? 0 then
    let '(new_id, M') := NodeMapping_ops.insert M (Node.id child) in
    let dup := Node.encode new_id (Node.is_reverse child) in
    (dup, <[key := dup]> trie, M')
  else (stored, trie, M).

(** The prefix loop over the handles [to_insert[1 .. mid - 1]]. *)
Fixpoint insert_prefixes (children : path_type) (from : Z)
    (trie : gmap (Z * Z) Z) (M : NodeMapping)
  : Z * gmap (Z * Z) Z * NodeMapping :=
  match children with
  | [] => (from, trie, M)
  | child :: rest =>
      let '(dup, trie', M') := trie_step (from, child) child trie M in
      insert_prefixes rest dup trie' M'
  end.

(** The suffix loop over the handles [to_insert[size - 2 .. mid]], given
    in the order in which the loop visits them. *)
Fixpoint insert_suffixes (children : path_type) (to : Z)
    (trie : gmap (Z * Z) Z) (M : NodeMapping)
  : Z * gmap (Z * Z) Z * NodeMapping :=
  match children with
  | [] => (to, trie, M)
  | child :: rest =>
      let '(dup, trie', M') := trie_step (child, to) child trie M in
      insert_suffixes rest dup trie' M'
  end.

(** The split index [(to_insert.size() + 1) / 2]. *)
Definition midpoint (to_insert : path_type) : nat :=
  ((length to_insert + 1) / 2)%nat.

(** Handles of the indices [1 <= i < mid], ascending. *)
Definition prefix_children (to_insert : path_type) : path_type :=
  take (midpoint to_insert - 1) (drop 1 to_insert).

(** Handles of the indices [size - 2 >= i >= mid], descending. *)
Definition suffix_children (to_insert : path_type) : path_type :=
  reverse (take (length to_insert - 1 - midpoint to_insert)
                (drop (midpoint to_insert) to_insert)).

Definition insert_path (path : path_type) (st : PhaseUnfolder)
  : PhaseUnfolder :=
  if (length path <? 2)%nat then st
  else
    let to_insert := std_min path (reverse_complement path) in
    let '(from, pre, M1) :=
      insert_prefixes (prefix_children to_insert) (default 0 (head to_insert))
                      (prefixes st) (pu_mapping st) in
    let '(to, suf, M2) :=
      insert_suffixes (suffix_children to_insert) (default 0 (last to_insert))
                      (suffixes st) M1 in
    {| pu_mapping := M2; border := border st;
       prefixes := pre; suffixes := suf;
       crossing_edges := {[ (from, to) ]} ∪ crossing_edges st |}.

(** ** The graph store ([VG]) *)

(** A [NodeSide] is a node id with the flag "right side of the node". *)
Abbreviation NodeSide := (Z * bool)%type.

(** The [Edge] message: two node ids and the two orientation flags. *)
Record Edge := {
  e_from : Z;
  e_from_start : bool;
  e_to : Z;
  e_to_end : bool
}.

(** Modelled from the spec: "edge construction from two handles"
    ([xg::make_edge] called by [PhaseUnfolder::make_edge]). *)
Definition make_edge (from to : Z) : Edge :=
  {| e_from := Node.id from; e_from_start := Node.is_reverse from;
     e_to := Node.id to; e_to_end := Node.is_reverse to |}.

Definition side_leb (a b : NodeSide) : bool :=
  (a.1 <? b.1) || ((a.1 =? b.1) && implb a.2 b.2).

(** Modelled from the spec: "membership in G is bidirectional under
    canonical flipping"; an edge is identified by the unordered pair of
    node sides it joins, stored smaller side first. *)
Definition pair_from_edge (e : Edge) : NodeSide * NodeSide :=
  let s1 := (e_from e, negb (e_from_start e)) in
  let s2 := (e_to e, e_to_end e) in
  if side_leb s1 s2 then (s1, s2) else (s2, s1).

(** The [Edge] object kept for a stored pair of sides. *)
Definition edge_of_pair (p : NodeSide * NodeSide) : Edge :=
  {| e_from := p.1.1; e_from_start := negb p.1.2;
     e_to := p.2.1; e_to_end := p.2.2 |}.

(** Modelled from the spec: the graph store, "mutable variation graph
    supporting node/edge membership queries, node/edge insertion, per-node
    edge enumeration, connected-component decomposition, node addition
    from an external node descriptor, and merge of another graph".  Node
    sequences play no role in the unfolding and are left out. *)
Record VG := {
  vg_nodes : gset Z;
  vg_edges : gset (NodeSide * NodeSide)
}.

Module VG_ops.

Definition empty : VG := {| vg_nodes := ∅; vg_edges := ∅ |}.

Definition has_node (g : VG) (id : Z) : bool := bool_decide (id ∈ vg_nodes g).

Definition has_edge (g : VG) (e : Edge) : bool :=
  bool_decide (pair_from_edge e ∈ vg_edges g).

Definition add_node (g : VG) (id : Z) : VG :=
  {| vg_nodes := {[ id ]} ∪ vg_nodes g; vg_edges := vg_edges g |}.

Definition add_edge (g : VG) (e : Edge) : VG :=
  {| vg_nodes := vg_nodes g; vg_edges := {[ pair_from_edge e ]} ∪ vg_edges g |}.

(** [edges_of(get_node(id))]: the stored edges with an end at [id]. *)
Definition edges_of (g : VG) (id : Z) : list Edge :=
  edge_of_pair <$>
    filter (λ p : NodeSide * NodeSide, p.1.1 = id ∨ p.2.1 = id)
           (elements (vg_edges g)).

(** [extend]: merge of another graph, nodes unified by id. *)
Definition extend (g other : VG) : VG :=
  {| vg_nodes := vg_nodes g ∪ vg_nodes other;
     vg_edges := vg_edges g ∪ vg_edges other |}.

(** Nodes joined to a node of [seen] by an edge of [g]. *)
Definition neighbours (g : VG) (seen : gset Z) : gset Z :=
  list_to_set
    (flat_map (λ p : NodeSide * NodeSide,
                 if bool_decide (p.1.1 ∈ seen) || bool_decide (p.2.1 ∈ seen)
                 then [p.1.1; p.2.1] else [])
              (elements (vg_edges g))).

Fixpoint reach (fuel : nat) (g : VG) (seen : gset Z) : gset Z :=
  match fuel with
  | O => seen
  | S fuel' => reach fuel' g (seen ∪ neighbours g seen)
  end.

(** The part of [g] on the node set [ns]. *)
Definition induced (g : VG) (ns : gset Z) : VG :=
  {| vg_nodes := filter (λ n, n ∈ ns) (vg_nodes g);
     vg_edges := filter (λ p : NodeSide * NodeSide, p.1.1 ∈ ns ∨ p.2.1 ∈ ns)
                        (vg_edges g) |}.

Fixpoint components_from (fuel : nat) (g : VG) (todo : list Z) (done : gset Z)
  : list VG :=
  match fuel, todo with
  | S fuel', n :: todo' =>
      if bool_decide (n ∈ done) then components_from fuel' g todo' done
      else
        let ns := reach (size (vg_nodes g)) g {[ n ]} in
        induced g ns :: components_from fuel' g todo' (done ∪ ns)
  | _, _ => []
  end.

(** Modelled from the spec: "split the scratch into weakly connected
    components and return them". *)
Definition disjoint_subgraphs (g : VG) : list VG :=
  components_from (size (vg_nodes g)) g (elements (vg_nodes g)) ∅.

End VG_ops.

(** ** The reference-path index ([xg::XG]) *)

(** Modelled from the spec: a reference path, a sequence of node ids each
    with its orientation ([XGPath::node], [XGPath::is_reverse]). *)
Abbreviation XGPath := (list (Z * bool)).

(** Modelled from the spec: the reference-path index, "immutable index of
    named reference paths over the original graph, queryable by path
    rank".  [xg_paths] lists the paths by rank, starting at rank 1. *)
Record XG := { xg_paths : list XGPath }.

Module XG_ops.

Definition max_path_rank (x : XG) : nat := length (xg_paths x).

(** [get_path(path_name(rank))]. *)
Definition get_path (x : XG) (path_rank : nat) : XGPath :=
  default [] (xg_paths x !! (path_rank - 1)%nat).

(** The node descriptor of an id; only the id is kept. *)
Definition node (x : XG) (id : Z) : Z := id.

(** Modelled from the spec: "the sorted list of ranks at which [from]
    occurs" on the path. *)
Definition node_ranks_in_path (x : XG) (id : Z) (path_rank : nat) : list nat :=
  filter (λ i, fst <$> (get_path x path_rank !! i) = Some id)
         (seq 0 (length (get_path x path_rank))).

End XG_ops.

(** ** The haplotype index ([gbwt::GBWT]) *)

(** Modelled from the spec: the haplotype index, "immutable succinct
    index of haplotype threads supporting prefix-search extension".  The
    index is given by the threads it stores. *)
Record GBWT := { gbwt_threads : list path_type }.

(** A search state: the node reached and the matching occurrences, each
    a thread number and a position in that thread. *)
Record SearchState := {
  ss_node : Z;
  ss_range : list (nat * nat)
}.

Module GBWT_ops.

Definition empty_index : GBWT := {| gbwt_threads := [] |}.

Definition sequences (h : GBWT) : nat := length (gbwt_threads h).

Definition extract (h : GBWT) (i : nat) : path_type :=
  default [] (gbwt_threads h !! i).

Definition at_pos (h : GBWT) (occ : nat * nat) : option Z :=
  gbwt_threads h !! occ.1 ≫= λ t, t !! occ.2.

Definition occurrences_in (node : Z) (i : nat) (t : path_type) : list (nat * nat) :=
  (λ p, (i, p)) <$> filter (λ p, t !! p = Some node) (seq 0 (length t)).

(** [find(node)]: every visit of the handle by a thread. *)
Definition find (h : GBWT) (node : Z) : SearchState :=
  {| ss_node := node;
     ss_range := mjoin (imap (occurrences_in node) (gbwt_threads h)) |}.

(** [extend(state, node)]: the visits that continue to [node]. *)
Definition extend (h : GBWT) (s : SearchState) (node : Z) : SearchState :=
  {| ss_node := node;
     ss_range :=
       filter (λ occ, at_pos h occ = Some node)
              ((λ occ : nat * nat, (occ.1, S occ.2)) <$> ss_range s) |}.

Definition is_empty (s : SearchState) : bool :=
  bool_decide (ss_range s = []).

(** The handles the loop [comp = 1 .. effective() - 1] visits through
    [toNode]: the handles present in the index. *)
Definition nodes (h : GBWT) : list Z :=
  remove_dups (mjoin (gbwt_threads h)).

Fixpoint successors (node : Z) (t : path_type) : list Z :=
  match t with
  | [] => []
  | x :: rest =>
      (if bool_decide (x = node) then [default ENDMARKER (head rest)] else [])
      ++ successors node rest
  end.

(** [edges(node)]: the successors of the handle, the end marker when a
    thread stops there. *)
Definition edges (h : GBWT) (node : Z) : list Z :=
  remove_dups (flat_map (successors node) (gbwt_threads h)).

End GBWT_ops.

(** ** Results of code that can read out of range *)

Inductive outcome (A : Type) : Type :=
  | Value (a : A)
  | OutOfRange   (* a vector read past its end: undefined in the source *)
  | OutOfFuel.   (* the bound given to a loop of the model was too small *)
Arguments Value {A} a.
Arguments OutOfRange {A}.
Arguments OutOfFuel {A}.

(** ** The operations of [PhaseUnfolder] *)

Section WithIndexes.

(** [xg_index] and [gbwt_index], the two backing indexes. *)
Variable xg_index : XG.
Variable gbwt_index : GBWT.

(** The handle [gbwt::Node::encode(path.node(i), path.is_reverse(i))] of a
    step of a reference path; [flip] negates the orientation, as the
    backward walk of [generate_paths] does. *)
Definition path_handle (flip : bool) (step : Z * bool) : Z :=
  Node.encode step.1 (xorb flip step.2).

(** The body shared by the loops that add the missing edges: when the
    graph [graph] lacks the edge, [target] receives both end nodes and
    the edge. *)
Definition add_if_missing (graph target : VG) (prev curr : Z) : VG :=
  let candidate := make_edge prev curr in
  if VG_ops.has_edge graph candidate then target
  else
    VG_ops.add_edge
      (VG_ops.add_node
         (VG_ops.add_node target (XG_ops.node xg_index (e_from candidate)))
         (XG_ops.node xg_index (e_to candidate)))
      candidate.

(** The loop [for i = 1 .. size - 1] of [restore_paths], which tests and
    updates the same graph. *)
Fixpoint restore_steps (graph : VG) (prev : Z) (rest : list (Z * bool)) : VG :=
  match rest with
  | [] => graph
  | step :: rest' =>
      let curr := path_handle false step in
      restore_steps (add_if_missing graph graph prev curr) curr rest'
  end.

Definition restore_path (graph : VG) (path : XGPath) : VG :=
  match path with
  | [] => graph
  | first :: rest => restore_steps graph (path_handle false first) rest
  end.

(** [PhaseUnfolder::restore_paths].  The method is [const]: it never
    touches the fields of the object. *)
Definition restore_paths (graph : VG) : VG :=
  foldl (λ g path_rank, restore_path g (XG_ops.get_path xg_index path_rank))
        graph (seq 1 (XG_ops.max_path_rank xg_index)).

(** The same loop in [complement_components]: tests [graph], updates the
    scratch graph. *)
Fixpoint complement_steps (graph complement : VG) (prev : Z)
    (rest : list (Z * bool)) : VG :=
  match rest with
  | [] => complement
  | step :: rest' =>
      let curr := path_handle false step in
      complement_steps graph (add_if_missing graph complement prev curr) curr rest'
  end.

Definition complement_path (graph complement : VG) (path : XGPath) : VG :=
  match path with
  | [] => complement
  | first :: rest => complement_steps graph complement (path_handle false first) rest
  end.

(** The inner loop over the outgoing edges of one handle of the
    haplotype index. *)
Definition complement_node (graph complement : VG) (gbwt_node : Z) : VG :=
  foldl (λ c outedge,
           if bool_decide (outedge = ENDMARKER) then c
           else add_if_missing graph c gbwt_node outedge)
        complement (GBWT_ops.edges gbwt_index gbwt_node).

(** The scratch graph of the edges present in the evidence and absent
    from [graph]. *)
Definition complement_graph (graph : VG) : VG :=
  let from_paths :=
    foldl (λ c path_rank,
             complement_path graph c (XG_ops.get_path xg_index path_rank))
          VG_ops.empty (seq 1 (XG_ops.max_path_rank xg_index)) in
  foldl (complement_node graph) from_paths (GBWT_ops.nodes gbwt_index).

(** [PhaseUnfolder::complement_components]. *)
Definition complement_components (graph : VG) : list VG :=
  VG_ops.disjoint_subgraphs (complement_graph graph).

(** The walk loops of [generate_paths]: [rest] holds the handles of the
    following path positions in visiting order. *)
Fixpoint extend_walk (component : VG) (B : gset Z) (prev : Z)
    (rest : path_type) (buffer : path_type) : path_type :=
  match rest with
  | [] => buffer
  | curr :: rest' =>
      if negb (VG_ops.has_edge component (make_edge prev curr)) then buffer
      else
        let buffer' := buffer ++ [curr] in
        if bool_decide (Node.id curr ∈ B) then buffer'
        else extend_walk component B curr rest' buffer'
  end.

(** The forward walk from an occurrence. *)
Definition forward_walk (component : VG) (B : gset Z) (path : XGPath)
    (occurrence : nat) : path_type :=
  let prev := path_handle false (default (0, false) (path !! occurrence)) in
  extend_walk component B prev
    (path_handle false <$> drop (S occurrence) path) [prev].

(** The backward walk: positions [occurrence - 1 .. 0], orientations
    flipped. *)
Definition backward_walk (component : VG) (B : gset Z) (path : XGPath)
    (occurrence : nat) : path_type :=
  let prev := path_handle true (default (0, false) (path !! occurrence)) in
  extend_walk component B prev
    (path_handle true <$> reverse (take occurrence path)) [prev].

Definition generate_paths_at (component : VG) (path : XGPath)
    (st : PhaseUnfolder) (occurrence : nat) : PhaseUnfolder :=
  let st1 := insert_path (forward_walk component (border st) path occurrence) st in
  insert_path (backward_walk component (border st1) path occurrence) st1.

(** [PhaseUnfolder::generate_paths]. *)
Definition generate_paths (component : VG) (from : Z) (st : PhaseUnfolder)
  : PhaseUnfolder :=
  foldl (λ st path_rank,
           foldl (generate_paths_at component (XG_ops.get_path xg_index path_rank))
                 st (XG_ops.node_ranks_in_path xg_index from path_rank))
        st (seq 1 (XG_ops.max_path_rank xg_index)).

(** [state_type]: a search state and the walk that led to it. *)
Definition state_type : Type := SearchState * path_type.

(** [PhaseUnfolder::create_state]; the stack is a list, top first. *)
Definition create_state (node : Z) (is_reverse : bool)
    (states : list state_type) : list state_type :=
  let search := GBWT_ops.find gbwt_index (Node.encode node is_reverse) in
  if GBWT_ops.is_empty search then states
  else (search, [ss_node search]) :: states.

(** [PhaseUnfolder::extend_state]: the flag returned and the stack. *)
Definition extend_state (state : state_type) (node : Z) (is_reverse : bool)
    (states : list state_type) : bool * list state_type :=
  let search := GBWT_ops.extend gbwt_index state.1 (Node.encode node is_reverse) in
  if GBWT_ops.is_empty search then (false, states)
  else (true, (search, state.2 ++ [ss_node search]) :: states).

(** One edge of the loop over [edges_of] in [generate_threads]. *)
Definition try_edge (state : state_type) (node : Z) (is_reverse : bool)
    (acc : bool * list state_type) (edge : Edge) : bool * list state_type :=
  let '(was_extended, states) := acc in
  if bool_decide (e_from edge = node) && eqb (e_from_start edge) is_reverse then
    let '(ok, states') := extend_state state (e_to edge) (e_to_end edge) states in
    (was_extended || ok, states')
  else if bool_decide (e_to edge = node) && negb (eqb (e_to_end edge) is_reverse) then
    let '(ok, states') :=
      extend_state state (e_from edge) (negb (e_from_start edge)) states in
    (was_extended || ok, states')
  else acc.

(** The [while (!states.empty())] loop of [generate_threads]. *)
Fixpoint threads_loop (fuel : nat) (component : VG)
    (states : list state_type) (st : PhaseUnfolder) : outcome PhaseUnfolder :=
  match states with
  | [] => Value st
  | state :: rest =>
      match fuel with
      | O => OutOfFuel
      | S fuel' =>
          let node := Node.id (ss_node state.1) in
          let is_reverse := Node.is_reverse (ss_node state.1) in
          if (2 <=? length state.2)%nat && bool_decide (node ∈ border st) then
            threads_loop fuel' component rest (insert_path state.2 st)
          else
            let '(was_extended, states') :=
              foldl (try_edge state node is_reverse) (false, rest)
                    (VG_ops.edges_of component node) in
            if was_extended then threads_loop fuel' component states' st
            else threads_loop fuel' component states' (insert_path state.2 st)
      end
  end.

(** [PhaseUnfolder::generate_threads]. *)
Definition generate_threads (fuel : nat) (component : VG) (from : Z)
    (st : PhaseUnfolder) : outcome PhaseUnfolder :=
  threads_loop fuel component
    (create_state from true (create_state from false [])) st.

(** The lambda [insert_node] of [unfold_component].  It reads the table
    through [get_mapping] to fetch the original node from the index, then
    adds the node under the id carried by the handle.  The sequence it
    fetches is not part of the model; its read of the table is, and a read
    past the end of the table is [OutOfRange]. *)
Definition insert_node (st : PhaseUnfolder) (unfolded : outcome VG) (node : Z)
  : outcome VG :=
  match unfolded with
  | Value u =>
      match get_mapping st (Node.id node) with
      | Some _ => Value (VG_ops.add_node u (Node.id node))
      | None => OutOfRange
      end
  | other => other
  end.

(** The body shared by the three loops: both nodes, then the edge. *)
Definition insert_edge (st : PhaseUnfolder) (unfolded : outcome VG) (from to : Z)
  : outcome VG :=
  match insert_node st (insert_node st unfolded from) to with
  | Value u => Value (VG_ops.add_edge u (make_edge from to))
  | other => other
  end.

(** The three loops that create the unfolded component from the tries
    and the crossing edges. *)
Definition assemble (st : PhaseUnfolder) (unfolded : VG) : outcome VG :=
  let u1 := foldl (λ u (m : Z * Z * Z), insert_edge st u m.1.1 m.2)
                  (Value unfolded) (map_to_list (prefixes st)) in
  let u2 := foldl (λ u (m : Z * Z * Z), insert_edge st u m.2 m.1.2)
                  u1 (map_to_list (suffixes st)) in
  foldl (λ u (edge : Z * Z), insert_edge st u edge.1 edge.2)
        u2 (elements (crossing_edges st)).

(** The first loop of [unfold_component]: the border nodes. *)
Definition find_border (component graph : VG) (st : PhaseUnfolder) : PhaseUnfolder :=
  {| pu_mapping := pu_mapping st;
     border := filter (λ n, n ∈ vg_nodes graph) (vg_nodes component) ∪ border st;
     prefixes := prefixes st; suffixes := suffixes st;
     crossing_edges := crossing_edges st |}.

(** The loop over the border nodes. *)
Fixpoint generate_all (fuel : nat) (component : VG) (starts : list Z)
    (st : PhaseUnfolder) : outcome PhaseUnfolder :=
  match starts with
  | [] => Value st
  | start_node :: rest =>
      match generate_threads fuel component start_node
              (generate_paths component start_node st) with
      | Value st' => generate_all fuel component rest st'
      | OutOfRange => OutOfRange
      | OutOfFuel => OutOfFuel
      end
  end.

Definition clear_component (st : PhaseUnfolder) : PhaseUnfolder :=
  {| pu_mapping := pu_mapping st; border := ∅;
     prefixes := ∅; suffixes := ∅; crossing_edges := ∅ |}.

(** [PhaseUnfolder::unfold_component]: the number of crossing edges, the
    unfolded graph and the object.  The hash set [border] is visited in
    the order of [elements]. *)
Definition unfold_component (fuel : nat) (component graph unfolded : VG)
    (st : PhaseUnfolder) : outcome (nat * VG * PhaseUnfolder) :=
  let st0 := find_border component graph st in
  match generate_all fuel component (elements (border st0)) st0 with
  | Value st1 =>
      match assemble st1 unfolded with
      | Value unfolded' =>
          Value (size (crossing_edges st1), unfolded', clear_component st1)
      | OutOfRange => OutOfRange
      | OutOfFuel => OutOfFuel
      end
  | OutOfRange => OutOfRange
  | OutOfFuel => OutOfFuel
  end.

Fixpoint unfold_components (fuel : nat) (components : list VG)
    (graph unfolded : VG) (st : PhaseUnfolder) : outcome (VG * PhaseUnfolder) :=
  match components with
  | [] => Value (unfolded, st)
  | component :: rest =>
      match unfold_component fuel component graph unfolded st with
      | Value (_, unfolded', st') => unfold_components fuel rest graph unfolded' st'
      | OutOfRange => OutOfRange
      | OutOfFuel => OutOfFuel
      end
  end.

(** [PhaseUnfolder::unfold]: the extended graph and the object. *)
Definition unfold (fuel : nat) (graph : VG) (st : PhaseUnfolder)
  : outcome (VG * PhaseUnfolder) :=
  match unfold_components fuel (complement_components graph) graph VG_ops.empty st with
  | Value (unfolded, st') => Value (VG_ops.extend graph unfolded, st')
  | OutOfRange => OutOfRange
  | OutOfFuel => OutOfFuel
  end.

End WithIndexes.

(** ** The verifier *)

(** The overloads [path_size], [path_node] and [path_reverse], which let
    [verify_path] run on a reference path and on an extracted thread. *)
Class PathOps (T : Type) := {
  path_size : T → nat;
  path_node : T → nat → Z;
  path_reverse : T → nat → bool
}.

#[export] Instance XGPath_ops : PathOps XGPath := {|
  path_size path := length path;
  path_node path i := (default (0, false) (path !! i)).1;
  path_reverse path i := (default (0, false) (path !! i)).2
|}.

#[export] Instance thread_ops : PathOps path_type := {|
  path_size path := length path;
  path_node path i := Node.id (default 0 (path !! i));
  path_reverse path i := Node.is_reverse (default 0 (path !! i))
|}.

Record PathBranch := {
  pb_offset : nat;
  pb_curr : nat;    (* Branch to choose at offset. *)
  pb_next : nat     (* Branch to choose at offset + 1. *)
}.

(** [PathBranch::advance]. *)
Definition advance (b : PathBranch) : PathBranch :=
  {| pb_offset := S (pb_offset b); pb_curr := pb_next b; pb_next := 0 |}.

Section Verify.

Context {T : Type} `{PathOps T}.

Variable path : T.
Variable unfolded : VG.
Variable reverse_mapping : gmap Z (list Z).

(** The loop "extend the next path from the current branch".  The stack
    [branches] is a list, top first.  The result is the branch at the
    exit of the loop and the stack. *)
Fixpoint extend_branch (fuel : nat) (branch : PathBranch) (curr : Z)
    (curr_duplicates : nat) (branches : list PathBranch)
  : outcome (PathBranch * list PathBranch) :=
  if negb (pb_offset branch + 1 <? path_size path)%nat then Value (branch, branches)
  else
    match fuel with
    | O => OutOfFuel
    | S fuel' =>
        let node_id := path_node path (pb_offset branch + 1) in
        let other_curr :=
          if (pb_curr branch + 1 <? curr_duplicates)%nat then
            {| pb_offset := pb_offset branch;
               pb_curr := pb_curr branch + 1; pb_next := 0 |} :: branches
          else branches in
        let chosen :=
          match reverse_mapping !! node_id with
          | Some duplicates =>
              match duplicates !! pb_next branch with
              | Some dup =>
                  Value (length duplicates, dup,
                         if (pb_next branch + 1 <? length duplicates)%nat then
                           {| pb_offset := pb_offset branch;
                              pb_curr := pb_curr branch;
                              pb_next := pb_next branch + 1 |} :: branches
                         else other_curr)
              | None => OutOfRange
              end
          | None => Value (0%nat, node_id, other_curr)
          end in
        match chosen with
        | Value (next_duplicates, node_id', branches') =>
            let next :=
              Node.encode node_id' (path_reverse path (pb_offset branch + 1)) in
            if negb (VG_ops.has_edge unfolded (make_edge curr next)) then
              Value (branch, branches')
            else
              extend_branch fuel' (advance branch) next next_duplicates
                (if (next_duplicates <=? 1)%nat then [] else branches')
        | OutOfRange => OutOfRange
        | OutOfFuel => OutOfFuel
        end
    end.

(** The loop [while (!branches.empty())]. *)
Fixpoint verify_loop (fuel : nat) (branches : list PathBranch) : outcome bool :=
  match branches with
  | [] => Value false
  | branch :: rest =>
      match fuel with
      | O => OutOfFuel
      | S fuel' =>
          let node_id := path_node path (pb_offset branch) in
          let start :=
            match reverse_mapping !! node_id with
            | Some duplicates =>
                match duplicates !! pb_curr branch with
                | Some dup => Value (length duplicates, dup)
                | None => OutOfRange
                end
            | None => Value (0%nat, node_id)
            end in
          match start with
          | Value (curr_duplicates, node_id') =>
              let curr :=
                Node.encode node_id' (path_reverse path (pb_offset branch)) in
              match extend_branch (path_size path) branch curr curr_duplicates rest with
              | Value (branch', rest') =>
                  if (path_size path <=? pb_offset branch' + 1)%nat then Value true
                  else verify_loop fuel' rest'
              | OutOfRange => OutOfRange
              | OutOfFuel => OutOfFuel
              end
          | OutOfRange => OutOfRange
          | OutOfFuel => OutOfFuel
          end
      end
  end.

(** [verify_path]. *)
Definition verify_path (fuel : nat) : outcome bool :=
  if (path_size path <? 2)%nat then Value true
  else verify_loop fuel [ {| pb_offset := 0; pb_curr := 0; pb_next := 0 |} ].

End Verify.

(** [gcsa::removeDuplicates]: sort, then keep one copy of each value. *)
Definition removeDuplicates (v : list Z) : list Z :=
  merge_sort Z.le (remove_dups v).

Section VerifyPaths.

Variable xg_index : XG.
Variable gbwt_index : GBWT.

(** The body of the loop over the duplicates in [verify_paths]. *)
Definition add_duplicate (unfolded : VG) (M : NodeMapping)
    (acc : outcome (gmap Z (list Z))) (duplicate : Z) : outcome (gmap Z (list Z)) :=
  match acc with
  | Value rm =>
      match NodeMapping_ops.get M duplicate with
      | Some original_id =>
          let with_dup := default [] (rm !! original_id) ++ [duplicate] in
          Value (<[original_id :=
                     if VG_ops.has_node unfolded original_id
                     then with_dup ++ [original_id] else with_dup]> rm)
      | None => OutOfRange
      end
  | other => other
  end.

(** The map from original ids to their candidates. *)
Definition build_reverse_mapping (unfolded : VG) (M : NodeMapping)
  : outcome (gmap Z (list Z)) :=
  match
    foldl (add_duplicate unfolded M) (Value ∅)
          (seqZ (first_node M) (next_node M - first_node M))
  with
  | Value rm => Value (removeDuplicates <$> rm)
  | other => other
  end.

Definition count_failure (acc : outcome nat) (r : outcome bool) : outcome nat :=
  match acc, r with
  | Value n, Value true => Value n
  | Value n, Value false => Value (S n)
  | Value _, OutOfRange => OutOfRange
  | Value _, OutOfFuel => OutOfFuel
  | other, _ => other
  end.

(** [PhaseUnfolder::verify_paths]: the number of paths and threads the
    verification fails for.  The workers only share the counter, so the
    paths are checked one after the other. *)
Definition verify_paths (fuel : nat) (unfolded : VG) (st : PhaseUnfolder)
  : outcome nat :=
  match build_reverse_mapping unfolded (pu_mapping st) with
  | Value reverse_mapping =>
      let on_paths :=
        foldl (λ acc i,
                 count_failure acc
                   (verify_path (XG_ops.get_path xg_index (i + 1)) unfolded
                                reverse_mapping fuel))
              (Value 0%nat) (seq 0 (XG_ops.max_path_rank xg_index)) in
      foldl (λ acc i,
               count_failure acc
                 (verify_path (GBWT_ops.extract gbwt_index i) unfolded
                              reverse_mapping fuel))
            on_paths (seq 0 (GBWT_ops.sequences gbwt_index))
  | OutOfRange => OutOfRange
  | OutOfFuel => OutOfFuel
  end.

End VerifyPaths.

(** ** Loading and saving the table *)

Section MappingFiles.

(** [NodeMapping::serialize] and [NodeMapping::load] of the library,
    on the contents of a file. *)
Variable serialize : NodeMapping → list Z.
Variable load : list Z → NodeMapping.

(** The files that can be opened for reading, those that can be created
    and what has been written to standard error. *)
Record World := {
  readable : gmap string (list Z);
  creatable : gset string;
  written : gmap string (list Z);
  cerr : list string
}.

(** [PhaseUnfolder::write_mapping]. *)
Definition write_mapping (filename : string) (st : PhaseUnfolder) (w : World)
  : World :=
  if bool_decide (filename ∈ creatable w) then
    {| readable := readable w; creatable := creatable w;
       written := <[filename := serialize (pu_mapping st)]> (written w);
       cerr := cerr w |}
  else
    {| readable := readable w; creatable := creatable w;
       written := written w;
       cerr := cerr w ++
         [String.append "[PhaseUnfolder]: cannot create mapping file " filename] |}.

(** [PhaseUnfolder::read_mapping]. *)
Definition read_mapping (filename : string) (st : PhaseUnfolder) (w : World)
  : PhaseUnfolder * World :=
  match readable w !! filename with
  | Some contents =>
      ({| pu_mapping := load contents; border := border st;
          prefixes := prefixes st; suffixes := suffixes st;
          crossing_edges := crossing_edges st |}, w)
  | None =>
      (st,
       {| readable := readable w; creatable := creatable w;
          written := written w;
          cerr := cerr w ++
            [String.append "[PhaseUnfolder]: cannot open mapping file " filename] |})
  end.

End MappingFiles.


(** ** Auxiliary notions used by the statements *)

(** Both trie loops are the same loop up to the shape of the key. *)
Fixpoint trie_loop (mk : Z → Z → Z * Z) (children : path_type) (cursor : Z)
    (trie : gmap (Z * Z) Z) (M : NodeMapping)
  : Z * gmap (Z * Z) Z * NodeMapping :=
  match children with
  | [] => (cursor, trie, M)
  | child :: rest =>
      let '(dup, trie', M') := trie_step (mk cursor child) child trie M in
      trie_loop mk rest dup trie' M'
  end.

Definition prefix_key (from child : Z) : Z * Z := (from, child).
Definition suffix_key (to child : Z) : Z * Z := (child, to).

(** A stored duplicate handle [dup] of the original handle [orig] maps
    back to the id of [orig] and keeps its orientation. *)
Definition entry_ok (M : NodeMapping) (orig dup : Z) : Prop :=
  NodeMapping_ops.get M (Node.id dup) = Some (Node.id orig) ∧
  Node.is_reverse dup = Node.is_reverse orig.

(** The invariant of the two tries: [prefixes[(u, v_orig)] = v_dup] and
    [suffixes[(v_orig, u)] = v_dup] are stored duplicates of [v_orig]. *)
Definition tries_ok (st : PhaseUnfolder) : Prop :=
  (∀ u v_orig v_dup, prefixes st !! (u, v_orig) = Some v_dup →
                     entry_ok (pu_mapping st) v_orig v_dup) ∧
  (∀ u v_orig v_dup, suffixes st !! (v_orig, u) = Some v_dup →
                     entry_ok (pu_mapping st) v_orig v_dup).

(** The graph that the body of the assembly loops builds when its two
    reads of the table are in range. *)
Definition link (unfolded : VG) (from to : Z) : VG :=
  VG_ops.add_edge
    (VG_ops.add_node (VG_ops.add_node unfolded (Node.id from)) (Node.id to))
    (make_edge from to).

(** The graph that the three assembly loops build when none of their
    reads of the table is out of range. *)
Definition assembled (st : PhaseUnfolder) (unfolded : VG) : VG :=
  let u1 := foldl (λ u (m : Z * Z * Z), link u m.1.1 m.2)
                  unfolded (map_to_list (prefixes st)) in
  let u2 := foldl (λ u (m : Z * Z * Z), link u m.2 m.1.2)
                  u1 (map_to_list (suffixes st)) in
  foldl (λ u (edge : Z * Z), link u edge.1 edge.2)
        u2 (elements (crossing_edges st)).

(** A sequence of calls of [insert_path]. *)
Definition insert_paths (paths : list path_type) (st : PhaseUnfolder)
  : PhaseUnfolder :=
  foldl (λ st path, insert_path path st) st paths.

(** Total length of the walks of a sequence of calls. *)
Definition total_length (paths : list path_type) : Z :=
  foldr (λ path n, Z.of_nat (length path) + n) 0 paths.

(** The candidates of a walk position in the verifier: the listed ids of
    the original id, or the original id itself when it has no list. *)
Definition candidates (reverse_mapping : gmap Z (list Z)) (id : Z) : list Z :=
  default [id] (reverse_mapping !! id).

(** A definition that follows the words of the specification of the
    verifier: [choice] assigns one candidate id to each walk position and
    every consecutive edge is present in the unfolded graph. *)
Definition realised_by {T : Type} `{PathOps T} (path : T) (unfolded : VG)
    (reverse_mapping : gmap Z (list Z)) (choice : list Z) : Prop :=
  length choice = path_size path ∧
  (∀ i c, choice !! i = Some c → c ∈ candidates reverse_mapping (path_node path i)) ∧
  (∀ i c c', choice !! i = Some c → choice !! S i = Some c' →
     VG_ops.has_edge unfolded
       (make_edge (Node.encode c (path_reverse path i))
                  (Node.encode c' (path_reverse path (S i)))) = true).

(** The graph obtained by renaming every duplicate id back to its
    original id. *)
Definition original_id (M : NodeMapping) (id : Z) : Z :=
  default id (NodeMapping_ops.get M id).

Definition fold_duplicates (M : NodeMapping) (g : VG) : VG :=
  {| vg_nodes := set_map (original_id M) (vg_nodes g);
     vg_edges :=
       set_map (λ p : NodeSide * NodeSide,
                  pair_from_edge
                    (edge_of_pair ((original_id M p.1.1, p.1.2),
                                   (original_id M p.2.1, p.2.2))))
               (vg_edges g) |}.

(** A graph given by its node ids and its edges, each a pair of handles. *)
Definition graph_of (nodes : list Z) (edges : list (Z * Z)) : VG :=
  {| vg_nodes := list_to_set nodes;
     vg_edges := list_to_set ((λ e : Z * Z, pair_from_edge (make_edge e.1 e.2)) <$> edges) |}.

(** ** Concrete inputs *)

Module Scenario.

(** One reference path 1+ 2+ 3+. *)
Definition one_path : XG :=
  {| xg_paths := [ [(1, false); (2, false); (3, false)] ] |}.

(** The two reference paths 1+ 2+ 3+ and 1+ 4+ 3+. *)
Definition two_paths : XG :=
  {| xg_paths := [ [(1, false); (2, false); (3, false)];
                   [(1, false); (4, false); (3, false)] ] |}.


(** A pruned graph that kept none of the nodes 1, 2, 3. *)
Definition pruned_away : VG := graph_of [4] [].

(** The nodes 1, 2, 3, 4 and no edge. *)
Definition four_nodes : VG := graph_of [1; 2; 3; 4] [].

(** The missing edges of [two_paths], as handles: 1+ is 2, 2+ is 4,
    3+ is 6 and 4+ is 8. *)
Definition four_edges : list (Z * Z) := [(2, 4); (4, 6); (2, 8); (8, 6)].

(** Node 2 has the duplicates 4 and 5; the graph holds the edges
    1+ -> 4+ and 5+ -> 3+ only. *)
Definition two_duplicates : gmap Z (list Z) := {[ 2 := [4; 5] ]}.
Definition broken_chain : VG := graph_of [1; 3; 4; 5] [(2, 8); (10, 6)].



(** The thread 1+ 2+ 3+ stored in both orientations. *)
Definition both_orientations : GBWT :=
  {| gbwt_threads := [ [2; 4; 6]; [7; 5; 3] ] |}.

(** A pruned graph that kept the nodes 1 and 3 and lost 2 and 4. *)
Definition kept_ends : VG := graph_of [1; 3] [].

(** The same graph after unfolding the two paths 1+ 2+ 3+ and 1+ 4+ 3+
    with 5 as first duplicate id: 5 duplicates node 2 and 6 duplicates
    node 4. *)
Definition unfolded_ends : VG :=
  graph_of [1; 3; 5; 6] [(2, 10); (10, 6); (2, 12); (12, 6)].

Definition after_unfold : PhaseUnfolder :=
  {| pu_mapping := {| first_node := 5; next_node := 7; mapping := [2; 4] |};
     border := ∅; prefixes := ∅; suffixes := ∅; crossing_edges := ∅ |}.

End Scenario.

(** A handle that the assembly inserts under the id it carries: the
    parent of a prefix-trie entry, the parent of a suffix-trie entry or an
    end of a crossing edge. *)
Definition anchored (st : PhaseUnfolder) (node : Z) : Prop :=
  (∃ child, is_Some (prefixes st !! (node, child))) ∨
  (∃ child, is_Some (suffixes st !! (child, node))) ∨
  (∃ other, (node, other) ∈ crossing_edges st) ∨
  (∃ other, (other, node) ∈ crossing_edges st).

Definition anchored_id (st : PhaseUnfolder) (id : Z) : Prop :=
  ∃ node, anchored st node ∧ Node.id node = id.

(** The node [b] lies on an edge of the component that joins two
    consecutive positions of a reference path. *)
Definition on_reference_edge (xg_index : XG) (component : VG) (b : Z) : Prop :=
  ∃ (path_rank i : nat) (s1 s2 : Z * bool),
    (1 ≤ path_rank ≤ XG_ops.max_path_rank xg_index)%nat ∧
    XG_ops.get_path xg_index path_rank !! i = Some s1 ∧
    XG_ops.get_path xg_index path_rank !! S i = Some s2 ∧
    VG_ops.has_edge component
      (make_edge (path_handle false s1) (path_handle false s2)) = true ∧
    (s1.1 = b ∨ s2.1 = b).

(** Some thread of the haplotype index leaves the node [b], in one of its
    orientations, along an edge of the component. *)
Definition starts_thread_step (gbwt_index : GBWT) (component : VG) (b : Z) : Prop :=
  ∃ hd nxt : Z,
    0 ≤ hd < 2 ^ 64 ∧ 0 ≤ nxt < 2 ^ 64 ∧ Node.id hd = b ∧
    VG_ops.has_edge component (make_edge hd nxt) = true ∧
    GBWT_ops.is_empty
      (GBWT_ops.extend gbwt_index (GBWT_ops.find gbwt_index hd) nxt) = false.

(** The length of the longest thread of the index. *)
Definition max_thread_length (gbwt_index : GBWT) : nat :=
  max_list (length <$> gbwt_threads gbwt_index).

(** A state of the search stack that the index backs: its walk is not
    empty, some visit matches it, and every matching visit is a position
    of a thread at which a walk of that length can end. *)
Definition state_valid (gbwt_index : GBWT) (s : state_type) : Prop :=
  (1 ≤ length s.2)%nat ∧ ss_range s.1 ≠ [] ∧
  ∀ occ, occ ∈ ss_range s.1 →
    (length s.2 ≤ S occ.2)%nat ∧ is_Some (GBWT_ops.at_pos gbwt_index occ).

Definition nonempty {A : Type} (l : list A) : bool :=
  match l with [] => false | _ :: _ => true end.

(** The edge [edge] lets [generate_threads] extend the state [s]. *)
Definition edge_extends (gbwt_index : GBWT) (s : state_type) (edge : Edge) : bool :=
  (try_edge gbwt_index s (Node.id (ss_node s.1)) (Node.is_reverse (ss_node s.1))
            (false, []) edge).1.

(** The object [st'] extends [st]: same border set, and every id kept by
    the assembly of [st] is kept by that of [st']. *)
Definition extends_state (st st' : PhaseUnfolder) : Prop :=
  border st' = border st ∧ ∀ id, anchored_id st id → anchored_id st' id.

(** A state from which [generate_threads] ends up inserting a walk that
    starts with the first handle of the state: its walk has two handles
    already, or some edge of its node extends it. *)
Definition state_good (gbwt_index : GBWT) (component : VG) (s : state_type) : Prop :=
  (2 ≤ length s.2)%nat ∨
  ∃ edge, edge ∈ VG_ops.edges_of component (Node.id (ss_node s.1)) ∧
          edge_extends gbwt_index s edge = true.

(** Running the search loop for some number of rounds takes the states
    [states] off the top of the stack. *)
Definition processed (gbwt_index : GBWT) (component : VG)
    (states rest : list state_type) (st : PhaseUnfolder) : Prop :=
  ∃ (k : nat) (st' : PhaseUnfolder),
    (∀ fuel, threads_loop gbwt_index (k + fuel) component (states ++ rest) st
             = threads_loop gbwt_index fuel component rest st') ∧
    extends_state st st' ∧
    ∀ s, s ∈ states → state_good gbwt_index component s →
         anchored_id st' (Node.id (default 0 (head s.2))).




(** An edge of the evidence: two consecutive positions of a reference
    path, or two consecutive handles of a thread. *)
Definition evidence_edge (xg_index : XG) (gbwt_index : GBWT)
    (p : NodeSide * NodeSide) : Prop :=
  (∃ (path_rank i : nat) (s1 s2 : Z * bool),
     (1 ≤ path_rank ≤ XG_ops.max_path_rank xg_index)%nat ∧
     XG_ops.get_path xg_index path_rank !! i = Some s1 ∧
     XG_ops.get_path xg_index path_rank !! S i = Some s2 ∧
     p = pair_from_edge (make_edge (path_handle false s1) (path_handle false s2))) ∨
  (∃ (t : path_type) (i : nat) (hd nxt : Z),
     t ∈ gbwt_threads gbwt_index ∧ t !! i = Some hd ∧ t !! S i = Some nxt ∧
     p = pair_from_edge (make_edge hd nxt)).

(** A scratch graph made of evidence edges and of their end nodes. *)
Definition evidence_graph (xg_index : XG) (gbwt_index : GBWT) (c : VG) : Prop :=
  (∀ p, p ∈ vg_edges c → evidence_edge xg_index gbwt_index p) ∧
  (∀ n, n ∈ vg_nodes c → ∃ p, p ∈ vg_edges c ∧ (p.1.1 = n ∨ p.2.1 = n)).

(** ** Notions for the search of the verifier *)

(** The first position of a value in a list. *)
Definition index_of (x : Z) (l : list Z) : nat :=
  default 0%nat (fst <$> list_find (λ y, y = x) l).

Section Search.

Context {T : Type} `{PathOps T}.
Variable path : T.
Variable unfolded : VG.
Variable reverse_mapping : gmap Z (list Z).

(** Every listed original id has at least one candidate, as in the map
    that [verify_paths] builds. *)
Definition rm_wf : Prop :=
  ∀ id duplicates, reverse_mapping !! id = Some duplicates → duplicates ≠ [].

(** The value of [curr_duplicates] at a walk position. *)
Definition dups_at (i : nat) : nat :=
  match reverse_mapping !! path_node path i with
  | Some duplicates => length duplicates
  | None => 0
  end.

(** The number of choices at a walk position. *)
Definition choices_at (i : nat) : nat := Nat.max 1 (dups_at i).

(** The id chosen by the branch number [k] at a walk position. *)
Definition cand_at (i k : nat) : Z :=
  match reverse_mapping !! path_node path i with
  | Some duplicates => default 0 (duplicates !! k)
  | None => path_node path i
  end.

Definition handle_at (i k : nat) : Z :=
  Node.encode (cand_at i k) (path_reverse path i).

(** The edge test between the choices [c] and [n] of two consecutive
    positions. *)
Definition edge_ok (i c n : nat) : bool :=
  VG_ops.has_edge unfolded (make_edge (handle_at i c) (handle_at (S i) n)).

(** The branch numbers of the ids that [choice] assigns to the walk
    positions. *)
Definition branch_numbers (choice : list Z) (i : nat) : nat :=
  match reverse_mapping !! path_node path i with
  | Some duplicates => index_of (default 0 (choice !! i)) duplicates
  | None => 0
  end.

(** A choice of one branch number per position that the graph realises. *)
Definition assignment_ok (a : nat → nat) : Prop :=
  (∀ i, (i < path_size path)%nat → (a i < choices_at i)%nat) ∧
  (∀ i, (S i < path_size path)%nat → edge_ok i (a i) (a (S i)) = true).

(** A branch of the stack names choices that exist. *)
Definition branch_valid (b : PathBranch) : Prop :=
  (pb_offset b + 1 < path_size path)%nat ∧
  (pb_curr b < choices_at (pb_offset b))%nat ∧
  (pb_next b < choices_at (S (pb_offset b)))%nat.

(** A bound on the number of pairs of choices of two positions. *)
Definition pair_bound : nat :=
  S (max_list ((λ i, choices_at i * choices_at (S i))%nat <$> seq 0 (path_size path))).

(** The number of pairs of choices that a branch has not passed yet. *)
Definition remaining (b : PathBranch) : nat :=
  ((choices_at (pb_offset b) - pb_curr b) * choices_at (S (pb_offset b)) - pb_next b)%nat.

Definition weight (b : PathBranch) : nat :=
  (remaining b * pair_bound ^ (path_size path - 1 - pb_offset b))%nat.

(** The measure of the stack that every round of the search decreases. *)
Definition stack_weight (branches : list PathBranch) : nat :=
  sum_list (weight <$> branches).

(** The branch that one step of the search leaves on the stack: the next
    choice at the following position or, when there is none, the next
    choice at the current position. *)
Definition alternative (b : PathBranch) : list PathBranch :=
  if (pb_next b + 1 <? dups_at (S (pb_offset b)))%nat then
    [ {| pb_offset := pb_offset b; pb_curr := pb_curr b; pb_next := pb_next b + 1 |} ]
  else if (pb_curr b + 1 <? dups_at (pb_offset b))%nat then
    [ {| pb_offset := pb_offset b; pb_curr := pb_curr b + 1; pb_next := 0 |} ]
  else [].

(** The branch has not passed the pair of choices of [a] at its offset. *)
Definition before (a : nat → nat) (b : PathBranch) : Prop :=
  (pb_curr b < a (pb_offset b))%nat ∨
  (pb_curr b = a (pb_offset b) ∧ (pb_next b ≤ a (S (pb_offset b)))%nat).

End Search.

(** ** Notions for the further properties *)

(** A stored handle of a trie is an allocated duplicate: its id lies in
    the range of the table. *)
Definition allocated (M : NodeMapping) (trie : gmap (Z * Z) Z) : Prop :=
  ∀ key dup, trie !! key = Some dup → first_node M ≤ Node.id dup < next_node M.

(** The state of an object whose duplicates start above 0 and whose tries
    only hold duplicates that the table knows. *)
Definition unfolder_ok (st : PhaseUnfolder) : Prop :=
  NodeMapping_ops.wf (pu_mapping st) ∧ 0 < first_node (pu_mapping st) ∧
  tries_ok st ∧
  allocated (pu_mapping st) (prefixes st) ∧
  allocated (pu_mapping st) (suffixes st).

(** The assembly of [st] creates the edge from [a] to [b]: a prefix-trie
    entry with parent [a] and value [b], a suffix-trie entry with value
    [a] and parent [b], or the crossing edge [(a, b)]. *)
Definition linked (st : PhaseUnfolder) (a b : Z) : Prop :=
  (∃ child, prefixes st !! (a, child) = Some b) ∨
  (∃ child, suffixes st !! (child, b) = Some a) ∨
  (a, b) ∈ crossing_edges st.

(** Every two consecutive handles of a walk are related. *)
Fixpoint chain (R : Z → Z → Prop) (walk : path_type) : Prop :=
  match walk with
  | a :: rest =>
      match rest with
      | b :: _ => R a b ∧ chain R rest
      | [] => True
      end
  | [] => True
  end.

(** The entries that a trie loop leaves behind: the key made of the
    cursor and of the first child holds the first duplicate, which is the
    cursor of the rest. *)
Fixpoint trie_path (mk : Z → Z → Z * Z) (trie : gmap (Z * Z) Z) (cursor : Z)
    (children dups : path_type) : Prop :=
  match children, dups with
  | [], [] => True
  | child :: children', dup :: dups' =>
      trie !! mk cursor child = Some dup ∧ trie_path mk trie dup children' dups'
  | _, _ => False
  end.

(** The handle [dup] stands for the handle [orig] of a walk: same
    orientation, and its id maps back to the id of [orig]. *)
Definition copy_of (st : PhaseUnfolder) (orig dup : Z) : Prop :=
  get_mapping st (Node.id dup) = Some (Node.id orig) ∧
  Node.is_reverse dup = Node.is_reverse orig.

(** Every edge of the graph has both its end nodes in the graph. *)
Definition closed (g : VG) : Prop :=
  ∀ p, p ∈ vg_edges g → p.1.1 ∈ vg_nodes g ∧ p.2.1 ∈ vg_nodes g.

(** The table of [st'] continues the table of [st]: same first id, the
    same entries followed by new ones. *)
Definition table_grows (st st' : PhaseUnfolder) : Prop :=
  first_node (pu_mapping st') = first_node (pu_mapping st) ∧
  ∃ added, mapping (pu_mapping st') = mapping (pu_mapping st) ++ added.

(** The data of the current component is empty. *)
Definition scratch_empty (st : PhaseUnfolder) : Prop :=
  border st = ∅ ∧ prefixes st = ∅ ∧ suffixes st = ∅ ∧ crossing_edges st = ∅.

(** The original id [o] has a duplicate in the table. *)
Definition duplicated (M : NodeMapping) (o : Z) : Prop :=
  ∃ d, first_node M ≤ d < next_node M ∧ NodeMapping_ops.get M d = Some o.

(** The ids that stand for the original id [o] in a graph: its
    duplicates and, when the graph has the node, the id itself. *)
Definition candidate_of (unfolded : VG) (M : NodeMapping) (o c : Z) : Prop :=
  (first_node M ≤ c < next_node M ∧ NodeMapping_ops.get M c = Some o) ∨
  (c = o ∧ VG_ops.has_node unfolded o = true).

(** The map from original ids to candidates after the loop of
    [verify_paths] has visited the duplicates [seen]. *)
Definition visited (unfolded : VG) (M : NodeMapping) (seen : list Z)
    (rm : gmap Z (list Z)) : Prop :=
  ∀ o, (is_Some (rm !! o) ↔ ∃ d, d ∈ seen ∧ NodeMapping_ops.get M d = Some o) ∧
       ∀ l, rm !! o = Some l →
            ∀ c, c ∈ l ↔ (c ∈ seen ∧ NodeMapping_ops.get M c = Some o) ∨
                         (c = o ∧ VG_ops.has_node unfolded o = true).

(** A walk along edges of the component whose inner handles are not
    border nodes. *)
Definition border_walk (component : VG) (B : gset Z) (walk : path_type) : Prop :=
  chain (λ a b, VG_ops.has_edge component (make_edge a b) = true) walk ∧
  ∀ i node, walk !! i = Some node → (1 ≤ i)%nat → (S i < length walk)%nat →
            Node.id node ∉ B.

(** The walk cannot go on along the handles [rest]: there is none left,
    the walk has reached a border node, or the component lacks the edge to
    the next handle. *)
Definition walk_ends (component : VG) (B : gset Z) (walk rest : path_type) : Prop :=
  rest = [] ∨
  ((2 ≤ length walk)%nat ∧ ∃ node, last walk = Some node ∧ Node.id node ∈ B) ∨
  (∃ a next, last walk = Some a ∧ head rest = Some next ∧
             VG_ops.has_edge component (make_edge a next) = false).

(** Two entries of the trie never hold handles with the same id. *)
Definition one_entry_per_id (trie : gmap (Z * Z) Z) : Prop :=
  ∀ k1 k2 d1 d2, trie !! k1 = Some d1 → trie !! k2 = Some d2 →
                 Node.id d1 = Node.id d2 → k1 = k2.

(** The two tries hold no id in common. *)
Definition no_shared_id (trie other : gmap (Z * Z) Z) : Prop :=
  ∀ k1 k2 d1 d2, trie !! k1 = Some d1 → other !! k2 = Some d2 →
                 Node.id d1 ≠ Node.id d2.

(** Every duplicate id is held by one trie entry only. *)
Definition tries_distinct (st : PhaseUnfolder) : Prop :=
  one_entry_per_id (prefixes st) ∧ one_entry_per_id (suffixes st) ∧
  no_shared_id (prefixes st) (suffixes st).

(** The object [st'] differs from [st] by crossing edges between nodes of
    the component only: no duplicate was allocated and no trie entry
    made. *)
Definition only_crossing (component : VG) (st st' : PhaseUnfolder) : Prop :=
  pu_mapping st' = pu_mapping st ∧ prefixes st' = prefixes st ∧
  suffixes st' = suffixes st ∧ border st' = border st ∧
  ∀ a b, (a, b) ∈ crossing_edges st' →
         (a, b) ∈ crossing_edges st ∨
         (Node.id a ∈ vg_nodes component ∧ Node.id b ∈ vg_nodes component).

(** A state of the search stack of a component whose nodes are all
    border nodes: a walk of one handle, or a walk of two handles that has
    reached a node of the component. *)
Definition short_state (component : VG) (s : state_type) : Prop :=
  (∀ node, node ∈ s.2 → Node.id node ∈ vg_nodes component) ∧
  (length s.2 = 1%nat ∨
   (length s.2 = 2%nat ∧ Node.id (ss_node s.1) ∈ vg_nodes component)).

(** The handle of the original node that the handle [h] stands for. *)
Definition original_handle (M : NodeMapping) (h : Z) : Z :=
  Node.encode (original_id M (Node.id h)) (Node.is_reverse h).

(** A walk every two consecutive handles of which are joined by an edge of
    the set [E]. *)
Definition along (E : NodeSide * NodeSide → Prop) (walk : path_type) : Prop :=
  chain (λ a b, E (pair_from_edge (make_edge a b))) walk.

(** The handle [dup] is known to the table and stands for the handle
    [orig]. *)
Definition original_of (M : NodeMapping) (orig dup : Z) : Prop :=
  original_handle M dup = orig ∧ Node.id dup < next_node M.

(** The two handles have ids that the table knows, and the handles they
    stand for are joined by an edge of the set [E]. *)
Definition stands_for (E : NodeSide * NodeSide → Prop) (M : NodeMapping)
    (a b : Z) : Prop :=
  Node.id a < next_node M ∧ Node.id b < next_node M ∧
  E (pair_from_edge (make_edge (original_handle M a) (original_handle M b))).

(** Every edge that the assembly creates stands for an edge of [E]. *)
Definition links_sound (E : NodeSide * NodeSide → Prop) (st : PhaseUnfolder) : Prop :=
  ∀ a b, linked st a b → stands_for E (pu_mapping st) a b.

(** The state of an object whose duplicates start at [first] and whose
    tries and crossing edges only join copies of handles that an edge of
    [E] joins. *)
Definition sound_state (E : NodeSide * NodeSide → Prop) (first : Z)
    (st : PhaseUnfolder) : Prop :=
  unfolder_ok st ∧ first_node (pu_mapping st) = first ∧ links_sound E st.

(** The table has not used up the ids of 63 bits. *)
Definition table_fits (st : PhaseUnfolder) : Prop :=
  first_node (pu_mapping st) + Z.of_nat (length (mapping (pu_mapping st))) < 2 ^ 63.

(** The object [st'] is [st] after calls of [insert_path] with walks that
    satisfy [Q]. *)
Definition inserted (Q : path_type → Prop) (st st' : PhaseUnfolder) : Prop :=
  ∃ paths, Forall Q paths ∧ st' = insert_paths paths st.

(** A state of the search stack whose walk runs along edges of [E] and
    ends at the node of the search state. *)
Definition thread_state (E : NodeSide * NodeSide → Prop) (s : state_type) : Prop :=
  along E s.2 ∧ last s.2 = Some (ss_node s.1).

(** Every edge of the graph joins two handles that stand for the ends of
    an edge of [E], and every node is the node of such a handle. *)
Definition stands_in (E : NodeSide * NodeSide → Prop) (M : NodeMapping) (g : VG)
    : Prop :=
  (∀ p, p ∈ vg_edges g →
        ∃ a b, stands_for E M a b ∧ p = pair_from_edge (make_edge a b)) ∧
  (∀ n, n ∈ vg_nodes g →
        ∃ a b, stands_for E M a b ∧ (n = Node.id a ∨ n = Node.id b)).

(** The edges of the evidence that the graph lacks. *)
Definition missing_edge (xg_index : XG) (gbwt_index : GBWT) (graph : VG)
    (p : NodeSide * NodeSide) : Prop :=
  evidence_edge xg_index gbwt_index p ∧ p ∉ vg_edges graph.

(** The edges between consecutive handles of the walks. *)
Definition walk_edge (paths : list path_type) (p : NodeSide * NodeSide) : Prop :=
  ∃ walk i a b, walk ∈ paths ∧ walk !! i = Some a ∧ walk !! S i = Some b ∧
                p = pair_from_edge (make_edge a b).

(** The id of the handle can be read from the table: it is below
    first_node or has an entry. *)
Definition known_id (M : NodeMapping) (h : Z) : Prop :=
  Node.id h < first_node M + Z.of_nat (length (mapping M)).

Definition known (st : PhaseUnfolder) (h : Z) : Prop := known_id (pu_mapping st) h.

(** Every handle that the assembly looks up can be read from the table. *)
Definition links_known (st : PhaseUnfolder) : Prop :=
  ∀ a b, linked st a b → known st a ∧ known st b.

(** The table has an entry for every id that next_node has passed. *)
Definition table_covers (M : NodeMapping) : Prop :=
  0 ≤ next_node M ≤ first_node M + Z.of_nat (length (mapping M)).

(** The id [x] is the id of an inner handle of the walk: neither the
    first nor the last one. *)
Definition inner_id (walk : path_type) (x : Z) : Prop :=
  ∃ i node, walk !! i = Some node ∧ (1 ≤ i)%nat ∧ (S i < length walk)%nat ∧
            x = Node.id node.

(** A walk that [unfold_component] inserts: when it has two handles or
    more their ids are below [first], and no inner handle is a border
    node. *)
Definition walk_ok (first : Z) (B : gset Z) (walk : path_type) : Prop :=
  ((2 ≤ length walk)%nat → ∀ node, node ∈ walk → Node.id node < first) ∧
  (∀ x, inner_id walk x → x ∉ B).

(** A state of the search stack of such walks. *)
Definition state_ok (first : Z) (B : gset Z) (s : state_type) : Prop :=
  (∀ node, node ∈ s.2 → Node.id node < first) ∧
  (∀ x, inner_id s.2 x → x ∉ B) ∧
  last s.2 = Some (ss_node s.1).
(** * Properties *)

(** ** Handles *)

Lemma Node_reverse_involutive (node : Z) : Node.reverse (Node.reverse node) = node.
Proof.
  unfold Node.reverse.
  rewrite Z.lxor_assoc, Z.lxor_nilpotent. apply Z.lxor_0_r.
Qed.

Lemma lor_shiftl_b2z (n : Z) (r : bool) :
  0 ≤ n → Z.lor (Z.shiftl n 1) (Z.b2z r) = 2 * n + Z.b2z r.
Proof.
  intros Hn. destruct n as [|p|p]; [by destruct r| |lia].
  destruct r; reflexivity.
Qed.

Lemma Node_encode_small (n : Z) (r : bool) :
  0 ≤ n < 2 ^ 63 → Node.encode n r = 2 * n + Z.b2z r.
Proof.
  intros Hn. unfold Node.encode, wrap64.
  rewrite lor_shiftl_b2z by lia.
  apply Z.mod_small. destruct r; simpl Z.b2z; lia.
Qed.

Lemma Node_id_encode (n : Z) (r : bool) :
  0 ≤ n < 2 ^ 63 → Node.id (Node.encode n r) = n.
Proof.
  intros Hn. rewrite Node_encode_small by done.
  unfold Node.id. rewrite Z.shiftr_div_pow2 by lia.
  change (2 ^ 1) with 2. destruct r; simpl Z.b2z.
  - rewrite Z.mul_comm, Z.div_add_l by lia. change (1 `div` 2) with 0. lia.
  - rewrite Z.add_0_r, Z.mul_comm, Z.div_mul by lia. done.
Qed.

Lemma Node_is_reverse_encode (n : Z) (r : bool) :
  0 ≤ n < 2 ^ 63 → Node.is_reverse (Node.encode n r) = r.
Proof.
  intros Hn. rewrite Node_encode_small by done.
  unfold Node.is_reverse. destruct r; simpl Z.b2z.
  - apply Z.testbit_odd_0.
  - rewrite Z.add_0_r. apply Z.testbit_even_0.
Qed.

(** A handle that fits 64 bits is rebuilt from its id and orientation. *)
Lemma Node_encode_id (node : Z) :
  0 ≤ node < 2 ^ 64 → Node.encode (Node.id node) (Node.is_reverse node) = node.
Proof.
  intros Hn. unfold Node.id, Node.is_reverse.
  rewrite Z.shiftr_div_pow2 by lia. change (2 ^ 1) with 2.
  rewrite Node_encode_small by (split; [apply Z.div_pos; lia|apply Z.div_lt_upper_bound; lia]).
  rewrite Z.bit0_odd.
  pose proof (Z.div_mod node 2 ltac:(lia)) as Hdm.
  rewrite Zmod_odd in Hdm.
  destruct (Z.odd node); simpl Z.b2z; lia.
Qed.

(** ** Canonical orientation *)

Lemma path_lt_asym (a b : path_type) : path_lt a b = true → path_lt b a = false.
Proof.
  revert b. induction a as [|x a IH]; intros [|y b]; simpl; try done.
  destruct (Z.ltb_spec x y), (Z.ltb_spec y x); try done; try lia.
  apply IH.
Qed.

Lemma path_lt_connex (a b : path_type) :
  path_lt a b = false → path_lt b a = false → a = b.
Proof.
  revert b. induction a as [|x a IH]; intros [|y b]; simpl; try done.
  destruct (Z.ltb_spec x y), (Z.ltb_spec y x); try done.
  intros Hab Hba. assert (x = y) as -> by lia. f_equal. by apply IH.
Qed.

Lemma std_min_comm (a b : path_type) : std_min a b = std_min b a.
Proof.
  unfold std_min.
  destruct (path_lt b a) eqn:Hba, (path_lt a b) eqn:Hab; try done.
  - apply path_lt_asym in Hba. congruence.
  - by apply path_lt_connex.
Qed.

Lemma reverse_complement_involutive (path : path_type) :
  reverse_complement (reverse_complement path) = path.
Proof.
  unfold reverse_complement.
  rewrite fmap_reverse, reverse_involutive, <- list_fmap_compose.
  rewrite <- (list_fmap_id path) at 2.
  apply list_fmap_ext. intros _ node _. apply Node_reverse_involutive.
Qed.

Lemma reverse_complement_length (path : path_type) :
  length (reverse_complement path) = length path.
Proof. unfold reverse_complement. by rewrite length_reverse, length_fmap. Qed.

Lemma std_min_length (path : path_type) :
  length (std_min path (reverse_complement path)) = length path.
Proof.
  unfold std_min. destruct (path_lt _ _); [apply reverse_complement_length|done].
Qed.

(** C6 (orientation symmetry).  Inserting a walk and inserting its reverse
    complement (the reversed sequence with every handle flipped) change the
    prefix trie, the suffix trie, the crossing edges and the node mapping in
    exactly the same way, whatever their contents before the call: both
    calls insert the lexicographically smaller of the two walks.  The
    statement covers every walk, in particular those of length at least 2. *)
Theorem insert_path_orientation_symmetry (path : path_type) (st : PhaseUnfolder) :
  insert_path (reverse_complement path) st = insert_path path st.
Proof.
  unfold insert_path.
  rewrite reverse_complement_length, reverse_complement_involutive.
  by rewrite (std_min_comm (reverse_complement path) path).
Qed.

(** ** The trie loops *)

Lemma insert_prefixes_trie_loop children from trie M :
  insert_prefixes children from trie M = trie_loop prefix_key children from trie M.
Proof.
  revert from trie M. induction children as [|child rest IH]; intros; simpl; [done|].
  unfold prefix_key at 1. destruct (trie_step _ _ _ _) as [[dup trie'] M']. apply IH.
Qed.

Lemma insert_suffixes_trie_loop children to trie M :
  insert_suffixes children to trie M = trie_loop suffix_key children to trie M.
Proof.
  revert to trie M. induction children as [|child rest IH]; intros; simpl; [done|].
  unfold suffix_key at 1. destruct (trie_step _ _ _ _) as [[dup trie'] M']. apply IH.
Qed.

Lemma wrap64_small (z : Z) : 0 ≤ z < 2 ^ 64 → wrap64 z = z.
Proof. intros. unfold wrap64. by apply Z.mod_small. Qed.

Lemma NodeMapping_get_insert_old (M : NodeMapping) (node_id d x : Z) :
  NodeMapping_ops.get M d = Some x →
  NodeMapping_ops.get (NodeMapping_ops.insert M node_id).2 d = Some x.
Proof.
  unfold NodeMapping_ops.get, NodeMapping_ops.insert; simpl.
  destruct (d <? first_node M); [done|].
  intros Hl. by apply lookup_app_l_Some.
Qed.

Lemma NodeMapping_get_insert_new (M : NodeMapping) (node_id : Z) :
  NodeMapping_ops.wf M →
  NodeMapping_ops.get (NodeMapping_ops.insert M node_id).2 (next_node M) = Some node_id.
Proof.
  intros (H0 & Hle & Hlen).
  unfold NodeMapping_ops.get, NodeMapping_ops.insert; simpl.
  destruct (Z.ltb_spec (next_node M) (first_node M)); [lia|].
  replace (Z.to_nat (next_node M - first_node M)) with (length (mapping M)) by lia.
  by rewrite lookup_app_r, Nat.sub_diag by lia.
Qed.

Lemma NodeMapping_insert_wf (M : NodeMapping) (node_id : Z) :
  NodeMapping_ops.wf M → next_node M < 2 ^ 63 →
  NodeMapping_ops.wf (NodeMapping_ops.insert M node_id).2.
Proof.
  intros (H0 & Hle & Hlen) Hb.
  unfold NodeMapping_ops.wf, NodeMapping_ops.insert; simpl.
  rewrite wrap64_small by lia. rewrite length_app; simpl. lia.
Qed.

Section TrieLoop.

(** The shape of the keys of a trie: [mk cursor child], from which the
    cursor and the original child are read back. *)
Variable mk : Z → Z → Z * Z.
Variable cur orig : Z * Z → Z.
Hypothesis cur_mk : ∀ c x, cur (mk c x) = c.
Hypothesis orig_mk : ∀ c x, orig (mk c x) = x.

Definition trie_ok (M : NodeMapping) (trie : gmap (Z * Z) Z) : Prop :=
  ∀ key v, trie !! key = Some v → entry_ok M (orig key) v.

Lemma trie_step_ok key child trie M :
  orig key = child →
  NodeMapping_ops.wf M → next_node M < 2 ^ 63 → trie_ok M trie →
  NodeMapping_ops.wf (trie_step key child trie M).2 ∧
  trie_ok (trie_step key child trie M).2 (trie_step key child trie M).1.2 ∧
  (* the table only grows *)
  next_node M ≤ next_node (trie_step key child trie M).2 ≤ next_node M + 1 ∧
  (∀ d x, NodeMapping_ops.get M d = Some x →
          NodeMapping_ops.get (trie_step key child trie M).2 d = Some x).
Proof.
  intros Horig Hwf Hb Hok. unfold trie_step.
  destruct (default 0 (trie !! key) =? 0) eqn:Hz; simpl.
  - pose proof Hwf as (H0 & Hle & Hlen).
    split; [by apply NodeMapping_insert_wf|].
    split; [|split; [rewrite wrap64_small; lia|]].
    + intros key' v. rewrite lookup_insert. case_decide as Hk.
      * intros [= <-]. subst key'. unfold entry_ok.
        rewrite Node_id_encode, Node_is_reverse_encode by lia.
        split; [|by rewrite Horig].
        rewrite Horig. by apply (NodeMapping_get_insert_new M).
      * intros Hl. destruct (Hok _ _ Hl) as [Hg Hr]. split; [|done].
        by apply (NodeMapping_get_insert_old M).
    + intros d x. apply (NodeMapping_get_insert_old M).
  - split; [done|]. split; [done|]. split; [lia|done].
Qed.

Lemma trie_loop_ok children : ∀ cursor trie M,
  NodeMapping_ops.wf M →
  next_node M + Z.of_nat (length children) ≤ 2 ^ 63 →
  trie_ok M trie →
  NodeMapping_ops.wf (trie_loop mk children cursor trie M).2 ∧
  trie_ok (trie_loop mk children cursor trie M).2
          (trie_loop mk children cursor trie M).1.2 ∧
  next_node M ≤ next_node (trie_loop mk children cursor trie M).2
    ≤ next_node M + Z.of_nat (length children) ∧
  (∀ d x, NodeMapping_ops.get M d = Some x →
          NodeMapping_ops.get (trie_loop mk children cursor trie M).2 d = Some x).
Proof.
  induction children as [|child rest IH]; intros cursor trie M Hwf Hb Hok.
  { simpl. split; [done|]. split; [done|]. split; [lia|done]. }
  simpl in Hb |- *.
  pose proof (trie_step_ok (mk cursor child) child trie M (orig_mk _ _) Hwf
                ltac:(lia) Hok) as (Hwf' & Hok' & Hn' & Hget').
  destruct (trie_step (mk cursor child) child trie M) as [[dup trie'] M'].
  simpl in Hwf', Hok', Hn', Hget'.
  destruct (IH dup trie' M' Hwf' ltac:(lia) Hok') as (Hwf'' & Hok'' & Hn'' & Hget'').
  split; [done|]. split; [done|]. split; [lia|].
  intros d x Hd. by apply Hget'', Hget'.
Qed.

(** When every stored key has a cursor older than the current one, each
    step of the loop creates a new entry. *)
Lemma trie_loop_fresh children : ∀ cursor trie M,
  0 ≤ next_node M →
  next_node M + Z.of_nat (length children) ≤ 2 ^ 63 →
  Node.id cursor < next_node M →
  (∀ key, is_Some (trie !! key) → Node.id (cur key) < Node.id cursor) →
  size (trie_loop mk children cursor trie M).1.2 = (size trie + length children)%nat ∧
  next_node (trie_loop mk children cursor trie M).2
    = next_node M + Z.of_nat (length children) ∧
  (∀ key, is_Some (trie !! key) →
          is_Some ((trie_loop mk children cursor trie M).1.2 !! key)) ∧
  (∀ child, child ∈ children →
     ∃ c, is_Some ((trie_loop mk children cursor trie M).1.2 !! mk c child)).
Proof.
  induction children as [|child rest IH]; intros cursor trie M H0 Hb Hc Hold.
  { simpl. split; [lia|]. split; [lia|]. split; [done|].
    intros child Hin. by apply elem_of_nil in Hin. }
  simpl in Hb |- *.
  assert (Hnone : trie !! mk cursor child = None).
  { destruct (trie !! mk cursor child) eqn:Hl; [|done].
    specialize (Hold (mk cursor child) ltac:(eauto)). rewrite cur_mk in Hold. lia. }
  unfold trie_step. rewrite Hnone. simpl.
  set (dup := Node.encode (next_node M) (Node.is_reverse child)).
  set (M' := {| first_node := first_node M; next_node := wrap64 (next_node M + 1);
                mapping := mapping M ++ [Node.id child] |}).
  assert (Hn' : next_node M' = next_node M + 1).
  { subst M'; simpl. apply wrap64_small. lia. }
  assert (Hid : Node.id dup = next_node M) by (apply Node_id_encode; lia).
  destruct (IH dup (<[mk cursor child := dup]> trie) M') as (Hs & Hn & Hk & Hch).
  - lia.
  - lia.
  - lia.
  - intros key. rewrite lookup_insert. case_decide as Hkey.
    + intros _. subst key. rewrite cur_mk. lia.
    + intros Hsome. specialize (Hold key Hsome). lia.
  - rewrite map_size_insert_None in Hs by done.
    split; [lia|]. split; [lia|]. split.
    + intros key Hsome. apply Hk. rewrite lookup_insert. case_decide; [eauto|done].
    + intros child' Hin. apply elem_of_cons in Hin as [->|Hin].
      * exists cursor. apply Hk. rewrite lookup_insert_eq. eauto.
      * by apply Hch.
Qed.

End TrieLoop.

(** ** The tries after [insert_path] *)

Lemma midpoint_bounds (L : nat) :
  (2 ≤ L → 1 ≤ (L + 1) / 2 ∧ (L + 1) / 2 ≤ L - 1 + (L + 1) mod 2 ∧
           (L + 1) / 2 + L / 2 = L ∧ (L + 1) / 2 - 1 + (L - 1 - (L + 1) / 2) = L - 2)%nat.
Proof.
  intros HL.
  pose proof (Nat.div_mod_eq (L + 1) 2). pose proof (Nat.mod_upper_bound (L + 1) 2).
  pose proof (Nat.div_mod_eq L 2). pose proof (Nat.mod_upper_bound L 2).
  lia.
Qed.

Lemma prefix_children_length (T : path_type) :
  (2 ≤ length T)%nat → length (prefix_children T) = ((length T + 1) / 2 - 1)%nat.
Proof.
  intros HL. unfold prefix_children, midpoint.
  rewrite length_take, length_drop.
  pose proof (midpoint_bounds (length T) HL). lia.
Qed.

Lemma suffix_children_length (T : path_type) :
  (2 ≤ length T)%nat → length (suffix_children T) = (length T / 2 - 1)%nat.
Proof.
  intros HL. unfold suffix_children, midpoint.
  rewrite length_reverse, length_take, length_drop.
  pose proof (midpoint_bounds (length T) HL). lia.
Qed.

Lemma children_length_le (T : path_type) :
  (length (prefix_children T) + length (suffix_children T) ≤ length T)%nat.
Proof.
  unfold prefix_children, suffix_children, midpoint.
  rewrite length_reverse, !length_take, !length_drop. lia.
Qed.

Lemma prefix_children_lookup (T : path_type) (i : nat) (child : Z) :
  T !! i = Some child → (1 ≤ i < (length T + 1) / 2)%nat → child ∈ prefix_children T.
Proof.
  intros Hl Hi. unfold prefix_children, midpoint.
  apply list_elem_of_lookup. exists (i - 1)%nat.
  rewrite lookup_take_lt by lia. rewrite lookup_drop.
  by replace (1 + (i - 1))%nat with i by lia.
Qed.

Lemma suffix_children_lookup (T : path_type) (i : nat) (child : Z) :
  T !! i = Some child → ((length T + 1) / 2 ≤ i ≤ length T - 2)%nat →
  child ∈ suffix_children T.
Proof.
  intros Hl Hi. unfold suffix_children, midpoint.
  apply elem_of_reverse, list_elem_of_lookup. exists (i - (length T + 1) / 2)%nat.
  apply lookup_lt_Some in Hl as Hlt.
  pose proof (Nat.div_mod_eq (length T + 1) 2).
  pose proof (Nat.mod_upper_bound (length T + 1) 2).
  rewrite lookup_take_lt by lia. rewrite lookup_drop.
  by replace ((length T + 1) / 2 + (i - (length T + 1) / 2))%nat with i by lia.
Qed.

Lemma entry_ok_mono (M M' : NodeMapping) (orig dup : Z) :
  (∀ d x, NodeMapping_ops.get M d = Some x → NodeMapping_ops.get M' d = Some x) →
  entry_ok M orig dup → entry_ok M' orig dup.
Proof. intros Hm [Hg Hr]. split; [by apply Hm|done]. Qed.

Lemma insert_path_tries_ok (path : path_type) (st : PhaseUnfolder) :
  NodeMapping_ops.wf (pu_mapping st) →
  next_node (pu_mapping st) + Z.of_nat (length path) ≤ 2 ^ 63 →
  tries_ok st →
  NodeMapping_ops.wf (pu_mapping (insert_path path st)) ∧
  tries_ok (insert_path path st) ∧
  next_node (pu_mapping st) ≤ next_node (pu_mapping (insert_path path st))
    ≤ next_node (pu_mapping st) + Z.of_nat (length path).
Proof.
  intros Hwf Hb [HP HS]. unfold insert_path.
  destruct (length path <? 2)%nat; [split; [done|]; split; [by split|lia]|].
  set (T := std_min path (reverse_complement path)).
  assert (HT : length T = length path) by apply std_min_length.
  pose proof (children_length_le T) as Hlen.
  rewrite insert_prefixes_trie_loop.
  pose proof (trie_loop_ok prefix_key snd (λ c x, eq_refl) (prefix_children T)
                (default 0 (head T)) (prefixes st) (pu_mapping st) Hwf ltac:(lia))
    as Hpre.
  destruct Hpre as (Hwf1 & Hok1 & Hn1 & Hg1).
  { intros [u v] d Hl. by apply (HP u). }
  destruct (trie_loop prefix_key _ _ _ _) as [[from pre] M1]. simpl in *.
  rewrite insert_suffixes_trie_loop.
  pose proof (trie_loop_ok suffix_key fst (λ c x, eq_refl) (suffix_children T)
                (default 0 (last T)) (suffixes st) M1 Hwf1 ltac:(lia))
    as Hsuf.
  destruct Hsuf as (Hwf2 & Hok2 & Hn2 & Hg2).
  { intros [v u] d Hl. eapply entry_ok_mono; [exact Hg1|]. by apply (HS u). }
  destruct (trie_loop suffix_key _ _ _ _) as [[to suf] M2]. simpl in *.
  split; [done|]. split; [|lia]. split; simpl.
  - intros u v d Hl. eapply entry_ok_mono; [exact Hg2|]. by apply (Hok1 (u, v)).
  - intros u v d Hl. by apply (Hok2 (v, u)).
Qed.

Lemma insert_paths_tries_ok (paths : list path_type) : ∀ st : PhaseUnfolder,
  NodeMapping_ops.wf (pu_mapping st) →
  next_node (pu_mapping st) + total_length paths ≤ 2 ^ 63 →
  tries_ok st →
  tries_ok (insert_paths paths st).
Proof.
  induction paths as [|path rest IH]; intros st Hwf Hb Hok; [done|].
  simpl in Hb. assert (0 ≤ total_length rest).
  { clear. induction rest; simpl; lia. }
  destruct (insert_path_tries_ok path st Hwf ltac:(lia) Hok) as (Hwf' & Hok' & Hn').
  apply IH; [done|lia|done].
Qed.

(** C7 (trie-entry mapping invariant).  After any sequence of calls of
    insert_path, started from tries that satisfy the invariant (in
    particular from the empty tries of a new object), every stored
    prefix-trie entry P[(u, v_orig)] = v_dup and every stored suffix-trie
    entry S[(v_orig, u)] = v_dup has get_mapping(id(v_dup)) = id(v_orig) and
    the orientation of v_dup equal to that of v_orig.  The table is assumed
    to have one entry per duplicate and the duplicate ids not to overflow
    the 63 bits a handle leaves for an id. *)
Theorem trie_entries_map_back (st0 : PhaseUnfolder) (paths : list path_type) :
  NodeMapping_ops.wf (pu_mapping st0) →
  tries_ok st0 →
  next_node (pu_mapping st0) + total_length paths ≤ 2 ^ 63 →
  ∀ u v_orig v_dup,
    prefixes (insert_paths paths st0) !! (u, v_orig) = Some v_dup ∨
    suffixes (insert_paths paths st0) !! (v_orig, u) = Some v_dup →
    get_mapping (insert_paths paths st0) (Node.id v_dup) = Some (Node.id v_orig) ∧
    Node.is_reverse v_dup = Node.is_reverse v_orig.
Proof.
  intros Hwf Hok Hb u v_orig v_dup Hl.
  destruct (insert_paths_tries_ok paths st0 Hwf Hb Hok) as [HP HS].
  destruct Hl as [Hl|Hl]; [by apply (HP u)|by apply (HS u)].
Qed.

(** ** The midpoint split *)

Lemma Node_id_reverse (node : Z) : Node.id (Node.reverse node) = Node.id node.
Proof.
  unfold Node.id, Node.reverse. rewrite Z.shiftr_lxor.
  change (Z.shiftr 1 1) with 0. apply Z.lxor_0_r.
Qed.

Lemma std_min_ids (path : path_type) (bound : Z) :
  (∀ node, node ∈ path → Node.id node < bound) →
  ∀ node, node ∈ std_min path (reverse_complement path) → Node.id node < bound.
Proof.
  intros Hp node. unfold std_min. destruct (path_lt _ _); [|apply Hp].
  unfold reverse_complement. rewrite elem_of_reverse, list_elem_of_fmap.
  intros (y & -> & Hy). rewrite Node_id_reverse. by apply Hp.
Qed.

Lemma head_elem_of (T : path_type) : (1 ≤ length T)%nat → default 0 (head T) ∈ T.
Proof. destruct T; simpl; [lia|]. intros _. apply elem_of_cons. by left. Qed.

Lemma last_elem_of (T : path_type) : (1 ≤ length T)%nat → default 0 (last T) ∈ T.
Proof.
  intros HT. destruct (last T) as [x|] eqn:Hl.
  - simpl. apply last_Some in Hl as [l' ->]. apply elem_of_app. right.
    apply elem_of_cons. by left.
  - apply last_None in Hl. subst. simpl in HT. lia.
Qed.

(** C5 (midpoint split arithmetic).  A walk of length L >= 2 inserted into
    empty tries creates exactly ceil(L/2) - 1 = (L+1)/2 - 1 prefix-trie
    entries, one for each index from 1 to (L+1)/2 - 1 of the canonical walk,
    exactly floor(L/2) - 1 suffix-trie entries, one for each index from L-2
    down to (L+1)/2, and exactly one crossing edge; the split index is
    (L+1)/2, and one duplicate is allocated per entry.  The handles of the
    walk are handles of the graph, with ids below the first free duplicate
    id, and the duplicate ids fit the 63 bits of a handle. *)
Theorem insert_path_midpoint_split (path : path_type) (st : PhaseUnfolder) :
  (2 ≤ length path)%nat →
  prefixes st = ∅ → suffixes st = ∅ → crossing_edges st = ∅ →
  0 ≤ next_node (pu_mapping st) →
  (∀ node, node ∈ path → Node.id node < next_node (pu_mapping st)) →
  next_node (pu_mapping st) + Z.of_nat (length path) ≤ 2 ^ 63 →
  let L := length path in
  let to_insert := std_min path (reverse_complement path) in
  let st' := insert_path path st in
  midpoint to_insert = ((L + 1) / 2)%nat ∧
  size (prefixes st') = ((L + 1) / 2 - 1)%nat ∧
  size (suffixes st') = (L / 2 - 1)%nat ∧
  size (crossing_edges st') = 1%nat ∧
  (∀ i child, to_insert !! i = Some child → (1 ≤ i < (L + 1) / 2)%nat →
              ∃ from, is_Some (prefixes st' !! (from, child))) ∧
  (∀ i child, to_insert !! i = Some child → ((L + 1) / 2 ≤ i ≤ L - 2)%nat →
              ∃ to, is_Some (suffixes st' !! (child, to))) ∧
  next_node (pu_mapping st') = next_node (pu_mapping st) + Z.of_nat (L - 2).
Proof.
  intros HL HP HS HC H0 Hids Hb L T st'.
  assert (HT : length T = L) by apply std_min_length.
  assert (HidsT : ∀ node, node ∈ T → Node.id node < next_node (pu_mapping st))
    by (by apply std_min_ids).
  pose proof (prefix_children_length T ltac:(lia)) as Hpl.
  pose proof (suffix_children_length T ltac:(lia)) as Hsl.
  pose proof (midpoint_bounds L HL) as Hmid.
  rewrite HT in Hpl, Hsl.
  subst st'. unfold insert_path.
  destruct (Nat.ltb_spec (length path) 2) as [|_]; [lia|]. fold T.
  rewrite insert_prefixes_trie_loop.
  pose proof (trie_loop_fresh prefix_key fst (λ c x, eq_refl) (prefix_children T)
                (default 0 (head T)) (prefixes st) (pu_mapping st) H0 ltac:(lia))
    as Hpre.
  destruct Hpre as (Hps & Hpn & _ & Hpc).
  { apply HidsT, head_elem_of. lia. }
  { intros key [v Hv]. rewrite HP, lookup_empty in Hv. done. }
  destruct (trie_loop prefix_key _ _ _ _) as [[from pre] M1]. simpl in *.
  rewrite insert_suffixes_trie_loop.
  pose proof (trie_loop_fresh suffix_key snd (λ c x, eq_refl) (suffix_children T)
                (default 0 (last T)) (suffixes st) M1 ltac:(lia) ltac:(lia))
    as Hsuf.
  destruct Hsuf as (Hss & Hsn & _ & Hsc).
  { pose proof (HidsT _ (last_elem_of T ltac:(lia))). lia. }
  { intros key [v Hv]. rewrite HS, lookup_empty in Hv. done. }
  destruct (trie_loop suffix_key _ _ _ _) as [[to suf] M2]. simpl in *.
  rewrite HP, map_size_empty in Hps. rewrite HS, map_size_empty in Hss.
  split; [unfold midpoint; by rewrite HT|].
  split; [lia|]. split; [lia|]. split.
  { rewrite HC, union_empty_r_L. apply size_singleton. }
  split; [|split].
  - intros i child Hl Hi. apply (Hpc child).
    apply (prefix_children_lookup T i); [done|]. by rewrite HT.
  - intros i child Hl Hi. destruct (Hsc child) as [c Hc]; [|by exists c].
    apply (suffix_children_lookup T i); [done|]. by rewrite HT.
  - lia.
Qed.

(** ** The verifier on short paths *)

(** C10 (short paths).  For every path of length 0 or 1, of either kind,
    every unfolded graph and every reverse mapping, verify_path returns
    true, whatever bound the loops of the model are given; the failure
    counter of verify_paths is therefore left as it is by such a path. *)
Theorem verify_path_short {T : Type} `{PathOps T} (path : T) (unfolded : VG)
    (reverse_mapping : gmap Z (list Z)) (fuel n : nat) :
  (path_size path < 2)%nat →
  verify_path path unfolded reverse_mapping fuel = Value true ∧
  count_failure (Value n) (verify_path path unfolded reverse_mapping fuel) = Value n.
Proof.
  intros Hshort. unfold verify_path.
  destruct (Nat.ltb_spec (path_size path) 2) as [_|]; [done|lia].
Qed.

Lemma verify_path_short_witness :
  (path_size [4%Z] < 2)%nat ∧
  verify_path [4] VG_ops.empty ∅ 0 = Value true ∧
  count_failure (Value 7%nat) (verify_path [4] VG_ops.empty ∅ 0) = Value 7%nat.
Proof.
  split; [simpl; lia|].
  apply (verify_path_short [4] VG_ops.empty ∅ 0 7). simpl; lia.
Defined.

(** ** Opening the mapping file *)

(** C9 (failure to open the mapping file).  Each method tests its own
    stream.  When the file cannot be opened for reading, read_mapping
    returns normally: it appends one message to standard error, leaves the
    object, hence the node mapping, unchanged and writes nothing.  When the
    file cannot be created, write_mapping returns normally: it appends one
    message to standard error and writes nothing.  Neither depends on what
    the other stream would do. *)
Theorem mapping_file_failure (serialize : NodeMapping → list Z)
    (load : list Z → NodeMapping) (filename : string) (st : PhaseUnfolder)
    (w : World) :
  (readable w !! filename = None →
   (read_mapping load filename st w).1 = st ∧
   pu_mapping (read_mapping load filename st w).1 = pu_mapping st ∧
   cerr (read_mapping load filename st w).2 =
     cerr w ++ [String.append "[PhaseUnfolder]: cannot open mapping file " filename] ∧
   written (read_mapping load filename st w).2 = written w) ∧
  (filename ∉ creatable w →
   cerr (write_mapping serialize filename st w) =
     cerr w ++ [String.append "[PhaseUnfolder]: cannot create mapping file " filename] ∧
   written (write_mapping serialize filename st w) = written w).
Proof.
  split.
  - intros Hread. unfold read_mapping. by rewrite Hread.
  - intros Hcreate. unfold write_mapping.
    by rewrite bool_decide_eq_false_2 by done.
Qed.

Lemma mapping_file_failure_witness :
  let can_create :=
    {| readable := ∅; creatable := {[ "m.map"%string ]}; written := ∅; cerr := [] |} in
  let can_read :=
    {| readable := {[ "m.map"%string := [7] ]}; creatable := ∅; written := ∅;
       cerr := [] |} in
  let st := PhaseUnfolder_new 5 in
  ((read_mapping (λ _, NodeMapping_ops.make 0) "m.map" st can_create).1 = st ∧
   cerr (read_mapping (λ _, NodeMapping_ops.make 0) "m.map" st can_create).2 =
     ["[PhaseUnfolder]: cannot open mapping file m.map"%string]) ∧
  (cerr (write_mapping mapping "m.map" st can_read) =
     ["[PhaseUnfolder]: cannot create mapping file m.map"%string] ∧
   written (write_mapping mapping "m.map" st can_read) = ∅).
Proof.
  intros can_create can_read st. split.
  - destruct (mapping_file_failure mapping (λ _, NodeMapping_ops.make 0) "m.map" st
                can_create) as [Hread _].
    destruct Hread as (Hst & _ & Hcerr & _); [reflexivity|].
    split; [exact Hst|exact Hcerr].
  - destruct (mapping_file_failure mapping (λ _, NodeMapping_ops.make 0) "m.map" st
                can_read) as [_ Hwrite].
    destruct Hwrite as (Hcerr & Hwritten); [apply not_elem_of_empty|].
    split; [exact Hcerr|exact Hwritten].
Defined.

(** ** The verifier on a broken chain *)

(** C2 (verifier search), evaluated where it fails.  The walk 1+ 2+ 3+,
    given as a thread and as a reference path, is accepted by verify_path
    in a graph that holds only 1+ -> 4+ and 5+ -> 3+, with 4 and 5 the
    duplicates of node 2, although no choice of one candidate per position
    makes both consecutive edges present: after 1+ -> 4+ the search
    switches the current node to the next duplicate 5 without checking
    the edge that enters it. *)
Theorem verify_path_accepts_broken_chain :
  verify_path [2; 4; 6] Scenario.broken_chain Scenario.two_duplicates 2 = Value true ∧
  verify_path [(1, false); (2, false); (3, false)]
              Scenario.broken_chain Scenario.two_duplicates 2 = Value true ∧
  ¬ (∃ choice : list Z,
       realised_by [2; 4; 6] Scenario.broken_chain Scenario.two_duplicates choice).
Proof.
  split; [by vm_compute|]. split; [by vm_compute|].
  intros (choice & Hlen & Hcand & Hedge).
  destruct choice as [|c0 [|c1 [|c2 [|]]]]; try discriminate Hlen.
  pose proof (Hcand 0%nat c0 eq_refl) as H0.
  pose proof (Hcand 1%nat c1 eq_refl) as H1.
  pose proof (Hcand 2%nat c2 eq_refl) as H2.
  pose proof (Hedge 0%nat c0 c1 eq_refl eq_refl) as E0.
  pose proof (Hedge 1%nat c1 c2 eq_refl eq_refl) as E1.
  change (c0 ∈ [1]) in H0. change (c1 ∈ [4; 5]) in H1. change (c2 ∈ [3]) in H2.
  apply list_elem_of_singleton in H0 as ->.
  apply list_elem_of_singleton in H2 as ->.
  apply elem_of_cons in H1 as [->|H1].
  - vm_compute in E1. discriminate E1.
  - apply list_elem_of_singleton in H1 as ->. vm_compute in E0. discriminate E0.
Qed.

(** ** A pruned region without border node *)

(** C1 (evidence preservation), evaluated where it fails.  The index holds
    the reference path 1+ 2+ 3+ and no haplotype, the pruned graph kept
    none of these nodes: the complement component 1 - 2 - 3 has no border
    node, unfold generates no walk and returns the graph as it was, and
    verify_paths counts one failure.  For comparison, when the graph kept
    the end nodes of the two paths 1+ 2+ 3+ and 1+ 4+ 3+, verify_paths
    returns 0 on the graph that unfold returns. *)
Theorem unfold_loses_borderless_path :
  let st := PhaseUnfolder_new 5 in
  unfold Scenario.one_path GBWT_ops.empty_index 0 Scenario.pruned_away st
    = Value (Scenario.pruned_away, st) ∧
  verify_paths Scenario.one_path GBWT_ops.empty_index 1 Scenario.pruned_away st
    = Value 1%nat ∧
  unfold Scenario.two_paths Scenario.both_orientations 4 Scenario.kept_ends st
    = Value (Scenario.unfolded_ends, Scenario.after_unfold) ∧
  verify_paths Scenario.two_paths Scenario.both_orientations 2
               Scenario.unfolded_ends Scenario.after_unfold
    = Value 0%nat.
Proof. repeat split; by vm_compute. Qed.

(** C3 (restore/unfold equivalence), evaluated where it fails.  On the
    same input, with an empty haplotype index, unfold returns the graph
    unchanged while restore_paths adds the nodes 1, 2, 3 and the edges
    1+ -> 2+ and 2+ -> 3+; renaming duplicates back to originals does not
    make the two results equal.  For comparison, when the graph kept the
    end nodes of the two paths 1+ 2+ 3+ and 1+ 4+ 3+, the graph that unfold
    returns, with its duplicates renamed, is the graph that restore_paths
    returns. *)
Theorem unfold_differs_from_restore_paths :
  let st := PhaseUnfolder_new 5 in
  unfold Scenario.one_path GBWT_ops.empty_index 0 Scenario.pruned_away st
    = Value (Scenario.pruned_away, st) ∧
  restore_paths Scenario.one_path Scenario.pruned_away
    = graph_of [1; 2; 3; 4] [(2, 4); (4, 6)] ∧
  fold_duplicates (pu_mapping st) Scenario.pruned_away
    ≠ restore_paths Scenario.one_path Scenario.pruned_away ∧
  unfold Scenario.two_paths GBWT_ops.empty_index 0 Scenario.kept_ends st
    = Value (Scenario.unfolded_ends, Scenario.after_unfold) ∧
  fold_duplicates (pu_mapping Scenario.after_unfold) Scenario.unfolded_ends
    = restore_paths Scenario.two_paths Scenario.kept_ends.
Proof.
  split; [by vm_compute|]. split; [by vm_compute|]. split; [|split; by vm_compute].
  intros Heq. apply (f_equal (λ g, size (vg_edges g))) in Heq.
  vm_compute in Heq. discriminate Heq.
Qed.

(** ** The reads of the table by the assembly *)

Lemma get_mapping_known (st : PhaseUnfolder) (h : Z) :
  is_Some (get_mapping st (Node.id h)) ↔ known st h.
Proof.
  unfold get_mapping, NodeMapping_ops.get, known, known_id.
  destruct (Z.ltb_spec (Node.id h) (first_node (pu_mapping st))).
  - split; [lia|by eauto].
  - rewrite lookup_lt_is_Some. lia.
Qed.

Lemma insert_node_value (st : PhaseUnfolder) (u : VG) (node : Z) :
  known st node →
  insert_node st (Value u) node = Value (VG_ops.add_node u (Node.id node)).
Proof.
  intros Hk. apply get_mapping_known in Hk as [x Hx]. unfold insert_node.
  by rewrite Hx.
Qed.

Lemma insert_node_inv (st : PhaseUnfolder) (o : outcome VG) (node : Z) (g : VG) :
  insert_node st o node = Value g →
  ∃ u, o = Value u ∧ g = VG_ops.add_node u (Node.id node) ∧ known st node.
Proof.
  unfold insert_node. destruct o as [u| |]; [|done..].
  destruct (get_mapping st (Node.id node)) as [x|] eqn:Hx; [|done].
  intros [= <-]. exists u. split; [done|]. split; [done|].
  apply get_mapping_known. by exists x.
Qed.

Lemma insert_edge_value (st : PhaseUnfolder) (u : VG) (from to : Z) :
  known st from → known st to →
  insert_edge st (Value u) from to = Value (link u from to).
Proof.
  intros Hf Ht. unfold insert_edge.
  by rewrite (insert_node_value st u from Hf), (insert_node_value st _ to Ht).
Qed.

Lemma insert_edge_inv (st : PhaseUnfolder) (o : outcome VG) (from to : Z) (g : VG) :
  insert_edge st o from to = Value g →
  ∃ u, o = Value u ∧ g = link u from to ∧ known st from ∧ known st to.
Proof.
  unfold insert_edge.
  destruct (insert_node st (insert_node st o from) to) as [u2| |] eqn:H2; [|done..].
  intros [= <-].
  apply insert_node_inv in H2 as (u1 & H1 & -> & Ht).
  apply insert_node_inv in H1 as (u & -> & -> & Hf).
  by exists u.
Qed.

Lemma insert_edge_fuel (st : PhaseUnfolder) (o : outcome VG) (from to : Z) :
  insert_edge st o from to = OutOfFuel → o = OutOfFuel.
Proof.
  unfold insert_edge, insert_node. destruct o as [u| |]; [|done..].
  destruct (get_mapping st (Node.id from)); [|done].
  by destruct (get_mapping st (Node.id to)).
Qed.

Lemma foldl_insert_edge_value {A : Type} (f g : A → Z) (st : PhaseUnfolder)
    (l : list A) : ∀ u : VG,
  (∀ m, m ∈ l → known st (f m) ∧ known st (g m)) →
  foldl (λ u m, insert_edge st u (f m) (g m)) (Value u) l
  = Value (foldl (λ u m, link u (f m) (g m)) u l).
Proof.
  induction l as [|a l IH]; intros u Hl; [done|]. simpl.
  destruct (Hl a ltac:(by left)) as [Hf Hg].
  rewrite (insert_edge_value st u (f a) (g a) Hf Hg). apply IH.
  intros m Hm. apply Hl. by right.
Qed.

Lemma foldl_insert_edge_inv {A : Type} (f g : A → Z) (st : PhaseUnfolder)
    (l : list A) : ∀ (o : outcome VG) (r : VG),
  foldl (λ u m, insert_edge st u (f m) (g m)) o l = Value r →
  ∃ u, o = Value u ∧ r = foldl (λ u m, link u (f m) (g m)) u l ∧
       ∀ m, m ∈ l → known st (f m) ∧ known st (g m).
Proof.
  induction l as [|a l IH]; intros o r Hr; simpl in Hr.
  { exists r. split; [done|]. split; [done|]. intros m Hm. by apply elem_of_nil in Hm. }
  destruct (IH _ _ Hr) as (u1 & H1 & -> & Hl).
  apply insert_edge_inv in H1 as (u & -> & -> & Hf & Hg).
  exists u. split; [done|]. split; [done|].
  intros m Hm. apply elem_of_cons in Hm as [->|Hm]; [done|by apply Hl].
Qed.

Lemma foldl_insert_edge_fuel {A : Type} (f g : A → Z) (st : PhaseUnfolder)
    (l : list A) : ∀ o : outcome VG,
  foldl (λ u m, insert_edge st u (f m) (g m)) o l = OutOfFuel → o = OutOfFuel.
Proof.
  induction l as [|a l IH]; intros o Hr; simpl in Hr; [done|].
  by apply IH, insert_edge_fuel in Hr.
Qed.

Lemma linked_lists (st : PhaseUnfolder) (a b : Z) :
  linked st a b ↔
  (∃ m, m ∈ map_to_list (prefixes st) ∧ a = m.1.1 ∧ b = m.2) ∨
  (∃ m, m ∈ map_to_list (suffixes st) ∧ a = m.2 ∧ b = m.1.2) ∨
  (∃ e, e ∈ elements (crossing_edges st) ∧ a = e.1 ∧ b = e.2).
Proof.
  unfold linked. split.
  - intros [[c Hc]|[[c Hc]|Hc]].
    + left. exists ((a, c), b). split; [by apply elem_of_map_to_list|done].
    + right; left. exists ((c, b), a). split; [by apply elem_of_map_to_list|done].
    + right; right. exists (a, b). split; [by apply elem_of_elements|done].
  - intros [([[x c] v] & Hm & -> & ->)|[([[c x] v] & Hm & -> & ->)
             |([x y] & Hm & -> & ->)]].
    + left. exists c. by apply elem_of_map_to_list in Hm.
    + right; left. exists c. by apply elem_of_map_to_list in Hm.
    + right; right. by apply elem_of_elements in Hm.
Qed.

(** When every handle of the tries and of the crossing edges can be read
    from the table, the three loops return the graph [assembled]. *)
Lemma assemble_value (st : PhaseUnfolder) (unfolded : VG) :
  links_known st → assemble st unfolded = Value (assembled st unfolded).
Proof.
  intros Hk. unfold assemble, assembled.
  rewrite (foldl_insert_edge_value (λ m : Z * Z * Z, m.1.1) (λ m, m.2)).
  2: { intros m Hm. apply Hk, linked_lists. left. by exists m. }
  rewrite (foldl_insert_edge_value (λ m : Z * Z * Z, m.2) (λ m, m.1.2)).
  2: { intros m Hm. apply Hk, linked_lists. right; left. by exists m. }
  rewrite (foldl_insert_edge_value (λ e : Z * Z, e.1) (λ e, e.2)).
  2: { intros m Hm. apply Hk, linked_lists. right; right. by exists m. }
  done.
Qed.

(** They return no other graph, and a graph only when no read is out of
    range. *)
Lemma assemble_inv (st : PhaseUnfolder) (unfolded g : VG) :
  assemble st unfolded = Value g → g = assembled st unfolded ∧ links_known st.
Proof.
  unfold assemble. intros Hr.
  apply (foldl_insert_edge_inv (λ e : Z * Z, e.1) (λ e, e.2)) in Hr
    as (u2 & H2 & -> & Hk3).
  apply (foldl_insert_edge_inv (λ m : Z * Z * Z, m.2) (λ m, m.1.2)) in H2
    as (u1 & H1 & -> & Hk2).
  apply (foldl_insert_edge_inv (λ m : Z * Z * Z, m.1.1) (λ m, m.2)) in H1
    as (u0 & [= <-] & -> & Hk1).
  split; [done|]. intros a b Hl.
  apply linked_lists in Hl as [(m & Hm & -> & ->)|[(m & Hm & -> & ->)
                                |(m & Hm & -> & ->)]]; auto.
Qed.

Lemma assemble_fuel (st : PhaseUnfolder) (unfolded : VG) :
  assemble st unfolded ≠ OutOfFuel.
Proof.
  unfold assemble. intros Hr.
  apply (foldl_insert_edge_fuel (λ e : Z * Z, e.1) (λ e, e.2)) in Hr.
  apply (foldl_insert_edge_fuel (λ m : Z * Z * Z, m.2) (λ m, m.1.2)) in Hr.
  by apply (foldl_insert_edge_fuel (λ m : Z * Z * Z, m.1.1) (λ m, m.2)) in Hr.
Qed.

(** ** Two paths over four kept nodes *)

(** C4, the scenario as stated: it is not the case that unfold, run on the
    two paths 1+ 2+ 3+ and 1+ 4+ 3+ over the graph with the nodes 1, 2, 3, 4
    and no edge, raises next_node by 2. *)
Lemma two_paths_next_node_not_raised :
  ¬ (∃ graph st,
       unfold Scenario.two_paths GBWT_ops.empty_index 0 Scenario.four_nodes
              (PhaseUnfolder_new 5) = Value (graph, st) ∧
       next_node (pu_mapping st) = 5 + 2).
Proof.
  intros (graph & st & Hrun & Hnext).
  vm_compute in Hrun. injection Hrun as <- <-. discriminate Hnext.
Qed.

(** C4 as amended.  With the two paths 1+ 2+ 3+ and 1+ 4+ 3+, an empty
    haplotype index and a graph holding the nodes 1, 2, 3, 4 and no edge,
    the complement is one component whose four nodes are all border nodes;
    every walk stops at the next border node, so only the four canonical
    walks 1+ 2+, 2+ 3+, 1+ 4+ and 3- 4- (the smaller orientation of 4+ 3+)
    of length 2 are inserted: the tries stay empty, no duplicate id is
    allocated (the node mapping, hence next_node, is unchanged), the
    crossing edges are these four walks and the order in which the hash
    set of border nodes is visited plays no role; when the object was
    created with a next_node above 4, so that the assembly reads the ids
    1 to 4 from the table as original ids, unfold returns the graph
    extended by the four missing edges under the original ids.  What the
    scenario expects is what unfold does when the graph kept the end nodes
    1 and 3 only: the two canonical walks 1+ 2+ 3+ and 1+ 4+ 3+ are
    inserted, the interior handles 2+ and 4+ receive the two distinct
    duplicate ids 5 and 6, next_node goes from 5 to 7, and each crossing
    edge joins the duplicate that ends the prefix to 3+. *)
Theorem two_paths_unfold (next : Z) (fuel : nat) :
  let st := PhaseUnfolder_new next in
  let component := graph_of [1; 2; 3; 4] Scenario.four_edges in
  let st0 := find_border component Scenario.four_nodes st in
  let st0' := find_border component Scenario.kept_ends (PhaseUnfolder_new 5) in
  let M' := {| first_node := 5; next_node := 7; mapping := [2; 4] |} in
  (* all four nodes kept *)
  complement_components Scenario.two_paths GBWT_ops.empty_index Scenario.four_nodes
    = [component] ∧
  border st0 = list_to_set [1; 2; 3; 4] ∧
  (∀ order, order ≡ₚ elements (border st0) →
     generate_all Scenario.two_paths GBWT_ops.empty_index fuel component order st0
     = Value {| pu_mapping := pu_mapping st; border := border st0;
                prefixes := ∅; suffixes := ∅;
                crossing_edges := list_to_set [(2, 4); (4, 6); (2, 8); (7, 9)] |}) ∧
  (4 < next < 2 ^ 64 →
   unfold Scenario.two_paths GBWT_ops.empty_index fuel Scenario.four_nodes st
     = Value (graph_of [1; 2; 3; 4] Scenario.four_edges, st)) ∧
  (* only the end nodes kept *)
  complement_components Scenario.two_paths GBWT_ops.empty_index Scenario.kept_ends
    = [component] ∧
  border st0' = list_to_set [1; 3] ∧
  (∀ order, order ≡ₚ elements (border st0') →
     generate_all Scenario.two_paths GBWT_ops.empty_index fuel component order st0'
     = Value {| pu_mapping := M'; border := border st0';
                prefixes := {[ (2, 4) := 10; (2, 8) := 12 ]}; suffixes := ∅;
                crossing_edges := list_to_set [(10, 6); (12, 6)] |}) ∧
  unfold Scenario.two_paths GBWT_ops.empty_index fuel Scenario.kept_ends
         (PhaseUnfolder_new 5)
    = Value (Scenario.unfolded_ends, Scenario.after_unfold).
Proof.
  assert (Hall : ∀ (order : list Z) (start : PhaseUnfolder) (P : list Z → Prop),
            order ≡ₚ elements (border start) →
            Forall P (permutations (elements (border start))) → P order).
  { intros order start P Hperm HP. eapply Forall_forall; [exact HP|].
    by apply permutations_Permutation. }
  cbv zeta. unfold PhaseUnfolder_new.
  assert (Hw : 4 < next < 2 ^ 64 → wrap64 next = next) by (intros; apply wrap64_small; lia).
  change (wrap64 5) with 5.
  revert Hw. generalize (wrap64 next). intros w Hw.
  set (component := graph_of [1; 2; 3; 4] Scenario.four_edges).
  set (st := {| pu_mapping := NodeMapping_ops.make w; border := ∅; prefixes := ∅;
                suffixes := ∅; crossing_edges := ∅ |}).
  assert (Hcomp : complement_components Scenario.two_paths GBWT_ops.empty_index
                    Scenario.four_nodes = [component]) by (by vm_compute).
  assert (Hgen : ∀ order,
            order ≡ₚ elements (border (find_border component Scenario.four_nodes st)) →
            generate_all Scenario.two_paths GBWT_ops.empty_index fuel component order
              (find_border component Scenario.four_nodes st)
            = Value {| pu_mapping := pu_mapping st;
                       border := border (find_border component Scenario.four_nodes st);
                       prefixes := ∅; suffixes := ∅;
                       crossing_edges :=
                         list_to_set [(2, 4); (4, 6); (2, 8); (7, 9)] |}).
  { intros order Hperm. pattern order.
    apply (Hall order (find_border component Scenario.four_nodes st)); [exact Hperm|].
    set (l := permutations _). vm_compute in l. subst l.
    repeat (apply Forall_cons; split; [destruct fuel; by vm_compute|]).
    apply Forall_nil_2. }
  split; [done|]. split; [by vm_compute|]. split; [exact Hgen|].
  split.
  { intros Hnext. unfold unfold. rewrite Hcomp.
    cbn [unfold_components]. unfold unfold_component.
    rewrite (Hgen _ (reflexivity _)).
    rewrite assemble_value.
    2: { intros a b [[x Hl]|[[x Hl]|Hl]]; cbn [prefixes suffixes crossing_edges] in Hl.
         - by rewrite lookup_empty in Hl.
         - by rewrite lookup_empty in Hl.
         - apply elem_of_list_to_set in Hl.
           rewrite !elem_of_cons, elem_of_nil in Hl.
           unfold known, known_id. cbn [pu_mapping st NodeMapping_ops.make
             first_node mapping length].
           rewrite (Hw Hnext).
           destruct Hl as [Hl|[Hl|[Hl|[Hl|[]]]]]; injection Hl as -> ->;
             split; vm_compute Node.id; lia. }
    by vm_compute. }
  split; [by vm_compute|]. split; [by vm_compute|]. split.
  { intros order Hperm.
    pattern order.
    apply (Hall order (find_border component Scenario.kept_ends
                         {| pu_mapping := NodeMapping_ops.make 5; border := ∅;
                            prefixes := ∅; suffixes := ∅; crossing_edges := ∅ |}));
      [exact Hperm|].
    set (l := permutations _). vm_compute in l. subst l.
    repeat (apply Forall_cons; split; [destruct fuel; by vm_compute|]).
    apply Forall_nil_2. }
  destruct fuel; by vm_compute.
Qed.

Lemma two_paths_unfold_witness :
  unfold Scenario.two_paths GBWT_ops.empty_index 0 Scenario.four_nodes
         (PhaseUnfolder_new 5)
  = Value (graph_of [1; 2; 3; 4] Scenario.four_edges, PhaseUnfolder_new 5).
Proof.
  destruct (two_paths_unfold 5 0) as (_ & _ & _ & Hunfold & _).
  apply Hunfold. lia.
Defined.

(** ** A border node entered by a one-way thread *)


(** ** Instances of the statements with side conditions *)

Lemma insert_path_midpoint_split_witness :
  let st' := insert_path [2; 4; 6; 8; 10] (PhaseUnfolder_new 7) in
  size (prefixes st') = 2%nat ∧ size (suffixes st') = 1%nat ∧
  size (crossing_edges st') = 1%nat ∧ next_node (pu_mapping st') = 10.
Proof.
  destruct (insert_path_midpoint_split [2; 4; 6; 8; 10] (PhaseUnfolder_new 7))
    as (_ & Hp & Hs & Hc & _ & _ & Hn).
  - simpl. rewrite ?wrap64_small by lia. lia.
  - reflexivity.
  - reflexivity.
  - reflexivity.
  - simpl. rewrite ?wrap64_small by lia. lia.
  - intros node Hin. rewrite !elem_of_cons in Hin.
    destruct Hin as [->|[->|[->|[->|[->|Hin]]]]];
      [reflexivity..|by apply elem_of_nil in Hin].
  - simpl. rewrite ?wrap64_small by lia. lia.
  - split; [exact Hp|]. split; [exact Hs|]. split; [exact Hc|exact Hn].
Defined.

Lemma trie_entries_map_back_witness :
  let st := insert_paths [[2; 4; 6; 8; 10]; [2; 4; 12]] (PhaseUnfolder_new 7) in
  prefixes st !! (2, 4) = Some 14 ∧
  get_mapping st (Node.id 14) = Some (Node.id 4) ∧
  Node.is_reverse 14 = Node.is_reverse 4.
Proof.
  split; [reflexivity|].
  apply (trie_entries_map_back (PhaseUnfolder_new 7) [[2; 4; 6; 8; 10]; [2; 4; 12]])
    with (u := 2).
  - unfold NodeMapping_ops.wf. simpl. rewrite ?wrap64_small by lia. lia.
  - split; intros u v_orig v_dup Hl; simpl in Hl; by rewrite lookup_empty in Hl.
  - simpl. rewrite ?wrap64_small by lia. lia.
  - left. reflexivity.
Defined.

(** ** Walk ends keep their ids *)

Lemma trie_step_keeps key child trie M key' :
  is_Some (trie !! key') → is_Some ((trie_step key child trie M).1.2 !! key').
Proof.
  intros Hs. unfold trie_step. destruct (default 0 (trie !! key) =? 0); simpl; [|done].
  rewrite lookup_insert. case_decide; [eauto|done].
Qed.

Lemma trie_step_key key child trie M :
  is_Some ((trie_step key child trie M).1.2 !! key).
Proof.
  unfold trie_step. destruct (default 0 (trie !! key) =? 0) eqn:Hz; simpl.
  - rewrite lookup_insert_eq. eauto.
  - destruct (trie !! key); [eauto|]. simpl in Hz. done.
Qed.

Lemma trie_loop_keeps mk children : ∀ cursor trie M key,
  is_Some (trie !! key) →
  is_Some ((trie_loop mk children cursor trie M).1.2 !! key).
Proof.
  induction children as [|child rest IH]; intros cursor trie M key Hs; [done|].
  simpl. pose proof (trie_step_keeps (mk cursor child) child trie M key Hs) as Hk.
  destruct (trie_step _ _ _ _) as [[dup trie'] M']. by apply IH.
Qed.

Lemma trie_loop_root mk child rest cursor trie M :
  is_Some ((trie_loop mk (child :: rest) cursor trie M).1.2 !! mk cursor child).
Proof.
  simpl. pose proof (trie_step_key (mk cursor child) child trie M) as Hk.
  destruct (trie_step _ _ _ _) as [[dup trie'] M']. by apply trie_loop_keeps.
Qed.

Lemma insert_path_border (path : path_type) (st : PhaseUnfolder) :
  border (insert_path path st) = border st.
Proof.
  unfold insert_path. destruct (length path <? 2)%nat; [done|].
  destruct (insert_prefixes _ _ _ _) as [[from pre] M1].
  by destruct (insert_suffixes _ _ _ _) as [[to suf] M2].
Qed.

Lemma insert_path_keeps (path : path_type) (st : PhaseUnfolder) (node : Z) :
  anchored st node → anchored (insert_path path st) node.
Proof.
  intros Ha. unfold insert_path. destruct (length path <? 2)%nat; [done|].
  set (T := std_min path (reverse_complement path)).
  rewrite insert_prefixes_trie_loop.
  pose proof (trie_loop_keeps prefix_key (prefix_children T) (default 0 (head T))
                (prefixes st) (pu_mapping st)) as Hpre.
  destruct (trie_loop prefix_key _ _ _ _) as [[from pre] M1].
  rewrite insert_suffixes_trie_loop.
  pose proof (trie_loop_keeps suffix_key (suffix_children T) (default 0 (last T))
                (suffixes st) M1) as Hsuf.
  destruct (trie_loop suffix_key _ _ _ _) as [[to suf] M2].
  simpl in *. unfold anchored in *; simpl.
  destruct Ha as [[c Hc]|[[c Hc]|[[o Ho]|[o Ho]]]].
  - left. exists c. by apply Hpre.
  - right; left. exists c. by apply Hsuf.
  - right; right; left. exists o. apply elem_of_union. by right.
  - right; right; right. exists o. apply elem_of_union. by right.
Qed.

Lemma insert_path_anchors_ends (path : path_type) (st : PhaseUnfolder) :
  (2 ≤ length path)%nat →
  let T := std_min path (reverse_complement path) in
  anchored (insert_path path st) (default 0 (head T)) ∧
  anchored (insert_path path st) (default 0 (last T)).
Proof.
  intros HL T. unfold insert_path.
  destruct (Nat.ltb_spec (length path) 2) as [|_]; [lia|]. fold T.
  rewrite insert_prefixes_trie_loop.
  assert (Hpre :
    (prefix_children T = [] ∧
     (trie_loop prefix_key (prefix_children T) (default 0 (head T))
        (prefixes st) (pu_mapping st)).1.1 = default 0 (head T)) ∨
    ∃ child, is_Some ((trie_loop prefix_key (prefix_children T) (default 0 (head T))
                         (prefixes st) (pu_mapping st)).1.2
                      !! (default 0 (head T), child))).
  { destruct (prefix_children T) as [|child rest]; [by left|].
    right. exists child. apply (trie_loop_root prefix_key). }
  destruct (trie_loop prefix_key _ _ _ _) as [[from pre] M1].
  rewrite insert_suffixes_trie_loop.
  assert (Hsuf :
    (suffix_children T = [] ∧
     (trie_loop suffix_key (suffix_children T) (default 0 (last T))
        (suffixes st) M1).1.1 = default 0 (last T)) ∨
    ∃ child, is_Some ((trie_loop suffix_key (suffix_children T) (default 0 (last T))
                         (suffixes st) M1).1.2
                      !! (child, default 0 (last T)))).
  { destruct (suffix_children T) as [|child rest]; [by left|].
    right. exists child. apply (trie_loop_root suffix_key). }
  destruct (trie_loop suffix_key _ _ _ _) as [[to suf] M2].
  simpl in *. unfold anchored; simpl. split.
  - destruct Hpre as [[_ ->]|[child Hc]]; [|left; by exists child].
    right; right; left. exists to.
    apply elem_of_union; left. by apply elem_of_singleton.
  - destruct Hsuf as [[_ ->]|[child Hc]]; [|right; left; by exists child].
    right; right; right. exists from.
    apply elem_of_union; left. by apply elem_of_singleton.
Qed.

Lemma last_reverse_complement (path : path_type) :
  last (reverse_complement path) = Node.reverse <$> head path.
Proof.
  unfold reverse_complement. rewrite last_reverse. by destruct path.
Qed.

Lemma insert_path_anchors_start (path : path_type) (st : PhaseUnfolder) :
  (2 ≤ length path)%nat →
  anchored_id (insert_path path st) (Node.id (default 0 (head path))).
Proof.
  intros HL. destruct (insert_path_anchors_ends path st HL) as [Hh Hl].
  unfold std_min in Hh, Hl. destruct (path_lt _ _).
  - eexists. split; [exact Hl|].
    rewrite last_reverse_complement. destruct path as [|node rest]; [simpl in HL; lia|].
    simpl. apply Node_id_reverse.
  - eexists. split; [exact Hh|done].
Qed.

Lemma anchored_id_keeps (path : path_type) (st : PhaseUnfolder) (id : Z) :
  anchored_id st id → anchored_id (insert_path path st) id.
Proof. intros (node & Ha & Hid). exists node. split; [by apply insert_path_keeps|done]. Qed.

(** ** The assembly *)

Lemma link_nodes (unfolded : VG) (from to : Z) :
  vg_nodes (link unfolded from to)
    = {[ Node.id to ]} ∪ ({[ Node.id from ]} ∪ vg_nodes unfolded).
Proof. reflexivity. Qed.



(** ** Handles of any id *)

Lemma Node_is_reverse_encode_any (n : Z) (r : bool) :
  Node.is_reverse (Node.encode n r) = r.
Proof.
  unfold Node.is_reverse, Node.encode, wrap64.
  rewrite Z.mod_pow2_bits_low by lia.
  rewrite Z.lor_spec, Z.shiftl_spec_low by lia.
  simpl. apply Z.b2z_bit0.
Qed.

Lemma Node_id_encode_any (n : Z) (r : bool) :
  Node.id (Node.encode n r) = n mod 2 ^ 63.
Proof.
  unfold Node.id, Node.encode, wrap64.
  apply Z.bits_inj'. intros k Hk.
  rewrite Z.shiftr_spec by lia.
  destruct (Z.lt_ge_cases k 63) as [Hlt|Hge].
  - rewrite !Z.mod_pow2_bits_low by lia.
    rewrite Z.lor_spec, Z.shiftl_spec by lia.
    replace (k + 1 - 1) with k by lia.
    replace (Z.testbit (Z.b2z r) (k + 1)) with false; [apply orb_false_r|].
    symmetry. rewrite <- (Z.shiftr_spec (Z.b2z r) 1 k) by lia.
    destruct r; simpl; apply Z.bits_0.
  - rewrite !Z.mod_pow2_bits_high by lia. done.
Qed.

Lemma path_handle_id (flip : bool) (step : Z * bool) :
  0 ≤ step.1 < 2 ^ 63 → Node.id (path_handle flip step) = step.1.
Proof.
  intros Hr. unfold path_handle. rewrite Node_id_encode_any. by apply Z.mod_small.
Qed.

Lemma side_leb_total (a b : NodeSide) : side_leb a b = false → side_leb b a = true.
Proof.
  unfold side_leb. destruct a as [n r], b as [n' r']; simpl.
  destruct (Z.ltb_spec n n'), (Z.ltb_spec n' n), (Z.eqb_spec n n'), (Z.eqb_spec n' n),
    r, r'; simpl; try done; lia.
Qed.

Lemma side_leb_antisym (a b : NodeSide) :
  side_leb a b = true → side_leb b a = true → a = b.
Proof.
  unfold side_leb. destruct a as [n r], b as [n' r']; simpl.
  destruct (Z.ltb_spec n n'), (Z.ltb_spec n' n), (Z.eqb_spec n n'), (Z.eqb_spec n' n),
    r, r'; simpl; try done; try lia; intros; by subst.
Qed.

(** An edge and the same edge read from its other end are one edge of the
    graph store. *)
Lemma pair_from_edge_flip (e : Edge) :
  pair_from_edge {| e_from := e_to e; e_from_start := negb (e_to_end e);
                    e_to := e_from e; e_to_end := negb (e_from_start e) |}
  = pair_from_edge e.
Proof.
  unfold pair_from_edge; simpl. rewrite negb_involutive.
  destruct (side_leb (e_to e, e_to_end e) (e_from e, negb (e_from_start e))) eqn:H1,
           (side_leb (e_from e, negb (e_from_start e)) (e_to e, e_to_end e)) eqn:H2;
    try done.
  - by rewrite (side_leb_antisym _ _ H1 H2).
  - apply side_leb_total in H1. congruence.
Qed.

Lemma has_edge_backward (g : VG) (s1 s2 : Z * bool) :
  VG_ops.has_edge g (make_edge (path_handle true s2) (path_handle true s1))
  = VG_ops.has_edge g (make_edge (path_handle false s1) (path_handle false s2)).
Proof.
  unfold VG_ops.has_edge. f_equal.
  rewrite <- (pair_from_edge_flip (make_edge (path_handle false s1) (path_handle false s2))).
  unfold make_edge, path_handle; simpl.
  by rewrite !Node_id_encode_any, !Node_is_reverse_encode_any.
Qed.

(** ** Walks along reference paths *)

Lemma extend_walk_first (component : VG) (B : gset Z) (prev curr : Z)
    (rest buffer : path_type) :
  VG_ops.has_edge component (make_edge prev curr) = true →
  ∃ tail, extend_walk component B prev (curr :: rest) buffer = buffer ++ curr :: tail.
Proof.
  intros He. simpl. rewrite He. simpl.
  destruct (bool_decide (Node.id curr ∈ B)).
  { exists []. done. }
  assert (Happ : ∀ rest prev buffer,
            ∃ tail, extend_walk component B prev rest buffer = buffer ++ tail).
  { clear. induction rest as [|c rest IH]; intros prev buffer; simpl.
    - exists []. by rewrite app_nil_r.
    - destruct (negb _); [exists []; by rewrite app_nil_r|].
      destruct (bool_decide _); [by exists [c]|].
      destruct (IH c (buffer ++ [c])) as [tail ->].
      exists (c :: tail). by rewrite <- app_assoc. }
  destruct (Happ rest curr (buffer ++ [curr])) as [tail ->].
  exists tail. by rewrite <- app_assoc.
Qed.

Lemma forward_walk_step (component : VG) (B : gset Z) (path : XGPath) (i : nat)
    (s1 s2 : Z * bool) :
  path !! i = Some s1 → path !! S i = Some s2 →
  VG_ops.has_edge component
    (make_edge (path_handle false s1) (path_handle false s2)) = true →
  ∃ tail, forward_walk component B path i
          = path_handle false s1 :: path_handle false s2 :: tail.
Proof.
  intros H1 H2 He. unfold forward_walk. rewrite H1; simpl.
  rewrite (drop_S _ _ _ H2), fmap_cons.
  destruct (extend_walk_first component B (path_handle false s1) (path_handle false s2)
              (path_handle false <$> drop (S (S i)) path) [path_handle false s1] He)
    as [tail ->].
  by exists tail.
Qed.

Lemma backward_walk_step (component : VG) (B : gset Z) (path : XGPath) (i : nat)
    (s1 s2 : Z * bool) :
  path !! i = Some s1 → path !! S i = Some s2 →
  VG_ops.has_edge component
    (make_edge (path_handle false s1) (path_handle false s2)) = true →
  ∃ tail, backward_walk component B path (S i)
          = path_handle true s2 :: path_handle true s1 :: tail.
Proof.
  intros H1 H2 He. unfold backward_walk. rewrite H2; simpl.
  rewrite (take_S_r _ _ _ H1), reverse_snoc, fmap_cons.
  rewrite <- has_edge_backward in He.
  destruct (extend_walk_first component B (path_handle true s2) (path_handle true s1)
              (path_handle true <$> reverse (take i path)) [path_handle true s2] He)
    as [tail ->].
  by exists tail.
Qed.

Lemma foldl_reaches {A St : Type} (f : St → A → St) (Q : St → Prop)
    (l : list A) (x : A) :
  x ∈ l → (∀ s, Q (f s x)) → (∀ s y, Q s → Q (f s y)) → ∀ s, Q (foldl f s l).
Proof.
  intros Hin Hx Hkeep. induction l as [|a l IH]; intros s; [by apply elem_of_nil in Hin|].
  simpl. apply elem_of_cons in Hin as [->|Hin]; [|by apply IH].
  clear IH. generalize (Hx s). generalize (f s a). clear -Hkeep.
  induction l as [|b l IH]; intros s Hs; simpl; [done|]. apply IH. by apply Hkeep.
Qed.

Lemma foldl_keeps {A St : Type} (f : St → A → St) (Q : St → Prop) (l : list A) :
  (∀ s y, Q s → Q (f s y)) → ∀ s, Q s → Q (foldl f s l).
Proof.
  intros Hkeep. induction l as [|a l IH]; intros s Hs; simpl; [done|].
  apply IH. by apply Hkeep.
Qed.

Section GeneratePaths.

Variable xg_index : XG.
Variable component : VG.

Lemma generate_paths_at_keeps path occurrence st id :
  anchored_id st id → anchored_id (generate_paths_at component path st occurrence) id.
Proof. intros Ha. unfold generate_paths_at. by do 2 apply anchored_id_keeps. Qed.

Lemma generate_paths_at_border path occurrence st :
  border (generate_paths_at component path st occurrence) = border st.
Proof. unfold generate_paths_at. by rewrite !insert_path_border. Qed.

Lemma generate_paths_keeps from st id :
  anchored_id st id → anchored_id (generate_paths xg_index component from st) id.
Proof.
  intros Ha. unfold generate_paths.
  apply (foldl_keeps _ (λ s, anchored_id s id)); [|done].
  intros s path_rank Hs.
  apply (foldl_keeps _ (λ s, anchored_id s id)); [|done].
  intros s' occ. apply generate_paths_at_keeps.
Qed.

Lemma generate_paths_border from st :
  border (generate_paths xg_index component from st) = border st.
Proof.
  unfold generate_paths.
  apply (foldl_keeps _ (λ s, border s = border st)); [|done].
  intros s path_rank Hs.
  apply (foldl_keeps _ (λ s, border s = border st)); [|done].
  intros s' occ Hs'. by rewrite generate_paths_at_border.
Qed.

Lemma generate_paths_anchors b st :
  0 ≤ b < 2 ^ 63 → on_reference_edge xg_index component b →
  anchored_id (generate_paths xg_index component b st) b.
Proof.
  intros Hb (path_rank & i & s1 & s2 & Hrank & H1 & H2 & He & Hends).
  unfold generate_paths. revert st.
  apply (foldl_reaches _ (λ s, anchored_id s b) _ path_rank).
  { apply elem_of_seq. lia. }
  2:{ intros s y Hs. apply (foldl_keeps _ (λ s, anchored_id s b)); [|done].
      intros s' occ. apply generate_paths_at_keeps. }
  intros st. set (path := XG_ops.get_path xg_index path_rank) in *.
  pose proof (lookup_lt_Some _ _ _ H1) as Hlt1.
  pose proof (lookup_lt_Some _ _ _ H2) as Hlt2.
  destruct Hends as [Hs1|Hs2].
  - revert st. apply (foldl_reaches _ (λ s, anchored_id s b) _ i).
    { unfold XG_ops.node_ranks_in_path. apply list_elem_of_filter. fold path.
      split; [by rewrite H1; simpl; rewrite Hs1|]. apply elem_of_seq. lia. }
    2:{ intros s occ. apply generate_paths_at_keeps. }
    intros st. unfold generate_paths_at. apply anchored_id_keeps.
    destruct (forward_walk_step component (border st) path i s1 s2 H1 H2 He)
      as [tail Hw].
    pose proof (insert_path_anchors_start (forward_walk component (border st) path i) st)
      as Ha.
    rewrite Hw in Ha |- *. simpl in Ha.
    rewrite path_handle_id in Ha by (rewrite Hs1; lia).
    rewrite Hs1 in Ha. apply Ha. lia.
  - revert st. apply (foldl_reaches _ (λ s, anchored_id s b) _ (S i)).
    { unfold XG_ops.node_ranks_in_path. apply list_elem_of_filter. fold path.
      split; [by rewrite H2; simpl; rewrite Hs2|]. apply elem_of_seq. lia. }
    2:{ intros s occ. apply generate_paths_at_keeps. }
    intros st. unfold generate_paths_at.
    set (st1 := insert_path (forward_walk component (border st) path (S i)) st).
    destruct (backward_walk_step component (border st1) path i s1 s2 H1 H2 He)
      as [tail Hw].
    pose proof (insert_path_anchors_start
                  (backward_walk component (border st1) path (S i)) st1) as Ha.
    fold st1. rewrite Hw in Ha |- *. simpl in Ha.
    rewrite path_handle_id in Ha by (rewrite Hs2; lia).
    rewrite Hs2 in Ha. apply Ha. lia.
Qed.

End GeneratePaths.

(** ** Search states of the haplotype index *)

Section SearchStates.

Variable gbwt_index : GBWT.

Lemma at_pos_bound (occ : nat * nat) :
  is_Some (GBWT_ops.at_pos gbwt_index occ) →
  (S occ.2 ≤ max_thread_length gbwt_index)%nat.
Proof.
  intros [node Hn]. unfold GBWT_ops.at_pos in Hn.
  apply bind_Some in Hn as (t & Ht & Hp).
  apply lookup_lt_Some in Hp.
  assert (length t ≤ max_thread_length gbwt_index)%nat; [|lia].
  apply max_list_elem_of_le, list_elem_of_fmap. exists t.
  split; [done|]. by apply list_elem_of_lookup_2 in Ht.
Qed.

Lemma state_valid_length (s : state_type) :
  state_valid gbwt_index s → (length s.2 ≤ max_thread_length gbwt_index)%nat.
Proof.
  intros (_ & Hne & Hocc). destruct (ss_range s.1) as [|occ range] eqn:Hr; [done|].
  destruct (Hocc occ) as [Hlen Hat]; [apply elem_of_cons; by left|].
  apply at_pos_bound in Hat. lia.
Qed.

Lemma is_empty_false (s : SearchState) :
  GBWT_ops.is_empty s = false ↔ ss_range s ≠ [].
Proof.
  unfold GBWT_ops.is_empty. by rewrite bool_decide_eq_false.
Qed.

Lemma find_valid (node : Z) :
  GBWT_ops.is_empty (GBWT_ops.find gbwt_index node) = false →
  state_valid gbwt_index
    (GBWT_ops.find gbwt_index node, [ss_node (GBWT_ops.find gbwt_index node)]).
Proof.
  intros Hne. apply is_empty_false in Hne.
  split; [simpl; lia|]. split; [done|].
  intros occ Hocc. simpl in Hocc.
  apply list_elem_of_join in Hocc as (l & Hocc & Hl).
  apply elem_of_lookup_imap in Hl as (i & t & -> & Ht).
  unfold GBWT_ops.occurrences_in in Hocc.
  apply list_elem_of_fmap in Hocc as (p & -> & Hp).
  apply list_elem_of_filter in Hp as [Hp _].
  split; [simpl; lia|]. exists node.
  unfold GBWT_ops.at_pos; simpl. by rewrite Ht.
Qed.

Lemma extend_valid (s : state_type) (node : Z) :
  state_valid gbwt_index s →
  GBWT_ops.is_empty (GBWT_ops.extend gbwt_index s.1 node) = false →
  state_valid gbwt_index
    (GBWT_ops.extend gbwt_index s.1 node,
     s.2 ++ [ss_node (GBWT_ops.extend gbwt_index s.1 node)]).
Proof.
  intros (Hlen & _ & Hocc) Hne. apply is_empty_false in Hne.
  split; [simpl; rewrite length_app; simpl; lia|]. split; [done|].
  intros occ Hin. simpl in Hin.
  apply list_elem_of_filter in Hin as [Hat Hin].
  apply list_elem_of_fmap in Hin as (occ0 & -> & Hin0).
  destruct (Hocc occ0 Hin0) as [Hl0 _].
  split; [simpl; rewrite length_app; simpl; lia|]. by exists node.
Qed.

Lemma extend_state_spec (s : state_type) (node : Z) (is_reverse : bool)
    (states : list state_type) :
  extend_state gbwt_index s node is_reverse states = (false, states) ∨
  ∃ s', extend_state gbwt_index s node is_reverse states = (true, s' :: states) ∧
        (state_valid gbwt_index s → state_valid gbwt_index s') ∧
        ∃ x, s'.2 = s.2 ++ [x].
Proof.
  unfold extend_state.
  destruct (GBWT_ops.is_empty _) eqn:He; [by left|]. right.
  eexists. split; [done|]. split; [|by eexists].
  intros Hv. by apply extend_valid.
Qed.

Lemma extend_state_flag (s : state_type) (node : Z) (is_reverse : bool)
    (states states' : list state_type) :
  (extend_state gbwt_index s node is_reverse states).1
  = (extend_state gbwt_index s node is_reverse states').1.
Proof. unfold extend_state. by destruct (GBWT_ops.is_empty _). Qed.

(** What one edge adds to the stack. *)
Lemma try_edge_spec (s : state_type) (node : Z) (is_reverse : bool) (b : bool)
    (states : list state_type) (edge : Edge) :
  ∃ pushed,
    try_edge gbwt_index s node is_reverse (b, states) edge
      = (b || nonempty pushed, pushed ++ states) ∧
    Forall (λ s', (state_valid gbwt_index s → state_valid gbwt_index s') ∧
                  ∃ x, s'.2 = s.2 ++ [x]) pushed ∧
    ((try_edge gbwt_index s node is_reverse (false, []) edge).1 = true → pushed ≠ []).
Proof.
  unfold try_edge.
  destruct (bool_decide (e_from edge = node) && eqb (e_from_start edge) is_reverse).
  - pose proof (extend_state_flag s (e_to edge) (e_to_end edge) [] states) as Hflag.
    destruct (extend_state_spec s (e_to edge) (e_to_end edge) states)
      as [Hs|(s' & Hs & Hv & Hx)]; rewrite Hs in Hflag |- *.
    + exists []. split; [done|]. split; [constructor|].
      destruct (extend_state gbwt_index s (e_to edge) (e_to_end edge) []).
      simpl in *. intros ->. done.
    + exists [s']. split; [done|]. split; [by apply Forall_singleton|]. done.
  - destruct (bool_decide (e_to edge = node) && negb (eqb (e_to_end edge) is_reverse)).
    + pose proof (extend_state_flag s (e_from edge) (negb (e_from_start edge)) [] states)
        as Hflag.
      destruct (extend_state_spec s (e_from edge) (negb (e_from_start edge)) states)
        as [Hs|(s' & Hs & Hv & Hx)]; rewrite Hs in Hflag |- *.
      * exists []. split; [done|]. split; [constructor|].
        destruct (extend_state gbwt_index s (e_from edge) (negb (e_from_start edge)) []).
        simpl in *. intros ->. done.
      * exists [s']. split; [done|]. split; [by apply Forall_singleton|]. done.
    + exists []. split; [simpl; by rewrite orb_false_r|]. split; [constructor|done].
Qed.

(** What the loop over the edges of a node adds to the stack. *)
Lemma try_edges_spec (s : state_type) (node : Z) (is_reverse : bool)
    (edges : list Edge) : ∀ (b : bool) (states : list state_type),
  ∃ pushed,
    foldl (try_edge gbwt_index s node is_reverse) (b, states) edges
      = (b || nonempty pushed, pushed ++ states) ∧
    Forall (λ s', (state_valid gbwt_index s → state_valid gbwt_index s') ∧
                  ∃ x, s'.2 = s.2 ++ [x]) pushed ∧
    (∀ edge, edge ∈ edges →
       (try_edge gbwt_index s node is_reverse (false, []) edge).1 = true →
       pushed ≠ []).
Proof.
  induction edges as [|edge edges IH]; intros b states; cbn [foldl].
  { exists []. split; [simpl; by rewrite orb_false_r|]. split; [constructor|].
    intros edge Hin. by apply elem_of_nil in Hin. }
  destruct (try_edge_spec s node is_reverse b states edge) as (p0 & -> & Hp0 & He0).
  destruct (IH (b || nonempty p0) (p0 ++ states)) as (p1 & -> & Hp1 & He1).
  exists (p1 ++ p0). split; [|split].
  - rewrite <- app_assoc. f_equal. rewrite <- orb_assoc. f_equal.
    destruct p1, p0; done.
  - by apply Forall_app.
  - intros e Hin Hext. apply elem_of_cons in Hin as [->|Hin].
    + specialize (He0 Hext). destruct p1, p0; done.
    + specialize (He1 e Hin Hext). destruct p1; done.
Qed.

End SearchStates.

(** ** The search loop of [generate_threads] *)

Lemma extends_state_refl (st : PhaseUnfolder) : extends_state st st.
Proof. by split. Qed.

Lemma extends_state_trans (st1 st2 st3 : PhaseUnfolder) :
  extends_state st1 st2 → extends_state st2 st3 → extends_state st1 st3.
Proof.
  intros [Hb1 Ha1] [Hb2 Ha2]. split; [congruence|]. intros id Hid. by apply Ha2, Ha1.
Qed.

Lemma extends_state_insert_path (path : path_type) (st : PhaseUnfolder) :
  extends_state st (insert_path path st).
Proof. split; [apply insert_path_border|]. intros id. apply anchored_id_keeps. Qed.

Section ThreadsLoop.

Variable gbwt_index : GBWT.
Variable component : VG.

Lemma threads_loop_cons (fuel : nat) (s : state_type) (rest : list state_type)
    (st : PhaseUnfolder) :
  threads_loop gbwt_index (S fuel) component (s :: rest) st
  = if (2 <=? length s.2)%nat && bool_decide (Node.id (ss_node s.1) ∈ border st)
    then threads_loop gbwt_index fuel component rest (insert_path s.2 st)
    else
      let '(was_extended, states') :=
        foldl (try_edge gbwt_index s (Node.id (ss_node s.1))
                        (Node.is_reverse (ss_node s.1)))
              (false, rest) (VG_ops.edges_of component (Node.id (ss_node s.1))) in
      if was_extended then threads_loop gbwt_index fuel component states' st
      else threads_loop gbwt_index fuel component states' (insert_path s.2 st).
Proof. reflexivity. Qed.

Lemma processed_all (m : nat) :
  (∀ s rest st, state_valid gbwt_index s →
     (max_thread_length gbwt_index - length s.2 < m)%nat →
     processed gbwt_index component [s] rest st) →
  ∀ states rest st,
    Forall (λ s, state_valid gbwt_index s ∧
                 (max_thread_length gbwt_index - length s.2 < m)%nat) states →
    processed gbwt_index component states rest st.
Proof.
  intros Hone. induction states as [|s states IH]; intros rest st Hall.
  { exists 0%nat, st. split; [done|]. split; [apply extends_state_refl|].
    intros s Hs. by apply elem_of_nil in Hs. }
  apply Forall_cons in Hall as [[Hv Hm] Hall].
  destruct (Hone s (states ++ rest) st Hv Hm) as (k1 & st1 & Hrun1 & Hext1 & Hanch1).
  destruct (IH rest st1 Hall) as (k2 & st2 & Hrun2 & Hext2 & Hanch2).
  exists (k1 + k2)%nat, st2. split; [|split].
  - intros fuel. rewrite <- Nat.add_assoc.
    change ((s :: states) ++ rest) with ([s] ++ (states ++ rest)).
    by rewrite Hrun1, Hrun2.
  - by eapply extends_state_trans.
  - intros s' Hin Hgood. apply elem_of_cons in Hin as [->|Hin].
    + apply Hext2. apply Hanch1; [apply elem_of_cons; by left|done].
    + by apply Hanch2.
Qed.

Lemma processed_step (m : nat) :
  (∀ s rest st, state_valid gbwt_index s →
     (max_thread_length gbwt_index - length s.2 < m)%nat →
     processed gbwt_index component [s] rest st) →
  ∀ s rest st, state_valid gbwt_index s →
    (max_thread_length gbwt_index - length s.2 < S m)%nat →
    processed gbwt_index component [s] rest st.
Proof.
  intros IH s rest st Hv Hm.
  set (node := Node.id (ss_node s.1)).
  set (is_reverse := Node.is_reverse (ss_node s.1)).
  destruct ((2 <=? length s.2)%nat && bool_decide (node ∈ border st)) eqn:Hborder.
  { (* a walk from border to border *)
    exists 1%nat, (insert_path s.2 st). split; [|split].
    - intros fuel. change (1 + fuel)%nat with (S fuel). cbn [app].
      rewrite threads_loop_cons. fold node. by rewrite Hborder.
    - apply extends_state_insert_path.
    - intros s' Hin _. apply list_elem_of_singleton in Hin as ->.
      apply insert_path_anchors_start.
      apply andb_true_iff in Hborder as [Hlen _]. by apply Nat.leb_le in Hlen. }
  destruct (try_edges_spec gbwt_index s node is_reverse
              (VG_ops.edges_of component node) false rest)
    as (pushed & Hfold & Hpushed & Hedges).
  destruct pushed as [|p ps].
  { (* a maximal walk *)
    exists 1%nat, (insert_path s.2 st). split; [|split].
    - intros fuel. change (1 + fuel)%nat with (S fuel). cbn [app].
      rewrite threads_loop_cons. fold node is_reverse. by rewrite Hborder, Hfold.
    - apply extends_state_insert_path.
    - intros s' Hin Hgood. apply list_elem_of_singleton in Hin as ->.
      destruct Hgood as [Hlen|(edge & Hin & Hext)].
      + by apply insert_path_anchors_start.
      + by destruct (Hedges edge Hin Hext). }
  (* the walk is extended *)
  pose proof Hv as (Hlen & _ & _).
  assert (Hall : Forall (λ s', state_valid gbwt_index s' ∧
                   (max_thread_length gbwt_index - length s'.2 < m)%nat) (p :: ps)).
  { eapply Forall_impl; [exact Hpushed|]. intros s' [Hv' [x Hx]].
    specialize (Hv' Hv). split; [done|].
    pose proof (state_valid_length gbwt_index s' Hv') as Hl.
    rewrite Hx, length_app in Hl |- *. simpl in *. lia. }
  destruct (processed_all m IH (p :: ps) rest st Hall) as (k & st' & Hrun & Hext & Hanch).
  exists (S k), st'. split; [|split].
  - intros fuel. change (S k + fuel)%nat with (S (k + fuel)). cbn [app].
    rewrite threads_loop_cons. fold node is_reverse. rewrite Hborder, Hfold. simpl.
    apply Hrun.
  - done.
  - intros s' Hin _. apply list_elem_of_singleton in Hin as ->.
    apply Forall_cons in Hpushed as [[_ [x Hx]] _].
    assert (Hhead : head s.2 = head p.2).
    { rewrite Hx. destruct s.2; [simpl in Hlen; lia|done]. }
    rewrite Hhead. apply Hanch; [apply elem_of_cons; by left|].
    left. rewrite Hx, length_app. simpl. lia.
Qed.

Lemma processed_one (m : nat) : ∀ s rest st,
  state_valid gbwt_index s →
  (max_thread_length gbwt_index - length s.2 < m)%nat →
  processed gbwt_index component [s] rest st.
Proof.
  induction m as [|m IH]; [intros; lia|]. by apply processed_step.
Qed.

Lemma extend_range_nil (s : SearchState) (node : Z) :
  ss_range s = [] → GBWT_ops.is_empty (GBWT_ops.extend gbwt_index s node) = true.
Proof.
  intros Hr. unfold GBWT_ops.is_empty, GBWT_ops.extend. simpl. rewrite Hr. done.
Qed.

(** A thread that leaves [hd] for [nxt] along an edge of the component
    makes the initial state of [hd] extensible. *)
Lemma thread_step_extends (hd nxt : Z) :
  0 ≤ hd < 2 ^ 64 → 0 ≤ nxt < 2 ^ 64 →
  VG_ops.has_edge component (make_edge hd nxt) = true →
  GBWT_ops.is_empty
    (GBWT_ops.extend gbwt_index (GBWT_ops.find gbwt_index hd) nxt) = false →
  ∃ edge, edge ∈ VG_ops.edges_of component (Node.id hd) ∧
          edge_extends gbwt_index (GBWT_ops.find gbwt_index hd, [hd]) edge = true.
Proof.
  intros Hhd Hnxt He Hne.
  exists (edge_of_pair (pair_from_edge (make_edge hd nxt))). split.
  - unfold VG_ops.edges_of. apply list_elem_of_fmap_2, list_elem_of_filter. split.
    + unfold pair_from_edge, make_edge; simpl. destruct (side_leb _ _); simpl; auto.
    + apply elem_of_elements. by apply bool_decide_eq_true in He.
  - assert (Hpush : ∀ states,
              (extend_state gbwt_index (GBWT_ops.find gbwt_index hd, [hd])
                 (Node.id nxt) (Node.is_reverse nxt) states).1 = true).
    { intros states. unfold extend_state. simpl.
      rewrite Node_encode_id by done. by rewrite Hne. }
    unfold edge_extends, try_edge, pair_from_edge, make_edge, edge_of_pair. simpl.
    destruct (side_leb _ _); simpl.
    + rewrite bool_decide_eq_true_2 by done. rewrite negb_involutive, eqb_reflx. simpl.
      specialize (Hpush []).
      by destruct (extend_state _ _ _ _ _).
    + destruct (bool_decide (Node.id nxt = Node.id hd)
                && eqb (negb (Node.is_reverse nxt)) (Node.is_reverse hd)) eqn:Hc.
      * apply andb_true_iff in Hc as [Hid Hrev].
        apply bool_decide_eq_true in Hid. apply eqb_prop in Hrev.
        rewrite <- Hid, <- Hrev, negb_involutive.
        specialize (Hpush []).
        by destruct (extend_state _ _ _ _ _).
      * rewrite bool_decide_eq_true_2 by done.
        assert (eqb (negb (Node.is_reverse hd)) (Node.is_reverse hd) = false) as ->
          by (by destruct (Node.is_reverse hd)).
        simpl. rewrite negb_involutive.
        specialize (Hpush []).
        by destruct (extend_state _ _ _ _ _).
Qed.

(** [generate_threads] returns once given enough rounds, and keeps the id
    of the start node whenever a thread leaves it along the component. *)
Lemma generate_threads_runs (b : Z) (st : PhaseUnfolder) :
  ∃ (k : nat) (st' : PhaseUnfolder),
    (∀ fuel, generate_threads gbwt_index (k + fuel) component b st = Value st') ∧
    extends_state st st' ∧
    (starts_thread_step gbwt_index component b → anchored_id st' b).
Proof.
  set (states := create_state gbwt_index b true (create_state gbwt_index b false [])).
  assert (Hstates : ∀ s, s ∈ states →
            ∃ r, s = (GBWT_ops.find gbwt_index (Node.encode b r), [Node.encode b r]) ∧
                 GBWT_ops.is_empty (GBWT_ops.find gbwt_index (Node.encode b r)) = false).
  { intros s. subst states. unfold create_state.
    destruct (GBWT_ops.is_empty (GBWT_ops.find gbwt_index (Node.encode b true))) eqn:Ht,
             (GBWT_ops.is_empty (GBWT_ops.find gbwt_index (Node.encode b false))) eqn:Hf;
      rewrite ?elem_of_cons, elem_of_nil; intros Hin.
    - done.
    - destruct Hin as [->|[]]. by exists false.
    - destruct Hin as [->|[]]. by exists true.
    - destruct Hin as [->|[->|[]]]; [by exists true|by exists false]. }
  assert (Hall : Forall (λ s, state_valid gbwt_index s ∧
                   (max_thread_length gbwt_index - length s.2
                    < S (max_thread_length gbwt_index))%nat) states).
  { apply Forall_forall. intros s Hin. destruct (Hstates s Hin) as (r & -> & Hne).
    split; [by apply find_valid|simpl; lia]. }
  destruct (processed_all _ (processed_one _) states [] st Hall)
    as (k & st' & Hrun & Hext & Hanch).
  exists k, st'. split; [|split; [done|]].
  - intros fuel. unfold generate_threads. fold states.
    rewrite <- (app_nil_r states), Hrun. by destruct fuel.
  - intros (hd & nxt & Hhd & Hnxt & Hid & He & Hne).
    assert (Hfind : GBWT_ops.is_empty (GBWT_ops.find gbwt_index hd) = false).
    { destruct (GBWT_ops.is_empty (GBWT_ops.find gbwt_index hd)) eqn:Hf; [|done].
      apply bool_decide_eq_true in Hf. by rewrite extend_range_nil in Hne. }
    assert (Henc : Node.encode b (Node.is_reverse hd) = hd)
      by (rewrite <- Hid; by apply Node_encode_id).
    assert (Hin : (GBWT_ops.find gbwt_index hd, [hd]) ∈ states).
    { subst states. unfold create_state. clear Hne.
      destruct (Node.is_reverse hd); rewrite <- Henc in Hfind |- *; rewrite Hfind.
      - apply elem_of_cons. by left.
      - destruct (GBWT_ops.is_empty (GBWT_ops.find gbwt_index (Node.encode b true)));
          [|apply elem_of_cons; right]; apply elem_of_cons; by left. }
    specialize (Hanch _ Hin). simpl in Hanch. rewrite Hid in Hanch. apply Hanch.
    right. by apply (thread_step_extends hd nxt).
Qed.

End ThreadsLoop.

(** ** Border nodes in the unfolded component *)

Section UnfoldComponent.

Variable xg_index : XG.
Variable gbwt_index : GBWT.
Variable component : VG.

Lemma generate_all_runs (starts : list Z) : ∀ st : PhaseUnfolder,
  ∃ (k : nat) (st' : PhaseUnfolder),
    (∀ fuel, (k ≤ fuel)%nat →
       generate_all xg_index gbwt_index fuel component starts st = Value st') ∧
    extends_state st st' ∧
    ∀ b, b ∈ starts → 0 ≤ b < 2 ^ 63 →
      on_reference_edge xg_index component b ∨
      starts_thread_step gbwt_index component b →
      anchored_id st' b.
Proof.
  induction starts as [|b starts IH]; intros st.
  { exists 0%nat, st. split; [done|]. split; [apply extends_state_refl|].
    intros b Hb. by apply elem_of_nil in Hb. }
  set (st1 := generate_paths xg_index component b st).
  assert (Hext1 : extends_state st st1).
  { split; [apply generate_paths_border|]. intros id. apply generate_paths_keeps. }
  destruct (generate_threads_runs gbwt_index component b st1)
    as (k1 & st2 & Hrun1 & Hext2 & Hanch2).
  destruct (IH st2) as (k2 & st3 & Hrun2 & Hext3 & Hanch3).
  exists (k1 `max` k2)%nat, st3. split; [|split].
  - intros fuel Hfuel. simpl. fold st1.
    replace fuel with (k1 + (fuel - k1))%nat at 1 by lia.
    rewrite Hrun1. apply Hrun2. lia.
  - eapply extends_state_trans; [|exact Hext3].
    eapply extends_state_trans; [exact Hext1|exact Hext2].
  - intros b' Hin Hrange Hevidence. apply elem_of_cons in Hin as [->|Hin].
    + apply Hext3. destruct Hevidence as [Href|Hthread].
      * apply Hext2. by apply generate_paths_anchors.
      * by apply Hanch2.
    + by apply Hanch3.
Qed.


End UnfoldComponent.

(** ** The complement graph and its components *)

Lemma pair_from_edge_ends (e : Edge) :
  ((pair_from_edge e).1.1 = e_from e ∧ (pair_from_edge e).2.1 = e_to e) ∨
  ((pair_from_edge e).1.1 = e_to e ∧ (pair_from_edge e).2.1 = e_from e).
Proof. unfold pair_from_edge. destruct (side_leb _ _); simpl; auto. Qed.

Section Complement.

Variable xg_index : XG.
Variable gbwt_index : GBWT.
Variable graph : VG.

Lemma add_if_missing_evidence (c : VG) (prev curr : Z) :
  evidence_edge xg_index gbwt_index (pair_from_edge (make_edge prev curr)) →
  evidence_graph xg_index gbwt_index c →
  evidence_graph xg_index gbwt_index (add_if_missing xg_index graph c prev curr).
Proof.
  intros Hnew [Hedges Hnodes]. unfold add_if_missing.
  destruct (VG_ops.has_edge graph _); [by split|].
  set (p := pair_from_edge (make_edge prev curr)).
  split; simpl.
  - intros q Hq. apply elem_of_union in Hq as [Hq|Hq]; [|by apply Hedges].
    apply elem_of_singleton in Hq as ->. exact Hnew.
  - intros n Hn. unfold XG_ops.node in Hn.
    assert (Hcases : n = Node.id curr ∨ n = Node.id prev ∨ n ∈ vg_nodes c).
    { apply elem_of_union in Hn as [Hn|Hn]; [left; by apply elem_of_singleton in Hn|].
      apply elem_of_union in Hn as [Hn|Hn];
        [right; left; by apply elem_of_singleton in Hn|].
      by right; right. }
    destruct (pair_from_edge_ends (make_edge prev curr)) as [[H1 H2]|[H1 H2]];
      simpl in H1, H2; fold p in H1, H2.
    + destruct Hcases as [->|[->|Hc]].
      * exists p. split; [apply elem_of_union; left; by apply elem_of_singleton|by right].
      * exists p. split; [apply elem_of_union; left; by apply elem_of_singleton|by left].
      * destruct (Hnodes n Hc) as (q & Hq & Hends). exists q.
        split; [apply elem_of_union; by right|done].
    + destruct Hcases as [->|[->|Hc]].
      * exists p. split; [apply elem_of_union; left; by apply elem_of_singleton|by left].
      * exists p. split; [apply elem_of_union; left; by apply elem_of_singleton|by right].
      * destruct (Hnodes n Hc) as (q & Hq & Hends). exists q.
        split; [apply elem_of_union; by right|done].
Qed.

Lemma complement_steps_evidence (path_rank : nat) (rest : list (Z * bool)) :
  (1 ≤ path_rank ≤ XG_ops.max_path_rank xg_index)%nat →
  ∀ (i : nat) (s : Z * bool) (c : VG),
    XG_ops.get_path xg_index path_rank !! i = Some s →
    drop (S i) (XG_ops.get_path xg_index path_rank) = rest →
    evidence_graph xg_index gbwt_index c →
    evidence_graph xg_index gbwt_index
      (complement_steps xg_index graph c (path_handle false s) rest).
Proof.
  intros Hrank. induction rest as [|s' rest IH]; intros i s c Hi Hdrop Hc; [done|].
  simpl.
  assert (Hi' : XG_ops.get_path xg_index path_rank !! S i = Some s').
  { rewrite <- (Nat.add_0_r (S i)), <- lookup_drop, Hdrop. done. }
  apply (IH (S i)); [done| |].
  - rewrite (drop_S _ _ _ Hi') in Hdrop. by injection Hdrop.
  - apply add_if_missing_evidence; [|done]. left.
    by exists path_rank, i, s, s'.
Qed.

Lemma complement_path_evidence (path_rank : nat) (c : VG) :
  (1 ≤ path_rank ≤ XG_ops.max_path_rank xg_index)%nat →
  evidence_graph xg_index gbwt_index c →
  evidence_graph xg_index gbwt_index
    (complement_path xg_index graph c (XG_ops.get_path xg_index path_rank)).
Proof.
  intros Hrank Hc. unfold complement_path.
  destruct (XG_ops.get_path xg_index path_rank) as [|first rest] eqn:Hpath; [done|].
  apply (complement_steps_evidence path_rank rest Hrank 0); [by rewrite Hpath| |done].
  by rewrite Hpath.
Qed.

Lemma successors_spec (node x : Z) (t : path_type) :
  x ∈ GBWT_ops.successors node t →
  x = ENDMARKER ∨ ∃ i, t !! i = Some node ∧ t !! S i = Some x.
Proof.
  induction t as [|y rest IH]; simpl; [intros Hx; by apply elem_of_nil in Hx|].
  intros Hx. apply elem_of_app in Hx as [Hx|Hx].
  - case_bool_decide as Hy; [|by apply elem_of_nil in Hx].
    apply list_elem_of_singleton in Hx. subst y.
    destruct rest as [|z rest]; simpl in Hx; [by left|].
    right. exists 0%nat. by subst.
  - destruct (IH Hx) as [?|(i & H1 & H2)]; [by left|]. right. by exists (S i).
Qed.

Lemma complement_node_evidence (gbwt_node : Z) (c : VG) :
  evidence_graph xg_index gbwt_index c →
  evidence_graph xg_index gbwt_index
    (complement_node xg_index gbwt_index graph c gbwt_node).
Proof.
  unfold complement_node.
  assert (Hall : ∀ outedge, outedge ∈ GBWT_ops.edges gbwt_index gbwt_node →
            outedge ≠ ENDMARKER →
            evidence_edge xg_index gbwt_index
              (pair_from_edge (make_edge gbwt_node outedge))).
  { intros outedge Hin Hne. unfold GBWT_ops.edges in Hin.
    apply elem_of_remove_dups, list_elem_of_In, in_flat_map in Hin as (t & Ht & Hin).
    apply list_elem_of_In in Ht, Hin.
    destruct (successors_spec _ _ _ Hin) as [?|(i & H1 & H2)]; [done|].
    right. by exists t, i, gbwt_node, outedge. }
  revert c Hall. induction (GBWT_ops.edges gbwt_index gbwt_node) as [|outedge l IH];
    intros c Hall Hc; simpl; [done|].
  apply IH.
  - intros o Ho. apply Hall. apply elem_of_cons. by right.
  - case_bool_decide as Hend; [done|].
    apply add_if_missing_evidence; [|done]. apply Hall; [apply elem_of_cons; by left|done].
Qed.

Lemma complement_graph_evidence :
  evidence_graph xg_index gbwt_index (complement_graph xg_index gbwt_index graph).
Proof.
  unfold complement_graph.
  apply (foldl_keeps _ (evidence_graph xg_index gbwt_index)).
  { intros c node. apply complement_node_evidence. }
  assert (Hranks : ∀ l c,
            (∀ r, r ∈ l → (1 ≤ r ≤ XG_ops.max_path_rank xg_index)%nat) →
            evidence_graph xg_index gbwt_index c →
            evidence_graph xg_index gbwt_index
              (foldl (λ c path_rank,
                        complement_path xg_index graph c
                          (XG_ops.get_path xg_index path_rank)) c l)).
  { induction l as [|r l IH]; intros c Hl Hc; simpl; [done|].
    apply IH; [intros r' Hr'; apply Hl, elem_of_cons; by right|].
    apply complement_path_evidence; [apply Hl, elem_of_cons; by left|done]. }
  apply Hranks.
  - intros r Hr. apply elem_of_seq in Hr. lia.
  - split; simpl; intros x Hx; by apply not_elem_of_empty in Hx.
Qed.

End Complement.

Lemma components_from_induced (fuel : nat) (g : VG) : ∀ (todo : list Z) (done : gset Z)
    (component : VG),
  component ∈ VG_ops.components_from fuel g todo done →
  ∃ ns : gset Z, component = VG_ops.induced g ns.
Proof.
  induction fuel as [|fuel IH]; intros todo done component Hin; simpl in Hin.
  { by apply elem_of_nil in Hin. }
  destruct todo as [|n todo]; [by apply elem_of_nil in Hin|].
  case_bool_decide; [by eapply IH|].
  apply elem_of_cons in Hin as [->|Hin]; [by eexists|by eapply IH].
Qed.

(** Each node of a complement component lies on an evidence edge of that
    component. *)
Lemma component_node_on_edge (xg_index : XG) (gbwt_index : GBWT)
    (graph component : VG) (n : Z) :
  component ∈ complement_components xg_index gbwt_index graph →
  n ∈ vg_nodes component →
  ∃ p, p ∈ vg_edges component ∧ evidence_edge xg_index gbwt_index p ∧
       (p.1.1 = n ∨ p.2.1 = n).
Proof.
  intros Hc Hn. unfold complement_components, VG_ops.disjoint_subgraphs in Hc.
  apply components_from_induced in Hc as [ns ->].
  destruct (complement_graph_evidence xg_index gbwt_index graph) as [Hedges Hnodes].
  unfold VG_ops.induced in Hn |- *; simpl in Hn |- *.
  apply elem_of_filter in Hn as [Hns Hn].
  destruct (Hnodes n Hn) as (p & Hp & Hends).
  exists p. split; [|split; [by apply Hedges|done]].
  apply elem_of_filter. split; [|done].
  destruct Hends as [->| ->]; auto.
Qed.

(** ** Border nodes start walks *)


Lemma Node_is_reverse_reverse (node : Z) :
  Node.is_reverse (Node.reverse node) = negb (Node.is_reverse node).
Proof.
  unfold Node.is_reverse, Node.reverse. rewrite Z.lxor_spec.
  change (Z.testbit 1 0) with true. apply xorb_true_r.
Qed.


Lemma reverse_complement_lookup (t : path_type) (i : nat) (node : Z) :
  t !! i = Some node →
  reverse_complement t !! (length t - 1 - i)%nat = Some (Node.reverse node).
Proof.
  intros Hl. pose proof (lookup_lt_Some _ _ _ Hl) as Hlt.
  unfold reverse_complement. rewrite reverse_lookup by (rewrite length_fmap; lia).
  rewrite length_fmap.
  replace (length t - S (length t - 1 - i))%nat with i by lia.
  by rewrite list_lookup_fmap, Hl.
Qed.




(** ** The search of the verifier *)

Section SearchProofs.

Context {T : Type} `{PathOps T}.
Variable path : T.
Variable unfolded : VG.
Variable reverse_mapping : gmap Z (list Z).
Hypothesis Hwf : rm_wf reverse_mapping.

Local Abbreviation L := (path_size path).
Local Abbreviation K := (choices_at path reverse_mapping).
Local Abbreviation D := (dups_at path reverse_mapping).
Local Abbreviation B := (pair_bound path reverse_mapping).

Lemma choices_at_pos (i : nat) : (1 ≤ K i)%nat.
Proof. unfold choices_at. lia. Qed.

Lemma dups_le_choices (i : nat) : (D i ≤ K i)%nat.
Proof. unfold choices_at. lia. Qed.

Lemma lookup_some_choices (i : nat) (duplicates : list Z) :
  reverse_mapping !! path_node path i = Some duplicates →
  length duplicates = D i ∧ K i = D i ∧
  ∀ k, (k < K i)%nat →
       duplicates !! k = Some (cand_at path reverse_mapping i k).
Proof.
  intros Hl. pose proof (Hwf _ _ Hl) as Hne.
  assert (1 ≤ length duplicates)%nat by (destruct duplicates; [done|simpl; lia]).
  unfold choices_at, dups_at, cand_at. rewrite Hl.
  split; [done|]. split; [lia|].
  intros k Hk. destruct (lookup_lt_is_Some_2 duplicates k ltac:(lia)) as [x Hx].
  by rewrite Hx.
Qed.

Lemma lookup_none_choices (i : nat) :
  reverse_mapping !! path_node path i = None →
  D i = 0%nat ∧ K i = 1%nat ∧
  ∀ k, cand_at path reverse_mapping i k = path_node path i.
Proof.
  intros Hl. unfold choices_at, dups_at, cand_at. rewrite Hl. done.
Qed.

Lemma remaining_pos (b : PathBranch) :
  branch_valid path reverse_mapping b → (1 ≤ remaining path reverse_mapping b)%nat.
Proof.
  intros (_ & Hc & Hn). unfold remaining.
  assert (1 * K (S (pb_offset b)) ≤ (K (pb_offset b) - pb_curr b) * K (S (pb_offset b)))%nat
    by (apply Nat.mul_le_mono_r; lia).
  lia.
Qed.

Lemma remaining_lt_bound (b : PathBranch) :
  branch_valid path reverse_mapping b → (remaining path reverse_mapping b < B)%nat.
Proof.
  intros (Ho & Hc & Hn). unfold remaining, pair_bound.
  assert (K (pb_offset b) * K (S (pb_offset b))
          ≤ max_list ((λ i, K i * K (S i))%nat <$> seq 0 L))%nat.
  { apply max_list_elem_of_le, list_elem_of_fmap. exists (pb_offset b).
    split; [done|]. apply elem_of_seq. lia. }
  assert ((K (pb_offset b) - pb_curr b) * K (S (pb_offset b))
          ≤ K (pb_offset b) * K (S (pb_offset b)))%nat
    by (apply Nat.mul_le_mono_r; lia).
  lia.
Qed.

Lemma pair_bound_pow_pos (e : nat) : (1 ≤ B ^ e)%nat.
Proof.
  assert (B ^ e ≠ 0)%nat; [|lia]. apply Nat.pow_nonzero. unfold pair_bound. lia.
Qed.

Lemma alternative_valid (b : PathBranch) :
  branch_valid path reverse_mapping b →
  Forall (branch_valid path reverse_mapping) (alternative path reverse_mapping b).
Proof.
  intros (Ho & Hc & Hn). unfold alternative.
  pose proof (dups_le_choices (pb_offset b)).
  pose proof (dups_le_choices (S (pb_offset b))).
  destruct (Nat.ltb_spec (pb_next b + 1) (D (S (pb_offset b)))).
  { apply Forall_singleton. repeat split; simpl; lia. }
  destruct (Nat.ltb_spec (pb_curr b + 1) (D (pb_offset b))); [|constructor].
  apply Forall_singleton. repeat split; simpl; lia.
Qed.

Lemma alternative_weight (b : PathBranch) :
  branch_valid path reverse_mapping b →
  (stack_weight path reverse_mapping (alternative path reverse_mapping b)
   + B ^ (L - 1 - pb_offset b)
   ≤ weight path reverse_mapping b)%nat.
Proof.
  intros Hv. pose proof (remaining_pos b Hv) as Hr. pose proof Hv as (Ho & Hc & Hn).
  pose proof (dups_le_choices (pb_offset b)).
  pose proof (dups_le_choices (S (pb_offset b))).
  unfold alternative, stack_weight, weight.
  set (e := (L - 1 - pb_offset b)%nat).
  assert (Hstep : ∀ r, (r + 1 ≤ remaining path reverse_mapping b)%nat →
            (r * B ^ e + B ^ e ≤ remaining path reverse_mapping b * B ^ e)%nat).
  { intros r Hle. replace (r * B ^ e + B ^ e)%nat with ((r + 1) * B ^ e)%nat by lia.
    by apply Nat.mul_le_mono_r. }
  destruct (Nat.ltb_spec (pb_next b + 1) (D (S (pb_offset b)))).
  { simpl. fold e. rewrite Nat.add_0_r. apply Hstep.
    unfold remaining in *; simpl. lia. }
  destruct (Nat.ltb_spec (pb_curr b + 1) (D (pb_offset b))).
  { simpl. fold e. rewrite Nat.add_0_r. apply Hstep.
    unfold remaining in *; simpl.
    replace (K (pb_offset b) - pb_curr b)%nat
      with (S (K (pb_offset b) - (pb_curr b + 1)))%nat by lia.
    simpl. lia. }
  simpl. apply (Hstep 0%nat). lia.
Qed.

Lemma alternative_before (a : nat → nat) (b : PathBranch) :
  branch_valid path reverse_mapping b →
  (a (pb_offset b) < K (pb_offset b))%nat →
  (a (S (pb_offset b)) < K (S (pb_offset b)))%nat →
  before a b →
  ¬ (pb_curr b = a (pb_offset b) ∧ pb_next b = a (S (pb_offset b))) →
  Exists (before a) (alternative path reverse_mapping b).
Proof.
  intros (Ho & Hc & Hn) Ha Ha' Hbefore Hneq. unfold alternative.
  pose proof (choices_at_pos (pb_offset b)).
  pose proof (choices_at_pos (S (pb_offset b))).
  assert (HK : ∀ i, K i = 1%nat ∨ K i = D i) by (intros i; unfold choices_at; lia).
  destruct (Nat.ltb_spec (pb_next b + 1) (D (S (pb_offset b)))).
  { apply Exists_cons_hd. unfold before in *; simpl. lia. }
  assert (pb_next b + 1 = K (S (pb_offset b)))%nat
    by (destruct (HK (S (pb_offset b))); lia).
  assert (pb_curr b < a (pb_offset b))%nat by (unfold before in Hbefore; lia).
  destruct (Nat.ltb_spec (pb_curr b + 1) (D (pb_offset b))).
  { apply Exists_cons_hd. unfold before; simpl. lia. }
  destruct (HK (pb_offset b)); lia.
Qed.

Local Abbreviation run := (extend_branch path unfolded reverse_mapping).

(** One round of the loop that extends a branch. *)
Lemma extend_branch_step (fuel : nat) (b : PathBranch) (branches : list PathBranch) :
  (pb_offset b + 1 < L)%nat → (pb_next b < K (S (pb_offset b)))%nat →
  run (S fuel) b (handle_at path reverse_mapping (pb_offset b) (pb_curr b))
      (D (pb_offset b)) branches
  = if negb (edge_ok path unfolded reverse_mapping (pb_offset b) (pb_curr b) (pb_next b))
    then Value (b, alternative path reverse_mapping b ++ branches)
    else run fuel (advance b)
           (handle_at path reverse_mapping (S (pb_offset b)) (pb_next b))
           (D (S (pb_offset b)))
           (if (D (S (pb_offset b)) <=? 1)%nat then []
            else alternative path reverse_mapping b ++ branches).
Proof.
  intros Ho Hn. cbn [extend_branch].
  destruct (Nat.ltb_spec (pb_offset b + 1) L) as [_|]; [|lia]. cbn [negb].
  rewrite !Nat.add_1_r.
  unfold edge_ok, alternative. rewrite !Nat.add_1_r.
  destruct (reverse_mapping !! path_node path (S (pb_offset b))) as [duplicates|] eqn:Hl.
  - destruct (lookup_some_choices _ _ Hl) as (Hlen & _ & Hk).
    rewrite (Hk _ Hn), Hlen.
    change (Node.encode (cand_at path reverse_mapping (S (pb_offset b)) (pb_next b))
              (path_reverse path (S (pb_offset b))))
      with (handle_at path reverse_mapping (S (pb_offset b)) (pb_next b)).
    destruct (VG_ops.has_edge unfolded _); cbn [negb].
    + by destruct (S (pb_next b) <? D (S (pb_offset b)))%nat,
                  (S (pb_curr b) <? D (pb_offset b))%nat.
    + by destruct (S (pb_next b) <? D (S (pb_offset b)))%nat,
                  (S (pb_curr b) <? D (pb_offset b))%nat.
  - destruct (lookup_none_choices _ Hl) as (Hd & _ & Hc).
    rewrite Hd.
    replace (path_node path (S (pb_offset b)))
      with (cand_at path reverse_mapping (S (pb_offset b)) (pb_next b)) by apply Hc.
    change (Node.encode (cand_at path reverse_mapping (S (pb_offset b)) (pb_next b))
              (path_reverse path (S (pb_offset b))))
      with (handle_at path reverse_mapping (S (pb_offset b)) (pb_next b)).
    change (S (pb_next b) <? 0)%nat with false. cbn [Nat.leb].
    destruct (VG_ops.has_edge unfolded _); cbn [negb];
      by destruct (S (pb_curr b) <? D (pb_offset b))%nat.
Qed.

Lemma stack_weight_app (l k : list PathBranch) :
  stack_weight path reverse_mapping (l ++ k)
  = (stack_weight path reverse_mapping l + stack_weight path reverse_mapping k)%nat.
Proof.
  unfold stack_weight. induction l as [|b l IH]; [done|].
  rewrite <- app_comm_cons, !fmap_cons. cbn [sum_list sum_list_with].
  rewrite IH. lia.
Qed.

Lemma advance_weight (b : PathBranch) :
  (S (pb_offset b) + 1 < L)%nat → (pb_next b < K (S (pb_offset b)))%nat →
  (weight path reverse_mapping (advance b) < B ^ (L - 1 - pb_offset b))%nat.
Proof.
  intros Ho Hn.
  assert (Hv : branch_valid path reverse_mapping (advance b)).
  { repeat split; simpl; [lia|done|]. pose proof (choices_at_pos (S (S (pb_offset b)))). lia. }
  pose proof (remaining_lt_bound _ Hv) as Hr.
  unfold weight. simpl pb_offset.
  replace (L - 1 - pb_offset b)%nat with (S (L - 1 - S (pb_offset b))) by lia.
  rewrite Nat.pow_succ_r'.
  apply Nat.mul_lt_mono_pos_r; [|done].
  pose proof (pair_bound_pow_pos (L - 1 - S (pb_offset b))). lia.
Qed.

(** The loop that extends a branch returns; either it reaches the end of
    the walk, or it leaves a lighter stack that still holds a branch
    which has not passed the realised choice [a]. *)
Lemma extend_branch_spec (a : nat → nat) : ∀ (fuel : nat) (b : PathBranch)
    (branches : list PathBranch),
  (L ≤ pb_offset b + 1 + fuel)%nat →
  (pb_curr b < K (pb_offset b))%nat →
  (pb_next b < K (S (pb_offset b)))%nat →
  Forall (branch_valid path reverse_mapping) branches →
  ∃ b' branches',
    run fuel b (handle_at path reverse_mapping (pb_offset b) (pb_curr b))
        (D (pb_offset b)) branches = Value (b', branches') ∧
    Forall (branch_valid path reverse_mapping) branches' ∧
    ((L ≤ pb_offset b' + 1)%nat ∨
     ((pb_offset b' + 1 < L)%nat ∧ (pb_offset b + 1 < L)%nat ∧
      (stack_weight path reverse_mapping branches'
       < weight path reverse_mapping b + stack_weight path reverse_mapping branches)%nat ∧
      (assignment_ok path unfolded reverse_mapping a →
       before a b ∨ Exists (before a) branches →
       Exists (before a) branches'))).
Proof.
  induction fuel as [|fuel IH]; intros b branches Hfuel Hc Hn Hvalid.
  { exists b, branches. split; [|split; [done|left; lia]].
    cbn [extend_branch]. by destruct (Nat.ltb_spec (pb_offset b + 1) L) as [|_]; [lia|]. }
  destruct (Nat.le_gt_cases L (pb_offset b + 1)) as [Hend|Ho].
  { exists b, branches. split; [|split; [done|left; lia]].
    cbn [extend_branch]. by destruct (Nat.ltb_spec (pb_offset b + 1) L) as [|_]; [lia|]. }
  assert (Hb : branch_valid path reverse_mapping b) by (by repeat split).
  pose proof (alternative_valid b Hb) as Halt.
  pose proof (alternative_weight b Hb) as Hwalt.
  pose proof (pair_bound_pow_pos (L - 1 - pb_offset b)) as Hpow.
  rewrite extend_branch_step by done.
  destruct (edge_ok path unfolded reverse_mapping (pb_offset b) (pb_curr b) (pb_next b))
    eqn:Hedge; cbn [negb].
  2:{ (* the edge is missing: the branch is dropped *)
    exists b, (alternative path reverse_mapping b ++ branches).
    split; [done|]. split; [by apply Forall_app|]. right.
    split; [done|]. split; [done|]. split; [rewrite stack_weight_app; lia|].
    intros [Hrange Hedges] [Hbefore|Hrest]; [|apply Exists_app; by right].
    apply Exists_app; left.
    apply alternative_before; [done|apply Hrange; lia|apply Hrange; lia|done|].
    intros [Hc' Hn']. specialize (Hedges (pb_offset b) ltac:(lia)).
    rewrite <- Hc', <- Hn' in Hedges. congruence. }
  (* the edge is present: the branch advances *)
  set (rest := if (D (S (pb_offset b)) <=? 1)%nat then []
               else alternative path reverse_mapping b ++ branches).
  assert (Hrest : Forall (branch_valid path reverse_mapping) rest).
  { subst rest. destruct (_ <=? _)%nat; [constructor|by apply Forall_app]. }
  assert (Hwrest : (stack_weight path reverse_mapping rest
                    ≤ stack_weight path reverse_mapping (alternative path reverse_mapping b)
                      + stack_weight path reverse_mapping branches)%nat).
  { subst rest. destruct (_ <=? _)%nat; [unfold stack_weight; simpl; lia|].
    by rewrite stack_weight_app. }
  destruct (IH (advance b) rest) as (b' & branches' & Hrun & Hvalid' & Hres).
  - simpl. lia.
  - done.
  - simpl. pose proof (choices_at_pos (S (S (pb_offset b)))). lia.
  - done.
  - exists b', branches'. split; [exact Hrun|]. split; [done|].
    destruct Hres as [Hdone|(Hlt & Hlt' & Hweight & Hgood)]; [by left|right].
    simpl in Hlt'.
    split; [done|]. split; [done|]. split.
    + pose proof (advance_weight b Hlt' Hn). lia.
    + intros Hok Hinv. apply (Hgood Hok). destruct Hok as [Hrange Hedges].
      subst rest. destruct (Nat.leb_spec (D (S (pb_offset b))) 1) as [Hone|Hmany].
      * (* the stack is cleared: the next node has one choice *)
        left. right. simpl.
        pose proof (Hrange (S (pb_offset b)) ltac:(lia)) as Ha.
        assert (K (S (pb_offset b)) = 1)%nat by (unfold choices_at; lia).
        lia.
      * destruct Hinv as [Hbefore|Hin]; [|right; apply Exists_app; by right].
        destruct (decide (pb_curr b = a (pb_offset b) ∧ pb_next b = a (S (pb_offset b))))
          as [[Hc' Hn']|Hneq].
        -- left. right. simpl. lia.
        -- right. apply Exists_app; left.
           apply alternative_before; [done|apply Hrange; lia|apply Hrange; lia|done..].
Qed.

Local Abbreviation search := (verify_loop path unfolded reverse_mapping).

(** One round of the search loop. *)
Lemma verify_loop_step (fuel : nat) (b : PathBranch) (rest : list PathBranch) :
  branch_valid path reverse_mapping b →
  search (S fuel) (b :: rest)
  = match run L b (handle_at path reverse_mapping (pb_offset b) (pb_curr b))
              (D (pb_offset b)) rest with
    | Value (b', rest') =>
        if (L <=? pb_offset b' + 1)%nat then Value true else search fuel rest'
    | OutOfRange => OutOfRange
    | OutOfFuel => OutOfFuel
    end.
Proof.
  intros (Ho & Hc & Hn). cbn [verify_loop].
  destruct (reverse_mapping !! path_node path (pb_offset b)) as [duplicates|] eqn:Hl.
  - destruct (lookup_some_choices _ _ Hl) as (Hlen & _ & Hk).
    by rewrite (Hk _ Hc), Hlen.
  - destruct (lookup_none_choices _ Hl) as (Hd & _ & Hcand).
    rewrite Hd. unfold handle_at. by rewrite Hcand.
Qed.

Lemma stack_weight_nil (branches : list PathBranch) :
  Forall (branch_valid path reverse_mapping) branches →
  stack_weight path reverse_mapping branches = 0%nat → branches = [].
Proof.
  destruct branches as [|b rest]; [done|]. intros Hv Hw.
  apply Forall_cons in Hv as [Hb _].
  pose proof (remaining_pos b Hb). pose proof (pair_bound_pow_pos (L - 1 - pb_offset b)).
  unfold stack_weight, weight in Hw. simpl in Hw.
  assert (1 * 1 ≤ remaining path reverse_mapping b * B ^ (L - 1 - pb_offset b))%nat
    by (by apply Nat.mul_le_mono).
  lia.
Qed.

(** The search loop returns, and it returns true while the stack holds a
    branch that has not passed a realised choice. *)
Lemma verify_loop_returns (a : nat → nat) : ∀ (m fuel : nat) (branches : list PathBranch),
  (stack_weight path reverse_mapping branches ≤ m)%nat → (m ≤ fuel)%nat →
  Forall (branch_valid path reverse_mapping) branches →
  ∃ r, search fuel branches = Value r ∧
       (assignment_ok path unfolded reverse_mapping a →
        Exists (before a) branches → r = true).
Proof.
  induction m as [|m IH]; intros fuel branches Hw Hfuel Hvalid.
  { rewrite (stack_weight_nil branches Hvalid ltac:(lia)).
    exists false. split; [by destruct fuel|]. intros _ Hex. by apply Exists_nil in Hex. }
  destruct branches as [|b rest].
  { exists false. split; [by destruct fuel|]. intros _ Hex. by apply Exists_nil in Hex. }
  destruct fuel as [|fuel]; [lia|].
  apply Forall_cons in Hvalid as [Hb Hrest]. pose proof Hb as (Ho & Hc & Hn).
  rewrite verify_loop_step by done.
  destruct (extend_branch_spec a L b rest ltac:(lia) Hc Hn Hrest)
    as (b' & rest' & -> & Hvalid' & Hres).
  destruct Hres as [Hdone|(Hlt & _ & Hweight & Hgood)].
  { exists true. split; [|done]. by destruct (Nat.leb_spec L (pb_offset b' + 1)); [|lia]. }
  destruct (Nat.leb_spec L (pb_offset b' + 1)) as [|_]; [lia|].
  change (b :: rest) with ([b] ++ rest) in Hw. rewrite stack_weight_app in Hw.
  assert (stack_weight path reverse_mapping [b] = weight path reverse_mapping b) as Hwb
    by (unfold stack_weight; simpl; lia).
  destruct (IH fuel rest' ltac:(lia) ltac:(lia) Hvalid') as (r & Hr & Htrue).
  exists r. split; [done|]. intros Hok Hex. apply (Htrue Hok), (Hgood Hok).
  by apply Exists_cons in Hex.
Qed.

Lemma index_of_spec (x : Z) (l : list Z) :
  x ∈ l → l !! index_of x l = Some x.
Proof.
  intros Hin. unfold index_of.
  destruct (list_find_elem_of (λ y, y = x) l x Hin eq_refl) as [[i y] Hfind].
  rewrite Hfind. simpl. apply list_find_Some in Hfind as (Hl & -> & _). done.
Qed.

(** A realised assignment of candidate ids gives realised branch
    numbers. *)
Lemma realised_branch_numbers (choice : list Z) :
  realised_by path unfolded reverse_mapping choice →
  assignment_ok path unfolded reverse_mapping
    (branch_numbers path reverse_mapping choice).
Proof.
  intros (Hlen & Hcand & Hedges).
  assert (Hat : ∀ i, (i < L)%nat →
            (branch_numbers path reverse_mapping choice i < K i)%nat ∧
            choice !! i
            = Some (cand_at path reverse_mapping i
                      (branch_numbers path reverse_mapping choice i))).
  { intros i Hi.
    destruct (lookup_lt_is_Some_2 choice i ltac:(lia)) as [c Hc].
    specialize (Hcand i c Hc). unfold candidates in Hcand.
    unfold branch_numbers, cand_at, choices_at, dups_at.
    destruct (reverse_mapping !! path_node path i) as [duplicates|] eqn:Hl.
    - simpl in Hcand. rewrite Hc. simpl.
      pose proof (index_of_spec c duplicates Hcand) as Hidx.
      rewrite Hidx. split; [|done]. apply lookup_lt_Some in Hidx. lia.
    - simpl in Hcand. apply list_elem_of_singleton in Hcand as ->. split; [lia|done]. }
  split; [intros i Hi; by apply Hat|].
  intros i Hi.
  destruct (Hat i ltac:(lia)) as [_ H1]. destruct (Hat (S i) Hi) as [_ H2].
  apply (Hedges i _ _ H1 H2).
Qed.

(** The verifier returns on every input whose map lists at least one
    candidate per listed id, and it returns true whenever some assignment
    of one candidate per walk position realises the walk: dropping the
    pending branches at a position with one candidate never loses the
    last successful assignment. *)
Lemma verify_path_returns :
  ∃ fuel0 : nat, ∀ fuel : nat, (fuel0 ≤ fuel)%nat →
    ∃ r, verify_path path unfolded reverse_mapping fuel = Value r ∧
         ((∃ choice, realised_by path unfolded reverse_mapping choice) → r = true).
Proof.
  set (b0 := {| pb_offset := 0; pb_curr := 0; pb_next := 0 |}).
  exists (stack_weight path reverse_mapping [b0]). intros fuel Hfuel.
  unfold verify_path. destruct (Nat.ltb_spec L 2) as [|HL]; [by exists true|].
  fold b0.
  assert (Hb0 : branch_valid path reverse_mapping b0).
  { repeat split; simpl; [lia|apply choices_at_pos..]. }
  set (a := λ i : nat, 0%nat).
  destruct (verify_loop_returns a _ fuel [b0] (Nat.le_refl _) Hfuel
              ltac:(by apply Forall_singleton)) as (r & Hr & _).
  exists r. split; [done|]. intros [choice Hchoice].
  apply realised_branch_numbers in Hchoice.
  destruct (verify_loop_returns (branch_numbers path reverse_mapping choice) _ fuel [b0]
              (Nat.le_refl _) Hfuel ltac:(by apply Forall_singleton))
    as (r' & Hr' & Htrue).
  rewrite Hr in Hr'. injection Hr' as <-. apply (Htrue Hchoice).
  apply Exists_cons_hd. unfold before; simpl. lia.
Qed.

End SearchProofs.

(** * Further properties *)

(** ** The table only grows *)

Lemma trie_step_appends key child trie M :
  first_node (trie_step key child trie M).2 = first_node M ∧
  ∃ added, mapping (trie_step key child trie M).2 = mapping M ++ added ∧
           (length added ≤ 1)%nat ∧ ∀ x, x ∈ added → x = Node.id child.
Proof.
  unfold trie_step. destruct (default 0 (trie !! key) =? 0); simpl.
  - split; [done|]. exists [Node.id child]. split; [done|]. split; [simpl; lia|].
    intros x Hx. by apply list_elem_of_singleton in Hx.
  - split; [done|]. exists []. split; [by rewrite app_nil_r|]. split; [simpl; lia|].
    intros x Hx. by apply elem_of_nil in Hx.
Qed.

Lemma trie_loop_appends mk children : ∀ cursor trie M,
  first_node (trie_loop mk children cursor trie M).2 = first_node M ∧
  ∃ added, mapping (trie_loop mk children cursor trie M).2 = mapping M ++ added ∧
           (length added ≤ length children)%nat ∧
           ∀ x, x ∈ added → ∃ child, child ∈ children ∧ x = Node.id child.
Proof.
  induction children as [|child rest IH]; intros cursor trie M.
  { simpl. split; [done|]. exists []. split; [by rewrite app_nil_r|].
    split; [simpl; lia|]. intros x Hx. by apply elem_of_nil in Hx. }
  simpl.
  destruct (trie_step_appends (mk cursor child) child trie M)
    as (Hf & added1 & Hm1 & Hl1 & Hin1).
  destruct (trie_step (mk cursor child) child trie M) as [[dup trie'] M'].
  simpl in Hf, Hm1.
  destruct (IH dup trie' M') as (Hf' & added2 & Hm2 & Hl2 & Hin2).
  split; [congruence|]. exists (added1 ++ added2).
  split; [by rewrite Hm2, Hm1, app_assoc|].
  split; [rewrite length_app; simpl; lia|].
  intros x Hx. apply elem_of_app in Hx as [Hx|Hx].
  - exists child. split; [by left|by apply Hin1].
  - destruct (Hin2 x Hx) as (c & Hc & ->). exists c. split; [by right|done].
Qed.

Lemma std_min_elem_of (path : path_type) (node : Z) :
  node ∈ std_min path (reverse_complement path) →
  ∃ node', node' ∈ path ∧ Node.id node = Node.id node'.
Proof.
  unfold std_min. destruct (path_lt _ _).
  - unfold reverse_complement. rewrite elem_of_reverse, list_elem_of_fmap.
    intros (x & -> & Hx). exists x. split; [done|apply Node_id_reverse].
  - intros Hin. by exists node.
Qed.

Lemma prefix_children_elem_of (T : path_type) (x : Z) :
  x ∈ prefix_children T → x ∈ T.
Proof.
  unfold prefix_children. intros Hx.
  apply (subseteq_drop 1 T), (subseteq_take (midpoint T - 1)). exact Hx.
Qed.

Lemma suffix_children_elem_of (T : path_type) (x : Z) :
  x ∈ suffix_children T → x ∈ T.
Proof.
  unfold suffix_children. rewrite elem_of_reverse. intros Hx.
  apply (subseteq_drop (midpoint T) T), (subseteq_take (length T - 1 - midpoint T)).
  exact Hx.
Qed.

Lemma get_mapping_appended (M M' : NodeMapping) (added : list Z) (d x : Z) :
  first_node M' = first_node M → mapping M' = mapping M ++ added →
  NodeMapping_ops.get M d = Some x → NodeMapping_ops.get M' d = Some x.
Proof.
  intros Hf Hm. unfold NodeMapping_ops.get. rewrite Hf, Hm.
  destruct (d <? first_node M); [done|]. apply lookup_app_l_Some.
Qed.

Lemma insert_path_table (path : path_type) (st : PhaseUnfolder) :
  first_node (pu_mapping (insert_path path st)) = first_node (pu_mapping st) ∧
  (∃ added,
     mapping (pu_mapping (insert_path path st)) = mapping (pu_mapping st) ++ added ∧
     (length added ≤ length path - 2)%nat ∧
     ∀ x, x ∈ added → ∃ node, node ∈ path ∧ x = Node.id node) ∧
  (∀ d x, get_mapping st d = Some x → get_mapping (insert_path path st) d = Some x) ∧
  border (insert_path path st) = border st ∧
  crossing_edges st ⊆ crossing_edges (insert_path path st).
Proof.
  assert (Hmain :
    first_node (pu_mapping (insert_path path st)) = first_node (pu_mapping st) ∧
    (∃ added,
       mapping (pu_mapping (insert_path path st)) = mapping (pu_mapping st) ++ added ∧
       (length added ≤ length path - 2)%nat ∧
       ∀ x, x ∈ added → ∃ node, node ∈ path ∧ x = Node.id node) ∧
    crossing_edges st ⊆ crossing_edges (insert_path path st)).
  { unfold insert_path. destruct (Nat.ltb_spec (length path) 2) as [Hlt|Hge].
    { split; [done|]. split; [|done]. exists []. split; [by rewrite app_nil_r|].
      split; [simpl; lia|]. intros x Hx. by apply elem_of_nil in Hx. }
    set (T := std_min path (reverse_complement path)).
    assert (HT : length T = length path) by apply std_min_length.
    rewrite insert_prefixes_trie_loop.
    destruct (trie_loop_appends prefix_key (prefix_children T) (default 0 (head T))
                (prefixes st) (pu_mapping st)) as (Hf1 & added1 & Hm1 & Hl1 & Hin1).
    destruct (trie_loop prefix_key _ _ _ _) as [[from pre] M1]. simpl in Hf1, Hm1.
    rewrite insert_suffixes_trie_loop.
    destruct (trie_loop_appends suffix_key (suffix_children T) (default 0 (last T))
                (suffixes st) M1) as (Hf2 & added2 & Hm2 & Hl2 & Hin2).
    destruct (trie_loop suffix_key _ _ _ _) as [[to suf] M2]. simpl in Hf2, Hm2.
    simpl. split; [congruence|]. split; [|apply union_subseteq_r].
    exists (added1 ++ added2). split; [by rewrite Hm2, Hm1, app_assoc|].
    split.
    - rewrite length_app.
      rewrite prefix_children_length in Hl1 by lia.
      rewrite suffix_children_length in Hl2 by lia.
      pose proof (midpoint_bounds (length T) ltac:(lia)). lia.
    - intros x Hx. apply elem_of_app in Hx as [Hx|Hx].
      + destruct (Hin1 x Hx) as (c & Hc & ->).
        apply prefix_children_elem_of, std_min_elem_of in Hc as (n & Hn & Hid).
        by exists n.
      + destruct (Hin2 x Hx) as (c & Hc & ->).
        apply suffix_children_elem_of, std_min_elem_of in Hc as (n & Hn & Hid).
        by exists n. }
  destruct Hmain as (Hf & (added & Hm & Hl & Hin) & Hc).
  split; [done|]. split; [by exists added|]. split; [|split; [apply insert_path_border|done]].
  intros d x. unfold get_mapping. by apply (get_mapping_appended _ _ added).
Qed.

(** X1 (the table is append-only).  A call of insert_path keeps
    first_node, keeps every entry of the table and appends at most
    size - 2 new ones, each the id of a handle of the walk; hence every
    answer of get_mapping that was defined before the call is the same
    after it.  The border set is untouched and no crossing edge is
    removed. *)
Theorem insert_path_appends (path : path_type) (st : PhaseUnfolder) :
  first_node (pu_mapping (insert_path path st)) = first_node (pu_mapping st) ∧
  (∃ added,
     mapping (pu_mapping (insert_path path st)) = mapping (pu_mapping st) ++ added ∧
     (length added ≤ length path - 2)%nat ∧
     ∀ x, x ∈ added → ∃ node, node ∈ path ∧ x = Node.id node) ∧
  (∀ d x, get_mapping st d = Some x → get_mapping (insert_path path st) d = Some x) ∧
  border (insert_path path st) = border st ∧
  crossing_edges st ⊆ crossing_edges (insert_path path st).
Proof. apply insert_path_table. Qed.

(** ** Walks in the tries *)

Lemma Node_encode_pos (n : Z) (r : bool) : 0 < n < 2 ^ 63 → Node.encode n r ≠ 0.
Proof.
  intros Hn. rewrite Node_encode_small by lia. destruct r; simpl; lia.
Qed.

Lemma allocated_nonzero (M : NodeMapping) (trie : gmap (Z * Z) Z) key dup :
  0 < first_node M → allocated M trie → trie !! key = Some dup → dup ≠ 0.
Proof.
  intros H0 Ha Hl ->. specialize (Ha _ _ Hl). unfold Node.id in Ha.
  change (Z.shiftr 0 1) with 0 in Ha. lia.
Qed.

Lemma trie_step_allocated key child trie M :
  0 < first_node M ≤ next_node M → next_node M < 2 ^ 63 → allocated M trie →
  trie ⊆ (trie_step key child trie M).1.2 ∧
  allocated (trie_step key child trie M).2 (trie_step key child trie M).1.2 ∧
  (trie_step key child trie M).1.2 !! key = Some (trie_step key child trie M).1.1 ∧
  first_node (trie_step key child trie M).2 = first_node M ∧
  next_node M ≤ next_node (trie_step key child trie M).2 ≤ next_node M + 1.
Proof.
  intros H0 Hb Ha. unfold trie_step.
  destruct (trie !! key) as [v|] eqn:Hl; simpl.
  - assert (v ≠ 0) as Hv by (apply (allocated_nonzero M trie key); [lia|done..]).
    apply Z.eqb_neq in Hv. rewrite Hv. simpl.
    split; [done|]. split; [done|]. split; [done|]. split; [done|lia].
  - rewrite wrap64_small by lia. split; [by apply insert_subseteq|].
    split; [|split; [by rewrite lookup_insert_eq|split; [done|lia]]].
    intros key' dup. rewrite lookup_insert. case_decide as Hk; simpl.
    + intros [= <-]. rewrite Node_id_encode by lia. lia.
    + intros Hl'. specialize (Ha _ _ Hl'). lia.
Qed.

Lemma trie_path_weaken (mk : Z → Z → Z * Z) (trie trie' : gmap (Z * Z) Z)
    (children : path_type) :
  trie ⊆ trie' → ∀ cursor dups,
  trie_path mk trie cursor children dups → trie_path mk trie' cursor children dups.
Proof.
  intros Hsub. induction children as [|child rest IH]; intros cursor [|dup dups];
    simpl; try done.
  intros [Hl Hrest]. split; [by eapply lookup_weaken|by apply IH].
Qed.

Lemma trie_loop_path (mk : Z → Z → Z * Z) (children : path_type) : ∀ cursor trie M,
  0 < first_node M ≤ next_node M →
  next_node M + Z.of_nat (length children) ≤ 2 ^ 63 →
  allocated M trie →
  trie ⊆ (trie_loop mk children cursor trie M).1.2 ∧
  allocated (trie_loop mk children cursor trie M).2
            (trie_loop mk children cursor trie M).1.2 ∧
  first_node (trie_loop mk children cursor trie M).2 = first_node M ∧
  next_node M ≤ next_node (trie_loop mk children cursor trie M).2 ∧
  ∃ dups,
    trie_path mk (trie_loop mk children cursor trie M).1.2 cursor children dups ∧
    last (cursor :: dups) = Some (trie_loop mk children cursor trie M).1.1.
Proof.
  induction children as [|child rest IH]; intros cursor trie M H0 Hb Ha.
  { simpl. split; [done|]. split; [done|]. split; [done|]. split; [lia|].
    by exists []. }
  simpl in Hb |- *.
  destruct (trie_step_allocated (mk cursor child) child trie M H0 ltac:(lia) Ha)
    as (Hsub & Ha' & Hkey & Hf & Hn).
  destruct (trie_step (mk cursor child) child trie M) as [[dup trie'] M'].
  simpl in Hsub, Ha', Hkey, Hf, Hn.
  destruct (IH dup trie' M' ltac:(lia) ltac:(lia) Ha')
    as (Hsub' & Ha'' & Hf' & Hn' & dups & Hpath & Hlast).
  split; [by etrans|]. split; [done|]. split; [congruence|]. split; [lia|].
  exists (dup :: dups). split; [|done].
  simpl. split; [|done]. by eapply lookup_weaken.
Qed.

Lemma trie_path_entries (mk : Z → Z → Z * Z) (orig : Z * Z → Z) (M : NodeMapping)
    (trie : gmap (Z * Z) Z) (children : path_type) :
  (∀ c x, orig (mk c x) = x) → trie_ok orig M trie →
  ∀ cursor dups, trie_path mk trie cursor children dups →
                 Forall2 (entry_ok M) children dups.
Proof.
  intros Horig Hok. induction children as [|child rest IH]; intros cursor [|dup dups];
    simpl; try done.
  intros [Hl Hrest]. constructor; [|by eapply IH].
  specialize (Hok _ _ Hl). by rewrite Horig in Hok.
Qed.

Lemma chain_app (R : Z → Z → Prop) (l1 l2 : path_type) :
  chain R l1 → chain R l2 →
  (∀ a b, last l1 = Some a → head l2 = Some b → R a b) →
  chain R (l1 ++ l2).
Proof.
  induction l1 as [|a l1 IH]; intros H1 H2 Hjoin; [done|].
  destruct l1 as [|b l1].
  - simpl. destruct l2 as [|c l2]; [done|]. split; [by apply Hjoin|done].
  - destruct H1 as [Hab H1]. split; [done|]. apply IH; [done..|].
    intros x y Hx. by apply Hjoin.
Qed.

Lemma chain_reverse (R : Z → Z → Prop) (l : path_type) :
  chain (flip R) l → chain R (reverse l).
Proof.
  induction l as [|a l IH]; intros Hl; [done|].
  rewrite reverse_cons. apply chain_app; [|done|].
  - apply IH. destruct l; [done|]. by destruct Hl.
  - intros x y Hx [= <-]. rewrite last_reverse in Hx.
    destruct l as [|b l]; [done|]. simpl in Hx. injection Hx as <-. by destruct Hl.
Qed.

Lemma chain_lookup (R : Z → Z → Prop) (l : path_type) :
  chain R l → ∀ i a b, l !! i = Some a → l !! S i = Some b → R a b.
Proof.
  induction l as [|x l IH]; intros Hl i a b Ha Hb; [done|].
  destruct l as [|y l]; [done|]. destruct Hl as [Hxy Hl].
  destruct i as [|i]; simpl in Ha, Hb.
  - by injection Ha as <-; injection Hb as <-.
  - by apply (IH Hl i).
Qed.

Lemma chain_impl (R R' : Z → Z → Prop) (l : path_type) :
  (∀ a b, R a b → R' a b) → chain R l → chain R' l.
Proof.
  intros Himpl. induction l as [|x l IH]; [done|].
  destruct l as [|y l]; [done|]. intros [Hxy Hl]. split; [by apply Himpl|by apply IH].
Qed.

Lemma trie_path_chain (mk : Z → Z → Z * Z) (R : Z → Z → Prop)
    (trie : gmap (Z * Z) Z) (children : path_type) :
  (∀ c x d, trie !! mk c x = Some d → R c d) →
  ∀ cursor dups, trie_path mk trie cursor children dups → chain R (cursor :: dups).
Proof.
  intros HR. induction children as [|child rest IH]; intros cursor [|dup dups];
    simpl; try done.
  intros [Hl Hrest]. split; [by eapply HR|]. by apply IH.
Qed.

Lemma drop_last (l : path_type) :
  (1 ≤ length l)%nat → drop (length l - 1) l = [default 0 (last l)].
Proof.
  destruct l as [|x l _] using rev_ind; [simpl; lia|]. intros _.
  rewrite length_app, last_snoc. simpl.
  replace (length l + 1 - 1)%nat with (length l) by lia.
  by rewrite drop_app_length.
Qed.

(** The walk is its first handle, the children of the prefix loop, the
    children of the suffix loop in walk order and its last handle. *)
Lemma walk_split (T : path_type) :
  (2 ≤ length T)%nat →
  T = [default 0 (head T)] ++ prefix_children T ++ reverse (suffix_children T)
      ++ [default 0 (last T)].
Proof.
  intros HL. unfold prefix_children, suffix_children.
  rewrite reverse_involutive.
  pose proof (midpoint_bounds (length T) HL) as Hmid. fold (midpoint T) in Hmid.
  rewrite <- (drop_last T) by lia.
  replace (drop (length T - 1) T)
    with (drop (length T - 1 - midpoint T) (drop (midpoint T) T)).
  2: { rewrite drop_drop. f_equal. unfold midpoint in *. lia. }
  rewrite take_drop.
  replace (drop (midpoint T) T) with (drop (midpoint T - 1) (drop 1 T)).
  2: { rewrite drop_drop. f_equal. unfold midpoint in *. lia. }
  rewrite take_drop. destruct T; [simpl in HL; lia|done].
Qed.

(** ** The assembly creates the edges of the tries *)

Lemma foldl_link_spec {A : Type} (f g : A → Z) (l : list A) : ∀ u : VG,
  (∀ p, p ∈ vg_edges (foldl (λ u m, link u (f m) (g m)) u l) ↔
        p ∈ vg_edges u ∨ ∃ m, m ∈ l ∧ p = pair_from_edge (make_edge (f m) (g m))) ∧
  (∀ n, n ∈ vg_nodes (foldl (λ u m, link u (f m) (g m)) u l) ↔
        n ∈ vg_nodes u ∨ ∃ m, m ∈ l ∧ (n = Node.id (f m) ∨ n = Node.id (g m))).
Proof.
  induction l as [|a l IH]; intros u; simpl.
  { split; intros x; (split; [by left|]); intros [Hx|(m & Hm & _)]; [done| |done|];
      by apply elem_of_nil in Hm. }
  destruct (IH (link u (f a) (g a))) as [He Hn]. split.
  - intros p. rewrite He. unfold link at 1. simpl.
    rewrite elem_of_union, elem_of_singleton. split.
    + intros [[->|Hp]|(m & Hm & ->)].
      * right. exists a. split; [by left|done].
      * by left.
      * right. exists m. split; [by right|done].
    + intros [Hp|(m & Hm & ->)]; [by left; right|].
      apply elem_of_cons in Hm as [->|Hm]; [by left; left|].
      right. by exists m.
  - intros n. rewrite Hn, link_nodes.
    rewrite !elem_of_union, !elem_of_singleton. split.
    + intros [[->|[->|Hp]]|(m & Hm & Hor)].
      * right. exists a. split; [by left|by right].
      * right. exists a. split; [by left|by left].
      * by left.
      * right. exists m. split; [by right|done].
    + intros [Hp|(m & Hm & Hor)]; [by left; right; right|].
      apply elem_of_cons in Hm as [->|Hm].
      * left. destruct Hor as [->| ->]; [right; by left|by left].
      * right. by exists m.
Qed.

Lemma assemble_spec (st : PhaseUnfolder) (unfolded : VG) :
  (∀ p, p ∈ vg_edges (assembled st unfolded) ↔
        p ∈ vg_edges unfolded ∨
        ∃ a b, linked st a b ∧ p = pair_from_edge (make_edge a b)) ∧
  (∀ n, n ∈ vg_nodes (assembled st unfolded) ↔
        n ∈ vg_nodes unfolded ∨
        ∃ a b, linked st a b ∧ (n = Node.id a ∨ n = Node.id b)).
Proof.
  unfold assembled.
  set (u1 := foldl (λ u (m : Z * Z * Z), link u m.1.1 m.2) unfolded
                   (map_to_list (prefixes st))).
  set (u2 := foldl (λ u (m : Z * Z * Z), link u m.2 m.1.2) u1
                   (map_to_list (suffixes st))).
  destruct (foldl_link_spec (λ m : Z * Z * Z, m.1.1) (λ m, m.2)
              (map_to_list (prefixes st)) unfolded) as [He1 Hn1].
  destruct (foldl_link_spec (λ m : Z * Z * Z, m.2) (λ m, m.1.2)
              (map_to_list (suffixes st)) u1) as [He2 Hn2].
  destruct (foldl_link_spec (λ e : Z * Z, e.1) (λ e, e.2)
              (elements (crossing_edges st)) u2) as [He3 Hn3].
  fold u1 in He1, Hn1, He2, Hn2. fold u2 in He2, Hn2, He3, Hn3.
  assert (Hlinked : ∀ a b, linked st a b ↔
            (∃ m, m ∈ map_to_list (prefixes st) ∧ a = m.1.1 ∧ b = m.2) ∨
            (∃ m, m ∈ map_to_list (suffixes st) ∧ a = m.2 ∧ b = m.1.2) ∨
            (∃ e, e ∈ elements (crossing_edges st) ∧ a = e.1 ∧ b = e.2)).
  { intros a b. unfold linked. split.
    - intros [[c Hc]|[[c Hc]|Hc]].
      + left. exists ((a, c), b). split; [by apply elem_of_map_to_list|done].
      + right; left. exists ((c, b), a). split; [by apply elem_of_map_to_list|done].
      + right; right. exists (a, b). split; [by apply elem_of_elements|done].
    - intros [([[x c] v] & Hm & -> & ->)|[([[c x] v] & Hm & -> & ->)|([x y] & Hm & -> & ->)]].
      + left. exists c. by apply elem_of_map_to_list in Hm.
      + right; left. exists c. by apply elem_of_map_to_list in Hm.
      + right; right. by apply elem_of_elements in Hm. }
  split.
  - intros p. rewrite He3, He2, He1. split.
    + intros [[[Hp|(m & Hm & ->)]|(m & Hm & ->)]|(m & Hm & ->)]; [by left|right..].
      * exists m.1.1, m.2. split; [|done]. apply Hlinked. left. by exists m.
      * exists m.2, m.1.2. split; [|done]. apply Hlinked. right; left. by exists m.
      * exists m.1, m.2. split; [|done]. apply Hlinked. right; right. by exists m.
    + intros [Hp|(a & b & Hl & ->)]; [by left; left; left|].
      apply Hlinked in Hl as [(m & Hm & -> & ->)|[(m & Hm & -> & ->)|(m & Hm & -> & ->)]].
      * left; left; right. by exists m.
      * left; right. by exists m.
      * right. by exists m.
  - intros n. rewrite Hn3, Hn2, Hn1. split.
    + intros [[[Hp|(m & Hm & Hor)]|(m & Hm & Hor)]|(m & Hm & Hor)]; [by left|right..].
      * exists m.1.1, m.2. split; [|done]. apply Hlinked. left. by exists m.
      * exists m.2, m.1.2. split; [|done]. apply Hlinked. right; left. by exists m.
      * exists m.1, m.2. split; [|done]. apply Hlinked. right; right. by exists m.
    + intros [Hp|(a & b & Hl & Hor)]; [by left; left; left|].
      apply Hlinked in Hl as [(m & Hm & -> & ->)|[(m & Hm & -> & ->)|(m & Hm & -> & ->)]].
      * left; left; right. by exists m.
      * left; right. by exists m.
      * right. by exists m.
Qed.

(** ** The two loops of [insert_path] *)

Lemma allocated_mono (M M' : NodeMapping) (trie : gmap (Z * Z) Z) :
  first_node M' = first_node M → next_node M ≤ next_node M' →
  allocated M trie → allocated M' trie.
Proof. intros Hf Hn Ha key dup Hl. specialize (Ha _ _ Hl). lia. Qed.

Lemma insert_path_unfold (path : path_type) (st : PhaseUnfolder) :
  (2 ≤ length path)%nat →
  let T := std_min path (reverse_complement path) in
  let r1 := trie_loop prefix_key (prefix_children T) (default 0 (head T))
                      (prefixes st) (pu_mapping st) in
  let r2 := trie_loop suffix_key (suffix_children T) (default 0 (last T))
                      (suffixes st) r1.2 in
  insert_path path st
  = {| pu_mapping := r2.2; border := border st;
       prefixes := r1.1.2; suffixes := r2.1.2;
       crossing_edges := {[ (r1.1.1, r2.1.1) ]} ∪ crossing_edges st |}.
Proof.
  intros HL T r1 r2. unfold insert_path.
  destruct (Nat.ltb_spec (length path) 2) as [Hlt|_]; [lia|].
  fold T. rewrite insert_prefixes_trie_loop. fold r1.
  destruct r1 as [[from pre] M1] eqn:Hr1.
  rewrite insert_suffixes_trie_loop. subst r2. simpl.
  by destruct (trie_loop suffix_key _ _ _ _) as [[to suf] M2].
Qed.

(** ** The handles of the tries can be read from the table *)

Lemma Node_id_encode_le (n : Z) (r : bool) : 0 ≤ n → Node.id (Node.encode n r) ≤ n.
Proof. intros Hn. rewrite Node_id_encode_any. apply Z.mod_le; lia. Qed.

Lemma wf_table_covers (M : NodeMapping) : NodeMapping_ops.wf M → table_covers M.
Proof. intros (H0 & Hle & Hlen). unfold table_covers. lia. Qed.

Lemma trie_step_known (key : Z * Z) (child : Z) (trie : gmap (Z * Z) Z)
    (M : NodeMapping) :
  table_covers M → (∀ k v, trie !! k = Some v → known_id M v) →
  table_covers (trie_step key child trie M).2 ∧
  (∀ h, known_id M h → known_id (trie_step key child trie M).2 h) ∧
  known_id (trie_step key child trie M).2 (trie_step key child trie M).1.1 ∧
  (∀ k v, (trie_step key child trie M).1.2 !! k = Some v →
     known_id (trie_step key child trie M).2 v ∧
     (trie !! k = Some v ∨ k = key)).
Proof.
  intros [H0 Hn] Hv. unfold trie_step.
  destruct (default 0 (trie !! key) =? 0) eqn:Hz; simpl.
  - assert (Hmono : ∀ h, known_id M h →
              known_id {| first_node := first_node M;
                          next_node := wrap64 (next_node M + 1);
                          mapping := mapping M ++ [Node.id child] |} h).
    { intros h. unfold known_id. simpl. rewrite length_app. simpl. lia. }
    split; [|split; [done|split]].
    + unfold table_covers, wrap64. simpl. rewrite length_app. simpl.
      pose proof (Z.mod_pos_bound (next_node M + 1) (2 ^ 64) ltac:(lia)).
      pose proof (Z.mod_le (next_node M + 1) (2 ^ 64) ltac:(lia) ltac:(lia)). lia.
    + unfold known_id. simpl. rewrite length_app. simpl.
      pose proof (Node_id_encode_le (next_node M) (Node.is_reverse child) H0). lia.
    + intros k v. rewrite lookup_insert. case_decide as Hk.
      * intros [= <-]. split; [|by right]. unfold known_id. simpl.
        rewrite length_app. simpl.
        pose proof (Node_id_encode_le (next_node M) (Node.is_reverse child) H0). lia.
      * intros Hl. split; [by apply Hmono, (Hv k)|by left].
  - split; [done|]. split; [done|]. split.
    + destruct (trie !! key) as [s|] eqn:Hl; [by apply (Hv key)|done].
    + intros k v Hl. split; [by apply (Hv k)|by left].
Qed.

Lemma trie_loop_known (mk : Z → Z → Z * Z) (children : path_type) :
  ∀ cursor trie M,
  table_covers M → (∀ k v, trie !! k = Some v → known_id M v) → known_id M cursor →
  table_covers (trie_loop mk children cursor trie M).2 ∧
  (∀ h, known_id M h → known_id (trie_loop mk children cursor trie M).2 h) ∧
  known_id (trie_loop mk children cursor trie M).2
           (trie_loop mk children cursor trie M).1.1 ∧
  (∀ k v, (trie_loop mk children cursor trie M).1.2 !! k = Some v →
     known_id (trie_loop mk children cursor trie M).2 v ∧
     (trie !! k = Some v ∨
      ∃ c child, k = mk c child ∧
                 known_id (trie_loop mk children cursor trie M).2 c)).
Proof.
  induction children as [|child rest IH]; intros cursor trie M Hc Hv Hcur.
  { simpl. split; [done|]. split; [done|]. split; [done|].
    intros k v Hl. split; [by apply (Hv k)|by left]. }
  simpl.
  destruct (trie_step_known (mk cursor child) child trie M Hc Hv)
    as (Hc1 & Hmono1 & Hdup1 & Hv1).
  destruct (trie_step (mk cursor child) child trie M) as [[dup trie1] M1].
  simpl in Hc1, Hmono1, Hdup1, Hv1.
  destruct (IH dup trie1 M1 Hc1 (λ k v Hl, proj1 (Hv1 k v Hl)) Hdup1)
    as (Hc2 & Hmono2 & Hdup2 & Hv2).
  split; [done|]. split; [by intros h Hh; apply Hmono2, Hmono1|]. split; [done|].
  intros k v Hl. destruct (Hv2 k v Hl) as [Hk [Hold|(c & ch & -> & Hcn)]].
  - split; [done|]. destruct (Hv1 k v Hold) as [_ [Hold'| ->]]; [by left|].
    right. exists cursor, child. split; [done|]. by apply Hmono2, Hmono1.
  - split; [done|]. right. by exists c, ch.
Qed.

Lemma std_min_cases (path : path_type) :
  std_min path (reverse_complement path) = path ∨
  path = reverse_complement (std_min path (reverse_complement path)).
Proof.
  unfold std_min. destruct (path_lt _ _); [right|by left].
  by rewrite reverse_complement_involutive.
Qed.

Lemma insert_path_known (path : path_type) (st : PhaseUnfolder) :
  table_covers (pu_mapping st) → links_known st →
  ((2 ≤ length path)%nat →
   ∀ node, node ∈ path → Node.id node < first_node (pu_mapping st)) →
  table_covers (pu_mapping (insert_path path st)) ∧ links_known (insert_path path st).
Proof.
  intros Hc Hk Hids.
  destruct (Nat.lt_ge_cases (length path) 2) as [Hlt|HL].
  { assert (Hsame : insert_path path st = st).
    { unfold insert_path. by destruct (Nat.ltb_spec (length path) 2); [|lia]. }
    by rewrite Hsame. }
  rewrite (insert_path_unfold path st HL).
  set (T := std_min path (reverse_complement path)).
  assert (HT : length T = length path) by apply std_min_length.
  assert (HidT : ∀ node, node ∈ T → known_id (pu_mapping st) node).
  { intros node Hnode. unfold known_id.
    pose proof (std_min_ids path (first_node (pu_mapping st)) (Hids HL) node Hnode).
    lia. }
  destruct (trie_loop_known prefix_key (prefix_children T) (default 0 (head T))
              (prefixes st) (pu_mapping st) Hc)
    as (Hc1 & Hmono1 & Hfrom & Hv1).
  { intros [a c] v Hl. apply (Hk a v). left. by exists c. }
  { apply HidT, head_elem_of. lia. }
  destruct (trie_loop prefix_key _ _ _ _) as [[from pre] M1].
  simpl in Hc1, Hmono1, Hfrom, Hv1.
  destruct (trie_loop_known suffix_key (suffix_children T) (default 0 (last T))
              (suffixes st) M1 Hc1)
    as (Hc2 & Hmono2 & Hto & Hv2).
  { intros [c b] v Hl. apply Hmono1, (Hk v b). right; left. by exists c. }
  { apply Hmono1, HidT, last_elem_of. lia. }
  destruct (trie_loop suffix_key _ _ _ _) as [[to suf] M2].
  simpl in Hc2, Hmono2, Hto, Hv2. simpl.
  assert (Hold : ∀ a b, linked st a b → known_id M2 a ∧ known_id M2 b).
  { intros a b Hl. destruct (Hk a b Hl). split; by apply Hmono2, Hmono1. }
  split; [done|]. intros a b [[x Hl]|[[x Hl]|Hl]]; unfold known; simpl in Hl |- *.
  - destruct (Hv1 _ _ Hl) as [Hb [Hl'|(c & ch & Hkey & Hcn)]].
    + apply Hold. left. by exists x.
    + injection Hkey as -> _. split; by apply Hmono2.
  - destruct (Hv2 _ _ Hl) as [Ha [Hl'|(c & ch & Hkey & Hcn)]].
    + apply Hold. right; left. by exists x.
    + injection Hkey as _ ->. done.
  - apply elem_of_union in Hl as [Hl|Hl]; [|apply Hold; by right; right].
    apply elem_of_singleton in Hl. injection Hl as -> ->.
    split; [by apply Hmono2|done].
Qed.

Lemma children_inner (T : path_type) (child : Z) :
  child ∈ prefix_children T ∨ child ∈ suffix_children T →
  inner_id T (Node.id child).
Proof.
  unfold prefix_children, suffix_children, midpoint.
  set (mid := ((length T + 1) / 2)%nat).
  assert (Hmid : (2 ≤ length T → mid ≤ length T)%nat).
  { intros HL. subst mid. pose proof (midpoint_bounds (length T) HL). lia. }
  intros [Hin|Hin].
  - apply list_elem_of_lookup in Hin as [j Hj].
    apply lookup_take_Some in Hj as [Hj Hlt]. rewrite lookup_drop in Hj.
    pose proof (lookup_lt_Some _ _ _ Hj) as Hlen.
    exists (1 + j)%nat, child. split; [done|]. split; [lia|]. split; [|done].
    pose proof (midpoint_bounds (length T) ltac:(lia)). fold mid in H. lia.
  - rewrite elem_of_reverse in Hin. apply list_elem_of_lookup in Hin as [j Hj].
    apply lookup_take_Some in Hj as [Hj Hlt]. rewrite lookup_drop in Hj.
    pose proof (lookup_lt_Some _ _ _ Hj) as Hlen.
    exists (mid + j)%nat, child. split; [done|]. split; [|split; [lia|done]].
    pose proof (midpoint_bounds (length T) ltac:(lia)). fold mid in H. lia.
Qed.

Lemma inner_id_std_min (path : path_type) (x : Z) :
  inner_id (std_min path (reverse_complement path)) x → inner_id path x.
Proof.
  destruct (std_min_cases path) as [-> |Hrc]; [done|].
  set (T := std_min path (reverse_complement path)) in *.
  intros (i & node & Hi & H1 & H2 & ->).
  pose proof (reverse_complement_lookup T i node Hi) as Hr. rewrite <- Hrc in Hr.
  assert (HT : length T = length path) by apply std_min_length.
  exists (length T - 1 - i)%nat, (Node.reverse node).
  split; [done|]. split; [lia|]. split; [lia|]. by rewrite Node_id_reverse.
Qed.

Lemma insert_path_added (path : path_type) (st : PhaseUnfolder) :
  ∃ added,
    mapping (pu_mapping (insert_path path st)) = mapping (pu_mapping st) ++ added ∧
    ∀ x, x ∈ added → inner_id path x.
Proof.
  destruct (Nat.lt_ge_cases (length path) 2) as [Hlt|HL].
  { assert (Hsame : insert_path path st = st).
    { unfold insert_path. by destruct (Nat.ltb_spec (length path) 2); [|lia]. }
    rewrite Hsame. exists []. split; [by rewrite app_nil_r|].
    intros x Hx. by apply elem_of_nil in Hx. }
  rewrite (insert_path_unfold path st HL).
  set (T := std_min path (reverse_complement path)).
  destruct (trie_loop_appends prefix_key (prefix_children T) (default 0 (head T))
              (prefixes st) (pu_mapping st)) as (_ & added1 & Hm1 & _ & Hin1).
  destruct (trie_loop prefix_key _ _ _ _) as [[from pre] M1]. simpl in Hm1.
  destruct (trie_loop_appends suffix_key (suffix_children T) (default 0 (last T))
              (suffixes st) M1) as (_ & added2 & Hm2 & _ & Hin2).
  destruct (trie_loop suffix_key _ _ _ _) as [[to suf] M2]. simpl in Hm2. simpl.
  exists (added1 ++ added2). split; [by rewrite Hm2, Hm1, app_assoc|].
  intros x Hx. apply inner_id_std_min. fold T.
  apply elem_of_app in Hx as [Hx|Hx].
  - destruct (Hin1 x Hx) as (c & Hc & ->). apply children_inner. by left.
  - destruct (Hin2 x Hx) as (c & Hc & ->). apply children_inner. by right.
Qed.

(** ** The object after the walks of a component *)

Lemma inserted_refl (Q : path_type → Prop) (st : PhaseUnfolder) : inserted Q st st.
Proof. by exists []. Qed.

Lemma inserted_trans (Q : path_type → Prop) (st1 st2 st3 : PhaseUnfolder) :
  inserted Q st1 st2 → inserted Q st2 st3 → inserted Q st1 st3.
Proof.
  intros (l1 & H1 & ->) (l2 & H2 & ->). exists (l1 ++ l2).
  split; [by apply Forall_app|]. unfold insert_paths. by rewrite foldl_app.
Qed.

Lemma inserted_insert_path (Q : path_type → Prop) (path : path_type)
    (st : PhaseUnfolder) :
  Q path → inserted Q st (insert_path path st).
Proof. intros HQ. exists [path]. split; [by apply Forall_singleton|done]. Qed.

Lemma insert_paths_border (paths : list path_type) :
  ∀ st, border (insert_paths paths st) = border st.
Proof.
  induction paths as [|p rest IH]; intros st; [done|].
  change (insert_paths (p :: rest) st) with (insert_paths rest (insert_path p st)).
  by rewrite IH, insert_path_border.
Qed.

Lemma inserted_border (Q : path_type → Prop) (st st' : PhaseUnfolder) :
  inserted Q st st' → border st' = border st.
Proof. intros (paths & _ & ->). apply insert_paths_border. Qed.

Lemma inserted_impl (Q Q' : path_type → Prop) (st st' : PhaseUnfolder) :
  (∀ walk, Q walk → Q' walk) → inserted Q st st' → inserted Q' st st'.
Proof.
  intros Himpl (paths & Hall & ->). exists paths. split; [|done].
  eapply Forall_impl; [exact Hall|done].
Qed.

(** After walks of a component, every handle of the tries can still be
    read from the table and no new entry of the table is a border id. *)
Lemma insert_paths_walk_ok (B : gset Z) (paths : list path_type) :
  ∀ st : PhaseUnfolder,
  table_covers (pu_mapping st) → links_known st →
  Forall (walk_ok (first_node (pu_mapping st)) B) paths →
  table_covers (pu_mapping (insert_paths paths st)) ∧
  links_known (insert_paths paths st) ∧
  ∃ added,
    mapping (pu_mapping (insert_paths paths st)) = mapping (pu_mapping st) ++ added ∧
    ∀ x, x ∈ added → x ∉ B.
Proof.
  induction paths as [|p rest IH]; intros st Hc Hk Hall.
  { split; [done|]. split; [done|]. exists []. split; [by rewrite app_nil_r|].
    intros x Hx. by apply elem_of_nil in Hx. }
  apply Forall_cons in Hall as [[Hids Hinner] Hrest].
  change (insert_paths (p :: rest) st) with (insert_paths rest (insert_path p st)).
  destruct (insert_path_known p st Hc Hk Hids) as [Hc1 Hk1].
  destruct (insert_path_added p st) as (added1 & Hm1 & Hin1).
  destruct (insert_path_table p st) as (Hf1 & _).
  destruct (IH (insert_path p st) Hc1 Hk1) as (Hc2 & Hk2 & added2 & Hm2 & Hin2).
  { by rewrite Hf1. }
  split; [done|]. split; [done|]. exists (added1 ++ added2).
  split; [by rewrite Hm2, Hm1, app_assoc|].
  intros x Hx. apply elem_of_app in Hx as [Hx|Hx]; [by apply Hinner, Hin1|by apply Hin2].
Qed.

Section InsertedWalks.

Variable xg_index : XG.
Variable gbwt_index : GBWT.
Variable component : VG.
Variable B : gset Z.
Variable Q : path_type → Prop.
Variable P : state_type → Prop.
Hypothesis HQwalk : ∀ prev rest, Q (extend_walk component B prev rest [prev]).
Hypothesis HPQ : ∀ s, P s → Q s.2.
Hypothesis HPfind : ∀ from r, from ∈ B →
  P (GBWT_ops.find gbwt_index (Node.encode from r), [Node.encode from r]).
Hypothesis HPextend : ∀ s edge n r, P s →
  (2 <=? length s.2)%nat && bool_decide (Node.id (ss_node s.1) ∈ B) = false →
  edge ∈ VG_ops.edges_of component (Node.id (ss_node s.1)) →
  n = e_to edge ∨ n = e_from edge →
  P (GBWT_ops.extend gbwt_index s.1 (Node.encode n r), s.2 ++ [Node.encode n r]).

Lemma generate_paths_walks_inserted (from : Z) (st : PhaseUnfolder) :
  border st = B → inserted Q st (generate_paths xg_index component from st).
Proof.
  intros HB. unfold generate_paths.
  apply (foldl_keeps _ (inserted Q st)); [|apply inserted_refl].
  intros s r Hs. apply (foldl_keeps _ (inserted Q st)); [|done].
  intros s' occ Hs'. unfold generate_paths_at, forward_walk, backward_walk.
  rewrite insert_path_border, (inserted_border _ _ _ Hs'), HB.
  eapply inserted_trans; [exact Hs'|].
  eapply inserted_trans; apply inserted_insert_path; apply HQwalk.
Qed.

Lemma extend_state_kept (s : state_type) (edge : Edge) (n : Z) (r : bool)
    (states : list state_type) :
  P s →
  (2 <=? length s.2)%nat && bool_decide (Node.id (ss_node s.1) ∈ B) = false →
  edge ∈ VG_ops.edges_of component (Node.id (ss_node s.1)) →
  n = e_to edge ∨ n = e_from edge →
  Forall P states → Forall P (extend_state gbwt_index s n r states).2.
Proof.
  intros Hs Hcond Hedge Hn Hall. unfold extend_state.
  destruct (GBWT_ops.is_empty _); [done|]. simpl. constructor; [|done].
  by apply (HPextend s edge).
Qed.

Lemma try_edges_kept (s : state_type) (edges : list Edge) :
  P s →
  (2 <=? length s.2)%nat && bool_decide (Node.id (ss_node s.1) ∈ B) = false →
  (∀ edge, edge ∈ edges → edge ∈ VG_ops.edges_of component (Node.id (ss_node s.1))) →
  ∀ (b : bool) (states : list state_type),
    Forall P states →
    Forall P (foldl (try_edge gbwt_index s (Node.id (ss_node s.1))
                              (Node.is_reverse (ss_node s.1)))
                    (b, states) edges).2.
Proof.
  intros Hs Hcond. induction edges as [|edge edges IH]; intros Hedges b states Hall.
  { done. }
  cbn [foldl].
  pose proof (Hedges edge ltac:(by left)) as Hedge.
  assert (Hstep : Forall P (try_edge gbwt_index s (Node.id (ss_node s.1))
                              (Node.is_reverse (ss_node s.1)) (b, states) edge).2).
  { unfold try_edge.
    destruct (bool_decide (e_from edge = Node.id (ss_node s.1))
              && eqb (e_from_start edge) (Node.is_reverse (ss_node s.1))).
    - pose proof (extend_state_kept s edge (e_to edge) (e_to_end edge) states
                    Hs Hcond Hedge ltac:(by left) Hall) as Hext.
      by destruct (extend_state gbwt_index s (e_to edge) (e_to_end edge) states).
    - destruct (bool_decide (e_to edge = Node.id (ss_node s.1))
                && negb (eqb (e_to_end edge) (Node.is_reverse (ss_node s.1))));
        [|done].
      pose proof (extend_state_kept s edge (e_from edge) (negb (e_from_start edge))
                    states Hs Hcond Hedge ltac:(by right) Hall) as Hext.
      by destruct (extend_state gbwt_index s (e_from edge)
                     (negb (e_from_start edge)) states). }
  destruct (try_edge gbwt_index s _ _ (b, states) edge) as [b' states'].
  apply IH; [|done]. intros e Hin. apply Hedges. by right.
Qed.

Lemma threads_loop_walks_inserted : ∀ (fuel : nat) (states : list state_type)
    (st st' : PhaseUnfolder),
  border st = B → Forall P states →
  threads_loop gbwt_index fuel component states st = Value st' →
  inserted Q st st'.
Proof.
  induction fuel as [|fuel IH]; intros states st st' HB Hall Hrun.
  { destruct states; simpl in Hrun; [|done]. injection Hrun as <-.
    apply inserted_refl. }
  destruct states as [|s rest].
  { simpl in Hrun. injection Hrun as <-. apply inserted_refl. }
  rewrite threads_loop_cons in Hrun.
  apply Forall_cons in Hall as [Hs Hrest].
  assert (Hinsert : inserted Q st (insert_path s.2 st)).
  { apply inserted_insert_path. by apply HPQ. }
  assert (HB' : border (insert_path s.2 st) = B) by (by rewrite insert_path_border).
  rewrite HB in Hrun.
  destruct ((2 <=? length s.2)%nat && bool_decide (Node.id (ss_node s.1) ∈ B))
    eqn:Hcond.
  { eapply inserted_trans; [exact Hinsert|]. by apply (IH rest). }
  pose proof (try_edges_kept s (VG_ops.edges_of component (Node.id (ss_node s.1)))
                Hs Hcond (λ e He, He) false rest Hrest) as Hpushed.
  destruct (foldl _ _ _) as [[|] states']; simpl in Hpushed.
  - by apply (IH states').
  - eapply inserted_trans; [exact Hinsert|]. by apply (IH states').
Qed.

Lemma create_state_kept (from : Z) (r : bool) (states : list state_type) :
  from ∈ B → Forall P states → Forall P (create_state gbwt_index from r states).
Proof.
  intros Hfrom Hall. unfold create_state.
  destruct (GBWT_ops.is_empty _); [done|]. constructor; [|done]. by apply HPfind.
Qed.

Lemma generate_all_walks_inserted (fuel : nat) (starts : list Z) :
  ∀ st st' : PhaseUnfolder,
  border st = B → (∀ b, b ∈ starts → b ∈ B) →
  generate_all xg_index gbwt_index fuel component starts st = Value st' →
  inserted Q st st'.
Proof.
  induction starts as [|b starts IH]; intros st st' HB Hstarts Hrun; simpl in Hrun.
  { injection Hrun as <-. apply inserted_refl. }
  pose proof (generate_paths_walks_inserted b st HB) as Hpaths.
  destruct (generate_threads gbwt_index fuel component b
              (generate_paths xg_index component b st)) as [st1| |] eqn:Hth; [|done..].
  assert (HB1 : border (generate_paths xg_index component b st) = B).
  { by rewrite generate_paths_border. }
  assert (Hthreads : inserted Q (generate_paths xg_index component b st) st1).
  { apply (threads_loop_walks_inserted fuel _ _ _ HB1) in Hth; [done|].
    apply create_state_kept; [apply Hstarts; by left|].
    apply create_state_kept; [apply Hstarts; by left|constructor]. }
  eapply inserted_trans; [exact Hpaths|].
  eapply inserted_trans; [exact Hthreads|].
  apply IH; [|intros b' Hb'; apply Hstarts; by right|done].
  by rewrite (inserted_border _ _ _ Hthreads).
Qed.

End InsertedWalks.

Lemma extend_walk_spec (component : VG) (B : gset Z) (rest : path_type) :
  ∀ (prev : Z) (buffer : path_type),
  ∃ j : nat,
    extend_walk component B prev rest buffer = buffer ++ take j rest ∧
    border_walk component B (prev :: take j rest) ∧
    walk_ends component B (prev :: take j rest) (drop j rest).
Proof.
  induction rest as [|curr rest IH]; intros prev buffer.
  { exists 0%nat. simpl. rewrite app_nil_r. split; [done|]. split; [|by left].
    split; [done|]. intros i node _ Hi Hlen. simpl in Hlen. lia. }
  cbn [extend_walk].
  destruct (VG_ops.has_edge component (make_edge prev curr)) eqn:Hedge; cbn [negb].
  2: { exists 0%nat. simpl. rewrite app_nil_r. split; [done|]. split.
       - split; [done|]. intros i node _ Hi Hlen. simpl in Hlen. lia.
       - right; right. by exists prev, curr. }
  case_bool_decide as Hborder.
  { exists 1%nat. simpl. rewrite take_0, drop_0. split; [done|]. split.
    - split; [done|]. intros i node _ Hi Hlen. simpl in Hlen. lia.
    - right; left. split; [simpl; lia|]. by exists curr. }
  destruct (IH curr (buffer ++ [curr])) as (j & Hrun & [Hchain Hinner] & Hends).
  exists (S j). rewrite Hrun. cbn [take drop]. split; [by rewrite <- app_assoc|].
  split; [split|].
  - by split.
  - intros i node Hnode Hi Hlen. destruct i as [|i]; [lia|]. simpl in Hnode, Hlen.
    destruct i as [|i].
    + simpl in Hnode. by injection Hnode as <-.
    + apply (Hinner (S i) node); [done|lia|simpl; lia].
  - destruct Hends as [Hnil|[[Hlen (node & Hlast & Hin)]|(a & next & Hlast & Hhead & He)]].
    + by left.
    + right; left. split; [simpl in Hlen |- *; lia|]. by exists node.
    + right; right. by exists a, next.
Qed.

Lemma chain_elem_of (R : Z → Z → Prop) (l : path_type) (x : Z) :
  (2 ≤ length l)%nat → chain R l → x ∈ l → ∃ a b, R a b ∧ (x = a ∨ x = b).
Proof.
  induction l as [|a l IH]; intros HL Hl Hx; [simpl in HL; lia|].
  destruct l as [|b l]; [simpl in HL; lia|]. destruct Hl as [Hab Hl].
  apply elem_of_cons in Hx as [->|Hx]; [by exists a, b; split; [|left]|].
  destruct l as [|c l].
  - apply list_elem_of_singleton in Hx as ->. exists a, b. split; [done|by right].
  - apply IH; [simpl; lia|done..].
Qed.

Lemma inner_id_snoc (walk : path_type) (node x : Z) :
  inner_id (walk ++ [node]) x →
  inner_id walk x ∨ ((2 ≤ length walk)%nat ∧ ∃ h, last walk = Some h ∧ x = Node.id h).
Proof.
  intros (i & h & Hi & H1 & H2 & ->). rewrite length_app in H2. simpl in H2.
  destruct (decide (S i < length walk)%nat) as [Hlt|Hge].
  - left. exists i, h. rewrite lookup_app_l in Hi by lia. done.
  - right. split; [lia|]. exists h. split; [|done].
    rewrite lookup_app_l in Hi by lia. rewrite last_lookup.
    replace (Nat.pred (length walk)) with i by lia. done.
Qed.

Section ComponentWalks.

Variable xg_index : XG.
Variable gbwt_index : GBWT.
Variable component : VG.
Variable first : Z.
Variable B : gset Z.
Hypothesis Hstarts : ∀ n, n ∈ B → 0 ≤ n < first.
Hypothesis Hedges : ∀ p, p ∈ vg_edges component →
  0 ≤ p.1.1 < first ∧ 0 ≤ p.2.1 < first.

Lemma has_edge_below (a b : Z) :
  VG_ops.has_edge component (make_edge a b) = true →
  Node.id a < first ∧ Node.id b < first.
Proof.
  intros He. apply bool_decide_eq_true in He. apply Hedges in He.
  destruct (pair_from_edge_ends (make_edge a b)) as [[E1 E2]|[E1 E2]];
    rewrite E1, E2 in He; simpl in He; lia.
Qed.

Lemma extend_walk_ok (prev : Z) (rest : path_type) :
  walk_ok first B (extend_walk component B prev rest [prev]).
Proof.
  destruct (extend_walk_spec component B rest prev [prev]) as (j & -> & [Hw Hin] & _).
  change ([prev] ++ take j rest) with (prev :: take j rest). split.
  - intros HL node Hnode.
    destruct (chain_elem_of _ _ node HL Hw Hnode) as (a & b & Hab & Hor).
    apply has_edge_below in Hab. destruct Hor as [-> | ->]; lia.
  - intros x (i & node & Hi & H1 & H2 & ->). by apply (Hin i).
Qed.

Lemma edges_of_below (node : Z) (edge : Edge) :
  edge ∈ VG_ops.edges_of component node →
  0 ≤ e_from edge < first ∧ 0 ≤ e_to edge < first.
Proof.
  unfold VG_ops.edges_of. intros Hin.
  apply list_elem_of_fmap in Hin as (p & -> & Hp).
  apply list_elem_of_filter in Hp as [_ Hp]. apply elem_of_elements in Hp.
  apply Hedges in Hp. simpl. lia.
Qed.

Lemma generate_all_component_walks (fuel : nat) (starts : list Z)
    (st st' : PhaseUnfolder) :
  border st = B → (∀ b, b ∈ starts → b ∈ B) →
  generate_all xg_index gbwt_index fuel component starts st = Value st' →
  inserted (walk_ok first B) st st'.
Proof.
  apply (generate_all_walks_inserted xg_index gbwt_index component B
           (walk_ok first B) (state_ok first B)).
  - apply extend_walk_ok.
  - intros s (Hids & Hinner & _). split; [by intros _|done].
  - intros from r Hfrom. split; [|split; [|done]].
    + intros node Hnode. apply list_elem_of_singleton in Hnode as ->. simpl.
      pose proof (Hstarts from Hfrom).
      pose proof (Node_id_encode_le from r ltac:(lia)). lia.
    + intros x (i & node & Hi & H1 & H2 & _). simpl in H2. lia.
  - intros s edge n r (Hids & Hinner & Hlast) Hcond Hedge Hn.
    apply edges_of_below in Hedge.
    split; [|split; [|simpl; by rewrite last_snoc]]; simpl.
    + intros node Hnode. apply elem_of_app in Hnode as [Hnode|Hnode];
        [by apply Hids|].
      apply list_elem_of_singleton in Hnode as ->.
      pose proof (Node_id_encode_le n r ltac:(destruct Hn as [-> | ->]; lia)).
      destruct Hn as [-> | ->]; lia.
    + intros x Hx. apply inner_id_snoc in Hx as [Hx|(HL & h & Hh & ->)];
        [by apply Hinner|].
      rewrite Hlast in Hh. injection Hh as <-.
      apply andb_false_iff in Hcond as [Hcond|Hcond].
      * apply Nat.leb_gt in Hcond. lia.
      * by apply bool_decide_eq_false in Hcond.
Qed.

End ComponentWalks.

(** [unfold_component] on a component with original ids: once the search
    loop is given enough rounds, every read of the assembly is in the
    table, so the call returns; it returns the graph [assembled], and no
    entry that it appends to the table is the id of a border node. *)
Lemma unfold_component_reads (xg_index : XG) (gbwt_index : GBWT)
    (component graph unfolded : VG) (st : PhaseUnfolder) (fuel : nat)
    (st1 : PhaseUnfolder) :
  table_covers (pu_mapping st) → scratch_empty st →
  (∀ n, n ∈ vg_nodes component → 0 ≤ n < first_node (pu_mapping st)) →
  (∀ p, p ∈ vg_edges component →
        0 ≤ p.1.1 < first_node (pu_mapping st) ∧
        0 ≤ p.2.1 < first_node (pu_mapping st)) →
  generate_all xg_index gbwt_index fuel component
    (elements (border (find_border component graph st)))
    (find_border component graph st) = Value st1 →
  unfold_component xg_index gbwt_index fuel component graph unfolded st
    = Value (size (crossing_edges st1), assembled st1 unfolded, clear_component st1) ∧
  table_covers (pu_mapping st1) ∧ links_known st1 ∧
  ∃ added,
    mapping (pu_mapping st1) = mapping (pu_mapping st) ++ added ∧
    ∀ x, x ∈ added → x ∉ border (find_border component graph st).
Proof.
  intros Hc (HB & HP & HS & HC) Hnodes Hedges Hgen.
  set (st0 := find_border component graph st) in *.
  assert (Hstarts : ∀ n, n ∈ border st0 → 0 ≤ n < first_node (pu_mapping st)).
  { intros n Hn. subst st0. simpl in Hn. rewrite HB in Hn.
    apply elem_of_union in Hn as [Hn|Hn]; [|by apply not_elem_of_empty in Hn].
    apply elem_of_filter in Hn as [_ Hn]. by apply Hnodes. }
  destruct (generate_all_component_walks xg_index gbwt_index component
              (first_node (pu_mapping st)) (border st0) Hstarts Hedges
              fuel (elements (border st0)) st0 st1 eq_refl
              (λ b Hb, proj1 (elem_of_elements _ _) Hb) Hgen)
    as (paths & Hall & Heq).
  destruct (insert_paths_walk_ok (border st0) paths st0 Hc) as (Hc1 & Hk1 & Hadded).
  { intros a b [[x Hl]|[[x Hl]|Hl]]; simpl in Hl.
    - by rewrite HP, lookup_empty in Hl.
    - by rewrite HS, lookup_empty in Hl.
    - rewrite HC in Hl. by apply not_elem_of_empty in Hl. }
  { done. }
  rewrite <- Heq in Hc1, Hk1, Hadded.
  split; [|done]. unfold unfold_component. fold st0.
  by rewrite Hgen, (assemble_value st1 unfolded Hk1).
Qed.

(** ** Inserted walks stay in the tries *)

Lemma insert_path_links (path : path_type) (st : PhaseUnfolder) :
  unfolder_ok st →
  next_node (pu_mapping st) + Z.of_nat (length path) ≤ 2 ^ 63 →
  unfolder_ok (insert_path path st) ∧
  next_node (pu_mapping st) ≤ next_node (pu_mapping (insert_path path st))
    ≤ next_node (pu_mapping st) + Z.of_nat (length path) ∧
  prefixes st ⊆ prefixes (insert_path path st) ∧
  suffixes st ⊆ suffixes (insert_path path st) ∧
  ((2 ≤ length path)%nat →
   (∀ node, node ∈ path → Node.id node < first_node (pu_mapping st)) →
   ∃ copy,
     Forall2 (copy_of (insert_path path st))
             (std_min path (reverse_complement path)) copy ∧
     chain (linked (insert_path path st)) copy ∧
     head copy = head (std_min path (reverse_complement path)) ∧
     last copy = last (std_min path (reverse_complement path))).
Proof.
  intros (Hwf & H0 & Hok & HaP & HaS) Hb.
  destruct (insert_path_tries_ok path st Hwf Hb Hok) as (Hwf' & Hok' & Hn').
  destruct (insert_path_table path st) as (Hf' & _).
  destruct (Nat.lt_ge_cases (length path) 2) as [Hlt|HL].
  { assert (Hsame : insert_path path st = st).
    { unfold insert_path. by destruct (Nat.ltb_spec (length path) 2); [|lia]. }
    rewrite Hsame. split; [done|]. split; [lia|]. split; [done|]. split; [done|lia]. }
  revert Hwf' Hok' Hn' Hf'. rewrite (insert_path_unfold path st HL).
  set (T := std_min path (reverse_complement path)).
  assert (HT : length T = length path) by apply std_min_length.
  pose proof (children_length_le T) as Hlen.
  pose proof Hwf as (_ & Hle & _).
  destruct (trie_loop_path prefix_key (prefix_children T) (default 0 (head T))
              (prefixes st) (pu_mapping st) ltac:(lia) ltac:(lia) HaP)
    as (Hsub1 & Ha1 & Hf1 & Hn1 & pdups & Hpath1 & Hlast1).
  pose proof (trie_loop_ok prefix_key snd (λ c x, eq_refl) (prefix_children T)
                (default 0 (head T)) (prefixes st) (pu_mapping st) Hwf ltac:(lia))
    as Hpre.
  destruct Hpre as (_ & _ & Hn1' & _).
  { intros [u v] d Hl. destruct Hok as [HP _]. by apply (HP u). }
  destruct (trie_loop prefix_key _ _ _ _) as [[from pre] M1].
  simpl in Hsub1, Ha1, Hf1, Hn1, Hn1', Hpath1, Hlast1.
  destruct (trie_loop_path suffix_key (suffix_children T) (default 0 (last T))
              (suffixes st) M1 ltac:(lia) ltac:(lia))
    as (Hsub2 & Ha2 & Hf2 & Hn2 & sdups & Hpath2 & Hlast2).
  { by apply (allocated_mono (pu_mapping st)). }
  destruct (trie_loop suffix_key _ _ _ _) as [[to suf] M2].
  simpl in Hsub2, Ha2, Hf2, Hn2, Hpath2, Hlast2. simpl.
  intros Hwf' Hok' Hn' Hf'.
  split.
  { split; [done|]. split; [simpl; lia|]. split; [done|]. simpl.
    split; [by apply (allocated_mono M1)|done]. }
  split; [done|]. split; [done|]. split; [done|].
  intros _ Hids.
  assert (HidT : ∀ node, node ∈ T → Node.id node < first_node M2).
  { intros node Hnode. rewrite Hf'. by apply (std_min_ids path). }
  assert (Hend : ∀ node, node ∈ T →
            copy_of {| pu_mapping := M2; border := border st; prefixes := pre;
                       suffixes := suf;
                       crossing_edges := {[ (from, to) ]} ∪ crossing_edges st |}
                    node node).
  { intros node Hnode. split; [|done]. unfold get_mapping, NodeMapping_ops.get. simpl.
    specialize (HidT node Hnode).
    by destruct (Z.ltb_spec (Node.id node) (first_node M2)); [|lia]. }
  destruct Hok' as [HP' HS']. simpl in HP', HS'.
  exists ((default 0 (head T) :: pdups) ++ reverse (default 0 (last T) :: sdups)).
  split.
  - rewrite (walk_split T) at 1 by lia.
    rewrite reverse_cons.
    change (default 0 (head T) :: pdups) with ([default 0 (head T)] ++ pdups).
    rewrite <- app_assoc.
    apply Forall2_app; [|apply Forall2_app; [|apply Forall2_app]].
    + constructor; [|constructor]. apply Hend, head_elem_of. lia.
    + apply (trie_path_entries prefix_key snd M2 pre (prefix_children T)
               (λ c x, eq_refl)) with (cursor := default 0 (head T)); [|done].
      intros [u v] d Hl. by apply (HP' u).
    + apply Forall2_reverse.
      apply (trie_path_entries suffix_key fst M2 suf (suffix_children T)
               (λ c x, eq_refl)) with (cursor := default 0 (last T)); [|done].
      intros [v u] d Hl. by apply (HS' u).
    + constructor; [|constructor]. apply Hend, last_elem_of. lia.
  - split; [|split].
    2: { fold T. destruct T; [simpl in HT; lia|done]. }
    2: { fold T. rewrite last_app, last_reverse. simpl.
         destruct (last T) eqn:Hl; [done|]. apply last_None in Hl.
         rewrite Hl in HT. simpl in HT. lia. }
    apply chain_app.
    + apply (trie_path_chain prefix_key _ pre (prefix_children T)); [|done].
      intros c x d Hl. left. by exists x.
    + apply chain_reverse.
      apply (trie_path_chain suffix_key _ suf (suffix_children T)); [|done].
      intros c x d Hl. right; left. by exists x.
    + intros a b Hla Hhb. rewrite head_reverse in Hhb.
      rewrite Hlast1 in Hla. rewrite Hlast2 in Hhb.
      injection Hla as <-. injection Hhb as <-.
      right; right. simpl. apply elem_of_union; left. by apply elem_of_singleton.
Qed.

Lemma linked_mono (st st' : PhaseUnfolder) (a b : Z) :
  prefixes st ⊆ prefixes st' → suffixes st ⊆ suffixes st' →
  crossing_edges st ⊆ crossing_edges st' →
  linked st a b → linked st' a b.
Proof.
  intros HP HS HC [[c Hc]|[[c Hc]|Hc]].
  - left. exists c. by eapply lookup_weaken.
  - right; left. exists c. by eapply lookup_weaken.
  - right; right. by apply HC.
Qed.

Lemma copy_of_mono (st st' : PhaseUnfolder) (orig dup : Z) :
  (∀ d x, get_mapping st d = Some x → get_mapping st' d = Some x) →
  copy_of st orig dup → copy_of st' orig dup.
Proof. intros Hm [Hg Hr]. split; [by apply Hm|done]. Qed.

Lemma total_length_nonneg (paths : list path_type) : 0 ≤ total_length paths.
Proof. induction paths; simpl; lia. Qed.

Lemma insert_paths_links (paths : list path_type) : ∀ st : PhaseUnfolder,
  unfolder_ok st →
  next_node (pu_mapping st) + total_length paths ≤ 2 ^ 63 →
  (∀ p node, p ∈ paths → node ∈ p → Node.id node < first_node (pu_mapping st)) →
  unfolder_ok (insert_paths paths st) ∧
  next_node (pu_mapping (insert_paths paths st))
    ≤ next_node (pu_mapping st) + total_length paths ∧
  prefixes st ⊆ prefixes (insert_paths paths st) ∧
  suffixes st ⊆ suffixes (insert_paths paths st) ∧
  crossing_edges st ⊆ crossing_edges (insert_paths paths st) ∧
  (∀ d x, get_mapping st d = Some x → get_mapping (insert_paths paths st) d = Some x) ∧
  ∀ path, path ∈ paths → (2 ≤ length path)%nat →
    ∃ copy,
      Forall2 (copy_of (insert_paths paths st))
              (std_min path (reverse_complement path)) copy ∧
      chain (linked (insert_paths paths st)) copy ∧
      head copy = head (std_min path (reverse_complement path)) ∧
      last copy = last (std_min path (reverse_complement path)).
Proof.
  induction paths as [|p rest IH]; intros st Hok Hb Hids.
  { simpl. split; [done|]. split; [lia|]. split; [done|]. split; [done|].
    split; [done|]. split; [done|]. intros path Hin. by apply elem_of_nil in Hin. }
  simpl in Hb. pose proof (total_length_nonneg rest) as Hpos.
  destruct (insert_path_links p st Hok ltac:(lia)) as (Hok1 & Hn1 & HP1 & HS1 & Hcopy1).
  destruct (insert_path_table p st) as (Hf1 & _ & Hg1 & _ & HC1).
  destruct (IH (insert_path p st) Hok1 ltac:(lia))
    as (Hok2 & Hn2 & HP2 & HS2 & HC2 & Hg2 & Hcopy2).
  { intros q node Hq Hnode. rewrite Hf1. apply (Hids q); [by right|done]. }
  change (insert_paths (p :: rest) st) with (insert_paths rest (insert_path p st)).
  split; [done|]. split; [simpl; lia|]. split; [by etrans|]. split; [by etrans|]. split; [by etrans|].
  split; [by intros d x Hd; apply Hg2, Hg1|].
  intros path Hin HL. apply elem_of_cons in Hin as [->|Hin]; [|by apply Hcopy2].
  destruct Hcopy1 as (copy & Hall & Hchain & Hhead & Hlast); [done| |].
  { intros node Hnode. apply (Hids p); [by left|done]. }
  exists copy. split; [|split; [|done]].
  - eapply Forall2_impl; [exact Hall|]. intros o d. by apply copy_of_mono.
  - eapply chain_impl; [|exact Hchain]. intros a b. by apply linked_mono.
Qed.


Lemma unfolder_ok_new (next : Z) :
  0 < next < 2 ^ 64 → unfolder_ok (PhaseUnfolder_new next).
Proof.
  intros Hn. unfold PhaseUnfolder_new. rewrite wrap64_small by lia.
  split; [unfold NodeMapping_ops.wf; simpl; lia|]. split; [simpl; lia|].
  split; [split; intros u v d Hl; simpl in Hl; by rewrite lookup_empty in Hl|].
  split; intros k d Hl; simpl in Hl; by rewrite lookup_empty in Hl.
Qed.

(** After walks over original nodes the assembly reads the table in
    range, provided the handles that the object linked before can be
    read. *)
Lemma insert_paths_reads (st0 : PhaseUnfolder) (paths : list path_type)
    (unfolded : VG) :
  table_covers (pu_mapping st0) → links_known st0 →
  (∀ p node, p ∈ paths → node ∈ p → Node.id node < first_node (pu_mapping st0)) →
  assemble (insert_paths paths st0) unfolded
  = Value (assembled (insert_paths paths st0) unfolded).
Proof.
  intros Hc Hk Hids. apply assemble_value.
  destruct (insert_paths_walk_ok ∅ paths st0 Hc Hk) as (_ & Hk' & _); [|done].
  apply Forall_forall. intros walk Hw. split.
  - intros _ node Hnode. by apply (Hids walk).
  - intros x _. apply not_elem_of_empty.
Qed.

Lemma scratch_empty_links_known (st : PhaseUnfolder) : scratch_empty st → links_known st.
Proof.
  intros (HB & HP & HS & HC) a b [[x Hl]|[[x Hl]|Hl]].
  - by rewrite HP, lookup_empty in Hl.
  - by rewrite HS, lookup_empty in Hl.
  - rewrite HC in Hl. by apply not_elem_of_empty in Hl.
Qed.

(** X2 (inserted walks are unfolded).  Take an object whose tries hold
    allocated duplicates only (a new object with next_node > 0 is one),
    and insert any sequence of walks over original nodes (ids below
    first_node) without running out of 63-bit ids.  Then for every
    inserted walk W of length >= 2 the graph of the assembly contains a
    copy of the canonical orientation of W: a walk of the same length, with
    the same first and last handle, whose handles have the orientation of
    the handles of W and ids that get_mapping sends back to the ids of W,
    whose consecutive handles are joined by an edge of the assembled graph
    and whose nodes are nodes of the assembled graph.  The three loops of
    unfold_component return that graph, all their reads of the table being
    in range, when the handles that the object linked before the walks can
    be read from the table (an object without tries and crossing edges
    links none). *)
Theorem inserted_walks_unfolded (st0 : PhaseUnfolder) (paths : list path_type)
    (unfolded : VG) (path : path_type) :
  unfolder_ok st0 →
  next_node (pu_mapping st0) + total_length paths ≤ 2 ^ 63 →
  (∀ p node, p ∈ paths → node ∈ p → Node.id node < first_node (pu_mapping st0)) →
  path ∈ paths → (2 ≤ length path)%nat →
  let st := insert_paths paths st0 in
  let T := std_min path (reverse_complement path) in
  (∃ copy : path_type,
     Forall2 (copy_of st) T copy ∧
     head copy = head T ∧ last copy = last T ∧
     (∀ i a b, copy !! i = Some a → copy !! S i = Some b →
        VG_ops.has_edge (assembled st unfolded) (make_edge a b) = true) ∧
     (∀ a, a ∈ copy → VG_ops.has_node (assembled st unfolded) (Node.id a) = true)) ∧
  (links_known st0 → assemble st unfolded = Value (assembled st unfolded)).
Proof.
  intros Hok Hb Hids Hin HL st T. split.
  2: { intros Hk. apply insert_paths_reads; [|done..].
       apply wf_table_covers. by destruct Hok. }
  destruct (insert_paths_links paths st0 Hok Hb Hids)
    as (_ & _ & _ & _ & _ & _ & Hcopy).
  destruct (Hcopy path Hin HL) as (copy & Hall & Hchain & Hhead & Hlast).
  destruct (assemble_spec st unfolded) as [He Hn].
  exists copy. split; [done|]. split; [done|]. split; [done|]. split.
  - intros i a b Ha Hb'. apply bool_decide_eq_true, He. right.
    exists a, b. split; [|done]. by apply (chain_lookup _ copy Hchain i).
  - intros a Ha. apply bool_decide_eq_true, Hn. right.
    assert (Hlen : (2 ≤ length copy)%nat).
    { apply Forall2_length in Hall. rewrite <- Hall. unfold T.
      rewrite std_min_length. lia. }
    destruct (chain_elem_of _ copy a Hlen Hchain Ha) as (x & y & Hxy & Hor).
    exists x, y. split; [done|]. destruct Hor as [-> | ->]; [by left|by right].
Qed.

Lemma inserted_walks_unfolded_witness :
  let st := insert_paths [[2; 4; 6; 8; 10]; [2; 4; 12]] (PhaseUnfolder_new 7) in
  (∃ copy : path_type,
     Forall2 (copy_of st) [2; 4; 12] copy ∧
     head copy = Some 2 ∧ last copy = Some 12 ∧
     (∀ i a b, copy !! i = Some a → copy !! S i = Some b →
        VG_ops.has_edge (assembled st VG_ops.empty) (make_edge a b) = true) ∧
     (∀ a, a ∈ copy →
        VG_ops.has_node (assembled st VG_ops.empty) (Node.id a) = true)) ∧
  assemble st VG_ops.empty = Value (assembled st VG_ops.empty).
Proof.
  destruct (inserted_walks_unfolded (PhaseUnfolder_new 7)
              [[2; 4; 6; 8; 10]; [2; 4; 12]] VG_ops.empty [2; 4; 12])
    as [Hcopy Hreads].
  - apply unfolder_ok_new. lia.
  - simpl. rewrite ?wrap64_small by lia. lia.
  - intros p node Hp Hnode. rewrite !elem_of_cons, elem_of_nil in Hp.
    destruct Hp as [->|[->|[]]]; rewrite !elem_of_cons, elem_of_nil in Hnode.
    + destruct Hnode as [->|[->|[->|[->|[->|[]]]]]]; reflexivity.
    + destruct Hnode as [->|[->|[->|[]]]]; reflexivity.
  - apply (bool_decide_unpack _). by vm_compute.
  - simpl. lia.
  - split; [exact Hcopy|]. apply Hreads. by apply scratch_empty_links_known.
Defined.

(** ** Inserting a walk again *)

Lemma trie_step_again key child trie M :
  0 < next_node M < 2 ^ 63 →
  (trie_step key child trie M).1.1 ≠ 0 ∧
  (trie_step key child trie M).1.2 !! key = Some (trie_step key child trie M).1.1 ∧
  (∀ k v, trie !! k = Some v → v ≠ 0 →
          (trie_step key child trie M).1.2 !! k = Some v) ∧
  next_node M ≤ next_node (trie_step key child trie M).2 ≤ next_node M + 1.
Proof.
  intros Hn. unfold trie_step.
  destruct (Z.eqb_spec (default 0 (trie !! key)) 0) as [Hz|Hz]; simpl.
  - rewrite wrap64_small by lia. split; [by apply Node_encode_pos|].
    split; [by rewrite lookup_insert_eq|]. split; [|lia].
    intros k v Hk Hv. rewrite lookup_insert_ne; [done|].
    intros <-. rewrite Hk in Hz. simpl in Hz. lia.
  - split; [done|]. split; [|split; [done|lia]].
    destruct (trie !! key); [done|]. by simpl in Hz.
Qed.

Lemma trie_loop_again (mk : Z → Z → Z * Z) (children : path_type) :
  ∀ cursor trie M,
  0 < next_node M → next_node M + Z.of_nat (length children) ≤ 2 ^ 63 →
  (∀ k v, trie !! k = Some v → v ≠ 0 →
          (trie_loop mk children cursor trie M).1.2 !! k = Some v) ∧
  next_node M ≤ next_node (trie_loop mk children cursor trie M).2
    ≤ next_node M + Z.of_nat (length children) ∧
  ∀ M', trie_loop mk children cursor (trie_loop mk children cursor trie M).1.2 M'
        = ((trie_loop mk children cursor trie M).1, M').
Proof.
  induction children as [|child rest IH]; intros cursor trie M Hn Hb.
  { simpl. split; [done|]. split; [lia|done]. }
  simpl in Hb |- *.
  destruct (trie_step_again (mk cursor child) child trie M ltac:(lia))
    as (Hdup & Hkey & Hkeep & Hn1).
  destruct (trie_step (mk cursor child) child trie M) as [[dup trie1] M1].
  simpl in Hdup, Hkey, Hkeep, Hn1.
  destruct (IH dup trie1 M1 ltac:(lia) ltac:(lia)) as (Hkeep' & Hn2 & Hagain).
  split; [by intros k v Hk Hv; apply Hkeep'; [apply Hkeep|]|]. split; [lia|].
  intros M'.
  assert (Hstep : trie_step (mk cursor child) child
                    (trie_loop mk rest dup trie1 M1).1.2 M'
                  = (dup, (trie_loop mk rest dup trie1 M1).1.2, M')).
  { unfold trie_step. rewrite (Hkeep' _ _ Hkey Hdup). simpl.
    apply Z.eqb_neq in Hdup. by rewrite Hdup. }
  rewrite Hstep. apply Hagain.
Qed.

(** X3 (inserting a walk twice).  When next_node is positive and the
    walk does not exhaust the 63-bit ids, a second call of insert_path
    with the same walk finds every trie entry and the crossing edge of the
    first call: it allocates no duplicate and leaves the object as the
    first call left it. *)
Theorem insert_path_idempotent (path : path_type) (st : PhaseUnfolder) :
  0 < next_node (pu_mapping st) →
  next_node (pu_mapping st) + Z.of_nat (length path) ≤ 2 ^ 63 →
  insert_path path (insert_path path st) = insert_path path st.
Proof.
  intros Hn Hb.
  destruct (Nat.lt_ge_cases (length path) 2) as [Hlt|HL].
  { unfold insert_path. by destruct (Nat.ltb_spec (length path) 2); [|lia]. }
  rewrite (insert_path_unfold path (insert_path path st) HL).
  rewrite (insert_path_unfold path st HL). simpl.
  set (T := std_min path (reverse_complement path)).
  assert (HT : length T = length path) by apply std_min_length.
  pose proof (children_length_le T) as Hlen.
  destruct (trie_loop_again prefix_key (prefix_children T) (default 0 (head T))
              (prefixes st) (pu_mapping st) Hn ltac:(lia)) as (_ & Hn1 & Hagain1).
  destruct (trie_loop prefix_key (prefix_children T) (default 0 (head T))
              (prefixes st) (pu_mapping st)) as [[from pre] M1].
  simpl in Hn1, Hagain1. simpl.
  destruct (trie_loop_again suffix_key (suffix_children T) (default 0 (last T))
              (suffixes st) M1 ltac:(lia) ltac:(lia)) as (_ & Hn2 & Hagain2).
  destruct (trie_loop suffix_key (suffix_children T) (default 0 (last T))
              (suffixes st) M1) as [[to suf] M2].
  simpl in Hn2, Hagain2. simpl.
  rewrite Hagain1. simpl. rewrite Hagain2. simpl.
  f_equal. by rewrite (assoc_L (∪)), (idemp_L (∪)).
Qed.

Lemma insert_path_idempotent_witness :
  insert_path [2; 4; 6; 8; 10] (insert_path [2; 4; 6; 8; 10] (PhaseUnfolder_new 7))
  = insert_path [2; 4; 6; 8; 10] (PhaseUnfolder_new 7).
Proof.
  apply (insert_path_idempotent [2; 4; 6; 8; 10] (PhaseUnfolder_new 7)); simpl; rewrite ?wrap64_small by lia; lia.
Defined.

(** ** The verifier when no position has two candidates *)

Section SingleCandidates.

Context {T : Type} `{PathOps T}.
Variable path : T.
Variable unfolded : VG.
Variable reverse_mapping : gmap Z (list Z).
Hypothesis Hwf : rm_wf reverse_mapping.
Hypothesis Hone : ∀ i, (i < path_size path)%nat →
                       (dups_at path reverse_mapping i ≤ 1)%nat.

Local Abbreviation L := (path_size path).
Local Abbreviation D := (dups_at path reverse_mapping).
Local Abbreviation ok := (edge_ok path unfolded reverse_mapping).

Lemma extend_branch_done (fuel : nat) (b : PathBranch) (curr : Z) (n : nat)
    (branches : list PathBranch) :
  (L ≤ pb_offset b + 1)%nat →
  extend_branch path unfolded reverse_mapping fuel b curr n branches
  = Value (b, branches).
Proof.
  intros Hend. destruct fuel; cbn [extend_branch];
    by destruct (Nat.ltb_spec (pb_offset b + 1) L); [lia|].
Qed.

Lemma alternative_single (b : PathBranch) :
  (pb_offset b + 1 < L)%nat →
  alternative path reverse_mapping b = [].
Proof.
  intros Ho. unfold alternative.
  pose proof (Hone (pb_offset b) ltac:(lia)).
  pose proof (Hone (S (pb_offset b)) ltac:(lia)).
  destruct (Nat.ltb_spec (pb_next b + 1) (D (S (pb_offset b)))); [lia|].
  by destruct (Nat.ltb_spec (pb_curr b + 1) (D (pb_offset b))); [lia|].
Qed.

Lemma extend_branch_single : ∀ (fuel : nat) (b : PathBranch),
  pb_curr b = 0%nat → pb_next b = 0%nat → (L ≤ pb_offset b + 1 + fuel)%nat →
  ∃ b',
    extend_branch path unfolded reverse_mapping fuel b
      (handle_at path reverse_mapping (pb_offset b) (pb_curr b))
      (D (pb_offset b)) [] = Value (b', []) ∧
    ((L ≤ pb_offset b' + 1)%nat ↔
     ∀ i, (pb_offset b ≤ i)%nat → (S i < L)%nat → ok i 0%nat 0%nat = true).
Proof.
  induction fuel as [|fuel IH]; intros b Hc Hn Hf.
  { exists b. rewrite extend_branch_done by lia. split; [done|].
    split; [intros _ i Hi HL; lia|intros _; lia]. }
  destruct (Nat.le_gt_cases L (pb_offset b + 1)) as [Hend|Ho].
  { exists b. rewrite extend_branch_done by lia. split; [done|].
    split; [intros _ i Hi HL; lia|intros _; lia]. }
  rewrite (extend_branch_step path unfolded reverse_mapping Hwf fuel b [] Ho).
  2: { rewrite Hn. apply choices_at_pos. }
  rewrite (alternative_single b Ho), Hc, Hn.
  destruct (ok (pb_offset b) 0%nat 0%nat) eqn:Hedge; cbn [negb].
  - pose proof (Hone (S (pb_offset b)) ltac:(lia)) as Hd.
    destruct (Nat.leb_spec (D (S (pb_offset b))) 1); [|lia].
    destruct (IH (advance b)) as (b' & Hrun & Hiff); [by simpl..|simpl; lia|].
    simpl in Hrun, Hiff. rewrite Hn in Hrun.
    exists b'. split; [exact Hrun|]. rewrite Hiff. split.
    + intros Hall i Hi HL. destruct (decide (i = pb_offset b)) as [->|Hne]; [done|].
      apply Hall; lia.
    + intros Hall i Hi HL. apply Hall; lia.
  - exists b. split; [done|]. split; [lia|].
    intros Hall. rewrite (Hall (pb_offset b)) in Hedge by lia. done.
Qed.

Lemma verify_path_single (fuel : nat) :
  ∃ r, verify_path path unfolded reverse_mapping (S fuel) = Value r ∧
       (r = true ↔ ∀ i, (S i < L)%nat → ok i 0%nat 0%nat = true).
Proof.
  unfold verify_path. destruct (Nat.ltb_spec L 2) as [Hlt|HL].
  { exists true. split; [done|]. split; [intros _ i Hi; lia|done]. }
  set (b0 := {| pb_offset := 0; pb_curr := 0; pb_next := 0 |}).
  assert (Hb0 : branch_valid path reverse_mapping b0).
  { repeat split; simpl; [lia|apply choices_at_pos..]. }
  rewrite (verify_loop_step path unfolded reverse_mapping Hwf fuel b0 [] Hb0).
  destruct (extend_branch_single L b0 eq_refl eq_refl ltac:(simpl; lia))
    as (b' & Hrun & Hiff).
  rewrite Hrun. destruct (Nat.leb_spec L (pb_offset b' + 1)) as [Hend|Hnot].
  - exists true. split; [done|]. split; [|done]. intros _ i Hi.
    apply Hiff; [done|simpl; lia|done].
  - exists false. split; [by destruct fuel|]. split; [done|].
    intros Hall. apply Nat.lt_nge in Hnot. destruct Hnot. apply Hiff.
    intros i _ Hi. by apply Hall.
Qed.

Lemma single_choice (i : nat) :
  (i < L)%nat → choices_at path reverse_mapping i = 1%nat.
Proof.
  intros Hi. unfold choices_at. pose proof (Hone i Hi). lia.
Qed.

Lemma cand_at_candidate (i : nat) :
  cand_at path reverse_mapping i 0 ∈ candidates reverse_mapping (path_node path i).
Proof.
  unfold cand_at, candidates.
  destruct (reverse_mapping !! path_node path i) as [duplicates|] eqn:Hl; simpl.
  - specialize (Hwf _ _ Hl). destruct duplicates as [|x l]; [done|]. by left.
  - by apply list_elem_of_singleton.
Qed.

Lemma verify_path_single_realised (fuel : nat) :
  ∃ r, verify_path path unfolded reverse_mapping (S fuel) = Value r ∧
       (r = true ↔ ∃ choice, realised_by path unfolded reverse_mapping choice).
Proof.
  destruct (verify_path_single fuel) as (r & Hr & Hiff).
  exists r. split; [done|]. rewrite Hiff. split.
  - intros Hall.
    exists ((λ i, cand_at path reverse_mapping i 0) <$> seq 0 L).
    assert (Hat : ∀ i c,
              ((λ i, cand_at path reverse_mapping i 0) <$> seq 0 L) !! i = Some c →
              (i < L)%nat ∧ c = cand_at path reverse_mapping i 0).
    { intros i c Hc. rewrite list_lookup_fmap in Hc.
      destruct (seq 0 L !! i) as [j|] eqn:Hj; [|done].
      apply lookup_seq in Hj as [-> Hi]. simpl in Hc. by injection Hc as <-. }
    split; [by rewrite length_fmap, length_seq|]. split.
    + intros i c Hc. destruct (Hat i c Hc) as [_ ->]. apply cand_at_candidate.
    + intros i c c' Hc Hc'.
      destruct (Hat i c Hc) as [_ ->]. destruct (Hat (S i) c' Hc') as [Hi ->].
      by apply Hall.
  - intros [choice Hchoice] i Hi.
    apply realised_branch_numbers in Hchoice as [Hlt Hedges].
    pose proof (Hlt i ltac:(lia)) as H1. pose proof (Hlt (S i) Hi) as H2.
    rewrite single_choice in H1, H2 by lia.
    specialize (Hedges i Hi).
    replace (branch_numbers path reverse_mapping choice i) with 0%nat in Hedges by lia.
    by replace (branch_numbers path reverse_mapping choice (S i)) with 0%nat
      in Hedges by lia.
Qed.

End SingleCandidates.

Lemma rm_wf_empty : rm_wf ∅.
Proof. intros id duplicates Hl. by rewrite lookup_empty in Hl. Qed.

(** X4 (the verifier is exact without ambiguity).  When the map lists at
    least one candidate under every listed id and no position of the walk
    has more than one candidate, verify_path returns after one round of
    its outer loop, and it returns true exactly when some assignment of one
    candidate per position has every consecutive edge in the graph. *)
Theorem verify_path_exact {T : Type} `{PathOps T} (path : T) (unfolded : VG)
    (reverse_mapping : gmap Z (list Z)) (fuel : nat) :
  rm_wf reverse_mapping →
  (∀ i, (i < path_size path)%nat → (dups_at path reverse_mapping i ≤ 1)%nat) →
  (1 ≤ fuel)%nat →
  ∃ r, verify_path path unfolded reverse_mapping fuel = Value r ∧
       (r = true ↔ ∃ choice, realised_by path unfolded reverse_mapping choice).
Proof.
  intros Hwf Hone Hfuel. destruct fuel as [|fuel]; [lia|].
  by apply verify_path_single_realised.
Qed.

Lemma verify_path_exact_witness :
  ∃ r, verify_path [2; 4; 6] Scenario.broken_chain ∅ 1 = Value r ∧
       (r = true ↔ ∃ choice, realised_by [2; 4; 6] Scenario.broken_chain ∅ choice).
Proof.
  apply (verify_path_exact [2; 4; 6] Scenario.broken_chain ∅ 1).
  - apply rm_wf_empty.
  - intros i Hi. unfold dups_at. rewrite lookup_empty. lia.
  - lia.
Defined.

(** X5 (the verifier terminates and is complete).  On every map that
    lists at least one candidate under every listed id, verify_path
    returns for every walk and every graph once the bound on its outer loop
    is large enough, and it returns true whenever some assignment of one
    candidate per position has every consecutive edge in the graph. *)
Theorem verify_path_complete {T : Type} `{PathOps T} (path : T) (unfolded : VG)
    (reverse_mapping : gmap Z (list Z)) :
  rm_wf reverse_mapping →
  ∃ fuel0 : nat, ∀ fuel : nat, (fuel0 ≤ fuel)%nat →
    ∃ r, verify_path path unfolded reverse_mapping fuel = Value r ∧
         ((∃ choice, realised_by path unfolded reverse_mapping choice) → r = true).
Proof. apply verify_path_returns. Qed.

Lemma verify_path_complete_witness :
  ∃ fuel0 : nat, ∀ fuel : nat, (fuel0 ≤ fuel)%nat →
    ∃ r, verify_path [2; 4; 6] Scenario.broken_chain Scenario.two_duplicates fuel
         = Value r ∧
         ((∃ choice, realised_by [2; 4; 6] Scenario.broken_chain
                       Scenario.two_duplicates choice) → r = true).
Proof.
  apply (verify_path_complete [2; 4; 6] Scenario.broken_chain Scenario.two_duplicates).
  intros id duplicates Hl. unfold Scenario.two_duplicates in Hl.
  apply lookup_singleton_Some in Hl as [_ <-]. done.
Defined.

(** ** Restoring the reference paths *)

Lemma VG_eq (g g' : VG) :
  vg_nodes g = vg_nodes g' → vg_edges g = vg_edges g' → g = g'.
Proof. destruct g, g'; simpl. by intros -> ->. Qed.

Lemma has_edge_true (g : VG) (e : Edge) :
  VG_ops.has_edge g e = true ↔ pair_from_edge e ∈ vg_edges g.
Proof. unfold VG_ops.has_edge. apply bool_decide_eq_true. Qed.

Lemma has_edge_mono (g g' : VG) (e : Edge) :
  vg_edges g ⊆ vg_edges g' →
  VG_ops.has_edge g e = true → VG_ops.has_edge g' e = true.
Proof. rewrite !has_edge_true. intros Hsub He. by apply Hsub. Qed.

Section RestorePaths.

Variable xg_index : XG.

Local Abbreviation present g :=
  (λ a b : Z, VG_ops.has_edge g (make_edge a b) = true).

Lemma add_if_missing_self (g : VG) (prev curr : Z) :
  vg_nodes g ⊆ vg_nodes (add_if_missing xg_index g g prev curr) ∧
  vg_edges g ⊆ vg_edges (add_if_missing xg_index g g prev curr) ∧
  VG_ops.has_edge (add_if_missing xg_index g g prev curr) (make_edge prev curr) = true.
Proof.
  unfold add_if_missing.
  destruct (VG_ops.has_edge g (make_edge prev curr)) eqn:He; [done|].
  simpl. split; [|split].
  - intros n Hn. apply elem_of_union; right. by apply elem_of_union; right.
  - apply union_subseteq_r.
  - apply has_edge_true. simpl. apply elem_of_union; left. by apply elem_of_singleton.
Qed.

Lemma restore_steps_spec (rest : list (Z * bool)) : ∀ (g : VG) (prev : Z),
  vg_nodes g ⊆ vg_nodes (restore_steps xg_index g prev rest) ∧
  vg_edges g ⊆ vg_edges (restore_steps xg_index g prev rest) ∧
  chain (present (restore_steps xg_index g prev rest))
        (prev :: (path_handle false <$> rest)).
Proof.
  induction rest as [|step rest IH]; intros g prev; [done|].
  cbn [restore_steps fmap list_fmap].
  destruct (add_if_missing_self g prev (path_handle false step)) as (Hn1 & He1 & Hedge).
  destruct (IH (add_if_missing xg_index g g prev (path_handle false step))
               (path_handle false step)) as (Hn2 & He2 & Hchain).
  split; [by etrans|]. split; [by etrans|].
  split; [by eapply has_edge_mono|done].
Qed.

Lemma restore_path_spec (g : VG) (path : XGPath) :
  vg_nodes g ⊆ vg_nodes (restore_path xg_index g path) ∧
  vg_edges g ⊆ vg_edges (restore_path xg_index g path) ∧
  chain (present (restore_path xg_index g path)) (path_handle false <$> path).
Proof.
  destruct path as [|first rest]; [done|]. apply restore_steps_spec.
Qed.

Lemma restore_ranks_spec (ranks : list nat) : ∀ g : VG,
  let g' := foldl (λ g path_rank,
                     restore_path xg_index g (XG_ops.get_path xg_index path_rank))
                  g ranks in
  vg_nodes g ⊆ vg_nodes g' ∧ vg_edges g ⊆ vg_edges g' ∧
  ∀ path_rank, path_rank ∈ ranks →
    chain (present g') (path_handle false <$> XG_ops.get_path xg_index path_rank).
Proof.
  induction ranks as [|r ranks IH]; intros g; simpl.
  { split; [done|]. split; [done|]. intros path_rank Hin. by apply elem_of_nil in Hin. }
  destruct (restore_path_spec g (XG_ops.get_path xg_index r)) as (Hn1 & He1 & Hchain1).
  destruct (IH (restore_path xg_index g (XG_ops.get_path xg_index r)))
    as (Hn2 & He2 & Hchain2).
  split; [by etrans|]. split; [by etrans|].
  intros path_rank Hin. apply elem_of_cons in Hin as [->|Hin]; [|by apply Hchain2].
  eapply chain_impl; [|exact Hchain1]. intros a b. by apply has_edge_mono.
Qed.

Lemma restore_steps_present (rest : list (Z * bool)) : ∀ (g : VG) (prev : Z),
  chain (present g) (prev :: (path_handle false <$> rest)) →
  restore_steps xg_index g prev rest = g.
Proof.
  induction rest as [|step rest IH]; intros g prev Hchain; [done|].
  cbn [restore_steps]. cbn [fmap list_fmap] in Hchain. destruct Hchain as [He Hchain].
  unfold add_if_missing. rewrite He. by apply IH.
Qed.

Lemma restore_ranks_present (ranks : list nat) (g : VG) :
  (∀ path_rank, path_rank ∈ ranks →
     chain (present g) (path_handle false <$> XG_ops.get_path xg_index path_rank)) →
  foldl (λ g path_rank, restore_path xg_index g (XG_ops.get_path xg_index path_rank))
        g ranks = g.
Proof.
  induction ranks as [|r ranks IH]; intros Hall; [done|]. simpl.
  assert (Hr : restore_path xg_index g (XG_ops.get_path xg_index r) = g).
  { specialize (Hall r ltac:(by left)).
    destruct (XG_ops.get_path xg_index r) as [|first rest]; [done|].
    by apply restore_steps_present. }
  rewrite Hr. apply IH. intros path_rank Hin. apply Hall. by right.
Qed.

Lemma restore_paths_spec (graph : VG) :
  vg_nodes graph ⊆ vg_nodes (restore_paths xg_index graph) ∧
  vg_edges graph ⊆ vg_edges (restore_paths xg_index graph) ∧
  (∀ path_rank, (1 ≤ path_rank ≤ XG_ops.max_path_rank xg_index)%nat →
     chain (present (restore_paths xg_index graph))
           (path_handle false <$> XG_ops.get_path xg_index path_rank)) ∧
  restore_paths xg_index (restore_paths xg_index graph) = restore_paths xg_index graph.
Proof.
  destruct (restore_ranks_spec (seq 1 (XG_ops.max_path_rank xg_index)) graph)
    as (Hn & He & Hchain).
  fold (restore_paths xg_index graph) in Hn, He, Hchain.
  split; [done|]. split; [done|]. split.
  - intros path_rank Hr. apply Hchain, elem_of_seq. lia.
  - unfold restore_paths at 1. apply restore_ranks_present. exact Hchain.
Qed.

End RestorePaths.

(** X6 (restore_paths restores every path edge).  After restore_paths
    the graph still has every node and edge it had, it contains the edge
    between every two consecutive positions of every reference path, and a
    second call changes nothing. *)
Theorem restore_paths_restores (xg_index : XG) (graph : VG) :
  let restored := restore_paths xg_index graph in
  vg_nodes graph ⊆ vg_nodes restored ∧
  vg_edges graph ⊆ vg_edges restored ∧
  (∀ (path_rank i : nat) (s1 s2 : Z * bool),
     (1 ≤ path_rank ≤ XG_ops.max_path_rank xg_index)%nat →
     XG_ops.get_path xg_index path_rank !! i = Some s1 →
     XG_ops.get_path xg_index path_rank !! S i = Some s2 →
     VG_ops.has_edge restored
       (make_edge (path_handle false s1) (path_handle false s2)) = true) ∧
  restore_paths xg_index restored = restored.
Proof.
  destruct (restore_paths_spec xg_index graph) as (Hn & He & Hchain & Hidem).
  split; [done|]. split; [done|]. split; [|done].
  intros path_rank i s1 s2 Hr H1 H2.
  apply (chain_lookup _ _ (Hchain path_rank Hr) i).
  - by rewrite list_lookup_fmap, H1.
  - by rewrite list_lookup_fmap, H2.
Qed.

(** ** Restoring is adding the complement of the reference paths *)

Section RestoreComplement.

Variable xg_index : XG.
Variable graph : VG.

Lemma add_if_missing_closed (g c : VG) (prev curr : Z) :
  closed c → closed (add_if_missing xg_index g c prev curr).
Proof.
  intros Hc. unfold add_if_missing.
  destruct (VG_ops.has_edge g (make_edge prev curr)); [done|].
  intros p. simpl. rewrite elem_of_union, elem_of_singleton.
  unfold XG_ops.node. rewrite !elem_of_union, !elem_of_singleton.
  intros [->|Hp].
  - destruct (pair_from_edge_ends (make_edge prev curr)) as [[-> ->]|[-> ->]];
      simpl; split; auto.
  - destruct (Hc p Hp). split; auto.
Qed.

Lemma add_if_missing_extend (c : VG) (prev curr : Z) :
  closed c →
  add_if_missing xg_index (VG_ops.extend graph c) (VG_ops.extend graph c) prev curr
  = VG_ops.extend graph (add_if_missing xg_index graph c prev curr).
Proof.
  intros Hc. unfold add_if_missing.
  destruct (VG_ops.has_edge graph (make_edge prev curr)) eqn:Hg.
  { apply has_edge_true in Hg.
    assert (Hext : VG_ops.has_edge (VG_ops.extend graph c) (make_edge prev curr) = true).
    { apply has_edge_true. simpl. apply elem_of_union. by left. }
    by rewrite Hext. }
  assert (Hng : pair_from_edge (make_edge prev curr) ∉ vg_edges graph).
  { intros Hin. apply has_edge_true in Hin. congruence. }
  destruct (decide (pair_from_edge (make_edge prev curr) ∈ vg_edges c)) as [Hin|Hnin].
  - assert (Hext : VG_ops.has_edge (VG_ops.extend graph c) (make_edge prev curr) = true).
    { apply has_edge_true. simpl. apply elem_of_union. by right. }
    rewrite Hext.
    destruct (Hc _ Hin) as [H1 H2].
    assert (Hfrom : Node.id prev ∈ vg_nodes c ∧ Node.id curr ∈ vg_nodes c).
    { destruct (pair_from_edge_ends (make_edge prev curr)) as [[E1 E2]|[E1 E2]];
        rewrite E1 in H1; rewrite E2 in H2; simpl in H1, H2; by split. }
    destruct Hfrom as [Hfrom Hto].
    apply VG_eq; simpl; unfold XG_ops.node; apply set_eq; intros x;
      rewrite !elem_of_union, ?elem_of_singleton; split; intros Hx.
    + destruct Hx as [Hx|Hx]; auto.
    + destruct Hx as [Hx|[->|[->|Hx]]]; auto.
    + destruct Hx as [Hx|Hx]; auto.
    + destruct Hx as [Hx|[->|Hx]]; auto.
  - assert (Hext : VG_ops.has_edge (VG_ops.extend graph c) (make_edge prev curr) = false).
    { apply bool_decide_eq_false. simpl. rewrite elem_of_union. by intros [?|?]. }
    rewrite Hext.
    apply VG_eq; simpl; unfold XG_ops.node; apply set_eq; intros x;
      rewrite !elem_of_union, ?elem_of_singleton; split; intros Hx.
    + destruct Hx as [->|[->|[Hx|Hx]]]; auto.
    + destruct Hx as [Hx|[->|[->|Hx]]]; auto.
    + destruct Hx as [->|[Hx|Hx]]; auto.
    + destruct Hx as [Hx|[->|Hx]]; auto.
Qed.

Lemma restore_steps_extend (rest : list (Z * bool)) : ∀ (c : VG) (prev : Z),
  closed c →
  restore_steps xg_index (VG_ops.extend graph c) prev rest
  = VG_ops.extend graph (complement_steps xg_index graph c prev rest) ∧
  closed (complement_steps xg_index graph c prev rest).
Proof.
  induction rest as [|step rest IH]; intros c prev Hc; [done|].
  cbn [restore_steps complement_steps].
  rewrite add_if_missing_extend by done.
  apply IH. by apply add_if_missing_closed.
Qed.

Lemma restore_ranks_extend (ranks : list nat) : ∀ c : VG,
  closed c →
  foldl (λ g path_rank, restore_path xg_index g (XG_ops.get_path xg_index path_rank))
        (VG_ops.extend graph c) ranks
  = VG_ops.extend graph
      (foldl (λ c path_rank,
                complement_path xg_index graph c (XG_ops.get_path xg_index path_rank))
             c ranks).
Proof.
  induction ranks as [|r ranks IH]; intros c Hc; [done|]. simpl.
  destruct (XG_ops.get_path xg_index r) as [|first rest] eqn:Hpath; simpl.
  { by apply IH. }
  destruct (restore_steps_extend rest c (path_handle false first) Hc) as [-> Hc'].
  by apply IH.
Qed.

Lemma extend_empty (g : VG) : VG_ops.extend g VG_ops.empty = g.
Proof. apply VG_eq; simpl; apply (right_id_L ∅ (∪)). Qed.

End RestoreComplement.

(** X7 (restoring adds the complement).  restore_paths extends the
    graph by exactly the scratch graph that complement_components builds
    from the reference paths: with a haplotype index without threads,
    restore_paths(G) is G extended by the complement graph of G. *)
Theorem restore_paths_adds_complement (xg_index : XG) (graph : VG) :
  restore_paths xg_index graph
  = VG_ops.extend graph (complement_graph xg_index GBWT_ops.empty_index graph).
Proof.
  unfold restore_paths, complement_graph.
  rewrite <- (extend_empty graph) at 1.
  by apply restore_ranks_extend.
Qed.

(** ** Verifying a restored graph *)

Lemma count_failures_bound {A : Type} (f : A → outcome bool) (l : list A) :
  (∀ i, i ∈ l → ∃ r, f i = Value r) →
  ∀ n0 : nat, ∃ n : nat,
    foldl (λ acc i, count_failure acc (f i)) (Value n0) l = Value n ∧
    (n0 ≤ n ≤ n0 + length l)%nat.
Proof.
  induction l as [|a l IH]; intros Hall n0; simpl.
  { exists n0. split; [done|lia]. }
  destruct (Hall a ltac:(by left)) as [r ->].
  destruct (IH (λ i Hi, Hall i ltac:(by right))
               (if r then n0 else S n0)) as (n & Hn & Hle).
  exists n. destruct r; simpl; (split; [done|lia]).
Qed.

Lemma count_failures_none {A : Type} (f : A → outcome bool) (l : list A) (n0 : nat) :
  (∀ i, i ∈ l → f i = Value true) →
  foldl (λ acc i, count_failure acc (f i)) (Value n0) l = Value n0.
Proof.
  induction l as [|a l IH]; intros Hall; simpl; [done|].
  rewrite (Hall a) by (by left). simpl. apply IH. intros i Hi. apply Hall. by right.
Qed.

Lemma dups_at_empty {T : Type} `{PathOps T} (path : T) (i : nat) :
  dups_at path ∅ i = 0%nat.
Proof. unfold dups_at. by rewrite lookup_empty. Qed.

Lemma verify_path_no_duplicates (path : XGPath) (g : VG) (fuel : nat) :
  chain (λ a b, VG_ops.has_edge g (make_edge a b) = true) (path_handle false <$> path) →
  verify_path path g ∅ (S fuel) = Value true.
Proof.
  intros Hchain.
  destruct (verify_path_single path g ∅ rm_wf_empty
              (λ i _, eq_ind_r (λ n, (n ≤ 1)%nat) (Nat.le_0_l 1) (dups_at_empty path i))
              fuel) as (r & Hr & Hiff).
  rewrite Hr. f_equal. apply Hiff. intros i Hi. simpl in Hi.
  destruct (lookup_lt_is_Some_2 path i ltac:(lia)) as [s1 H1].
  destruct (lookup_lt_is_Some_2 path (S i) Hi) as [s2 H2].
  unfold edge_ok, handle_at, cand_at. rewrite !lookup_empty. simpl.
  rewrite H1, H2. simpl.
  apply (chain_lookup _ _ Hchain i (path_handle false s1) (path_handle false s2)).
  - by rewrite list_lookup_fmap, H1.
  - by rewrite list_lookup_fmap, H2.
Qed.

Lemma build_reverse_mapping_new (unfolded : VG) (next : Z) :
  build_reverse_mapping unfolded (NodeMapping_ops.make next) = Value ∅.
Proof.
  unfold build_reverse_mapping. simpl. rewrite Z.sub_diag. simpl.
  by rewrite fmap_empty.
Qed.

(** X8 (a restored graph passes the verification of the paths).  For an
    object without duplicates, verify_paths on the graph returned by
    restore_paths accepts every reference path: the count it returns is at
    most the number of threads of the haplotype index, and 0 when the
    index has no thread. *)
Theorem restore_paths_verified (xg_index : XG) (gbwt_index : GBWT) (graph : VG)
    (next : Z) (fuel : nat) :
  ∃ failures : nat,
    verify_paths xg_index gbwt_index (S fuel) (restore_paths xg_index graph)
                 (PhaseUnfolder_new next) = Value failures ∧
    (failures ≤ GBWT_ops.sequences gbwt_index)%nat.
Proof.
  unfold verify_paths. simpl. rewrite build_reverse_mapping_new.
  destruct (restore_paths_spec xg_index graph) as (_ & _ & Hchain & _).
  rewrite (count_failures_none
             (λ i, verify_path (XG_ops.get_path xg_index (i + 1))
                               (restore_paths xg_index graph) ∅ (S fuel))).
  2: { intros i Hi. apply elem_of_seq in Hi. apply verify_path_no_duplicates.
       apply Hchain. lia. }
  destruct (count_failures_bound
              (λ i, verify_path (GBWT_ops.extract gbwt_index i)
                                (restore_paths xg_index graph) ∅ (S fuel))
              (seq 0 (GBWT_ops.sequences gbwt_index))) with (n0 := 0%nat)
    as (n & Hn & Hle).
  { intros i _.
    destruct (verify_path_single (GBWT_ops.extract gbwt_index i)
                (restore_paths xg_index graph) ∅ rm_wf_empty
                (λ j _, eq_ind_r (λ n, (n ≤ 1)%nat) (Nat.le_0_l 1)
                          (dups_at_empty (GBWT_ops.extract gbwt_index i) j))
                fuel) as (r & Hr & _).
    by exists r. }
  exists n. split; [exact Hn|]. rewrite length_seq in Hle. lia.
Qed.

(** ** The complement graph holds exactly the missing evidence *)

Lemma foldl_edges {A : Type} (f : VG → A → VG)
    (S : A → NodeSide * NodeSide → Prop) (l : list A) :
  (∀ c a p, p ∈ vg_edges (f c a) ↔ p ∈ vg_edges c ∨ S a p) →
  ∀ c p, p ∈ vg_edges (foldl f c l) ↔ p ∈ vg_edges c ∨ ∃ a, a ∈ l ∧ S a p.
Proof.
  intros Hf. induction l as [|a l IH]; intros c p; simpl.
  { split; [by left|]. intros [Hp|(a & Ha & _)]; [done|by apply elem_of_nil in Ha]. }
  rewrite IH, Hf. split.
  - intros [[Hp|Hp]|(b & Hb & Hp)]; [by left|right..].
    + exists a. split; [by left|done].
    + exists b. split; [by right|done].
  - intros [Hp|(b & Hb & Hp)]; [by left; left|].
    apply elem_of_cons in Hb as [->|Hb]; [by left; right|].
    right. by exists b.
Qed.

Lemma successors_complete (node x : Z) (t : path_type) (i : nat) :
  t !! i = Some node → t !! S i = Some x → x ∈ GBWT_ops.successors node t.
Proof.
  revert i. induction t as [|y rest IH]; intros i H1 H2; [done|]. simpl.
  apply elem_of_app. destruct i as [|i]; simpl in H1, H2.
  - left. injection H1 as ->. rewrite bool_decide_eq_true_2 by done.
    destruct rest as [|z rest]; [done|]. simpl in H2. injection H2 as ->. by left.
  - right. by apply (IH i).
Qed.

Section ComplementExact.

Variable xg_index : XG.
Variable gbwt_index : GBWT.
Variable graph : VG.

Lemma add_if_missing_edges (c : VG) (prev curr : Z) (p : NodeSide * NodeSide) :
  p ∈ vg_edges (add_if_missing xg_index graph c prev curr) ↔
  p ∈ vg_edges c ∨ (p = pair_from_edge (make_edge prev curr) ∧ p ∉ vg_edges graph).
Proof.
  unfold add_if_missing.
  destruct (VG_ops.has_edge graph (make_edge prev curr)) eqn:He.
  - apply has_edge_true in He. split; [by left|]. by intros [Hp|[-> Hp]].
  - assert (Hn : pair_from_edge (make_edge prev curr) ∉ vg_edges graph).
    { intros Hin. apply has_edge_true in Hin. congruence. }
    simpl. rewrite elem_of_union, elem_of_singleton. split.
    + intros [->|Hp]; [by right|by left].
    + intros [Hp|[-> _]]; [by right|by left].
Qed.

Lemma complement_steps_edges (rest : list (Z * bool)) :
  ∀ (c : VG) (prev : Z) (p : NodeSide * NodeSide),
  p ∈ vg_edges (complement_steps xg_index graph c prev rest) ↔
  p ∈ vg_edges c ∨
  ((p ∉ vg_edges graph) ∧
   ∃ i a b, (prev :: (path_handle false <$> rest)) !! i = Some a ∧
            (prev :: (path_handle false <$> rest)) !! S i = Some b ∧
            p = pair_from_edge (make_edge a b)).
Proof.
  induction rest as [|step rest IH]; intros c prev p.
  { simpl. split; [by left|]. by intros [Hp|(_ & i & a & b & _ & Hb & _)]. }
  cbn [complement_steps fmap list_fmap]. rewrite IH, add_if_missing_edges. split.
  - intros [[Hp|[-> Hp]]|(Hp & i & a & b & Ha & Hb & ->)]; [by left|right..].
    + split; [done|]. by exists 0%nat, prev, (path_handle false step).
    + split; [done|]. by exists (S i), a, b.
  - intros [Hp|(Hp & i & a & b & Ha & Hb & ->)]; [by left; left|].
    destruct i as [|i].
    + simpl in Ha, Hb. injection Ha as <-. injection Hb as <-. by left; right.
    + right. split; [done|]. by exists i, a, b.
Qed.

Lemma complement_path_edges (c : VG) (path : XGPath) (p : NodeSide * NodeSide) :
  p ∈ vg_edges (complement_path xg_index graph c path) ↔
  p ∈ vg_edges c ∨
  ((p ∉ vg_edges graph) ∧
   ∃ i s1 s2, path !! i = Some s1 ∧ path !! S i = Some s2 ∧
     p = pair_from_edge (make_edge (path_handle false s1) (path_handle false s2))).
Proof.
  destruct path as [|first rest].
  { simpl. split; [by left|]. by intros [Hp|(_ & i & a & b & Ha & _)]. }
  cbn [complement_path]. rewrite complement_steps_edges.
  change (path_handle false first :: (path_handle false <$> rest))
    with (path_handle false <$> first :: rest).
  split; (intros [Hp|(Hp & i & Hex)]; [by left|right; split; [done|exists i]]).
  - destruct Hex as (a & b & Ha & Hb & ->). rewrite list_lookup_fmap in Ha, Hb.
    destruct ((first :: rest) !! i) as [s1|]; [|done].
    destruct ((first :: rest) !! S i) as [s2|]; [|done].
    simpl in Ha, Hb. injection Ha as <-. injection Hb as <-. by exists s1, s2.
  - destruct Hex as (s1 & s2 & H1 & H2 & ->).
    exists (path_handle false s1), (path_handle false s2).
    by rewrite !list_lookup_fmap, H1, H2.
Qed.

Lemma complement_node_edges (c : VG) (gbwt_node : Z) (p : NodeSide * NodeSide) :
  p ∈ vg_edges (complement_node xg_index gbwt_index graph c gbwt_node) ↔
  p ∈ vg_edges c ∨
  ∃ outedge, outedge ∈ GBWT_ops.edges gbwt_index gbwt_node ∧
    outedge ≠ ENDMARKER ∧
    p = pair_from_edge (make_edge gbwt_node outedge) ∧ p ∉ vg_edges graph.
Proof.
  unfold complement_node.
  apply (foldl_edges _ (λ outedge p, outedge ≠ ENDMARKER ∧
                          p = pair_from_edge (make_edge gbwt_node outedge) ∧
                          p ∉ vg_edges graph)).
  intros c' outedge q. case_bool_decide as Hend.
  - split; [by left|]. by intros [Hq|[Hne _]].
  - rewrite add_if_missing_edges. split; (intros [Hq|Hq]; [by left|right]).
    + by split.
    + by destruct Hq.
Qed.

Lemma complement_graph_raw (p : NodeSide * NodeSide) :
  p ∈ vg_edges (complement_graph xg_index gbwt_index graph) ↔
  (∃ path_rank, path_rank ∈ seq 1 (XG_ops.max_path_rank xg_index) ∧
     (p ∉ vg_edges graph) ∧
     ∃ i s1 s2, XG_ops.get_path xg_index path_rank !! i = Some s1 ∧
       XG_ops.get_path xg_index path_rank !! S i = Some s2 ∧
       p = pair_from_edge (make_edge (path_handle false s1) (path_handle false s2))) ∨
  (∃ gbwt_node, gbwt_node ∈ GBWT_ops.nodes gbwt_index ∧
     ∃ outedge, outedge ∈ GBWT_ops.edges gbwt_index gbwt_node ∧
       outedge ≠ ENDMARKER ∧
       p = pair_from_edge (make_edge gbwt_node outedge) ∧ p ∉ vg_edges graph).
Proof.
  unfold complement_graph.
  rewrite (foldl_edges _ (λ gbwt_node p,
             ∃ outedge, outedge ∈ GBWT_ops.edges gbwt_index gbwt_node ∧
               outedge ≠ ENDMARKER ∧
               p = pair_from_edge (make_edge gbwt_node outedge) ∧
               p ∉ vg_edges graph)).
  2: { intros c a q. apply complement_node_edges. }
  rewrite (foldl_edges _ (λ path_rank p,
             (p ∉ vg_edges graph) ∧
             ∃ i s1 s2, XG_ops.get_path xg_index path_rank !! i = Some s1 ∧
               XG_ops.get_path xg_index path_rank !! S i = Some s2 ∧
               p = pair_from_edge
                     (make_edge (path_handle false s1) (path_handle false s2)))).
  2: { intros c a q. apply complement_path_edges. }
  split.
  - intros [[Hp|Hp]|Hp]; [by apply not_elem_of_empty in Hp|by left|by right].
  - intros [Hp|Hp]; [by left; right|by right].
Qed.

Lemma complement_graph_sound (p : NodeSide * NodeSide) :
  p ∈ vg_edges (complement_graph xg_index gbwt_index graph) →
  evidence_edge xg_index gbwt_index p ∧ p ∉ vg_edges graph.
Proof.
  rewrite complement_graph_raw.
  intros [(r & Hr & Hp & i & s1 & s2 & H1 & H2 & ->)
         |(node & Hnode & out & Hout & Hne & -> & Hp)].
  - split; [|done]. left. exists r, i, s1, s2.
    apply elem_of_seq in Hr. split; [lia|done].
  - split; [|done]. unfold GBWT_ops.edges in Hout.
    apply elem_of_remove_dups, list_elem_of_In, in_flat_map in Hout as (t & Ht & Hin).
    apply list_elem_of_In in Ht, Hin.
    destruct (successors_spec _ _ _ Hin) as [?|(i & H1 & H2)]; [done|].
    right. by exists t, i, node, out.
Qed.

Lemma complement_graph_edges (p : NodeSide * NodeSide) :
  (∀ t, t ∈ gbwt_threads gbwt_index → ENDMARKER ∉ t) →
  p ∈ vg_edges (complement_graph xg_index gbwt_index graph) ↔
  evidence_edge xg_index gbwt_index p ∧ p ∉ vg_edges graph.
Proof.
  intros Hthreads. split; [apply complement_graph_sound|].
  rewrite complement_graph_raw.
  intros [[(r & i & s1 & s2 & Hr & H1 & H2 & ->)|(t & i & hd & nxt & Ht & H1 & H2 & ->)]
          Hp].
  - left. exists r. split; [apply elem_of_seq; lia|].
    split; [done|]. by exists i, s1, s2.
  - right. exists hd. split.
    { unfold GBWT_ops.nodes. apply elem_of_remove_dups, list_elem_of_join.
      exists t. split; [by eapply list_elem_of_lookup_2|done]. }
    exists nxt. split; [|split; [|done]].
    + unfold GBWT_ops.edges.
      apply elem_of_remove_dups, list_elem_of_In, in_flat_map.
      exists t. split; apply list_elem_of_In; [done|].
      by apply (successors_complete _ _ _ i).
    + intros ->. apply (Hthreads t Ht). by eapply list_elem_of_lookup_2.
Qed.

Lemma complement_graph_closed :
  closed (complement_graph xg_index gbwt_index graph).
Proof.
  unfold complement_graph.
  apply (foldl_keeps _ closed).
  { intros c node. unfold complement_node. apply (foldl_keeps _ closed).
    intros c' out Hc'. case_bool_decide; [done|]. by apply add_if_missing_closed. }
  apply (foldl_keeps _ closed).
  - intros c r Hc. destruct (XG_ops.get_path xg_index r) as [|first rest]; [done|].
    simpl. generalize (path_handle false first). revert c Hc.
    induction rest as [|step rest IH]; intros c Hc prev; [done|].
    simpl. apply IH. by apply add_if_missing_closed.
  - intros p Hp. by apply not_elem_of_empty in Hp.
Qed.

End ComplementExact.

(** ** Every edge of a graph lies in one of its components *)

Lemma reach_extensive (fuel : nat) (g : VG) : ∀ seen : gset Z,
  seen ⊆ VG_ops.reach fuel g seen.
Proof.
  induction fuel as [|fuel IH]; intros seen; [done|]. simpl.
  etrans; [|apply IH]. apply union_subseteq_l.
Qed.

Lemma components_from_covers (g : VG) (todo : list Z) :
  ∀ (fuel : nat) (done : gset Z), (length todo ≤ fuel)%nat →
  ∀ n, n ∈ todo →
    n ∈ done ∨
    ∃ ns : gset Z, n ∈ ns ∧ VG_ops.induced g ns ∈ VG_ops.components_from fuel g todo done.
Proof.
  induction todo as [|n0 todo IH]; intros fuel done Hfuel n Hn.
  { by apply elem_of_nil in Hn. }
  destruct fuel as [|fuel]; [simpl in Hfuel; lia|]. simpl in Hfuel |- *.
  case_bool_decide as Hdone.
  - apply elem_of_cons in Hn as [->|Hn]; [by left|]. apply IH; [lia|done].
  - set (ns := VG_ops.reach (size (vg_nodes g)) g {[ n0 ]}).
    apply elem_of_cons in Hn as [->|Hn].
    + right. exists ns. split; [|by left].
      apply (reach_extensive _ g {[ n0 ]}). by apply elem_of_singleton.
    + destruct (IH fuel (done ∪ ns) ltac:(lia) n Hn) as [Hin|(ns' & Hns' & Hc)].
      * apply elem_of_union in Hin as [Hin|Hin]; [by left|].
        right. exists ns. split; [done|by left].
      * right. exists ns'. split; [done|by right].
Qed.

Lemma disjoint_subgraphs_edges (g : VG) (p : NodeSide * NodeSide) :
  closed g →
  (∃ component, component ∈ VG_ops.disjoint_subgraphs g ∧ p ∈ vg_edges component) ↔
  p ∈ vg_edges g.
Proof.
  intros Hclosed. unfold VG_ops.disjoint_subgraphs. split.
  - intros (component & Hc & Hp).
    apply components_from_induced in Hc as [ns ->]. simpl in Hp.
    by apply elem_of_filter in Hp as [_ Hp].
  - intros Hp. destruct (Hclosed p Hp) as [H1 _].
    apply elem_of_elements in H1.
    destruct (components_from_covers g (elements (vg_nodes g)) _ ∅
                (Nat.le_refl _) p.1.1 H1)
      as [Hin|(ns & Hns & Hc)]; [by apply not_elem_of_empty in Hin|].
    exists (VG_ops.induced g ns). split; [done|]. simpl.
    apply elem_of_filter. split; [by left|done].
Qed.

(** X9 (the complement components hold exactly the missing evidence).
    When no thread of the haplotype index contains the end marker, a pair
    of node sides is an edge of one of the components returned by
    complement_components exactly when it joins two consecutive positions
    of a reference path or two consecutive handles of a thread and is not
    an edge of the input graph. *)
Theorem complement_components_edges (xg_index : XG) (gbwt_index : GBWT)
    (graph : VG) (p : NodeSide * NodeSide) :
  (∀ t, t ∈ gbwt_threads gbwt_index → ENDMARKER ∉ t) →
  (∃ component, component ∈ complement_components xg_index gbwt_index graph ∧
                p ∈ vg_edges component) ↔
  evidence_edge xg_index gbwt_index p ∧ p ∉ vg_edges graph.
Proof.
  intros Hthreads. unfold complement_components.
  rewrite disjoint_subgraphs_edges by apply complement_graph_closed.
  by apply complement_graph_edges.
Qed.

Lemma complement_components_edges_witness :
  (∃ component,
     component ∈ complement_components Scenario.two_paths Scenario.both_orientations
                   Scenario.kept_ends ∧
     pair_from_edge (make_edge 2 4) ∈ vg_edges component) ↔
  evidence_edge Scenario.two_paths Scenario.both_orientations
                (pair_from_edge (make_edge 2 4)) ∧
  pair_from_edge (make_edge 2 4) ∉ vg_edges Scenario.kept_ends.
Proof.
  apply (complement_components_edges Scenario.two_paths Scenario.both_orientations
           Scenario.kept_ends (pair_from_edge (make_edge 2 4))).
  intros t Ht. simpl in Ht. rewrite !elem_of_cons, elem_of_nil in Ht.
  destruct Ht as [->|[->|[]]]; apply (bool_decide_unpack _); by vm_compute.
Defined.

(** ** Unfolding returns and only adds *)

Lemma table_grows_refl (st : PhaseUnfolder) : table_grows st st.
Proof. split; [done|]. exists []. by rewrite app_nil_r. Qed.

Lemma table_grows_trans (st1 st2 st3 : PhaseUnfolder) :
  table_grows st1 st2 → table_grows st2 st3 → table_grows st1 st3.
Proof.
  intros [Hf1 [a1 Hm1]] [Hf2 [a2 Hm2]]. split; [congruence|].
  exists (a1 ++ a2). by rewrite Hm2, Hm1, app_assoc.
Qed.

Lemma table_grows_insert_path (path : path_type) (st : PhaseUnfolder) :
  table_grows st (insert_path path st).
Proof.
  destruct (insert_path_table path st) as (Hf & (added & Hm & _) & _).
  split; [done|by exists added].
Qed.

Lemma table_grows_get (st st' : PhaseUnfolder) (d x : Z) :
  table_grows st st' → get_mapping st d = Some x → get_mapping st' d = Some x.
Proof. intros [Hf [added Hm]]. by apply (get_mapping_appended _ _ added). Qed.

Lemma complement_components_missing (xg_index : XG) (gbwt_index : GBWT) (graph : VG)
    (c : VG) (p : NodeSide * NodeSide) :
  c ∈ complement_components xg_index gbwt_index graph → p ∈ vg_edges c →
  missing_edge xg_index gbwt_index graph p.
Proof.
  intros Hc Hp. apply complement_graph_sound.
  apply disjoint_subgraphs_edges; [apply complement_graph_closed|]. by exists c.
Qed.

Section UnfoldRuns.

Variable xg_index : XG.
Variable gbwt_index : GBWT.

Lemma threads_loop_table (component : VG) : ∀ (fuel : nat) (states : list state_type)
    (st st' : PhaseUnfolder),
  threads_loop gbwt_index fuel component states st = Value st' → table_grows st st'.
Proof.
  induction fuel as [|fuel IH]; intros states st st' Hrun.
  { destruct states; simpl in Hrun; [|done]. injection Hrun as <-.
    apply table_grows_refl. }
  destruct states as [|s rest].
  { simpl in Hrun. injection Hrun as <-. apply table_grows_refl. }
  rewrite threads_loop_cons in Hrun.
  destruct ((2 <=? length s.2)%nat && bool_decide (Node.id (ss_node s.1) ∈ border st)).
  { eapply table_grows_trans; [apply (table_grows_insert_path s.2)|by eapply IH]. }
  destruct (foldl _ _ _) as [[|] states'].
  - by eapply IH.
  - eapply table_grows_trans; [apply (table_grows_insert_path s.2)|by eapply IH].
Qed.

Lemma generate_paths_table (component : VG) (from : Z) (st : PhaseUnfolder) :
  table_grows st (generate_paths xg_index component from st).
Proof.
  unfold generate_paths. apply (foldl_keeps _ (table_grows st)); [|apply table_grows_refl].
  intros s r Hs. apply (foldl_keeps _ (table_grows st)); [|done].
  intros s' occ Hs'. unfold generate_paths_at.
  eapply table_grows_trans; [exact Hs'|].
  eapply table_grows_trans; apply table_grows_insert_path.
Qed.

Lemma generate_all_table (component : VG) (fuel : nat) (starts : list Z) :
  ∀ st st' : PhaseUnfolder,
  generate_all xg_index gbwt_index fuel component starts st = Value st' →
  table_grows st st'.
Proof.
  induction starts as [|b starts IH]; intros st st' Hrun; simpl in Hrun.
  { injection Hrun as <-. apply table_grows_refl. }
  destruct (generate_threads gbwt_index fuel component b
              (generate_paths xg_index component b st)) as [st1| |] eqn:Hth; [|done..].
  eapply table_grows_trans; [apply generate_paths_table|].
  eapply table_grows_trans; [|by eapply IH].
  by eapply threads_loop_table.
Qed.

Lemma assemble_closed (st : PhaseUnfolder) (unfolded : VG) :
  closed unfolded → closed (assembled st unfolded).
Proof.
  intros Hc p Hp. destruct (assemble_spec st unfolded) as [He Hn].
  apply He in Hp as [Hp|(a & b & Hl & ->)].
  - destruct (Hc p Hp). split; apply Hn; by left.
  - destruct (pair_from_edge_ends (make_edge a b)) as [[-> ->]|[-> ->]]; simpl;
      split; apply Hn; right; exists a, b; (split; [done|]); auto.
Qed.

Lemma unfold_component_runs (component graph unfolded : VG) (st : PhaseUnfolder) :
  table_covers (pu_mapping st) → scratch_empty st →
  (∀ n, n ∈ vg_nodes component → 0 ≤ n < first_node (pu_mapping st)) →
  (∀ p, p ∈ vg_edges component →
        0 ≤ p.1.1 < first_node (pu_mapping st) ∧
        0 ≤ p.2.1 < first_node (pu_mapping st)) →
  ∃ (fuel0 n : nat) (unfolded' : VG) (st' : PhaseUnfolder),
    (∀ fuel, (fuel0 ≤ fuel)%nat →
       unfold_component xg_index gbwt_index fuel component graph unfolded st
       = Value (n, unfolded', st')) ∧
    vg_nodes unfolded ⊆ vg_nodes unfolded' ∧
    vg_edges unfolded ⊆ vg_edges unfolded' ∧
    (closed unfolded → closed unfolded') ∧
    table_grows st st' ∧ scratch_empty st' ∧ table_covers (pu_mapping st').
Proof.
  intros Hc Hs Hnodes Hedges.
  set (st0 := find_border component graph st).
  destruct (generate_all_runs xg_index gbwt_index component (elements (border st0)) st0)
    as (k & st1 & Hrun & _).
  destruct (unfold_component_reads xg_index gbwt_index component graph unfolded st
              k st1 Hc Hs Hnodes Hedges (Hrun k (Nat.le_refl k)))
    as (_ & Hc1 & Hk1 & _).
  exists k, (size (crossing_edges st1)), (assembled st1 unfolded), (clear_component st1).
  destruct (assemble_spec st1 unfolded) as [He Hn].
  split; [|split; [|split; [|split; [|split; [|split]]]]].
  - intros fuel Hfuel. unfold unfold_component. fold st0.
    by rewrite (Hrun fuel Hfuel), (assemble_value st1 unfolded Hk1).
  - intros n Hin. apply Hn. by left.
  - intros p Hin. apply He. by left.
  - apply assemble_closed.
  - apply (table_grows_trans st st1); [|exact (table_grows_refl st1)].
    apply (table_grows_trans st st0); [exact (table_grows_refl st)|].
    apply (generate_all_table component k _ _ _ (Hrun k (Nat.le_refl _))).
  - done.
  - done.
Qed.

Lemma unfold_components_runs (graph : VG) (components : list VG) :
  ∀ (unfolded : VG) (st : PhaseUnfolder),
  table_covers (pu_mapping st) → scratch_empty st →
  (∀ c n, c ∈ components → n ∈ vg_nodes c → 0 ≤ n < first_node (pu_mapping st)) →
  (∀ c p, c ∈ components → p ∈ vg_edges c →
          0 ≤ p.1.1 < first_node (pu_mapping st) ∧
          0 ≤ p.2.1 < first_node (pu_mapping st)) →
  ∃ (fuel0 : nat) (unfolded' : VG) (st' : PhaseUnfolder),
    (∀ fuel, (fuel0 ≤ fuel)%nat →
       unfold_components xg_index gbwt_index fuel components graph unfolded st
       = Value (unfolded', st')) ∧
    vg_nodes unfolded ⊆ vg_nodes unfolded' ∧
    vg_edges unfolded ⊆ vg_edges unfolded' ∧
    (closed unfolded → closed unfolded') ∧
    table_grows st st' ∧ scratch_empty st'.
Proof.
  induction components as [|component rest IH]; intros unfolded st Hc Hs Hnodes Hedges.
  { exists 0%nat, unfolded, st. split; [done|]. split; [done|]. split; [done|].
    split; [done|]. split; [apply table_grows_refl|done]. }
  destruct (unfold_component_runs component graph unfolded st Hc Hs)
    as (k1 & n & u1 & st1 & Hrun1 & Hn1 & He1 & Hc1 & Ht1 & Hs1 & Hcov1).
  { intros m Hm. apply (Hnodes component); [by left|done]. }
  { intros p Hp. apply (Hedges component); [by left|done]. }
  pose proof Ht1 as [Hf1 _].
  destruct (IH u1 st1 Hcov1 Hs1) as (k2 & u2 & st2 & Hrun2 & Hn2 & He2 & Hc2 & Ht2 & Hs2).
  { intros c m Hin Hm. rewrite Hf1. apply (Hnodes c); [by right|done]. }
  { intros c p Hin Hp. rewrite Hf1. apply (Hedges c); [by right|done]. }
  exists (k1 `max` k2)%nat, u2, st2.
  split; [|split; [by etrans|split; [by etrans|split; [by auto|split]]]].
  - intros fuel Hfuel. simpl. rewrite Hrun1 by lia. apply Hrun2. lia.
  - by eapply table_grows_trans.
  - done.
Qed.

Lemma extend_closed (g other : VG) :
  closed g → closed other → closed (VG_ops.extend g other).
Proof.
  intros Hg Ho p Hp. simpl in Hp |- *. rewrite !elem_of_union.
  apply elem_of_union in Hp as [Hp|Hp].
  - destruct (Hg p Hp). auto.
  - destruct (Ho p Hp). auto.
Qed.

(** The ids of a complement component are ids of the evidence. *)
Lemma complement_components_ids (graph : VG) (first : Z) :
  (∀ p, evidence_edge xg_index gbwt_index p →
        0 ≤ p.1.1 < first ∧ 0 ≤ p.2.1 < first) →
  (∀ c n, c ∈ complement_components xg_index gbwt_index graph →
          n ∈ vg_nodes c → 0 ≤ n < first) ∧
  (∀ c p, c ∈ complement_components xg_index gbwt_index graph →
          p ∈ vg_edges c → 0 ≤ p.1.1 < first ∧ 0 ≤ p.2.1 < first).
Proof.
  intros Hrange. split.
  - intros c n Hc Hn.
    destruct (component_node_on_edge xg_index gbwt_index graph c n Hc Hn)
      as (p & _ & Hev & Hor).
    apply Hrange in Hev. destruct Hor as [<- | <-]; lia.
  - intros c p Hc Hp. apply Hrange.
    by apply (complement_components_missing xg_index gbwt_index graph c p Hc).
Qed.

(** [unfold] with indexes of original ids: it returns once the search
    loop is given enough rounds. *)
Lemma unfold_runs (graph : VG) (st : PhaseUnfolder) :
  table_covers (pu_mapping st) → scratch_empty st →
  (∀ p, evidence_edge xg_index gbwt_index p →
        0 ≤ p.1.1 < first_node (pu_mapping st) ∧
        0 ≤ p.2.1 < first_node (pu_mapping st)) →
  ∃ (fuel0 : nat) (unfolded : VG) (st' : PhaseUnfolder),
    (∀ fuel, (fuel0 ≤ fuel)%nat →
       unfold_components xg_index gbwt_index fuel
         (complement_components xg_index gbwt_index graph) graph VG_ops.empty st
       = Value (unfolded, st')) ∧
    (∀ fuel, (fuel0 ≤ fuel)%nat →
       unfold xg_index gbwt_index fuel graph st
       = Value (VG_ops.extend graph unfolded, st')) ∧
    closed unfolded ∧ table_grows st st' ∧ scratch_empty st'.
Proof.
  intros Hc Hs Hrange.
  destruct (complement_components_ids graph _ Hrange) as [Hnodes Hedges].
  destruct (unfold_components_runs graph
              (complement_components xg_index gbwt_index graph) VG_ops.empty st
              Hc Hs Hnodes Hedges)
    as (k & u & st' & Hrun & _ & _ & Hcl & Ht & Hs').
  exists k, u, st'. split; [done|]. split; [|split; [|done]].
  - intros fuel Hfuel. unfold unfold. by rewrite (Hrun fuel Hfuel).
  - apply Hcl. intros p Hp. by apply not_elem_of_empty in Hp.
Qed.

End UnfoldRuns.

(** X10 (unfold returns and only adds).  Take an object whose table has
    one entry per allocated duplicate and whose data of the current
    component is empty (a new object is one), and indexes whose node ids
    are not negative and lie below first_node.  Then every read of the
    table that the assembly makes is in range and unfold returns once the
    search loop of generate_threads is given enough rounds.  The graph it
    returns has every node and edge of the input graph and, when every
    edge of the input graph has its end nodes, so has every edge of the
    result.  The table keeps first_node and its entries, so get_mapping
    answers as before for every id it answered for; the data of the
    current component is empty again after the call. *)
Theorem unfold_returns (xg_index : XG) (gbwt_index : GBWT) (graph : VG)
    (st : PhaseUnfolder) :
  NodeMapping_ops.wf (pu_mapping st) → scratch_empty st →
  (∀ p, evidence_edge xg_index gbwt_index p →
        0 ≤ p.1.1 < first_node (pu_mapping st) ∧
        0 ≤ p.2.1 < first_node (pu_mapping st)) →
  ∃ (fuel0 : nat) (graph' : VG) (st' : PhaseUnfolder),
    (∀ fuel, (fuel0 ≤ fuel)%nat →
       unfold xg_index gbwt_index fuel graph st = Value (graph', st')) ∧
    vg_nodes graph ⊆ vg_nodes graph' ∧
    vg_edges graph ⊆ vg_edges graph' ∧
    (closed graph → closed graph') ∧
    table_grows st st' ∧
    (∀ d x, get_mapping st d = Some x → get_mapping st' d = Some x) ∧
    scratch_empty st'.
Proof.
  intros Hwf Hs Hrange.
  destruct (unfold_runs xg_index gbwt_index graph st (wf_table_covers _ Hwf) Hs Hrange)
    as (k & u & st' & _ & Hrun & Hc & Ht & Hs').
  exists k, (VG_ops.extend graph u), st'.
  split; [done|]. split; [apply union_subseteq_l|]. split; [apply union_subseteq_l|].
  split; [by intros Hg; apply extend_closed|]. split; [done|]. split; [|done].
  intros d x. by apply table_grows_get.
Qed.

Lemma unfold_returns_witness :
  ∃ (fuel0 : nat) (graph' : VG) (st' : PhaseUnfolder),
    (∀ fuel, (fuel0 ≤ fuel)%nat →
       unfold Scenario.two_paths GBWT_ops.empty_index fuel Scenario.kept_ends
              (PhaseUnfolder_new 5) = Value (graph', st')) ∧
    vg_nodes Scenario.kept_ends ⊆ vg_nodes graph' ∧
    vg_edges Scenario.kept_ends ⊆ vg_edges graph' ∧
    (closed Scenario.kept_ends → closed graph') ∧
    table_grows (PhaseUnfolder_new 5) st' ∧
    (∀ d x, get_mapping (PhaseUnfolder_new 5) d = Some x → get_mapping st' d = Some x) ∧
    scratch_empty st'.
Proof.
  apply (unfold_returns Scenario.two_paths GBWT_ops.empty_index Scenario.kept_ends
           (PhaseUnfolder_new 5)).
  - unfold NodeMapping_ops.wf. simpl. rewrite ?wrap64_small by lia. lia.
  - done.
  - change (first_node (pu_mapping (PhaseUnfolder_new 5))) with 5.
    intros p [(r & i & s1 & s2 & Hr & H1 & H2 & ->)|(t & i & hd & nxt & Ht & _)].
    + unfold XG_ops.max_path_rank in Hr. simpl in Hr.
      assert (r = 1%nat ∨ r = 2%nat) as [-> | ->] by lia;
        (destruct i as [|[|i]]; simpl in H1, H2;
         [injection H1 as <-; injection H2 as <-; vm_compute; done
         |injection H1 as <-; injection H2 as <-; vm_compute; done
         |destruct i; discriminate]).
    + simpl in Ht. by apply elem_of_nil in Ht.
Defined.

(** ** Border fidelity *)



(** ** The map from original ids to candidates *)

Section ReverseMapping.

Variable unfolded : VG.
Variable M : NodeMapping.

Local Abbreviation rm_after := (visited unfolded M).

Lemma add_duplicate_after (seen : list Z) (rm : gmap Z (list Z)) (d o : Z) :
  NodeMapping_ops.get M d = Some o → rm_after seen rm →
  ∃ rm', add_duplicate unfolded M (Value rm) d = Value rm' ∧
         rm_after (seen ++ [d]) rm'.
Proof.
  intros Hd Hinv. unfold add_duplicate. rewrite Hd. eexists. split; [done|].
  intros o'. destruct (decide (o' = o)) as [->|Hne].
  - rewrite lookup_insert_eq. split.
    + split; [|by eauto]. intros _. exists d. split; [|done].
      apply elem_of_app; right. by left.
    + intros l Hnew c. destruct (Hinv o) as [Hsome Hmem].
      assert (Hold : c ∈ default [] (rm !! o) ↔
                (c ∈ seen ∧ NodeMapping_ops.get M c = Some o) ∨
                (c = o ∧ VG_ops.has_node unfolded o = true) ∧ is_Some (rm !! o)).
      { destruct (rm !! o) as [l0|] eqn:Hl; simpl.
        - rewrite (Hmem l0 eq_refl c). split; [intros [?|?]; [by left|right; eauto]|].
          intros [?|[? _]]; [by left|by right].
        - split; [intros Hc; by apply elem_of_nil in Hc|].
          intros [[Hc Hg]|[_ [? ?]]]; [|done].
          assert (is_Some (None : option (list Z))) as [? ?]; [|done].
          apply Hsome. by exists c. }
      destruct (VG_ops.has_node unfolded o) eqn:Hnode; injection Hnew as <-.
      * rewrite !elem_of_app, !list_elem_of_singleton, Hold. split.
        -- intros [[[[Hc Hg]|[[-> _] _]]| ->]| ->]; auto.
        -- intros [[[Hc| ->] Hg]|[-> _]]; auto.
      * rewrite !elem_of_app, !list_elem_of_singleton, Hold. split.
        -- intros [[[Hc Hg]|[[-> ?] _]]| ->]; auto.
        -- intros [[[Hc| ->] Hg]|[-> ?]]; auto. done.
  - rewrite lookup_insert_ne by done. destruct (Hinv o') as [Hsome Hmem]. split.
    + rewrite Hsome. split; intros (d' & Hd' & Hg).
      * exists d'. split; [apply elem_of_app; by left|done].
      * apply elem_of_app in Hd' as [Hd'|Hd']; [by exists d'|].
        apply list_elem_of_singleton in Hd' as ->. congruence.
    + intros l Hl c. rewrite (Hmem l Hl c), elem_of_app, list_elem_of_singleton.
      split; (intros [[Hc Hg]|?]; [left|by right]).
      * by split; [left|].
      * destruct Hc as [Hc| ->]; [done|congruence].
Qed.

Lemma add_duplicates_after (ds : list Z) : ∀ (seen : list Z) (rm : gmap Z (list Z)),
  (∀ d, d ∈ ds → is_Some (NodeMapping_ops.get M d)) → rm_after seen rm →
  ∃ rm', foldl (add_duplicate unfolded M) (Value rm) ds = Value rm' ∧
         rm_after (seen ++ ds) rm'.
Proof.
  induction ds as [|d ds IH]; intros seen rm Hget Hinv.
  { exists rm. by rewrite app_nil_r. }
  destruct (Hget d ltac:(by left)) as [o Ho].
  destruct (add_duplicate_after seen rm d o Ho Hinv) as (rm1 & Hstep & Hinv1).
  destruct (IH (seen ++ [d]) rm1) as (rm2 & Hrest & Hinv2); [|done|].
  { intros d' Hd'. apply Hget. by right. }
  exists rm2. cbn [foldl]. rewrite Hstep. split; [done|].
  by rewrite <- app_assoc in Hinv2.
Qed.

Lemma get_allocated (d : Z) :
  NodeMapping_ops.wf M → first_node M ≤ d < next_node M →
  is_Some (NodeMapping_ops.get M d).
Proof.
  intros (H0 & Hle & Hlen) Hd. unfold NodeMapping_ops.get.
  destruct (Z.ltb_spec d (first_node M)); [lia|].
  apply lookup_lt_is_Some. lia.
Qed.

Lemma build_reverse_mapping_after :
  NodeMapping_ops.wf M →
  ∃ rm, build_reverse_mapping unfolded M = Value (removeDuplicates <$> rm) ∧
        rm_after (seqZ (first_node M) (next_node M - first_node M)) rm.
Proof.
  intros Hwf. unfold build_reverse_mapping.
  destruct (add_duplicates_after (seqZ (first_node M) (next_node M - first_node M))
              [] ∅) as (rm & Hrun & Hinv).
  - intros d Hd. apply elem_of_seqZ in Hd. apply get_allocated; [done|lia].
  - intros o. split.
    + rewrite lookup_empty. split; [by intros [? ?]|].
      intros (d & Hd & _). by apply elem_of_nil in Hd.
    + intros l Hl. by rewrite lookup_empty in Hl.
  - exists rm. by rewrite Hrun.
Qed.

Lemma removeDuplicates_spec (l : list Z) :
  Sorted Z.le (removeDuplicates l) ∧ NoDup (removeDuplicates l) ∧
  ∀ c, c ∈ removeDuplicates l ↔ c ∈ l.
Proof.
  unfold removeDuplicates. split; [apply Sorted_merge_sort, _|]. split.
  - rewrite merge_sort_Permutation. apply NoDup_remove_dups.
  - intros c. by rewrite merge_sort_Permutation, elem_of_remove_dups.
Qed.

Lemma build_reverse_mapping_candidates :
  NodeMapping_ops.wf M →
  ∃ rm, build_reverse_mapping unfolded M = Value rm ∧
    rm_wf rm ∧
    ∀ o, (is_Some (rm !! o) ↔ duplicated M o) ∧
         ∀ l, rm !! o = Some l →
              Sorted Z.le l ∧ NoDup l ∧ ∀ c, c ∈ l ↔ candidate_of unfolded M o c.
Proof.
  intros Hwf. destruct (build_reverse_mapping_after Hwf) as (rm & Hrun & Hinv).
  exists (removeDuplicates <$> rm). split; [done|].
  assert (Hseen : ∀ d, d ∈ seqZ (first_node M) (next_node M - first_node M) ↔
                       first_node M ≤ d < next_node M).
  { intros d. rewrite elem_of_seqZ. lia. }
  assert (Hspec : ∀ o,
    (is_Some ((removeDuplicates <$> rm) !! o) ↔ duplicated M o) ∧
    ∀ l, (removeDuplicates <$> rm) !! o = Some l →
         Sorted Z.le l ∧ NoDup l ∧ ∀ c, c ∈ l ↔ candidate_of unfolded M o c).
  { intros o. destruct (Hinv o) as [Hsome Hmem]. rewrite lookup_fmap. split.
    - rewrite fmap_is_Some, Hsome. unfold duplicated.
      split; intros (d & Hd & Hg); exists d; (split; [by apply Hseen|done]).
    - intros l Hl. destruct (rm !! o) as [l0|] eqn:Hl0; [|done].
      simpl in Hl. injection Hl as <-.
      destruct (removeDuplicates_spec l0) as (Hsorted & Hnodup & Hin).
      split; [done|]. split; [done|]. intros c.
      rewrite Hin, (Hmem l0 eq_refl c). unfold candidate_of. by rewrite Hseen. }
  split; [|done].
  intros o l Hl ->. destruct (Hspec o) as [Hsome Hmem].
  destruct (proj1 Hsome ltac:(eauto)) as (d & Hd & Hg).
  destruct (Hmem [] Hl) as (_ & _ & Hin).
  assert (Hc : d ∈ ([] : list Z)) by (apply Hin; by left).
  by apply elem_of_nil in Hc.
Qed.

End ReverseMapping.

(** X11 (the candidate lists of verify_paths).  When the table has one
    entry per allocated duplicate, the loop that builds reverse_mapping
    never reads past the table.  The map it builds has an entry exactly
    for the original ids that have a duplicate; the entry of such an id is
    sorted, holds no value twice and holds exactly the duplicates of the
    id and, when the graph has a node with that id, the id itself; no entry
    is empty. *)
Theorem reverse_mapping_lists_candidates (unfolded : VG) (M : NodeMapping) :
  NodeMapping_ops.wf M →
  ∃ reverse_mapping,
    build_reverse_mapping unfolded M = Value reverse_mapping ∧
    rm_wf reverse_mapping ∧
    ∀ o, (is_Some (reverse_mapping !! o) ↔ duplicated M o) ∧
         ∀ l, reverse_mapping !! o = Some l →
              Sorted Z.le l ∧ NoDup l ∧ ∀ c, c ∈ l ↔ candidate_of unfolded M o c.
Proof. apply build_reverse_mapping_candidates. Qed.

Lemma reverse_mapping_lists_candidates_witness :
  ∃ reverse_mapping,
    build_reverse_mapping Scenario.unfolded_ends
      (pu_mapping Scenario.after_unfold) = Value reverse_mapping ∧
    rm_wf reverse_mapping ∧
    ∀ o, (is_Some (reverse_mapping !! o)
          ↔ duplicated (pu_mapping Scenario.after_unfold) o) ∧
         ∀ l, reverse_mapping !! o = Some l →
              Sorted Z.le l ∧ NoDup l ∧
              ∀ c, c ∈ l ↔ candidate_of Scenario.unfolded_ends
                             (pu_mapping Scenario.after_unfold) o c.
Proof.
  apply (reverse_mapping_lists_candidates Scenario.unfolded_ends
           (pu_mapping Scenario.after_unfold)).
  unfold NodeMapping_ops.wf. simpl. lia.
Defined.

(** ** The verification of all paths returns *)

Lemma uniform_fuel {A : Type} (f : A → nat → outcome bool) (l : list A) :
  (∀ i, ∃ k : nat, ∀ fuel, (k ≤ fuel)%nat → ∃ r, f i fuel = Value r) →
  ∃ k : nat, ∀ fuel, (k ≤ fuel)%nat → ∀ i, i ∈ l → ∃ r, f i fuel = Value r.
Proof.
  intros Hall. induction l as [|a l [k IH]].
  { exists 0%nat. intros fuel _ i Hi. by apply elem_of_nil in Hi. }
  destruct (Hall a) as [ka Ha]. exists (ka `max` k)%nat. intros fuel Hfuel i Hi.
  apply elem_of_cons in Hi as [->|Hi]; [apply Ha; lia|apply IH; [lia|done]].
Qed.

(** X12 (verify_paths returns a count).  When the table has one entry
    per allocated duplicate, verify_paths never reads out of range and
    returns, once its search loops are given enough rounds, a number of
    failures that is at most the number of reference paths plus the number
    of threads. *)
Theorem verify_paths_returns (xg_index : XG) (gbwt_index : GBWT) (unfolded : VG)
    (st : PhaseUnfolder) :
  NodeMapping_ops.wf (pu_mapping st) →
  ∃ fuel0 : nat, ∀ fuel : nat, (fuel0 ≤ fuel)%nat →
    ∃ failures : nat,
      verify_paths xg_index gbwt_index fuel unfolded st = Value failures ∧
      (failures ≤ XG_ops.max_path_rank xg_index + GBWT_ops.sequences gbwt_index)%nat.
Proof.
  intros Hwf.
  destruct (build_reverse_mapping_candidates unfolded (pu_mapping st) Hwf)
    as (rm & Hrm & Hrmwf & _).
  destruct (uniform_fuel
              (λ i fuel, verify_path (XG_ops.get_path xg_index (i + 1)) unfolded rm fuel)
              (seq 0 (XG_ops.max_path_rank xg_index))) as [k1 Hk1].
  { intros i. destruct (verify_path_returns (XG_ops.get_path xg_index (i + 1))
                          unfolded rm Hrmwf) as [k Hk].
    exists k. intros fuel Hfuel. destruct (Hk fuel Hfuel) as (r & Hr & _). by exists r. }
  destruct (uniform_fuel
              (λ i fuel, verify_path (GBWT_ops.extract gbwt_index i) unfolded rm fuel)
              (seq 0 (GBWT_ops.sequences gbwt_index))) as [k2 Hk2].
  { intros i. destruct (verify_path_returns (GBWT_ops.extract gbwt_index i)
                          unfolded rm Hrmwf) as [k Hk].
    exists k. intros fuel Hfuel. destruct (Hk fuel Hfuel) as (r & Hr & _). by exists r. }
  exists (k1 `max` k2)%nat. intros fuel Hfuel.
  unfold verify_paths. rewrite Hrm.
  destruct (count_failures_bound
              (λ i, verify_path (XG_ops.get_path xg_index (i + 1)) unfolded rm fuel)
              (seq 0 (XG_ops.max_path_rank xg_index))
              (Hk1 fuel ltac:(lia)) 0%nat) as (n1 & Hn1 & Hle1).
  rewrite Hn1.
  destruct (count_failures_bound
              (λ i, verify_path (GBWT_ops.extract gbwt_index i) unfolded rm fuel)
              (seq 0 (GBWT_ops.sequences gbwt_index))
              (Hk2 fuel ltac:(lia)) n1) as (n2 & Hn2 & Hle2).
  exists n2. split; [exact Hn2|]. rewrite length_seq in Hle1, Hle2. lia.
Qed.

Lemma verify_paths_returns_witness :
  ∃ fuel0 : nat, ∀ fuel : nat, (fuel0 ≤ fuel)%nat →
    ∃ failures : nat,
      verify_paths Scenario.two_paths Scenario.both_orientations fuel
                   Scenario.unfolded_ends Scenario.after_unfold = Value failures ∧
      (failures ≤ XG_ops.max_path_rank Scenario.two_paths
                  + GBWT_ops.sequences Scenario.both_orientations)%nat.
Proof.
  apply (verify_paths_returns Scenario.two_paths Scenario.both_orientations
           Scenario.unfolded_ends Scenario.after_unfold).
  unfold NodeMapping_ops.wf. simpl. lia.
Defined.

(** ** Inserted walks pass the verification *)

Lemma Node_id_range_inv (node : Z) : 0 ≤ Node.id node < 2 ^ 63 → 0 ≤ node < 2 ^ 64.
Proof.
  unfold Node.id. rewrite Z.shiftr_div_pow2 by lia. change (2 ^ 1) with 2.
  intros Hid. pose proof (Z.div_mod node 2 ltac:(lia)).
  pose proof (Z.mod_pos_bound node 2 ltac:(lia)). lia.
Qed.

Lemma Node_id_nonneg (node : Z) : 0 ≤ node → 0 ≤ Node.id node.
Proof. intros Hn. unfold Node.id. by apply Z.shiftr_nonneg. Qed.

Lemma copy_of_cases (st : PhaseUnfolder) (orig dup : Z) :
  NodeMapping_ops.wf (pu_mapping st) → copy_of st orig dup →
  (Node.id dup < first_node (pu_mapping st) ∧ Node.id dup = Node.id orig) ∨
  first_node (pu_mapping st) ≤ Node.id dup < next_node (pu_mapping st).
Proof.
  intros (H0 & Hle & Hlen) [Hg _]. unfold get_mapping, NodeMapping_ops.get in Hg.
  destruct (Z.ltb_spec (Node.id dup) (first_node (pu_mapping st))) as [Hlt|Hge].
  - left. split; [done|]. by injection Hg.
  - right. apply lookup_lt_Some in Hg. lia.
Qed.

Lemma realised_by_reverse_complement (T : path_type) (g : VG)
    (rm : gmap Z (list Z)) (choice : list Z) :
  realised_by T g rm choice →
  realised_by (reverse_complement T) g rm (reverse choice).
Proof.
  intros (Hlen & Hcand & Hedges). simpl in Hlen.
  assert (Hat : ∀ j c, reverse choice !! j = Some c →
            (j < length T)%nat ∧ choice !! (length T - S j)%nat = Some c ∧
            ∃ x, T !! (length T - S j)%nat = Some x ∧
                 reverse_complement T !! j = Some (Node.reverse x)).
  { intros j c Hc. pose proof (lookup_lt_Some _ _ _ Hc) as Hj.
    rewrite length_reverse in Hj. rewrite reverse_lookup in Hc by done.
    rewrite Hlen in Hc, Hj. split; [done|]. split; [done|].
    destruct (lookup_lt_is_Some_2 T (length T - S j) ltac:(lia)) as [x Hx].
    exists x. split; [done|].
    pose proof (reverse_complement_lookup T _ x Hx) as Hrc.
    by replace (length T - 1 - (length T - S j))%nat with j in Hrc by lia. }
  split; [|split].
  - simpl. by rewrite length_reverse, reverse_complement_length.
  - intros j c Hc. destruct (Hat j c Hc) as (Hj & Hch & x & Hx & Hrc).
    specialize (Hcand _ _ Hch). simpl in Hcand |- *.
    rewrite Hx in Hcand. rewrite Hrc. simpl in Hcand |- *.
    by rewrite Node_id_reverse.
  - intros j c c' Hc Hc'.
    destruct (Hat j c Hc) as (Hj & Hch & x & Hx & Hrc).
    destruct (Hat (S j) c' Hc') as (Hj' & Hch' & x' & Hx' & Hrc').
    replace (length T - S j)%nat with (S (length T - S (S j))) in Hch, Hx by lia.
    specialize (Hedges _ _ _ Hch' Hch). simpl in Hedges |- *.
    rewrite Hx, Hx' in Hedges. rewrite Hrc, Hrc'. simpl in Hedges |- *.
    rewrite !Node_is_reverse_reverse.
    apply has_edge_true in Hedges. apply has_edge_true.
    rewrite <- pair_from_edge_flip in Hedges.
    unfold make_edge in Hedges |- *. simpl in Hedges.
    by rewrite !Node_is_reverse_encode_any, !Node_id_encode_any in Hedges |- *.
Qed.


Lemma inserted_walk_realised (st0 : PhaseUnfolder) (paths : list path_type)
    (unfolded g : VG) (rm : gmap Z (list Z)) (path : path_type) :
  unfolder_ok st0 →
  next_node (pu_mapping st0) + total_length paths ≤ 2 ^ 63 →
  (∀ p node, p ∈ paths → node ∈ p →
     0 ≤ node ∧ Node.id node < first_node (pu_mapping st0)) →
  path ∈ paths → (2 ≤ length path)%nat →
  vg_nodes (assembled (insert_paths paths st0) unfolded) ⊆ vg_nodes g →
  vg_edges (assembled (insert_paths paths st0) unfolded) ⊆ vg_edges g →
  build_reverse_mapping g (pu_mapping (insert_paths paths st0)) = Value rm →
  ∃ choice, realised_by (std_min path (reverse_complement path)) g rm choice.
Proof.
  intros Hok Hb Hids Hin HL Hnodes Hedges Hrm.
  set (st := insert_paths paths st0) in *.
  set (T := std_min path (reverse_complement path)).
  destruct (insert_paths_links paths st0 Hok Hb) as (Hok' & Hn' & _ & _ & _ & _ & Hcopy).
  { intros p node Hp Hnode. by apply (Hids p). }
  fold st in Hok', Hn', Hcopy.
  destruct (Hcopy path Hin HL) as (copy & Hall & Hchain & _ & _). fold T in Hall.
  destruct Hok' as (Hwf & H0 & _).
  destruct (build_reverse_mapping_candidates g (pu_mapping st) Hwf)
    as (rm' & Hrm' & _ & Hspec).
  rewrite Hrm in Hrm'. injection Hrm' as <-.
  destruct (assemble_spec st unfolded) as [He Hn].
  assert (HT : ∀ orig, orig ∈ T → 0 ≤ orig).
  { intros orig Horig. unfold T, std_min in Horig. destruct (path_lt _ _).
    - unfold reverse_complement in Horig.
      apply elem_of_reverse, list_elem_of_fmap in Horig as (x & -> & Hx).
      destruct (Hids path x Hin Hx) as [Hx0 _].
      unfold Node.reverse. apply Z.lxor_nonneg. lia.
    - by destruct (Hids path orig Hin Horig). }
  assert (Hlen : length copy = length T) by (symmetry; by eapply Forall2_length).
  assert (Hcopy_len : (2 ≤ length copy)%nat).
  { rewrite Hlen. unfold T. rewrite std_min_length. lia. }
  assert (Hat : ∀ i dup, copy !! i = Some dup →
            ∃ orig, T !! i = Some orig ∧ copy_of st orig dup ∧
                    0 ≤ dup < 2 ^ 64 ∧ Node.id dup ∈ vg_nodes g).
  { intros i dup Hdup.
    destruct (Forall2_lookup_r _ _ _ _ _ Hall Hdup) as (orig & Horig & Hco).
    exists orig. split; [done|]. split; [done|].
    pose proof (HT orig ltac:(by eapply list_elem_of_lookup_2)) as Ho.
    pose proof (Node_id_nonneg orig Ho) as Hido.
    pose proof Hwf as (Hf0 & Hle & _).
    pose proof (total_length_nonneg paths).
    split.
    - apply Node_id_range_inv.
      destruct (copy_of_cases st orig dup Hwf Hco) as [[Hlt Heq]|Hrange]; lia.
    - apply Hnodes, Hn. right.
      destruct (chain_elem_of _ copy dup Hcopy_len Hchain
                  ltac:(by eapply list_elem_of_lookup_2)) as (a & b & Hab & Hor).
      exists a, b. split; [done|]. destruct Hor as [-> | ->]; auto. }
  exists (Node.id <$> copy). split; [|split].
  - simpl. by rewrite length_fmap.
  - intros i c Hc. rewrite list_lookup_fmap in Hc.
    destruct (copy !! i) as [dup|] eqn:Hdup; [|done]. simpl in Hc. injection Hc as <-.
    destruct (Hat i dup Hdup) as (orig & Horig & Hco & Hrange & Hnode).
    simpl. rewrite Horig. simpl. unfold candidates.
    destruct (Hspec (Node.id orig)) as [Hsome Hmem].
    destruct (copy_of_cases st orig dup Hwf Hco) as [[Hlt Heq]|Hin_range].
    + destruct (rm !! Node.id orig) as [l|] eqn:Hl; simpl.
      * apply (Hmem l eq_refl). right. split; [done|].
        apply bool_decide_eq_true. by rewrite <- Heq.
      * rewrite Heq. by apply list_elem_of_singleton.
    + assert (Hdup_of : duplicated (pu_mapping st) (Node.id orig)).
      { exists (Node.id dup). split; [done|]. by destruct Hco. }
      apply Hsome in Hdup_of as [l Hl]. rewrite Hl. simpl.
      apply (Hmem l Hl). left. split; [done|]. by destruct Hco.
  - intros i c c' Hc Hc'. rewrite list_lookup_fmap in Hc, Hc'.
    destruct (copy !! i) as [dup|] eqn:Hdup; [|done].
    destruct (copy !! S i) as [dup'|] eqn:Hdup'; [|done].
    simpl in Hc, Hc'. injection Hc as <-. injection Hc' as <-.
    destruct (Hat i dup Hdup) as (orig & Horig & [_ Hr] & Hrange & _).
    destruct (Hat (S i) dup' Hdup') as (orig' & Horig' & [_ Hr'] & Hrange' & _).
    simpl. rewrite Horig, Horig'. simpl. rewrite <- Hr, <- Hr'.
    rewrite !Node_encode_id by done.
    apply has_edge_true, Hedges, He. right. exists dup, dup'. split; [|done].
    by apply (chain_lookup _ copy Hchain i).
Qed.

(** X13 (inserted walks pass the verification).  Take an object whose
    tries hold allocated duplicates only, insert any sequence of walks
    over original nodes (handles not negative, ids below first_node) without
    running out of 63-bit ids, and take any graph that contains the
    graph assembled from the tries.  Then verify_paths can build its map
    of candidates, and with that map verify_path accepts every inserted
    walk, in the orientation in which it was inserted and in its canonical
    orientation, once its outer loop is given enough rounds.  The three
    loops of unfold_component return the assembled graph, all their reads
    of the table being in range, when the handles that the object linked
    before the walks can be read from the table. *)
Theorem inserted_walks_verified (st0 : PhaseUnfolder) (paths : list path_type)
    (unfolded g : VG) (path : path_type) :
  unfolder_ok st0 →
  next_node (pu_mapping st0) + total_length paths ≤ 2 ^ 63 →
  (∀ p node, p ∈ paths → node ∈ p →
     0 ≤ node ∧ Node.id node < first_node (pu_mapping st0)) →
  path ∈ paths →
  vg_nodes (assembled (insert_paths paths st0) unfolded) ⊆ vg_nodes g →
  vg_edges (assembled (insert_paths paths st0) unfolded) ⊆ vg_edges g →
  (∃ reverse_mapping,
     build_reverse_mapping g (pu_mapping (insert_paths paths st0))
       = Value reverse_mapping ∧
     ∃ fuel0 : nat, ∀ fuel : nat, (fuel0 ≤ fuel)%nat →
       verify_path path g reverse_mapping fuel = Value true ∧
       verify_path (std_min path (reverse_complement path)) g reverse_mapping fuel
         = Value true) ∧
  (links_known st0 →
   assemble (insert_paths paths st0) unfolded
   = Value (assembled (insert_paths paths st0) unfolded)).
Proof.
  intros Hok Hb Hids Hin Hnodes Hedges. split.
  2: { intros Hk. apply insert_paths_reads; [|done|].
       - apply wf_table_covers. by destruct Hok.
       - intros p node Hp Hnode. by apply (Hids p). }
  destruct (insert_paths_links paths st0 Hok Hb) as ((Hwf & _) & _).
  { intros p node Hp Hnode. by apply (Hids p). }
  destruct (build_reverse_mapping_candidates g _ Hwf) as (rm & Hrm & Hrmwf & _).
  exists rm. split; [done|].
  set (T := std_min path (reverse_complement path)).
  destruct (Nat.lt_ge_cases (length path) 2) as [Hshort|HL].
  { exists 0%nat. intros fuel _. unfold verify_path. simpl.
    unfold T. rewrite std_min_length.
    by destruct (Nat.ltb_spec (length path) 2); [|lia]. }
  destruct (inserted_walk_realised st0 paths unfolded g rm path Hok Hb Hids Hin HL
              Hnodes Hedges Hrm) as [choice Hchoice].
  fold T in Hchoice.
  destruct (verify_path_returns T g rm Hrmwf) as [k1 Hk1].
  destruct (verify_path_returns path g rm Hrmwf) as [k2 Hk2].
  exists (k1 `max` k2)%nat. intros fuel Hfuel.
  destruct (Hk1 fuel ltac:(lia)) as (r1 & Hr1 & Htrue1).
  destruct (Hk2 fuel ltac:(lia)) as (r2 & Hr2 & Htrue2).
  rewrite Hr1, Hr2. rewrite (Htrue1 ltac:(by exists choice)).
  split; [|done]. f_equal. apply Htrue2.
  destruct (std_min_cases path) as [Heq|Heq]; fold T in Heq.
  - exists choice. by rewrite <- Heq.
  - exists (reverse choice). rewrite Heq. by apply realised_by_reverse_complement.
Qed.

Lemma inserted_walks_verified_witness :
  let st := insert_paths [[2; 4; 6; 8; 10]; [2; 4; 12]] (PhaseUnfolder_new 7) in
  assemble st VG_ops.empty = Value (assembled st VG_ops.empty) ∧
  ∃ reverse_mapping,
    build_reverse_mapping (assembled st VG_ops.empty) (pu_mapping st)
      = Value reverse_mapping ∧
    ∃ fuel0 : nat, ∀ fuel : nat, (fuel0 ≤ fuel)%nat →
      verify_path [2; 4; 12] (assembled st VG_ops.empty) reverse_mapping fuel
        = Value true ∧
      verify_path (std_min [2; 4; 12] (reverse_complement [2; 4; 12]))
                  (assembled st VG_ops.empty) reverse_mapping fuel = Value true.
Proof.
  destruct (inserted_walks_verified (PhaseUnfolder_new 7)
              [[2; 4; 6; 8; 10]; [2; 4; 12]] VG_ops.empty
              (assembled (insert_paths [[2; 4; 6; 8; 10]; [2; 4; 12]]
                            (PhaseUnfolder_new 7)) VG_ops.empty)
              [2; 4; 12]) as [Hverified Hreads].
  - apply unfolder_ok_new. lia.
  - simpl. rewrite ?wrap64_small by lia. lia.
  - intros p node Hp Hnode. rewrite !elem_of_cons, elem_of_nil in Hp.
    destruct Hp as [->|[->|[]]]; rewrite !elem_of_cons, elem_of_nil in Hnode.
    + destruct Hnode as [->|[->|[->|[->|[->|[]]]]]]; split; (lia || reflexivity).
    + destruct Hnode as [->|[->|[->|[]]]]; split; (lia || reflexivity).
  - apply (bool_decide_unpack _). by vm_compute.
  - done.
  - done.
  - split; [|exact Hverified]. apply Hreads. by apply scratch_empty_links_known.
Defined.

(** ** The walks of generate_paths *)


(** X14 (border-to-border walks).  For an occurrence of a node on a
    reference path, the forward walk that generate_paths hands to
    insert_path is the run of handles of the path that starts at the
    occurrence and the backward walk is the run of flipped handles that
    goes back from it.  Each of them follows edges of the component, has no
    border node among its inner handles and is maximal: it ends where the
    path ends, at the first border node it reaches, or where the component
    lacks the next edge. *)
Theorem generate_paths_walks (component : VG) (B : gset Z) (path : XGPath)
    (occurrence : nat) (step : Z * bool) :
  path !! occurrence = Some step →
  (∃ k : nat,
     forward_walk component B path occurrence
       = path_handle false <$> take (S k) (drop occurrence path) ∧
     walk_ends component B (forward_walk component B path occurrence)
       (path_handle false <$> drop (S k) (drop occurrence path))) ∧
  (∃ k : nat,
     backward_walk component B path occurrence
       = path_handle true <$> take (S k) (reverse (take (S occurrence) path)) ∧
     walk_ends component B (backward_walk component B path occurrence)
       (path_handle true <$> drop (S k) (reverse (take (S occurrence) path)))) ∧
  border_walk component B (forward_walk component B path occurrence) ∧
  border_walk component B (backward_walk component B path occurrence).
Proof.
  intros Hocc. unfold forward_walk, backward_walk. rewrite Hocc. simpl.
  rewrite (drop_S _ _ _ Hocc), (take_S_r _ _ _ Hocc), reverse_snoc.
  destruct (extend_walk_spec component B (path_handle false <$> drop (S occurrence) path)
              (path_handle false step) [path_handle false step])
    as (k1 & -> & Hwalk1 & Hends1).
  destruct (extend_walk_spec component B
              (path_handle true <$> reverse (take occurrence path))
              (path_handle true step) [path_handle true step])
    as (k2 & -> & Hwalk2 & Hends2).
  split; [|split; [|by split]].
  - exists k1. cbn [take drop fmap list_fmap app].
    rewrite (fmap_take _ k1 (drop (S occurrence) path)).
    rewrite (fmap_drop _ k1 (drop (S occurrence) path)). by split.
  - exists k2. cbn [take drop fmap list_fmap app].
    rewrite (fmap_take _ k2 (reverse (take occurrence path))).
    rewrite (fmap_drop _ k2 (reverse (take occurrence path))). by split.
Qed.

Lemma generate_paths_walks_witness :
  let component := graph_of [1; 2; 3; 4] Scenario.four_edges in
  let B : gset Z := list_to_set [1; 3] in
  let path : XGPath := [(1, false); (2, false); (3, false)] in
  (∃ k : nat,
     forward_walk component B path 0 = path_handle false <$> take (S k) (drop 0 path) ∧
     walk_ends component B (forward_walk component B path 0)
       (path_handle false <$> drop (S k) (drop 0 path))) ∧
  (∃ k : nat,
     backward_walk component B path 0
       = path_handle true <$> take (S k) (reverse (take 1 path)) ∧
     walk_ends component B (backward_walk component B path 0)
       (path_handle true <$> drop (S k) (reverse (take 1 path)))) ∧
  border_walk component B (forward_walk component B path 0) ∧
  border_walk component B (backward_walk component B path 0).
Proof.
  apply (generate_paths_walks (graph_of [1; 2; 3; 4] Scenario.four_edges)
           (list_to_set [1; 3]) [(1, false); (2, false); (3, false)] 0 (1, false)).
  reflexivity.
Defined.

(** ** Nothing to unfold *)

Lemma chain_of_lookup (R : Z → Z → Prop) (l : path_type) :
  (∀ i a b, l !! i = Some a → l !! S i = Some b → R a b) → chain R l.
Proof.
  induction l as [|x l IH]; intros Hall; [done|].
  destruct l as [|y l]; [done|]. split; [by apply (Hall 0%nat)|].
  apply IH. intros i a b Ha Hb. by apply (Hall (S i)).
Qed.

(** X15 (nothing is missing).  When the graph already has the edge
    between every two consecutive positions of every reference path and
    between every two consecutive handles of every thread, the complement
    is empty: unfold returns the graph and the object unchanged, whatever
    the bound on its loops, and restore_paths returns the graph
    unchanged. *)
Theorem unfold_nothing_missing (xg_index : XG) (gbwt_index : GBWT) (graph : VG)
    (st : PhaseUnfolder) (fuel : nat) :
  (∀ p, evidence_edge xg_index gbwt_index p → p ∈ vg_edges graph) →
  complement_components xg_index gbwt_index graph = [] ∧
  unfold xg_index gbwt_index fuel graph st = Value (graph, st) ∧
  restore_paths xg_index graph = graph.
Proof.
  intros Hall.
  assert (Hempty : complement_graph xg_index gbwt_index graph = VG_ops.empty).
  { assert (Hedges : vg_edges (complement_graph xg_index gbwt_index graph) = ∅).
    { apply elem_of_equiv_empty_L. intros p Hp.
      apply complement_graph_sound in Hp as [Hev Hmiss]. by apply Hmiss, Hall. }
    apply VG_eq; [|done]. apply elem_of_equiv_empty_L. intros n Hn.
    destruct (complement_graph_evidence xg_index gbwt_index graph) as [_ Hnodes].
    destruct (Hnodes n Hn) as (p & Hp & _). rewrite Hedges in Hp.
    by apply not_elem_of_empty in Hp. }
  assert (Hnone : complement_components xg_index gbwt_index graph = []).
  { unfold complement_components. by rewrite Hempty. }
  split; [done|]. split.
  - unfold unfold. rewrite Hnone. simpl. by rewrite extend_empty.
  - apply restore_ranks_present. intros path_rank Hr. apply elem_of_seq in Hr.
    apply chain_of_lookup. intros i a b Ha Hb. rewrite list_lookup_fmap in Ha, Hb.
    destruct (XG_ops.get_path xg_index path_rank !! i) as [s1|] eqn:H1; [|done].
    destruct (XG_ops.get_path xg_index path_rank !! S i) as [s2|] eqn:H2; [|done].
    simpl in Ha, Hb. injection Ha as <-. injection Hb as <-.
    apply has_edge_true, Hall. left. exists path_rank, i, s1, s2.
    split; [lia|done].
Qed.

Lemma unfold_nothing_missing_witness :
  let graph := graph_of [1; 2; 3] [(2, 4); (4, 6)] in
  complement_components Scenario.one_path GBWT_ops.empty_index graph = [] ∧
  unfold Scenario.one_path GBWT_ops.empty_index 0 graph (PhaseUnfolder_new 5)
    = Value (graph, PhaseUnfolder_new 5) ∧
  restore_paths Scenario.one_path graph = graph.
Proof.
  apply (unfold_nothing_missing Scenario.one_path GBWT_ops.empty_index
           (graph_of [1; 2; 3] [(2, 4); (4, 6)]) (PhaseUnfolder_new 5) 0).
  intros p [(r & i & s1 & s2 & Hr & H1 & H2 & ->)|(t & i & hd & nxt & Ht & _)].
  - assert (r = 1%nat) as ->.
    { unfold XG_ops.max_path_rank in Hr. simpl in Hr. lia. }
    destruct i as [|[|i]]; simpl in H1, H2.
    + injection H1 as <-. injection H2 as <-. apply (bool_decide_unpack _). by vm_compute.
    + injection H1 as <-. injection H2 as <-. apply (bool_decide_unpack _). by vm_compute.
    + destruct i; discriminate.
  - simpl in Ht. by apply elem_of_nil in Ht.
Defined.

(** X16 (a component without border node is dropped).  When no node of
    a complement component is a node of the graph and the data of the
    current component is empty, unfold_component finds no border node,
    starts no walk and returns 0 paths; the unfolded graph and the object
    are unchanged, whatever the bound on its loops and whatever the
    indexes. *)
Theorem unfold_component_without_border (xg_index : XG) (gbwt_index : GBWT)
    (component graph unfolded : VG) (st : PhaseUnfolder) (fuel : nat) :
  (∀ n, n ∈ vg_nodes component → n ∉ vg_nodes graph) →
  scratch_empty st →
  unfold_component xg_index gbwt_index fuel component graph unfolded st
  = Value (0%nat, unfolded, st).
Proof.
  intros Hnone (HB & HP & HS & HC).
  destruct st as [M B P S C]. simpl in HB, HP, HS, HC. subst.
  assert (Hborder : filter (λ n, n ∈ vg_nodes graph) (vg_nodes component) ∪ ∅
                    = (∅ : gset Z)).
  { apply elem_of_equiv_empty_L. intros n Hn.
    apply elem_of_union in Hn as [Hn|Hn]; [|by apply not_elem_of_empty in Hn].
    apply elem_of_filter in Hn as [Hg Hc]. by apply (Hnone n). }
  unfold unfold_component, find_border. cbn [border pu_mapping prefixes suffixes
    crossing_edges]. rewrite Hborder, elements_empty. cbn [generate_all].
  unfold assemble, clear_component. cbn [border pu_mapping prefixes suffixes
    crossing_edges]. by rewrite map_to_list_empty, elements_empty, size_empty.
Qed.

Lemma unfold_component_without_border_witness :
  unfold_component Scenario.one_path GBWT_ops.empty_index 3
    (graph_of [1; 2; 3] [(2, 4); (4, 6)]) Scenario.pruned_away VG_ops.empty
    (PhaseUnfolder_new 5)
  = Value (0%nat, VG_ops.empty, PhaseUnfolder_new 5).
Proof.
  apply (unfold_component_without_border Scenario.one_path GBWT_ops.empty_index
           (graph_of [1; 2; 3] [(2, 4); (4, 6)]) Scenario.pruned_away VG_ops.empty
           (PhaseUnfolder_new 5) 3).
  - intros n Hn Hg. unfold Scenario.pruned_away, graph_of in Hn, Hg.
    cbn [vg_nodes] in Hn, Hg.
    apply elem_of_list_to_set in Hn. apply elem_of_list_to_set in Hg.
    rewrite !elem_of_cons, elem_of_nil in Hn. rewrite !elem_of_cons, elem_of_nil in Hg.
    lia.
  - by repeat split.
Defined.

(** X17 (what the assembly creates).  The three loops that create the
    unfolded component look up the id of every handle of the tries and of
    the crossing edges in the table.  They return a graph exactly when
    every one of these ids can be read, that is when it is below first_node
    or has an entry, and they never run out of rounds.  The graph they
    return keeps every node and edge the unfolded graph had and adds
    exactly: for every prefix-trie entry the edge from the parent to the
    stored handle, for every suffix-trie entry the edge from the stored
    handle to the parent, for every crossing edge that edge, and the nodes
    with the ids of the two handles of each of these edges. *)
Theorem assemble_exact (st : PhaseUnfolder) (unfolded : VG) :
  (links_known st ↔ ∃ g, assemble st unfolded = Value g) ∧
  assemble st unfolded ≠ OutOfFuel ∧
  ∀ g, assemble st unfolded = Value g →
    (∀ p, p ∈ vg_edges g ↔
          p ∈ vg_edges unfolded ∨
          ∃ a b, linked st a b ∧ p = pair_from_edge (make_edge a b)) ∧
    (∀ n, n ∈ vg_nodes g ↔
          n ∈ vg_nodes unfolded ∨
          ∃ a b, linked st a b ∧ (n = Node.id a ∨ n = Node.id b)) ∧
    (closed unfolded → closed g).
Proof.
  split; [|split; [apply assemble_fuel|]].
  - split.
    + intros Hk. exists (assembled st unfolded). by apply assemble_value.
    + intros [g Hg]. by apply assemble_inv in Hg as [_ Hk].
  - intros g Hg. apply assemble_inv in Hg as [-> _].
    destruct (assemble_spec st unfolded) as [He Hn].
    split; [done|]. split; [done|]. apply assemble_closed.
Qed.

(** ** Duplicates are not shared *)

Lemma no_shared_id_sym (trie other : gmap (Z * Z) Z) :
  no_shared_id trie other → no_shared_id other trie.
Proof. intros Hno k1 k2 d1 d2 H1 H2 Heq. by apply (Hno k2 k1 d2 d1). Qed.

Lemma trie_step_distinct (key : Z * Z) (child : Z) (trie other : gmap (Z * Z) Z)
    (M : NodeMapping) :
  0 < first_node M ≤ next_node M → next_node M < 2 ^ 63 →
  allocated M trie → allocated M other →
  one_entry_per_id trie → no_shared_id trie other →
  one_entry_per_id (trie_step key child trie M).1.2 ∧
  no_shared_id (trie_step key child trie M).1.2 other.
Proof.
  intros H0 Hb Ha Hao Hone Hno. unfold trie_step.
  destruct (trie !! key) as [v|] eqn:Hl; simpl.
  - assert (v ≠ 0) as Hv by (apply (allocated_nonzero M trie key); [lia|done..]).
    apply Z.eqb_neq in Hv. by rewrite Hv.
  - assert (Hnew : Node.id (Node.encode (next_node M) (Node.is_reverse child))
                   = next_node M) by (apply Node_id_encode; lia).
    split.
    + intros k1 k2 d1 d2. rewrite !lookup_insert.
      case_decide as E1; case_decide as E2; simpl.
      * congruence.
      * intros [= <-] H2 Heq. specialize (Ha _ _ H2). rewrite Hnew in Heq. lia.
      * intros H1 [= <-] Heq. specialize (Ha _ _ H1). rewrite Hnew in Heq. lia.
      * apply Hone.
    + intros k1 k2 d1 d2. rewrite lookup_insert. case_decide as E1; simpl.
      * intros [= <-] H2 Heq. specialize (Hao _ _ H2). rewrite Hnew in Heq. lia.
      * apply Hno.
Qed.

Lemma trie_loop_distinct (mk : Z → Z → Z * Z) (other : gmap (Z * Z) Z)
    (children : path_type) : ∀ cursor trie M,
  0 < first_node M ≤ next_node M →
  next_node M + Z.of_nat (length children) ≤ 2 ^ 63 →
  allocated M trie → allocated M other →
  one_entry_per_id trie → no_shared_id trie other →
  one_entry_per_id (trie_loop mk children cursor trie M).1.2 ∧
  no_shared_id (trie_loop mk children cursor trie M).1.2 other.
Proof.
  induction children as [|child rest IH]; intros cursor trie M H0 Hb Ha Hao Hone Hno.
  { done. }
  simpl in Hb |- *.
  destruct (trie_step_allocated (mk cursor child) child trie M H0 ltac:(lia) Ha)
    as (_ & Ha' & _ & Hf & Hn).
  destruct (trie_step_distinct (mk cursor child) child trie other M H0 ltac:(lia)
              Ha Hao Hone Hno) as [Hone' Hno'].
  destruct (trie_step (mk cursor child) child trie M) as [[dup trie'] M'].
  simpl in Ha', Hf, Hn, Hone', Hno'.
  apply IH; [lia|lia|done| |done|done].
  by apply (allocated_mono M); [|lia|].
Qed.

Lemma insert_path_distinct (path : path_type) (st : PhaseUnfolder) :
  unfolder_ok st →
  next_node (pu_mapping st) + Z.of_nat (length path) ≤ 2 ^ 63 →
  tries_distinct st → tries_distinct (insert_path path st).
Proof.
  intros (Hwf & H0 & Hok & HaP & HaS) Hb (HoneP & HoneS & Hno).
  destruct (Nat.lt_ge_cases (length path) 2) as [Hlt|HL].
  { assert (Hsame : insert_path path st = st).
    { unfold insert_path. by destruct (Nat.ltb_spec (length path) 2); [|lia]. }
    by rewrite Hsame. }
  rewrite (insert_path_unfold path st HL).
  set (T := std_min path (reverse_complement path)).
  assert (HT : length T = length path) by apply std_min_length.
  pose proof (children_length_le T) as Hlen.
  pose proof Hwf as (_ & Hle & _).
  destruct (trie_loop_path prefix_key (prefix_children T) (default 0 (head T))
              (prefixes st) (pu_mapping st) ltac:(lia) ltac:(lia) HaP)
    as (_ & Ha1 & Hf1 & Hn1 & _).
  destruct (trie_loop_distinct prefix_key (suffixes st) (prefix_children T)
              (default 0 (head T)) (prefixes st) (pu_mapping st)
              ltac:(lia) ltac:(lia) HaP HaS HoneP Hno) as [Hone1 Hno1].
  pose proof (trie_loop_ok prefix_key snd (λ c x, eq_refl) (prefix_children T)
                (default 0 (head T)) (prefixes st) (pu_mapping st) Hwf ltac:(lia))
    as Hpre.
  destruct Hpre as (_ & _ & Hn1' & _).
  { intros [u v] d Hl. destruct Hok as [HP _]. by apply (HP u). }
  destruct (trie_loop prefix_key _ _ _ _) as [[from pre] M1].
  simpl in Ha1, Hf1, Hn1, Hn1', Hone1, Hno1.
  destruct (trie_loop_distinct suffix_key pre (suffix_children T)
              (default 0 (last T)) (suffixes st) M1 ltac:(lia) ltac:(lia))
    as [Hone2 Hno2].
  { by apply (allocated_mono (pu_mapping st)). }
  { done. }
  { done. }
  { by apply no_shared_id_sym. }
  destruct (trie_loop suffix_key _ _ _ _) as [[to suf] M2].
  simpl in Hone2, Hno2. simpl.
  split; [done|]. split; [done|]. by apply no_shared_id_sym.
Qed.

Lemma insert_paths_distinct (paths : list path_type) : ∀ st : PhaseUnfolder,
  unfolder_ok st →
  next_node (pu_mapping st) + total_length paths ≤ 2 ^ 63 →
  tries_distinct st → tries_distinct (insert_paths paths st).
Proof.
  induction paths as [|p rest IH]; intros st Hok Hb Hd; [done|].
  simpl in Hb. pose proof (total_length_nonneg rest).
  destruct (insert_path_links p st Hok ltac:(lia)) as (Hok1 & Hn1 & _).
  apply IH; [done|lia|]. apply insert_path_distinct; [done|lia|done].
Qed.

(** X18 (duplicates are not shared).  Take an object whose tries hold
    allocated duplicates only, each duplicate id in one entry, and insert
    any sequence of walks without running out of 63-bit ids.  Then every
    handle stored in the tries has an id of the allocated range, at or
    above first_node, and no two entries of the two tries hold the same id:
    each duplicate node of the unfolded component has one parent in its
    trie. *)
Theorem duplicates_not_shared (st0 : PhaseUnfolder) (paths : list path_type) :
  unfolder_ok st0 → tries_distinct st0 →
  next_node (pu_mapping st0) + total_length paths ≤ 2 ^ 63 →
  let st := insert_paths paths st0 in
  tries_distinct st ∧
  ∀ key dup, prefixes st !! key = Some dup ∨ suffixes st !! key = Some dup →
             first_node (pu_mapping st0) ≤ Node.id dup < next_node (pu_mapping st).
Proof.
  intros Hok Hd Hb st. split; [by apply insert_paths_distinct|].
  intros key dup Hl.
  assert (Hall : unfolder_ok st ∧
                 first_node (pu_mapping st) = first_node (pu_mapping st0)).
  { clear Hd Hl. subst st. revert st0 Hok Hb.
    induction paths as [|p rest IH]; intros st0 Hok Hb; [done|].
    simpl in Hb. pose proof (total_length_nonneg rest).
    destruct (insert_path_links p st0 Hok ltac:(lia)) as (Hok1 & Hn1 & _).
    destruct (insert_path_table p st0) as (Hf1 & _).
    destruct (IH (insert_path p st0) Hok1 ltac:(lia)) as [Hok2 Hf2].
    split; [done|]. simpl. congruence. }
  destruct Hall as [(_ & _ & _ & HaP & HaS) Hf]. rewrite <- Hf.
  destruct Hl as [Hl|Hl]; [by apply (HaP key)|by apply (HaS key)].
Qed.

Lemma duplicates_not_shared_witness :
  let st := insert_paths [[2; 4; 6; 8; 10]; [2; 4; 12]] (PhaseUnfolder_new 7) in
  tries_distinct st ∧
  ∀ key dup, prefixes st !! key = Some dup ∨ suffixes st !! key = Some dup →
             7 ≤ Node.id dup < next_node (pu_mapping st).
Proof.
  apply (duplicates_not_shared (PhaseUnfolder_new 7) [[2; 4; 6; 8; 10]; [2; 4; 12]]).
  - apply unfolder_ok_new. lia.
  - split; [|split]; intros k1 k2 d1 d2 H1; simpl in H1; by rewrite lookup_empty in H1.
  - simpl. rewrite ?wrap64_small by lia. lia.
Defined.

(** ** Components whose nodes all survived *)

Section AllBorder.

Variable xg_index : XG.
Variable gbwt_index : GBWT.
Variable component : VG.
Hypothesis Hclosed : closed component.
Hypothesis Hrange : ∀ n, n ∈ vg_nodes component → 0 ≤ n < 2 ^ 63.

Local Abbreviation Nc := (vg_nodes component).

Lemma only_crossing_refl (st : PhaseUnfolder) : only_crossing component st st.
Proof. repeat (split; [done|]). intros a b Hab. by left. Qed.

Lemma only_crossing_trans (st1 st2 st3 : PhaseUnfolder) :
  only_crossing component st1 st2 → only_crossing component st2 st3 →
  only_crossing component st1 st3.
Proof.
  intros (HM1 & HP1 & HS1 & HB1 & HC1) (HM2 & HP2 & HS2 & HB2 & HC2).
  split; [congruence|]. split; [congruence|]. split; [congruence|].
  split; [congruence|]. intros a b Hab.
  destruct (HC2 a b Hab) as [Hold|Hnew]; [by apply HC1|by right].
Qed.

Lemma has_edge_ends (a b : Z) :
  VG_ops.has_edge component (make_edge a b) = true → Node.id a ∈ Nc ∧ Node.id b ∈ Nc.
Proof.
  intros He. apply has_edge_true in He. destruct (Hclosed _ He) as [H1 H2].
  destruct (pair_from_edge_ends (make_edge a b)) as [[E1 E2]|[E1 E2]];
    rewrite E1 in H1; rewrite E2 in H2; simpl in H1, H2; by split.
Qed.

Lemma insert_path_short_walk (walk : path_type) (st : PhaseUnfolder) :
  (length walk ≤ 2)%nat →
  (length walk = 2%nat → ∀ node, node ∈ walk → Node.id node ∈ Nc) →
  only_crossing component st (insert_path walk st).
Proof.
  intros Hlen Hids.
  destruct (Nat.lt_ge_cases (length walk) 2) as [Hlt|HL].
  { assert (Hsame : insert_path walk st = st).
    { unfold insert_path. by destruct (Nat.ltb_spec (length walk) 2); [|lia]. }
    rewrite Hsame. apply only_crossing_refl. }
  rewrite (insert_path_unfold walk st HL).
  set (T := std_min walk (reverse_complement walk)).
  assert (HT : length T = 2%nat) by (unfold T; rewrite std_min_length; lia).
  assert (Hpre : prefix_children T = []).
  { apply nil_length_inv. rewrite prefix_children_length by lia. by rewrite HT. }
  assert (Hsuf : suffix_children T = []).
  { apply nil_length_inv. rewrite suffix_children_length by lia. by rewrite HT. }
  rewrite Hpre, Hsuf. simpl.
  repeat (split; [done|]). intros a b Hab.
  apply elem_of_union in Hab as [Hab|Hab]; [|by left]. right.
  apply elem_of_singleton in Hab. injection Hab as -> ->.
  assert (Hin : ∀ node, node ∈ T → Node.id node ∈ Nc).
  { intros node Hnode. apply std_min_elem_of in Hnode as (node' & Hnode' & ->).
    apply Hids; [lia|done]. }
  split; apply Hin; [apply head_elem_of|apply last_elem_of]; lia.
Qed.

Lemma border_walk_short (B : gset Z) (walk : path_type) :
  Nc ⊆ B → border_walk component B walk →
  (length walk ≤ 2)%nat ∧
  (length walk = 2%nat → ∀ node, node ∈ walk → Node.id node ∈ Nc).
Proof.
  intros HB [Hchain Hinner]. split.
  - destruct walk as [|w0 [|w1 [|w2 walk]]]; simpl; try lia.
    destruct Hchain as [H01 _]. apply has_edge_ends in H01 as [_ H1].
    destruct (Hinner 1%nat w1 eq_refl ltac:(lia) ltac:(simpl; lia)). by apply HB.
  - destruct walk as [|w0 [|w1 [|w2 walk]]]; simpl; try lia. intros _ node Hnode.
    destruct Hchain as [H01 _]. apply has_edge_ends in H01 as [H0 H1].
    rewrite !elem_of_cons, elem_of_nil in Hnode. by destruct Hnode as [->|[->|[]]].
Qed.

Lemma generate_paths_at_only_crossing (path : XGPath) (st : PhaseUnfolder)
    (occurrence : nat) :
  Nc ⊆ border st →
  only_crossing component st (generate_paths_at component path st occurrence).
Proof.
  intros HB. unfold generate_paths_at.
  assert (Hwalk : ∀ (B : gset Z) prev rest, Nc ⊆ B →
            (length (extend_walk component B prev rest [prev]) ≤ 2)%nat ∧
            (length (extend_walk component B prev rest [prev]) = 2%nat →
             ∀ node, node ∈ extend_walk component B prev rest [prev] →
                     Node.id node ∈ Nc)).
  { intros B prev rest HNB.
    destruct (extend_walk_spec component B rest prev [prev]) as (j & -> & Hw & _).
    by apply (border_walk_short B). }
  eapply only_crossing_trans.
  - apply insert_path_short_walk; by apply Hwalk.
  - apply insert_path_short_walk; apply Hwalk; by rewrite insert_path_border.
Qed.

Lemma generate_paths_only_crossing (from : Z) (st : PhaseUnfolder) :
  Nc ⊆ border st →
  only_crossing component st (generate_paths xg_index component from st).
Proof.
  intros HB. unfold generate_paths.
  apply (foldl_keeps _ (only_crossing component st)); [|apply only_crossing_refl].
  intros s r Hs. apply (foldl_keeps _ (only_crossing component st)); [|done].
  intros s' occ Hs'. eapply only_crossing_trans; [exact Hs'|].
  apply generate_paths_at_only_crossing.
  destruct Hs' as (_ & _ & _ & -> & _). done.
Qed.

Lemma edges_of_ends (node : Z) (edge : Edge) :
  edge ∈ VG_ops.edges_of component node → e_from edge ∈ Nc ∧ e_to edge ∈ Nc.
Proof.
  unfold VG_ops.edges_of. intros Hin.
  apply list_elem_of_fmap in Hin as (p & -> & Hp).
  apply list_elem_of_filter in Hp as [_ Hp]. apply elem_of_elements in Hp.
  by apply Hclosed.
Qed.

Lemma extend_state_short (s : state_type) (n : Z) (r : bool)
    (states : list state_type) :
  n ∈ Nc → length s.2 = 1%nat → short_state component s →
  Forall (short_state component) states →
  Forall (short_state component) (extend_state gbwt_index s n r states).2.
Proof.
  intros Hn Hlen [Hids _] Hall. unfold extend_state.
  destruct (GBWT_ops.is_empty _); [done|]. simpl.
  assert (Hid : Node.id (Node.encode n r) = n) by (apply Node_id_encode; by apply Hrange).
  constructor; [|done]. split; simpl.
  - intros node Hnode. apply elem_of_app in Hnode as [Hnode|Hnode]; [by apply Hids|].
    apply list_elem_of_singleton in Hnode as ->. by rewrite Hid.
  - right. rewrite length_app, Hlen. split; [done|]. by rewrite Hid.
Qed.

Lemma try_edges_short (s : state_type) (node : Z) (is_reverse : bool)
    (edges : list Edge) :
  (∀ edge, edge ∈ edges → e_from edge ∈ Nc ∧ e_to edge ∈ Nc) →
  length s.2 = 1%nat → short_state component s →
  ∀ (b : bool) (states : list state_type),
    Forall (short_state component) states →
    Forall (short_state component)
           (foldl (try_edge gbwt_index s node is_reverse) (b, states) edges).2.
Proof.
  intros Hedges Hlen Hs. induction edges as [|edge edges IH]; intros b states Hall.
  { done. }
  cbn [foldl].
  destruct (Hedges edge ltac:(by left)) as [Hfrom Hto].
  assert (Hstep : Forall (short_state component)
                    (try_edge gbwt_index s node is_reverse (b, states) edge).2).
  { unfold try_edge.
    destruct (bool_decide (e_from edge = node) && eqb (e_from_start edge) is_reverse).
    - pose proof (extend_state_short s (e_to edge) (e_to_end edge) states
                    Hto Hlen Hs Hall) as Hext.
      by destruct (extend_state gbwt_index s (e_to edge) (e_to_end edge) states).
    - destruct (bool_decide (e_to edge = node) && negb (eqb (e_to_end edge) is_reverse));
        [|done].
      pose proof (extend_state_short s (e_from edge) (negb (e_from_start edge)) states
                    Hfrom Hlen Hs Hall) as Hext.
      by destruct (extend_state gbwt_index s (e_from edge)
                     (negb (e_from_start edge)) states). }
  destruct (try_edge gbwt_index s node is_reverse (b, states) edge) as [b' states'].
  apply IH; [|done]. intros e He. apply Hedges. by right.
Qed.

Lemma threads_loop_only_crossing : ∀ (fuel : nat) (states : list state_type)
    (st st' : PhaseUnfolder),
  Nc ⊆ border st → Forall (short_state component) states →
  threads_loop gbwt_index fuel component states st = Value st' →
  only_crossing component st st'.
Proof.
  induction fuel as [|fuel IH]; intros states st st' HB Hall Hrun.
  { destruct states; simpl in Hrun; [|done]. injection Hrun as <-.
    apply only_crossing_refl. }
  destruct states as [|s rest].
  { simpl in Hrun. injection Hrun as <-. apply only_crossing_refl. }
  rewrite threads_loop_cons in Hrun.
  apply Forall_cons in Hall as [Hs Hrest].
  pose proof Hs as [Hids Hshape].
  assert (Hinsert : only_crossing component st (insert_path s.2 st)).
  { apply insert_path_short_walk; [destruct Hshape as [->|[-> _]]; lia|].
    intros _. exact Hids. }
  assert (HB' : Nc ⊆ border (insert_path s.2 st)) by (by rewrite insert_path_border).
  destruct ((2 <=? length s.2)%nat && bool_decide (Node.id (ss_node s.1) ∈ border st))
    eqn:Hcond.
  { eapply only_crossing_trans; [exact Hinsert|]. by apply (IH rest). }
  assert (Hlen : length s.2 = 1%nat).
  { destruct Hshape as [Hone|[Htwo Hnode]]; [done|].
    rewrite Htwo in Hcond. simpl in Hcond.
    apply bool_decide_eq_false in Hcond. destruct Hcond. by apply HB. }
  pose proof (try_edges_short s (Node.id (ss_node s.1)) (Node.is_reverse (ss_node s.1))
                (VG_ops.edges_of component (Node.id (ss_node s.1)))
                (edges_of_ends _) Hlen Hs false rest Hrest) as Hpushed.
  destruct (foldl _ _ _) as [[|] states']; simpl in Hpushed.
  - by apply (IH states').
  - eapply only_crossing_trans; [exact Hinsert|]. by apply (IH states').
Qed.

Lemma create_state_short (from : Z) (r : bool) (states : list state_type) :
  from ∈ Nc → Forall (short_state component) states →
  Forall (short_state component) (create_state gbwt_index from r states).
Proof.
  intros Hfrom Hall. unfold create_state.
  destruct (GBWT_ops.is_empty _); [done|]. constructor; [|done].
  split; simpl; [|by left]. intros node Hnode.
  apply list_elem_of_singleton in Hnode as ->.
  rewrite Node_id_encode by (by apply Hrange). done.
Qed.

Lemma generate_all_only_crossing (fuel : nat) (starts : list Z) :
  ∀ st st' : PhaseUnfolder,
  Nc ⊆ border st → (∀ b, b ∈ starts → b ∈ Nc) →
  generate_all xg_index gbwt_index fuel component starts st = Value st' →
  only_crossing component st st'.
Proof.
  induction starts as [|b starts IH]; intros st st' HB Hstarts Hrun; simpl in Hrun.
  { injection Hrun as <-. apply only_crossing_refl. }
  pose proof (generate_paths_only_crossing b st HB) as Hpaths.
  assert (HB1 : Nc ⊆ border (generate_paths xg_index component b st)).
  { by rewrite generate_paths_border. }
  destruct (generate_threads gbwt_index fuel component b
              (generate_paths xg_index component b st)) as [st1| |] eqn:Hth; [|done..].
  assert (Hthreads : only_crossing component
                       (generate_paths xg_index component b st) st1).
  { apply (threads_loop_only_crossing fuel _ _ _ HB1) in Hth; [done|].
    apply create_state_short; [apply Hstarts; by left|].
    apply create_state_short; [apply Hstarts; by left|constructor]. }
  eapply only_crossing_trans; [exact Hpaths|].
  eapply only_crossing_trans; [exact Hthreads|].
  apply IH; [|intros b' Hb'; apply Hstarts; by right|done].
  destruct Hthreads as (_ & _ & _ & -> & _). done.
Qed.

End AllBorder.

(** X19 (no duplicate when every node survived).  Take a component
    whose edges have their end nodes in it and whose nodes all are nodes of
    the graph, with ids that fit a handle and lie below first_node, and an
    object whose data of the current component is empty.  Then every node
    of the component is a border node, every walk stops at its second
    handle, and unfold_component allocates no duplicate: every read of the
    assembly is the read of an original id, the object is returned
    unchanged and every node of the unfolded graph was in it before or is a
    node of the component. *)
Theorem unfold_component_all_border (xg_index : XG) (gbwt_index : GBWT)
    (component graph unfolded : VG) (st : PhaseUnfolder) :
  closed component →
  (∀ n, n ∈ vg_nodes component → n ∈ vg_nodes graph ∧ 0 ≤ n < 2 ^ 63) →
  (∀ n, n ∈ vg_nodes component → n < first_node (pu_mapping st)) →
  scratch_empty st →
  ∃ (fuel0 paths : nat) (unfolded' : VG),
    (∀ fuel, (fuel0 ≤ fuel)%nat →
       unfold_component xg_index gbwt_index fuel component graph unfolded st
       = Value (paths, unfolded', st)) ∧
    vg_nodes unfolded' ⊆ vg_nodes unfolded ∪ vg_nodes component.
Proof.
  intros Hclosed Hall Hbelow (HB & HP & HS & HC).
  set (st0 := find_border component graph st).
  destruct (generate_all_runs xg_index gbwt_index component (elements (border st0)) st0)
    as (k & st1 & Hrun & _).
  assert (Hborder : border st0 = vg_nodes component).
  { subst st0. simpl. rewrite HB. apply set_eq. intros n.
    rewrite elem_of_union, elem_of_filter. split.
    - intros [[_ Hn]|Hn]; [done|by apply not_elem_of_empty in Hn].
    - intros Hn. left. split; [by apply Hall|done]. }
  assert (Honly : only_crossing component st0 st1).
  { apply (generate_all_only_crossing xg_index gbwt_index component Hclosed
             (λ n Hn, proj2 (Hall n Hn)) k (elements (border st0))).
    - by rewrite Hborder.
    - intros b Hb. apply elem_of_elements in Hb. by rewrite <- Hborder.
    - by apply Hrun. }
  destruct Honly as (HM1 & HP1 & HS1 & HB1 & HC1).
  assert (Hk1 : links_known st1).
  { intros a b [[c Hc]|[[c Hc]|Hc]].
    - rewrite HP1 in Hc. subst st0. simpl in Hc. rewrite HP in Hc.
      by rewrite lookup_empty in Hc.
    - rewrite HS1 in Hc. subst st0. simpl in Hc. rewrite HS in Hc.
      by rewrite lookup_empty in Hc.
    - destruct (HC1 a b Hc) as [Hold|[Ha Hb]].
      + subst st0. simpl in Hold. rewrite HC in Hold. by apply not_elem_of_empty in Hold.
      + unfold known, known_id. rewrite HM1. subst st0. simpl.
        pose proof (Hbelow _ Ha). pose proof (Hbelow _ Hb). lia. }
  exists k, (size (crossing_edges st1)), (assembled st1 unfolded). split.
  - intros fuel Hfuel. unfold unfold_component. fold st0.
    rewrite (Hrun fuel Hfuel), (assemble_value st1 unfolded Hk1).
    do 2 f_equal. unfold clear_component. rewrite HM1. subst st0. simpl.
    destruct st as [M B P S C]. simpl in HB, HP, HS, HC. by subst.
  - intros n Hn. destruct (assemble_spec st1 unfolded) as [_ Hnodes].
    apply Hnodes in Hn as [Hn|(a & b & Hl & Hor)]; [apply elem_of_union; by left|].
    apply elem_of_union; right.
    destruct Hl as [[c Hc]|[[c Hc]|Hc]].
    + rewrite HP1 in Hc. subst st0. simpl in Hc. rewrite HP in Hc.
      by rewrite lookup_empty in Hc.
    + rewrite HS1 in Hc. subst st0. simpl in Hc. rewrite HS in Hc.
      by rewrite lookup_empty in Hc.
    + destruct (HC1 a b Hc) as [Hold|[Ha Hb]].
      * subst st0. simpl in Hold. rewrite HC in Hold. by apply not_elem_of_empty in Hold.
      * by destruct Hor as [-> | ->].
Qed.

Lemma unfold_component_all_border_witness :
  ∃ (fuel0 paths : nat) (unfolded' : VG),
    (∀ fuel, (fuel0 ≤ fuel)%nat →
       unfold_component Scenario.two_paths GBWT_ops.empty_index fuel
         (graph_of [1; 2; 3; 4] Scenario.four_edges) Scenario.four_nodes
         VG_ops.empty (PhaseUnfolder_new 5)
       = Value (paths, unfolded', PhaseUnfolder_new 5)) ∧
    vg_nodes unfolded'
      ⊆ vg_nodes VG_ops.empty ∪ vg_nodes (graph_of [1; 2; 3; 4] Scenario.four_edges).
Proof.
  apply (unfold_component_all_border Scenario.two_paths GBWT_ops.empty_index
           (graph_of [1; 2; 3; 4] Scenario.four_edges) Scenario.four_nodes
           VG_ops.empty (PhaseUnfolder_new 5)).
  - intros p Hp. unfold graph_of in Hp. cbn [vg_edges] in Hp.
    apply elem_of_list_to_set in Hp. unfold Scenario.four_edges in Hp.
    cbn [fmap list_fmap] in Hp. rewrite !elem_of_cons, elem_of_nil in Hp.
    destruct Hp as [->|[->|[->|[->|[]]]]];
      split; apply (bool_decide_unpack _); by vm_compute.
  - intros n Hn. unfold graph_of in Hn. cbn [vg_nodes] in Hn.
    apply elem_of_list_to_set in Hn. rewrite !elem_of_cons, elem_of_nil in Hn.
    split; [|lia].
    destruct Hn as [->|[->|[->|[->|[]]]]]; apply (bool_decide_unpack _); by vm_compute.
  - intros n Hn. unfold graph_of in Hn. cbn [vg_nodes] in Hn.
    apply elem_of_list_to_set in Hn. rewrite !elem_of_cons, elem_of_nil in Hn.
    change (first_node (pu_mapping (PhaseUnfolder_new 5))) with 5. lia.
  - by repeat split.
Defined.

(** ** Unfolding only makes edges that stand for missing evidence *)

Lemma trie_step_entries (key : Z * Z) (child : Z) (trie : gmap (Z * Z) Z)
    (M : NodeMapping) (k : Z * Z) (v : Z) :
  (trie_step key child trie M).1.2 !! k = Some v →
  trie !! k = Some v ∨ (k = key ∧ v = (trie_step key child trie M).1.1).
Proof.
  unfold trie_step. destruct (default 0 (trie !! key) =? 0); simpl; [|by left].
  rewrite lookup_insert. case_decide as Hk; [|by left].
  intros [= <-]. by right.
Qed.

Lemma trie_loop_fits (mk : Z → Z → Z * Z) (orig : Z * Z → Z) (children : path_type) :
  (∀ c x, orig (mk c x) = x) →
  ∀ cursor trie M,
  NodeMapping_ops.wf M → 0 < first_node M →
  first_node M
    + Z.of_nat (length (mapping (trie_loop mk children cursor trie M).2)) < 2 ^ 63 →
  allocated M trie → trie_ok orig M trie →
  NodeMapping_ops.wf (trie_loop mk children cursor trie M).2 ∧
  allocated (trie_loop mk children cursor trie M).2
            (trie_loop mk children cursor trie M).1.2 ∧
  trie_ok orig (trie_loop mk children cursor trie M).2
          (trie_loop mk children cursor trie M).1.2 ∧
  trie ⊆ (trie_loop mk children cursor trie M).1.2 ∧
  ∃ dups,
    trie_path mk (trie_loop mk children cursor trie M).1.2 cursor children dups ∧
    last (cursor :: dups) = Some (trie_loop mk children cursor trie M).1.1 ∧
    ∀ k v, (trie_loop mk children cursor trie M).1.2 !! k = Some v →
      trie !! k = Some v ∨
      ∃ j c child, (cursor :: dups) !! j = Some c ∧ dups !! j = Some v ∧
                   k = mk c child.
Proof.
  intros Horig. induction children as [|child rest IH];
    intros cursor trie M Hwf H0 Hfit Ha Hok.
  { simpl. split; [done|]. split; [done|]. split; [done|]. split; [done|].
    exists []. split; [done|]. split; [done|]. intros k v Hk. by left. }
  simpl in Hfit |- *.
  destruct (trie_step_appends (mk cursor child) child trie M)
    as (Hf1 & added1 & Hm1 & _).
  assert (Hnext : next_node M < 2 ^ 63).
  { destruct (trie_loop_appends mk rest
                (trie_step (mk cursor child) child trie M).1.1
                (trie_step (mk cursor child) child trie M).1.2
                (trie_step (mk cursor child) child trie M).2)
      as (_ & added2 & Hm2 & _).
    destruct (trie_step (mk cursor child) child trie M) as [[dup trie'] M'].
    simpl in Hm1, Hm2, Hfit. rewrite Hm2, Hm1, !length_app in Hfit.
    destruct Hwf as (_ & _ & Hlen). lia. }
  pose proof Hwf as (_ & Hle & _).
  destruct (trie_step_allocated (mk cursor child) child trie M ltac:(lia) Hnext Ha)
    as (Hsub & Ha' & Hkey & Hf & Hn).
  destruct (trie_step_ok orig (mk cursor child) child trie M (Horig _ _) Hwf Hnext Hok)
    as (Hwf' & Hok' & _ & _).
  pose proof (trie_step_entries (mk cursor child) child trie M) as Hstep.
  destruct (trie_step (mk cursor child) child trie M) as [[dup trie'] M'].
  simpl in Hsub, Ha', Hkey, Hf, Hn, Hwf', Hok', Hstep, Hfit, Hf1.
  rewrite <- Hf in Hfit.
  destruct (IH dup trie' M' Hwf' ltac:(lia) Hfit Ha' Hok')
    as (Hwf2 & Ha2 & Hok2 & Hsub2 & dups & Hpath & Hlast & Hnew).
  split; [done|]. split; [done|]. split; [done|]. split; [by etrans|].
  exists (dup :: dups). split; [|split; [done|]].
  - simpl. split; [|done]. by eapply lookup_weaken.
  - intros k v Hk. destruct (Hnew k v Hk) as [Hold|(j & c & ch & Hc & Hv & ->)].
    + destruct (Hstep k v Hold) as [?|[-> ->]]; [by left|].
      right. by exists 0%nat, cursor, child.
    + right. by exists (S j), c, ch.
Qed.

Lemma pair_from_edge_reverse (a b : Z) :
  pair_from_edge (make_edge (Node.reverse b) (Node.reverse a))
  = pair_from_edge (make_edge a b).
Proof.
  rewrite <- (pair_from_edge_flip (make_edge a b)). unfold make_edge. simpl.
  by rewrite !Node_id_reverse, !Node_is_reverse_reverse.
Qed.

Lemma chain_fmap (R : Z → Z → Prop) (f : Z → Z) (l : path_type) :
  chain (λ a b, R (f a) (f b)) l → chain R (f <$> l).
Proof.
  induction l as [|x l IH]; [done|]. destruct l as [|y l]; [done|].
  intros [Hxy Hl]. split; [done|]. by apply IH.
Qed.

Lemma chain_app_inv (R : Z → Z → Prop) (l1 l2 : path_type) :
  chain R (l1 ++ l2) →
  chain R l1 ∧ chain R l2 ∧
  ∀ a b, last l1 = Some a → head l2 = Some b → R a b.
Proof.
  induction l1 as [|x l1 IH]; intros Hl.
  { split; [done|]. split; [done|]. intros a b Ha. done. }
  destruct l1 as [|y l1].
  - simpl in Hl. destruct l2 as [|z l2].
    + split; [done|]. split; [done|]. intros a b _ Hb. done.
    + destruct Hl as [Hxz Hl]. split; [done|]. split; [done|].
      intros a b [= <-] [= <-]. done.
  - destruct Hl as [Hxy Hl]. destruct (IH Hl) as (H1 & H2 & Hj).
    split; [by split|]. split; [done|]. intros a b Ha. by apply Hj.
Qed.

Lemma chain_unreverse (R : Z → Z → Prop) (l : path_type) :
  chain R (reverse l) → chain (flip R) l.
Proof.
  intros Hl. rewrite <- (reverse_involutive l). apply chain_reverse.
  eapply chain_impl; [|exact Hl]. done.
Qed.

Lemma chain_Forall2 (Q R R' : Z → Z → Prop) (l l' : path_type) :
  (∀ o o' c c', Q o c → Q o' c' → R o o' → R' c c') →
  Forall2 Q l l' → chain R l → chain R' l'.
Proof.
  intros Himpl Hall. induction Hall as [|o c l l' Hoc Hall IH]; [done|].
  destruct Hall as [|o' c' l l' Hoc' Hall]; [done|].
  intros [Hoo' Hl]. split; [by eapply Himpl|]. by apply IH.
Qed.

Lemma Forall2_last_both (Q : Z → Z → Prop) (l l' : path_type) (o c : Z) :
  Forall2 Q l l' → last l = Some o → last l' = Some c → Q o c.
Proof.
  intros Hall. induction Hall as [|x y l l' Hxy Hall IH]; [done|].
  destruct Hall as [|x' y' l l' Hxy' Hall].
  - by intros [= <-] [= <-].
  - intros Ho Hc. by apply IH.
Qed.

Lemma along_reverse_complement (E : NodeSide * NodeSide → Prop) (walk : path_type) :
  along E walk → along E (reverse_complement walk).
Proof.
  intros Hw. unfold along, reverse_complement.
  apply chain_reverse, chain_fmap.
  eapply chain_impl; [|exact Hw]. intros a b Hab. unfold flip.
  by rewrite pair_from_edge_reverse.
Qed.

Lemma along_std_min (E : NodeSide * NodeSide → Prop) (walk : path_type) :
  along E walk → along E (std_min walk (reverse_complement walk)).
Proof.
  intros Hw. unfold std_min. destruct (path_lt _ _); [|done].
  by apply along_reverse_complement.
Qed.

Lemma get_defined (M : NodeMapping) (d : Z) :
  NodeMapping_ops.wf M → d < next_node M → is_Some (NodeMapping_ops.get M d).
Proof.
  intros (H0 & Hle & Hlen) Hd. unfold NodeMapping_ops.get.
  destruct (Z.ltb_spec d (first_node M)); [done|].
  apply lookup_lt_is_Some. lia.
Qed.

Lemma original_handle_stable (M M' : NodeMapping) (h : Z) :
  NodeMapping_ops.wf M → Node.id h < next_node M →
  (∀ d x, NodeMapping_ops.get M d = Some x → NodeMapping_ops.get M' d = Some x) →
  original_handle M' h = original_handle M h.
Proof.
  intros Hwf Hh Hstable. unfold original_handle, original_id.
  destruct (get_defined M (Node.id h) Hwf Hh) as [x Hx].
  by rewrite Hx, (Hstable _ _ Hx).
Qed.

Lemma stands_for_stable (E : NodeSide * NodeSide → Prop) (M M' : NodeMapping)
    (a b : Z) :
  NodeMapping_ops.wf M → next_node M ≤ next_node M' →
  (∀ d x, NodeMapping_ops.get M d = Some x → NodeMapping_ops.get M' d = Some x) →
  stands_for E M a b → stands_for E M' a b.
Proof.
  intros Hwf Hn Hstable (Ha & Hb & Hev). split; [lia|]. split; [lia|].
  by rewrite !(original_handle_stable M M') by done.
Qed.

Lemma handle_range (h : Z) : 0 ≤ Node.id h < 2 ^ 63 → 0 ≤ h < 2 ^ 64.
Proof.
  unfold Node.id. rewrite Z.shiftr_div_pow2 by lia. change (2 ^ 1) with 2.
  intros Hh. pose proof (Z.div_mod h 2 ltac:(lia)) as Hdm.
  pose proof (Z.mod_pos_bound h 2 ltac:(lia)). lia.
Qed.

Lemma original_of_self (M : NodeMapping) (h : Z) :
  first_node M ≤ next_node M → first_node M ≤ 2 ^ 63 →
  0 ≤ Node.id h < first_node M → original_of M h h.
Proof.
  intros Hle Hb Hh. split; [|lia]. unfold original_handle, original_id.
  unfold NodeMapping_ops.get.
  destruct (Z.ltb_spec (Node.id h) (first_node M)); [|lia]. simpl.
  apply Node_encode_id, handle_range. lia.
Qed.

Lemma original_of_entry (M : NodeMapping) (orig dup : Z) :
  0 ≤ Node.id orig < 2 ^ 63 → entry_ok M orig dup → Node.id dup < next_node M →
  original_of M orig dup.
Proof.
  intros Hr [Hg Hrev] Hn. split; [|done]. unfold original_handle, original_id.
  rewrite Hg, Hrev. simpl. by apply Node_encode_id, handle_range.
Qed.

Lemma trie_path_copies (mk : Z → Z → Z * Z) (orig : Z * Z → Z) (M : NodeMapping)
    (trie : gmap (Z * Z) Z) (children : path_type) :
  (∀ c x, orig (mk c x) = x) → trie_ok orig M trie → allocated M trie →
  (∀ child, child ∈ children → 0 ≤ Node.id child < 2 ^ 63) →
  ∀ cursor dups, trie_path mk trie cursor children dups →
                 Forall2 (original_of M) children dups.
Proof.
  intros Horig Hok Ha. induction children as [|child rest IH];
    intros Hr cursor [|dup dups]; simpl; try done.
  intros [Hl Hrest]. constructor.
  - apply original_of_entry; [apply Hr; by left| |by apply (Ha _ _ Hl)].
    specialize (Hok _ _ Hl). by rewrite Horig in Hok.
  - apply (IH ltac:(intros c Hc; apply Hr; by right) dup). done.
Qed.

Section Sound.

Variable E : NodeSide * NodeSide → Prop.
Variable first : Z.
Hypothesis HErange : ∀ p, E p → 0 ≤ p.1.1 < first ∧ 0 ≤ p.2.1 < first.

Lemma along_ids (walk : path_type) (node : Z) :
  (2 ≤ length walk)%nat → along E walk → node ∈ walk → 0 ≤ Node.id node < first.
Proof.
  intros HL Hw Hin.
  destruct (chain_elem_of _ walk node HL Hw Hin) as (a & b & Hab & Hor).
  apply HErange in Hab.
  destruct (pair_from_edge_ends (make_edge a b)) as [[E1 E2]|[E1 E2]];
    rewrite E1, E2 in Hab; simpl in Hab; destruct Hor as [-> | ->]; lia.
Qed.

Lemma original_of_stands (M : NodeMapping) (o o' c c' : Z) :
  original_of M o c → original_of M o' c' → E (pair_from_edge (make_edge o o')) →
  stands_for E M c c'.
Proof. intros [<- Hc] [<- Hc'] He. done. Qed.

Lemma insert_path_sound (path : path_type) (st : PhaseUnfolder) :
  sound_state E first st → along E path → table_fits (insert_path path st) →
  sound_state E first (insert_path path st).
Proof.
  intros ((Hwf & H0 & [HokP HokS] & HaP & HaS) & Hfirst & Hlinks) Hw Hfit.
  destruct (Nat.lt_ge_cases (length path) 2) as [Hlt|HL].
  { assert (Hsame : insert_path path st = st).
    { unfold insert_path. by destruct (Nat.ltb_spec (length path) 2); [|lia]. }
    rewrite Hsame. done. }
  revert Hfit. unfold table_fits. rewrite (insert_path_unfold path st HL).
  set (T := std_min path (reverse_complement path)).
  assert (HT : length T = length path) by apply std_min_length.
  assert (HwT : along E T) by (by apply along_std_min).
  assert (HidT : ∀ node, node ∈ T → 0 ≤ Node.id node < first).
  { intros node. apply along_ids; [lia|done]. }
  set (M := pu_mapping st) in *.
  set (r1 := trie_loop prefix_key (prefix_children T) (default 0 (head T))
                       (prefixes st) M).
  set (r2 := trie_loop suffix_key (suffix_children T) (default 0 (last T))
                       (suffixes st) r1.2).
  cbn [pu_mapping]. intros Hfit.
  destruct (trie_loop_appends prefix_key (prefix_children T) (default 0 (head T))
              (prefixes st) M) as (Hf1 & added1 & Hm1 & _).
  destruct (trie_loop_appends suffix_key (suffix_children T) (default 0 (last T))
              (suffixes st) r1.2) as (Hf2 & added2 & Hm2 & _).
  fold r1 in Hf1, Hm1. fold r2 in Hf2, Hm2.
  pose proof Hwf as (_ & Hle & Hlen).
  assert (Hfit1 : first_node M + Z.of_nat (length (mapping r1.2)) < 2 ^ 63).
  { rewrite Hf2, Hf1, Hm2, length_app in Hfit. lia. }
  destruct (trie_loop_fits prefix_key snd (prefix_children T) (λ c x, eq_refl)
              (default 0 (head T)) (prefixes st) M Hwf H0 Hfit1 HaP)
    as (Hwf1 & Ha1 & Hok1 & Hsub1 & pdups & Hpath1 & Hlast1 & Hnew1).
  { intros [u v] d Hl. by apply (HokP u). }
  fold r1 in Hwf1, Ha1, Hok1, Hsub1, Hpath1, Hlast1, Hnew1.
  assert (Hget1 : ∀ d x, NodeMapping_ops.get M d = Some x →
                         NodeMapping_ops.get r1.2 d = Some x).
  { intros d x. by apply (get_mapping_appended _ _ added1). }
  assert (Hget2 : ∀ d x, NodeMapping_ops.get r1.2 d = Some x →
                         NodeMapping_ops.get r2.2 d = Some x).
  { intros d x. by apply (get_mapping_appended _ _ added2). }
  pose proof Hwf1 as (_ & Hle1 & Hlen1).
  assert (Hn1 : next_node M ≤ next_node r1.2).
  { rewrite Hm1, length_app in Hlen1. lia. }
  destruct (trie_loop_fits suffix_key fst (suffix_children T) (λ c x, eq_refl)
              (default 0 (last T)) (suffixes st) r1.2 Hwf1 ltac:(lia))
    as (Hwf2 & Ha2 & Hok2 & Hsub2 & sdups & Hpath2 & Hlast2 & Hnew2).
  { fold r2. rewrite Hf2, Hf1 in Hfit. by rewrite Hf1. }
  { by apply (allocated_mono M). }
  { intros [v u] d Hl. destruct (HokS u v d Hl) as [Hg Hr]. split; [|done].
    by apply Hget1. }
  fold r2 in Hwf2, Ha2, Hok2, Hsub2, Hpath2, Hlast2, Hnew2.
  pose proof Hwf2 as (_ & Hle2 & Hlen2).
  assert (Hn2 : next_node r1.2 ≤ next_node r2.2).
  { rewrite Hm2, length_app in Hlen2. lia. }
  assert (Hb2 : first_node r2.2 ≤ 2 ^ 63) by lia.
  assert (Hfirst2 : first_node r2.2 = first) by congruence.
  clearbody r2. clearbody r1.
  destruct r1 as [[from pre] M1]. destruct r2 as [[to suf] M2].
  cbn [fst snd] in *.
  assert (HA : Forall2 (original_of M2) (default 0 (head T) :: prefix_children T)
                       (default 0 (head T) :: pdups)).
  { constructor.
    - apply original_of_self; [done..|]. rewrite Hfirst2.
      apply HidT, head_elem_of. lia.
    - apply Forall2_impl with (original_of M1).
      + apply (trie_path_copies prefix_key snd M1 pre (prefix_children T)
                 (λ c x, eq_refl) Hok1 Ha1) with (cursor := default 0 (head T));
          [|done].
        intros child Hc. apply prefix_children_elem_of, HidT in Hc. lia.
      + intros o d [Ho Hd]. split; [|lia].
        rewrite <- Ho. by apply original_handle_stable. }
  assert (HB : Forall2 (original_of M2) (default 0 (last T) :: suffix_children T)
                       (default 0 (last T) :: sdups)).
  { constructor.
    - apply original_of_self; [done..|]. rewrite Hfirst2.
      apply HidT, last_elem_of. lia.
    - apply (trie_path_copies suffix_key fst M2 suf (suffix_children T)
               (λ c x, eq_refl) Hok2 Ha2) with (cursor := default 0 (last T));
        [|done].
      intros child Hc. apply suffix_children_elem_of, HidT in Hc. lia. }
  assert (Hsplit : T = (default 0 (head T) :: prefix_children T)
                       ++ reverse (default 0 (last T) :: suffix_children T)).
  { rewrite reverse_cons. apply walk_split. lia. }
  unfold along in HwT. rewrite Hsplit in HwT.
  apply chain_app_inv in HwT as (HcA & HcB & Hjoin).
  pose proof (chain_Forall2 _ _ (stands_for E M2) _ _
                (original_of_stands M2) HA HcA) as HchA.
  pose proof (chain_Forall2 (original_of M2) _ (flip (stands_for E M2)) _ _
                (λ o o' c c' Ho Ho' HR, original_of_stands M2 o' o c' c Ho' Ho HR)
                HB (chain_unreverse _ _ HcB)) as HchB.
  assert (Hold : ∀ a b, linked st a b → stands_for E M2 a b).
  { intros a b Hl. apply (stands_for_stable E M M2); [done|lia| |by apply Hlinks].
    intros d x Hd. by apply Hget2, Hget1. }
  split; [|split; [done|]].
  { split; [done|]. split; [simpl; lia|]. split.
    - split; simpl.
      + intros u v d Hl. destruct (Hok1 (u, v) d Hl) as [Hg Hr]. split; [|done].
        by apply Hget2.
      + intros u v d Hl. by apply (Hok2 (v, u) d).
    - simpl. split; [|done]. apply (allocated_mono M1); [congruence|lia|done]. }
  intros a b [[x Hl]|[[x Hl]|Hl]]; simpl in Hl.
  - destruct (Hnew1 _ _ Hl) as [Hl'|(j & c & child & Hc & Hv & Hk)].
    + apply Hold. left. by exists x.
    + injection Hk as Ha _. rewrite Ha. exact (chain_lookup _ _ HchA j c b Hc Hv).
  - destruct (Hnew2 _ _ Hl) as [Hl'|(j & c & child & Hc & Hv & Hk)].
    + apply Hold. right; left. by exists x.
    + injection Hk as _ Hb. rewrite Hb. exact (chain_lookup _ _ HchB j c a Hc Hv).
  - apply elem_of_union in Hl as [Hl|Hl]; [|apply Hold; by right; right].
    apply elem_of_singleton in Hl. injection Hl as -> ->.
    destruct (last (default 0 (head T) :: prefix_children T)) as [oa|] eqn:Hoa;
      [|by apply last_None in Hoa].
    destruct (last (default 0 (last T) :: suffix_children T)) as [ob|] eqn:Hob;
      [|by apply last_None in Hob].
    apply (original_of_stands M2 oa ob).
    + by apply (Forall2_last_both _ _ _ _ _ HA).
    + by apply (Forall2_last_both _ _ _ _ _ HB).
    + apply Hjoin; [done|]. by rewrite head_reverse.
Qed.

Lemma table_fits_grows (st st' : PhaseUnfolder) :
  table_grows st st' → table_fits st' → table_fits st.
Proof.
  intros [Hf [added Hm]]. unfold table_fits. rewrite Hf, Hm, length_app. lia.
Qed.

Lemma insert_paths_table (paths : list path_type) :
  ∀ st, table_grows st (insert_paths paths st).
Proof.
  induction paths as [|p rest IH]; intros st; [apply table_grows_refl|].
  eapply table_grows_trans; [apply (table_grows_insert_path p)|apply IH].
Qed.

Lemma insert_paths_sound (paths : list path_type) : ∀ st,
  sound_state E first st → Forall (along E) paths →
  table_fits (insert_paths paths st) → sound_state E first (insert_paths paths st).
Proof.
  induction paths as [|p rest IH]; intros st Hst Hall Hfit; [done|].
  apply Forall_cons in Hall as [Hp Hrest].
  change (insert_paths (p :: rest) st) with (insert_paths rest (insert_path p st)) in *.
  apply IH; [|done..]. apply insert_path_sound; [done..|].
  by apply (table_fits_grows _ _ (insert_paths_table rest _)).
Qed.




Lemma stands_for_grows (st st' : PhaseUnfolder) (a b : Z) :
  NodeMapping_ops.wf (pu_mapping st) → NodeMapping_ops.wf (pu_mapping st') →
  table_grows st st' →
  stands_for E (pu_mapping st) a b → stands_for E (pu_mapping st') a b.
Proof.
  intros Hwf Hwf' Hg. pose proof Hg as [Hf [added Hm]].
  apply stands_for_stable; [done| |].
  - destruct Hwf as (_ & _ & Hlen). destruct Hwf' as (_ & _ & Hlen').
    rewrite Hm, length_app in Hlen'. lia.
  - intros d x. by apply (get_mapping_appended _ _ added).
Qed.

Lemma stands_in_grows (st st' : PhaseUnfolder) (g : VG) :
  NodeMapping_ops.wf (pu_mapping st) → NodeMapping_ops.wf (pu_mapping st') →
  table_grows st st' →
  stands_in E (pu_mapping st) g → stands_in E (pu_mapping st') g.
Proof.
  intros Hwf Hwf' Hg [He Hn]. split.
  - intros p Hp. destruct (He p Hp) as (a & b & Hab & ->).
    exists a, b. split; [by apply (stands_for_grows st)|done].
  - intros n Hin. destruct (Hn n Hin) as (a & b & Hab & Hor).
    exists a, b. split; [by apply (stands_for_grows st)|done].
Qed.

Section SoundComponent.

Variable xg_index : XG.
Variable gbwt_index : GBWT.
Variable component : VG.
Hypothesis Hcomp : ∀ p, p ∈ vg_edges component → E p.
Hypothesis HEcanon : ∀ p, E p → pair_from_edge (edge_of_pair p) = p.
Hypothesis Hfirst63 : first ≤ 2 ^ 63.

Lemma extend_walk_along (B : gset Z) (prev : Z) (rest : path_type) :
  along E (extend_walk component B prev rest [prev]).
Proof.
  destruct (extend_walk_spec component B rest prev [prev]) as (j & -> & [Hw _] & _).
  unfold along. eapply chain_impl; [|exact Hw].
  intros a b Hab. by apply Hcomp, has_edge_true.
Qed.

Lemma generate_paths_inserted (from : Z) (st : PhaseUnfolder) :
  inserted (along E) st (generate_paths xg_index component from st).
Proof.
  unfold generate_paths.
  apply (foldl_keeps _ (inserted (along E) st)); [|apply inserted_refl].
  intros s r Hs. apply (foldl_keeps _ (inserted (along E) st)); [|done].
  intros s' occ Hs'. unfold generate_paths_at, forward_walk, backward_walk.
  eapply inserted_trans; [exact Hs'|].
  eapply inserted_trans; apply inserted_insert_path; apply extend_walk_along.
Qed.

Lemma extend_state_thread (s : state_type) (n : Z) (r : bool)
    (states : list state_type) :
  thread_state E s →
  E (pair_from_edge (make_edge (ss_node s.1) (Node.encode n r))) →
  Forall (thread_state E) states →
  Forall (thread_state E) (extend_state gbwt_index s n r states).2.
Proof.
  intros [Hw Hlast] He Hall. unfold extend_state.
  destruct (GBWT_ops.is_empty _); [done|]. simpl. constructor; [|done].
  split; simpl.
  - unfold along. apply chain_app; [done|done|].
    intros a b Ha [= <-]. rewrite Hlast in Ha. by injection Ha as <-.
  - by rewrite last_snoc.
Qed.

Lemma edges_of_along (node : Z) (edge : Edge) :
  edge ∈ VG_ops.edges_of component node →
  E (pair_from_edge edge) ∧ 0 ≤ e_from edge < 2 ^ 63 ∧ 0 ≤ e_to edge < 2 ^ 63.
Proof.
  unfold VG_ops.edges_of. intros Hin.
  apply list_elem_of_fmap in Hin as (p & -> & Hp).
  apply list_elem_of_filter in Hp as [_ Hp]. apply elem_of_elements in Hp.
  apply Hcomp in Hp. rewrite (HEcanon p Hp). split; [done|].
  apply HErange in Hp. simpl. lia.
Qed.

Lemma try_edges_thread (s : state_type) (edges : list Edge) :
  thread_state E s →
  (∀ edge, edge ∈ edges →
     E (pair_from_edge edge) ∧ 0 ≤ e_from edge < 2 ^ 63 ∧ 0 ≤ e_to edge < 2 ^ 63) →
  ∀ (b : bool) (states : list state_type),
    Forall (thread_state E) states →
    Forall (thread_state E)
           (foldl (try_edge gbwt_index s (Node.id (ss_node s.1))
                            (Node.is_reverse (ss_node s.1)))
                  (b, states) edges).2.
Proof.
  intros Hs. induction edges as [|edge edges IH]; intros Hedges b states Hall.
  { done. }
  cbn [foldl].
  destruct (Hedges edge ltac:(by left)) as (He & Hfrom & Hto).
  assert (Hstep : Forall (thread_state E)
                    (try_edge gbwt_index s (Node.id (ss_node s.1))
                              (Node.is_reverse (ss_node s.1)) (b, states) edge).2).
  { unfold try_edge.
    destruct (bool_decide (e_from edge = Node.id (ss_node s.1))
              && eqb (e_from_start edge) (Node.is_reverse (ss_node s.1))) eqn:Hc1.
    - apply andb_true_iff in Hc1 as [H1 H2].
      apply bool_decide_eq_true in H1. apply eqb_prop in H2.
      assert (Hext : Forall (thread_state E)
                (extend_state gbwt_index s (e_to edge) (e_to_end edge) states).2).
      { apply extend_state_thread; [done| |done].
        unfold make_edge. rewrite Node_id_encode, Node_is_reverse_encode by done.
        rewrite <- H1, <- H2. by destruct edge. }
      by destruct (extend_state gbwt_index s (e_to edge) (e_to_end edge) states).
    - destruct (bool_decide (e_to edge = Node.id (ss_node s.1))
                && negb (eqb (e_to_end edge) (Node.is_reverse (ss_node s.1))))
        eqn:Hc2; [|done].
      apply andb_true_iff in Hc2 as [H1 H2].
      apply bool_decide_eq_true in H1. apply negb_true_iff, eqb_false_iff in H2.
      assert (Hext : Forall (thread_state E)
                (extend_state gbwt_index s (e_from edge) (negb (e_from_start edge))
                              states).2).
      { apply extend_state_thread; [done| |done].
        unfold make_edge. rewrite Node_id_encode, Node_is_reverse_encode by done.
        rewrite <- H1.
        replace (Node.is_reverse (ss_node s.1)) with (negb (e_to_end edge))
          by (destruct (e_to_end edge), (Node.is_reverse (ss_node s.1)); done).
        by rewrite pair_from_edge_flip. }
      by destruct (extend_state gbwt_index s (e_from edge)
                     (negb (e_from_start edge)) states). }
  destruct (try_edge gbwt_index s _ _ (b, states) edge) as [b' states'].
  apply IH; [|done]. intros e Hin. apply Hedges. by right.
Qed.

Lemma threads_loop_inserted : ∀ (fuel : nat) (states : list state_type)
    (st st' : PhaseUnfolder),
  Forall (thread_state E) states →
  threads_loop gbwt_index fuel component states st = Value st' →
  inserted (along E) st st'.
Proof.
  induction fuel as [|fuel IH]; intros states st st' Hall Hrun.
  { destruct states; simpl in Hrun; [|done]. injection Hrun as <-.
    apply inserted_refl. }
  destruct states as [|s rest].
  { simpl in Hrun. injection Hrun as <-. apply inserted_refl. }
  rewrite threads_loop_cons in Hrun.
  apply Forall_cons in Hall as [Hs Hrest].
  assert (Hinsert : inserted (along E) st (insert_path s.2 st)).
  { apply inserted_insert_path. by destruct Hs. }
  destruct ((2 <=? length s.2)%nat && bool_decide (Node.id (ss_node s.1) ∈ border st)).
  { eapply inserted_trans; [exact Hinsert|]. by apply (IH rest). }
  pose proof (try_edges_thread s (VG_ops.edges_of component (Node.id (ss_node s.1)))
                Hs (edges_of_along _) false rest Hrest) as Hpushed.
  destruct (foldl _ _ _) as [[|] states']; simpl in Hpushed.
  - by apply (IH states').
  - eapply inserted_trans; [exact Hinsert|]. by apply (IH states').
Qed.

Lemma create_state_thread (from : Z) (r : bool) (states : list state_type) :
  Forall (thread_state E) states →
  Forall (thread_state E) (create_state gbwt_index from r states).
Proof.
  intros Hall. unfold create_state.
  destruct (GBWT_ops.is_empty _); [done|]. constructor; [|done]. by split.
Qed.

Lemma generate_all_inserted (fuel : nat) (starts : list Z) :
  ∀ st st' : PhaseUnfolder,
  generate_all xg_index gbwt_index fuel component starts st = Value st' →
  inserted (along E) st st'.
Proof.
  induction starts as [|b starts IH]; intros st st' Hrun; simpl in Hrun.
  { injection Hrun as <-. apply inserted_refl. }
  destruct (generate_threads gbwt_index fuel component b
              (generate_paths xg_index component b st)) as [st1| |] eqn:Hth; [|done..].
  eapply inserted_trans; [apply generate_paths_inserted|].
  eapply inserted_trans; [|by apply IH].
  apply (threads_loop_inserted fuel _ _ _) in Hth; [done|].
  apply create_state_thread, create_state_thread. constructor.
Qed.

Lemma unfold_component_sound (fuel : nat) (graph unfolded : VG) (st : PhaseUnfolder)
    (n : nat) (unfolded' : VG) (st' : PhaseUnfolder) :
  unfold_component xg_index gbwt_index fuel component graph unfolded st
  = Value (n, unfolded', st') →
  table_fits st' → sound_state E first st → stands_in E (pu_mapping st) unfolded →
  sound_state E first st' ∧ table_grows st st' ∧
  stands_in E (pu_mapping st') unfolded'.
Proof.
  unfold unfold_component. set (st0 := find_border component graph st).
  destruct (generate_all xg_index gbwt_index fuel component (elements (border st0)) st0)
    as [st1| |] eqn:Hgen; [|done..].
  destruct (assemble st1 unfolded) as [u1| |] eqn:Hasm; [|done..].
  apply assemble_inv in Hasm as [-> _].
  intros [= <- <- <-] Hfit Hst Hunf.
  assert (Hst0 : sound_state E first st0).
  { destruct Hst as ((Hwf & H0 & Hok & HaP & HaS) & Hfirst & Hlinks). done. }
  pose proof (generate_all_table xg_index gbwt_index component fuel _ _ _ Hgen) as Hgrow.
  destruct (generate_all_inserted fuel _ _ _ Hgen) as (paths & Hall & Heq).
  assert (Hst1 : sound_state E first st1).
  { rewrite Heq. apply insert_paths_sound; [done..|]. by rewrite <- Heq. }
  destruct Hst1 as ((Hwf1 & H01 & Hok1 & HaP1 & HaS1) & Hfirst1 & Hlinks1).
  split; [|split; [done|]].
  - split; [|split; [done|]].
    + split; [done|]. split; [done|]. split.
      * split; intros u v d Hl; simpl in Hl; by rewrite lookup_empty in Hl.
      * split; intros k d Hl; simpl in Hl; by rewrite lookup_empty in Hl.
    + intros a b [[x Hl]|[[x Hl]|Hl]]; simpl in Hl.
      * by rewrite lookup_empty in Hl.
      * by rewrite lookup_empty in Hl.
      * by apply not_elem_of_empty in Hl.
  - destruct Hst as ((Hwf & _) & _).
    apply (stands_in_grows st st1 unfolded Hwf Hwf1 Hgrow) in Hunf as [He Hn].
    destruct (assemble_spec st1 unfolded) as [Hedges Hnodes]. split.
    + intros p Hp. apply Hedges in Hp as [Hp|(a & b & Hl & ->)]; [by apply He|].
      exists a, b. split; [by apply Hlinks1|done].
    + intros m Hm. apply Hnodes in Hm as [Hm|(a & b & Hl & Hor)]; [by apply Hn|].
      exists a, b. split; [by apply Hlinks1|done].
Qed.

End SoundComponent.

Section SoundComponents.

Variable xg_index : XG.
Variable gbwt_index : GBWT.
Hypothesis HEcanon : ∀ p, E p → pair_from_edge (edge_of_pair p) = p.
Hypothesis Hfirst63 : first ≤ 2 ^ 63.

Lemma unfold_components_sound (fuel : nat) (graph : VG) (components : list VG) :
  ∀ (unfolded : VG) (st : PhaseUnfolder) (unfolded' : VG) (st' : PhaseUnfolder),
  (∀ c p, c ∈ components → p ∈ vg_edges c → E p) →
  unfold_components xg_index gbwt_index fuel components graph unfolded st
  = Value (unfolded', st') →
  table_fits st' → sound_state E first st → stands_in E (pu_mapping st) unfolded →
  sound_state E first st' ∧ table_grows st st' ∧
  stands_in E (pu_mapping st') unfolded'.
Proof.
  induction components as [|c rest IH]; intros unfolded st unfolded' st' Hcs Hrun
    Hfit Hst Hunf; simpl in Hrun.
  { injection Hrun as <- <-. split; [done|]. split; [apply table_grows_refl|done]. }
  destruct (unfold_component xg_index gbwt_index fuel c graph unfolded st)
    as [[[n u1] st1]| |] eqn:Hc; [|done..].
  assert (Hrest : ∀ c' p, c' ∈ rest → p ∈ vg_edges c' → E p).
  { intros c' p Hc'. apply Hcs. by right. }
  assert (Hgrow : table_grows st1 st').
  { clear -Hrun. revert u1 st1 Hrun.
    induction rest as [|c' rest IH']; intros u1 st1 Hrun; simpl in Hrun.
    { injection Hrun as <- <-. apply table_grows_refl. }
    destruct (unfold_component xg_index gbwt_index fuel c' graph u1 st1)
      as [[[n u] s]| |] eqn:Hc'; [|done..].
    eapply table_grows_trans; [|by eapply IH'].
    unfold unfold_component in Hc'.
    destruct (generate_all _ _ _ _ _ _) as [s1| |] eqn:Hgen in Hc'; [|done..].
    destruct (assemble s1 u1) as [u'| |] in Hc'; [|done..].
    injection Hc' as <- <- <-.
    apply (generate_all_table xg_index gbwt_index c' fuel _ _ _) in Hgen.
    destruct Hgen as [Hf Hm]. by split. }
  destruct (unfold_component_sound xg_index gbwt_index c
              (λ p Hp, Hcs c p ltac:(by left) Hp) HEcanon Hfirst63
              fuel graph unfolded st n u1 st1 Hc
              (table_fits_grows _ _ Hgrow Hfit) Hst Hunf) as (Hst1 & Hg1 & Hu1).
  destruct (IH u1 st1 unfolded' st' Hrest Hrun Hfit Hst1 Hu1) as (Hst' & Hg' & Hu').
  split; [done|]. split; [by eapply table_grows_trans|done].
Qed.

End SoundComponents.

End Sound.

Lemma pair_from_edge_canonical (e : Edge) :
  pair_from_edge (edge_of_pair (pair_from_edge e)) = pair_from_edge e.
Proof.
  unfold pair_from_edge at 2 3.
  destruct (side_leb (e_from e, negb (e_from_start e)) (e_to e, e_to_end e)) eqn:Hle;
    unfold pair_from_edge, edge_of_pair; simpl; rewrite negb_involutive.
  - by rewrite Hle.
  - by rewrite (side_leb_total _ _ Hle).
Qed.

Lemma evidence_edge_canonical (xg_index : XG) (gbwt_index : GBWT)
    (p : NodeSide * NodeSide) :
  evidence_edge xg_index gbwt_index p → pair_from_edge (edge_of_pair p) = p.
Proof.
  intros [(r & i & s1 & s2 & _ & _ & _ & ->)|(t & i & hd & nxt & _ & _ & _ & ->)];
    apply pair_from_edge_canonical.
Qed.


(** X20 (unfolding invents no adjacency).  Take an object whose tries
    hold allocated duplicates only and whose data of the current component
    is empty (a new object with next_node > 0 is one), and indexes whose
    node ids are not negative and lie below first_node.  Then unfold
    returns, and when the table has not used up the ids of 63 bits, every
    edge of the graph it returns is an edge of the input graph or joins two
    handles with ids known to the table which, once their ids are mapped
    back, are the two ends of an edge of the evidence that the input graph
    lacks; every node it returns is a node of the input graph or the node
    of such a handle. *)
Theorem unfold_sound (xg_index : XG) (gbwt_index : GBWT) (graph : VG)
    (st : PhaseUnfolder) :
  unfolder_ok st → scratch_empty st →
  (∀ p, evidence_edge xg_index gbwt_index p →
        0 ≤ p.1.1 < first_node (pu_mapping st) ∧
        0 ≤ p.2.1 < first_node (pu_mapping st)) →
  ∃ (fuel0 : nat) (graph' : VG) (st' : PhaseUnfolder),
    (∀ fuel, (fuel0 ≤ fuel)%nat →
       unfold xg_index gbwt_index fuel graph st = Value (graph', st')) ∧
    (table_fits st' →
     (∀ p, p ∈ vg_edges graph' →
        p ∈ vg_edges graph ∨
        ∃ a b, stands_for (missing_edge xg_index gbwt_index graph) (pu_mapping st') a b ∧
               p = pair_from_edge (make_edge a b)) ∧
     (∀ n, n ∈ vg_nodes graph' →
        n ∈ vg_nodes graph ∨
        ∃ a b, stands_for (missing_edge xg_index gbwt_index graph) (pu_mapping st') a b ∧
               (n = Node.id a ∨ n = Node.id b))).
Proof.
  intros Hok Hs Hrange. pose proof Hs as (HB & HP & HS & HC).
  destruct (unfold_runs xg_index gbwt_index graph st
              (wf_table_covers _ (proj1 Hok)) Hs Hrange)
    as (k & u & st' & Hrun & Hunfold & _ & Hgrow & _).
  exists k, (VG_ops.extend graph u), st'. split; [done|].
  intros Hfit.
  destruct (unfold_components_sound (missing_edge xg_index gbwt_index graph)
              (first_node (pu_mapping st)) (λ p Hp, Hrange p (proj1 Hp))
              xg_index gbwt_index
              (λ p Hp, evidence_edge_canonical xg_index gbwt_index p (proj1 Hp))
              ltac:(destruct Hgrow as [Hf _]; unfold table_fits in Hfit; lia)
              k graph (complement_components xg_index gbwt_index graph)
              VG_ops.empty st u st'
              (complement_components_missing xg_index gbwt_index graph)
              (Hrun k (Nat.le_refl k)) Hfit) as (_ & _ & He & Hn).
  { split; [done|]. split; [done|]. intros a b [[x Hl]|[[x Hl]|Hl]].
    - by rewrite HP, lookup_empty in Hl.
    - by rewrite HS, lookup_empty in Hl.
    - rewrite HC in Hl. by apply not_elem_of_empty in Hl. }
  { split; intros x Hx; by apply not_elem_of_empty in Hx. }
  split.
  - intros p Hp. apply elem_of_union in Hp as [Hp|Hp]; [by left|right; by apply He].
  - intros n Hin. apply elem_of_union in Hin as [Hin|Hin]; [by left|right; by apply Hn].
Qed.

Lemma unfold_sound_witness :
  ∃ (fuel0 : nat) (graph' : VG) (st' : PhaseUnfolder),
    (∀ fuel, (fuel0 ≤ fuel)%nat →
       unfold Scenario.two_paths GBWT_ops.empty_index fuel Scenario.kept_ends
              (PhaseUnfolder_new 5) = Value (graph', st')) ∧
    (table_fits st' →
     (∀ p, p ∈ vg_edges graph' →
        p ∈ vg_edges Scenario.kept_ends ∨
        ∃ a b, stands_for (missing_edge Scenario.two_paths GBWT_ops.empty_index
                             Scenario.kept_ends) (pu_mapping st') a b ∧
               p = pair_from_edge (make_edge a b)) ∧
     (∀ n, n ∈ vg_nodes graph' →
        n ∈ vg_nodes Scenario.kept_ends ∨
        ∃ a b, stands_for (missing_edge Scenario.two_paths GBWT_ops.empty_index
                             Scenario.kept_ends) (pu_mapping st') a b ∧
               (n = Node.id a ∨ n = Node.id b))).
Proof.
  apply (unfold_sound Scenario.two_paths GBWT_ops.empty_index Scenario.kept_ends
           (PhaseUnfolder_new 5)).
  - apply unfolder_ok_new. lia.
  - done.
  - intros p [(r & i & s1 & s2 & Hr & H1 & H2 & ->)|(t & i & hd & nxt & Ht & _)].
    + unfold XG_ops.max_path_rank in Hr. simpl in Hr.
      assert (r = 1%nat ∨ r = 2%nat) as [-> | ->] by lia;
        (destruct i as [|[|i]]; simpl in H1, H2;
         [injection H1 as <-; injection H2 as <-; vm_compute; done
         |injection H1 as <-; injection H2 as <-; vm_compute; done
         |destruct i; discriminate]).
    + simpl in Ht. by apply elem_of_nil in Ht.
Defined.

(** X21 (the assembly holds copies of walk steps only).  Take an object
    whose tries hold allocated duplicates only and whose data of the
    current component is empty, and insert any sequence of walks over
    original nodes (ids from 0 to first_node - 1).  When the table has not
    used up the ids of 63 bits, the three assembly loops read the table in
    range and return a graph; every edge that they add to the graph joins
    two handles with ids known to the table which, once their ids are
    mapped back, are two consecutive handles of an inserted walk, read in
    one of its two orientations; every node they add is the node of such a
    handle. *)
Theorem assembly_only_walks (st0 : PhaseUnfolder) (paths : list path_type)
    (unfolded : VG) :
  unfolder_ok st0 → scratch_empty st0 →
  (∀ walk node, walk ∈ paths → node ∈ walk →
                0 ≤ Node.id node < first_node (pu_mapping st0)) →
  table_fits (insert_paths paths st0) →
  let st := insert_paths paths st0 in
  ∃ g, assemble st unfolded = Value g ∧
    (∀ p, p ∈ vg_edges g →
       p ∈ vg_edges unfolded ∨
       ∃ a b, stands_for (walk_edge paths) (pu_mapping st) a b ∧
              p = pair_from_edge (make_edge a b)) ∧
    (∀ n, n ∈ vg_nodes g →
       n ∈ vg_nodes unfolded ∨
       ∃ a b, stands_for (walk_edge paths) (pu_mapping st) a b ∧
              (n = Node.id a ∨ n = Node.id b)).
Proof.
  intros Hok Hs Hids Hfit st. pose proof Hs as (HB & HP & HS & HC).
  assert (Hrange : ∀ p, walk_edge paths p →
            0 ≤ p.1.1 < first_node (pu_mapping st0) ∧
            0 ≤ p.2.1 < first_node (pu_mapping st0)).
  { intros p (walk & i & a & b & Hw & Ha & Hb & ->).
    apply list_elem_of_lookup_2 in Ha, Hb.
    pose proof (Hids walk a Hw Ha). pose proof (Hids walk b Hw Hb).
    destruct (pair_from_edge_ends (make_edge a b)) as [[-> ->]|[-> ->]]; simpl; lia. }
  assert (Hst : sound_state (walk_edge paths) (first_node (pu_mapping st0)) st).
  { apply insert_paths_sound; [done| | |done].
    - split; [done|]. split; [done|]. intros a b [[x Hl]|[[x Hl]|Hl]].
      + by rewrite HP, lookup_empty in Hl.
      + by rewrite HS, lookup_empty in Hl.
      + rewrite HC in Hl. by apply not_elem_of_empty in Hl.
    - apply Forall_forall. intros walk Hw. apply chain_of_lookup.
      intros i a b Ha Hb. by exists walk, i, a, b. }
  destruct Hst as (_ & _ & Hlinks).
  exists (assembled st unfolded). split.
  { apply insert_paths_reads.
    - apply wf_table_covers. by destruct Hok.
    - by apply scratch_empty_links_known.
    - intros p node Hp Hnode. by apply (Hids p). }
  destruct (assemble_spec st unfolded) as [He Hn]. split.
  - intros p Hp. apply He in Hp as [Hp|(a & b & Hl & ->)]; [by left|right].
    exists a, b. split; [by apply Hlinks|done].
  - intros n Hin. apply Hn in Hin as [Hin|(a & b & Hl & Hor)]; [by left|right].
    exists a, b. split; [by apply Hlinks|done].
Qed.

Lemma assembly_only_walks_witness :
  let paths := [[2; 4; 6; 8; 10]; [2; 4; 12]] in
  let st := insert_paths paths (PhaseUnfolder_new 7) in
  ∃ g, assemble st VG_ops.empty = Value g ∧
    (∀ p, p ∈ vg_edges g →
       p ∈ vg_edges VG_ops.empty ∨
       ∃ a b, stands_for (walk_edge paths) (pu_mapping st) a b ∧
              p = pair_from_edge (make_edge a b)) ∧
    (∀ n, n ∈ vg_nodes g →
       n ∈ vg_nodes VG_ops.empty ∨
       ∃ a b, stands_for (walk_edge paths) (pu_mapping st) a b ∧
              (n = Node.id a ∨ n = Node.id b)).
Proof.
  apply (assembly_only_walks (PhaseUnfolder_new 7)
           [[2; 4; 6; 8; 10]; [2; 4; 12]] VG_ops.empty).
  - apply unfolder_ok_new. lia.
  - done.
  - intros walk node Hw Hnode. rewrite !elem_of_cons, elem_of_nil in Hw.
    destruct Hw as [->|[->|[]]]; rewrite !elem_of_cons, elem_of_nil in Hnode.
    + destruct Hnode as [->|[->|[->|[->|[->|[]]]]]]; vm_compute; done.
    + destruct Hnode as [->|[->|[->|[]]]]; vm_compute; done.
  - unfold table_fits. vm_compute. done.
Defined.
